(** * A growable array on raw memory: RawMemory<T> and Vector<T> (vector.h)

    The development embeds the two class templates of [vector.h] over an
    explicit memory model and proves the properties of the container that
    its specification states.

    - Storage is a heap of blocks obtained from [operator new]; a block is a
      list of slots, each either raw (no object lives there) or holding a
      live [T].
    - [RawMemory] and [Vector] objects have identities, so that the code can
      be run on two references to the same object ([v = std::move(v)],
      [this != &rhs]).
    - Every operation is a computation in a state-and-error monad: it
      returns normally, leaves by [std::bad_alloc], or has no defined
      behaviour (a failed [assert], an access outside a block, a read of a
      raw slot).
    - [size_t] is a 64-bit unsigned integer; its arithmetic wraps, also in
      the byte count [n * sizeof(T)] that [Allocate] asks of [operator new].

    Construction, assignment and destruction of a [T] itself are taken not
    to throw, and a copy of a [T] to be equal to the original. *)

From Stdlib Require Import ZArith Lia.
From stdpp Require Import base tactics option list.

Local Open Scope Z_scope.

(** ** size_t *)

Definition size_t_modulus : Z := 2 ^ 64.

Definition to_size_t (z : Z) : Z := z mod size_t_modulus.

(** ** Results of a computation *)

Inductive result (A : Type) : Type :=
| Ok (a : A)
| BadAlloc
| Undefined.

Arguments Ok {A} a.
Arguments BadAlloc {A}.
Arguments Undefined {A}.

(** State-and-error monad over a state type [S]. *)
Definition M (S A : Type) : Type := S -> result (A * S).

Definition ret {S A} (a : A) : M S A := fun s => Ok (a, s).

Definition bind {S A B} (m : M S A) (f : A -> M S B) : M S B :=
  fun s =>
    match m s with
    | Ok (a, s') => f a s'
    | BadAlloc => BadAlloc
    | Undefined => Undefined
    end.

Definition undefined {S A} : M S A := fun _ => Undefined.

Definition require {S} (b : bool) : M S unit :=
  if b then ret tt else undefined.

Declare Scope monad_scope.
Delimit Scope monad_scope with monad.
Notation "x <- m ;; k" := (bind m (fun x => k))
  (at level 100, m at next level, right associativity) : monad_scope.
Notation "m ;; k" := (bind m (fun _ => k))
  (at level 100, right associativity) : monad_scope.
Local Open Scope monad_scope.

(** ** Pointers *)

Definition addr := nat.

(** A [T*]: null, or an offset (in elements) into the block at [base]. *)
Inductive ptr : Type :=
| Null
| Ptr (base : addr) (off : Z).

Definition ptr_add (p : ptr) (k : Z) : ptr :=
  match p with
  | Null => Null
  | Ptr b o => Ptr b (o + k)
  end.

Definition ptr_eqb (p q : ptr) : bool :=
  match p, q with
  | Null, Null => true
  | Ptr b o, Ptr b' o' => Nat.eqb b b' && (o =? o')
  | _, _ => false
  end.

(** [p - q]; defined only within one block (or for two null pointers). *)
Definition ptr_diff (p q : ptr) : option Z :=
  match p, q with
  | Null, Null => Some 0
  | Ptr b o, Ptr b' o' => if Nat.eqb b b' then Some (o - o') else None
  | _, _ => None
  end.

(** [p <= q], under the same proviso. *)
Definition ptr_leb (p q : ptr) : option bool :=
  match ptr_diff q p with
  | Some d => Some (0 <=? d)
  | None => None
  end.

Definition ptr_ltb (p q : ptr) : option bool :=
  match ptr_diff q p with
  | Some d => Some (0 <? d)
  | None => None
  end.

(** ** Objects *)

(** The data members of [RawMemory<T>]. *)
Record RawMemory : Type := MkRawMemory {
  buffer_ : ptr;
  capacity_ : Z
}.

(** The data members of [Vector<T>]. *)
Record Vector : Type := MkVector {
  data_ : RawMemory;
  size_ : Z
}.

(** What the default member initializers give: [buffer_ = nullptr],
    [capacity_ = 0], [size_ = 0]. *)
Definition RawMemory_default : RawMemory := MkRawMemory Null 0.

Definition Vector_default : Vector := MkVector RawMemory_default 0.

(** Where a [RawMemory] object lives: as the member [data_] of the vector
    with a given identity, or as a local variable of a running member
    function. *)
Inductive place : Type :=
| Member (v : nat)
| Local (k : nat).

Section Model.

Context {T : Type}.

(** What [T()] yields. *)
Variable value_init : T.

(** The state a [T] is left in once it has been moved from. *)
Variable moved_from : T -> T.

(** [std::is_nothrow_move_constructible_v<T> || !std::is_copy_constructible_v<T>] *)
Variable nothrow_move_or_no_copy : bool.

(** [sizeof(T)], in bytes. *)
Variable sizeof_T : Z.

(** What the allocator grants: a single [operator new] request of at most
    [max_alloc * sizeof(T)] bytes, the room of [max_alloc] objects; a larger
    request ends in [std::bad_alloc]. *)
Variable max_alloc : Z.

(** ** The heap *)

Inductive slot : Type :=
| Raw
| Live (x : T).

Abbreviation block := (list slot).

(** Block [b] of the heap is [Some blk] while allocated, [None] once
    released. Addresses are never reused. *)
Abbreviation heap := (list (option block)).

Abbreviation H := (M heap).

Definition block_at (h : heap) (b : addr) : option block :=
  match h !! b with
  | Some (Some blk) => Some blk
  | _ => None
  end.

Definition slot_at (h : heap) (p : ptr) : option slot :=
  match p with
  | Null => None
  | Ptr b o =>
      if o <? 0 then None
      else match block_at h b with
           | Some blk => blk !! Z.to_nat o
           | None => None
           end
  end.

Definition put_slot (p : ptr) (s : slot) (h : heap) : heap :=
  match p with
  | Null => h
  | Ptr b o =>
      match block_at h b with
      | Some blk => <[b := Some (<[Z.to_nat o := s]> blk)]> h
      | None => h
      end
  end.

(** [operator new(size)], [size] in bytes: the new block has room for
    [size / sizeof(T)] objects. *)
Definition operator_new (size : Z) : H ptr :=
  fun h =>
    if size <=? max_alloc * sizeof_T
    then Ok (Ptr (length h) 0,
             h ++ [Some (replicate (Z.to_nat (size / sizeof_T)) Raw)])
    else BadAlloc.

(** [operator delete(buf)] *)
Definition operator_delete (buf : ptr) : H unit :=
  fun h =>
    match buf with
    | Null => Ok (tt, h)
    | Ptr b o =>
        match block_at h b with
        | Some _ => if o =? 0 then Ok (tt, <[b := None]> h) else Undefined
        | None => Undefined
        end
    end.

(** [*p] read as a value. *)
Definition load (p : ptr) : H T :=
  fun h =>
    match slot_at h p with
    | Some (Live x) => Ok (x, h)
    | _ => Undefined
    end.

(** [new (p) T(x)] *)
Definition construct_at (p : ptr) (x : T) : H unit :=
  fun h =>
    match slot_at h p with
    | Some _ => Ok (tt, put_slot p (Live x) h)
    | None => Undefined
    end.

(** [*p = x] *)
Definition assign_at (p : ptr) (x : T) : H unit :=
  fun h =>
    match slot_at h p with
    | Some (Live _) => Ok (tt, put_slot p (Live x) h)
    | _ => Undefined
    end.

(** [std::destroy_at(p)] *)
Definition destroy_at (p : ptr) : H unit :=
  fun h =>
    match slot_at h p with
    | Some (Live _) => Ok (tt, put_slot p Raw h)
    | _ => Undefined
    end.

(** [std::move] of the object at [p], consumed by a constructor or an
    assignment: yields the value and leaves the moved-from state behind. *)
Definition move_out (p : ptr) : H T :=
  fun h =>
    match slot_at h p with
    | Some (Live x) => Ok (x, put_slot p (Live (moved_from x)) h)
    | _ => Undefined
    end.

(** ** The standard algorithms the container calls *)

Fixpoint uninitialized_copy_n (first : ptr) (n : nat) (d_first : ptr) : H unit :=
  match n with
  | O => ret tt
  | S n' =>
      x <- load first ;;
      construct_at d_first x ;;
      uninitialized_copy_n (ptr_add first 1) n' (ptr_add d_first 1)
  end.

Fixpoint uninitialized_move_n (first : ptr) (n : nat) (d_first : ptr) : H unit :=
  match n with
  | O => ret tt
  | S n' =>
      x <- move_out first ;;
      construct_at d_first x ;;
      uninitialized_move_n (ptr_add first 1) n' (ptr_add d_first 1)
  end.

Fixpoint uninitialized_value_construct_n (first : ptr) (n : nat) : H unit :=
  match n with
  | O => ret tt
  | S n' =>
      construct_at first value_init ;;
      uninitialized_value_construct_n (ptr_add first 1) n'
  end.

Fixpoint destroy_n (first : ptr) (n : nat) : H unit :=
  match n with
  | O => ret tt
  | S n' => destroy_at first ;; destroy_n (ptr_add first 1) n'
  end.

(** [std::copy_n]: copy-assignment, front to back. *)
Fixpoint copy_n (first : ptr) (n : nat) (d_first : ptr) : H unit :=
  match n with
  | O => ret tt
  | S n' =>
      x <- load first ;;
      assign_at d_first x ;;
      copy_n (ptr_add first 1) n' (ptr_add d_first 1)
  end.

(** [std::move(first, first + n, d_first)]: move-assignment, front to back. *)
Fixpoint move_n (first : ptr) (n : nat) (d_first : ptr) : H unit :=
  match n with
  | O => ret tt
  | S n' =>
      x <- move_out first ;;
      assign_at d_first x ;;
      move_n (ptr_add first 1) n' (ptr_add d_first 1)
  end.

(** [std::move_backward(last - n, last, d_last)]: move-assignment, back to
    front. *)
Fixpoint move_backward_n (last : ptr) (n : nat) (d_last : ptr) : H unit :=
  match n with
  | O => ret tt
  | S n' =>
      x <- move_out (ptr_add last (-1)) ;;
      assign_at (ptr_add d_last (-1)) x ;;
      move_backward_n (ptr_add last (-1)) n' (ptr_add d_last (-1))
  end.

(** The length of the range [[first, last)]; both ends must lie in one
    block, in this order. *)
Definition range_length (first last : ptr) : H nat :=
  match ptr_diff last first with
  | Some d => if d <? 0 then undefined else ret (Z.to_nat d)
  | None => undefined
  end.

Definition uninitialized_copy (first last d_first : ptr) : H unit :=
  n <- range_length first last ;; uninitialized_copy_n first n d_first.

Definition uninitialized_move (first last d_first : ptr) : H unit :=
  n <- range_length first last ;; uninitialized_move_n first n d_first.

Definition std_move (first last d_first : ptr) : H unit :=
  n <- range_length first last ;; move_n first n d_first.

Definition move_backward (first last d_last : ptr) : H unit :=
  n <- range_length first last ;; move_backward_n last n d_last.

(** ** Program state *)

Record state : Type := MkState {
  mem : heap;
  vectors : list Vector;
  locals : list RawMemory
}.

Abbreviation V := (M state).

(** A memory operation run inside a member function. *)
Definition in_heap {A} (m : H A) : V A :=
  fun s =>
    match m (mem s) with
    | Ok (a, h) => Ok (a, MkState h (vectors s) (locals s))
    | BadAlloc => BadAlloc
    | Undefined => Undefined
    end.

Definition get_vector (v : nat) : V Vector :=
  fun s =>
    match vectors s !! v with
    | Some x => Ok (x, s)
    | None => Undefined
    end.

Definition set_vector (v : nat) (x : Vector) : V unit :=
  fun s =>
    match vectors s !! v with
    | Some _ => Ok (tt, MkState (mem s) (<[v := x]> (vectors s)) (locals s))
    | None => Undefined
    end.

Definition get_raw (p : place) : V RawMemory :=
  match p with
  | Member v => x <- get_vector v ;; ret (data_ x)
  | Local k =>
      fun s =>
        match locals s !! k with
        | Some r => Ok (r, s)
        | None => Undefined
        end
  end.

Definition set_raw (p : place) (r : RawMemory) : V unit :=
  match p with
  | Member v => x <- get_vector v ;; set_vector v (MkVector r (size_ x))
  | Local k =>
      fun s =>
        match locals s !! k with
        | Some _ => Ok (tt, MkState (mem s) (vectors s) (<[k := r]> (locals s)))
        | None => Undefined
        end
  end.

Definition get_buffer (p : place) : V ptr :=
  r <- get_raw p ;; ret (buffer_ r).

Definition set_buffer (p : place) (b : ptr) : V unit :=
  r <- get_raw p ;; set_raw p (MkRawMemory b (capacity_ r)).

Definition get_capacity (p : place) : V Z :=
  r <- get_raw p ;; ret (capacity_ r).

Definition set_capacity (p : place) (c : Z) : V unit :=
  r <- get_raw p ;; set_raw p (MkRawMemory (buffer_ r) c).

Definition get_size (v : nat) : V Z :=
  x <- get_vector v ;; ret (size_ x).

Definition set_size (v : nat) (n : Z) : V unit :=
  x <- get_vector v ;; set_vector v (MkVector (data_ x) n).

(** A local [RawMemory] variable comes into being (default-initialized,
    before its constructor runs) and goes away at the end of its scope. *)
Definition enter_local : V place :=
  fun s =>
    Ok (Local (length (locals s)),
        MkState (mem s) (vectors s) (locals s ++ [RawMemory_default])).

Definition leave_local : V unit :=
  fun s =>
    Ok (tt, MkState (mem s) (vectors s)
                    (take (length (locals s) - 1)%nat (locals s))).

(** The same for a [Vector] object; its identity is its position. *)
Definition enter_vector : V nat :=
  fun s =>
    Ok (length (vectors s),
        MkState (mem s) (vectors s ++ [Vector_default]) (locals s)).

Definition leave_vector : V unit :=
  fun s =>
    Ok (tt, MkState (mem s)
                    (take (length (vectors s) - 1)%nat (vectors s))
                    (locals s)).

(** ** RawMemory<T> *)

(** [n != 0 ? static_cast<T*>(operator new(n * sizeof(T))) : nullptr]; the
    product is a [size_t]. *)
Definition Allocate (n : Z) : H ptr :=
  if n =? 0 then ret Null else operator_new (to_size_t (n * sizeof_T)).

Definition Deallocate (buf : ptr) : H unit := operator_delete buf.

(** [explicit RawMemory(size_t capacity)] *)
Definition RawMemory_ctor (this : place) (capacity : Z) : V unit :=
  buf <- in_heap (Allocate capacity) ;;
  set_buffer this buf ;;
  set_capacity this capacity.

(** [~RawMemory()] *)
Definition RawMemory_dtor (this : place) : V unit :=
  buf <- get_buffer this ;;
  in_heap (Deallocate buf).

(** [RawMemory(RawMemory&& other) noexcept] *)
Definition RawMemory_move_ctor (this other : place) : V unit :=
  b <- get_buffer other ;;
  set_buffer other Null ;;
  set_buffer this b ;;
  c <- get_capacity other ;;
  set_capacity this c ;;
  set_capacity other 0.

(** [void Swap(RawMemory& other) noexcept]; [std::swap] goes through a
    temporary. *)
Definition RawMemory_Swap (this other : place) : V unit :=
  tmp <- get_buffer this ;;
  b <- get_buffer other ;;
  set_buffer this b ;;
  set_buffer other tmp ;;
  tmp <- get_capacity this ;;
  c <- get_capacity other ;;
  set_capacity this c ;;
  set_capacity other tmp.

(** [RawMemory& operator=(RawMemory&& rhs) noexcept] *)
Definition RawMemory_move_assign (this rhs : place) : V unit :=
  RawMemory_Swap this rhs.

(** [T* operator+(size_t offset) noexcept] *)
Definition RawMemory_plus (this : place) (offset : Z) : V ptr :=
  c <- get_capacity this ;;
  require (offset <=? c) ;;
  b <- get_buffer this ;;
  ret (ptr_add b offset).

(** [T& operator[](size_t index) noexcept]; a reference is the address of
    the element. *)
Definition RawMemory_index (this : place) (index : Z) : V ptr :=
  c <- get_capacity this ;;
  require (index <? c) ;;
  b <- get_buffer this ;;
  ret (ptr_add b index).

Definition RawMemory_GetAddress (this : place) : V ptr := get_buffer this.

Definition RawMemory_Capacity (this : place) : V Z := get_capacity this.

(** [{ RawMemory<T> new_data(capacity); body }] *)
Definition with_new_data {A} (capacity : Z) (body : place -> V A) : V A :=
  new_data <- enter_local ;;
  RawMemory_ctor new_data capacity ;;
  a <- body new_data ;;
  RawMemory_dtor new_data ;;
  leave_local ;;
  ret a.

(** ** Vector<T> *)

(** A [const T&] or [T&&] parameter: it refers to an object outside the
    modelled heap (a variable or a temporary of the caller) whose value is
    [x], or to a live element at [p] inside it. *)
Inductive reference : Type :=
| Outside (x : T)
| Inside (p : ptr).

(** The constructor arguments [Args&&... args] forwarded to [T]: an lvalue
    to copy from or an rvalue to move from. *)
Inductive ctor_args : Type :=
| CopyOf (r : reference)
| MoveOf (r : reference).

Definition copy_value (r : reference) : H T :=
  match r with
  | Outside x => ret x
  | Inside p => load p
  end.

Definition move_value (r : reference) : H T :=
  match r with
  | Outside x => ret x
  | Inside p => move_out p
  end.

(** [T(std::forward<Args>(args)...)] *)
Definition make_value (args : ctor_args) : H T :=
  match args with
  | CopyOf r => copy_value r
  | MoveOf r => move_value r
  end.

Definition UninitializedMoveOrCopy (first last destination : ptr) : H unit :=
  if nothrow_move_or_no_copy
  then uninitialized_move first last destination
  else uninitialized_copy first last destination.

Definition UninitializedMoveOrCopyN (first : ptr) (num : Z) (destination : ptr) : H unit :=
  if nothrow_move_or_no_copy
  then uninitialized_move_n first (Z.to_nat num) destination
  else uninitialized_copy_n first (Z.to_nat num) destination.

Definition Size (this : nat) : V Z := get_size this.

Definition Capacity (this : nat) : V Z := RawMemory_Capacity (Member this).

(** [begin()], [cbegin()] *)
Definition begin_ (this : nat) : V ptr := RawMemory_GetAddress (Member this).

(** [end()], [cend()]: [data_ + size_] *)
Definition end_ (this : nat) : V ptr :=
  n <- get_size this ;;
  RawMemory_plus (Member this) n.

Definition Back (this : nat) : V ptr :=
  e <- end_ this ;; ret (ptr_add e (-1)).

Definition Front (this : nat) : V ptr := begin_ this.

(** [T& operator[](size_t index) noexcept] *)
Definition Vector_index (this : nat) (index : Z) : V ptr :=
  n <- get_size this ;;
  require (index <? n) ;;
  RawMemory_index (Member this) index.

(** [Vector() = default] *)
Definition Vector_ctor : V nat := enter_vector.

(** [explicit Vector(size_t size)] *)
Definition Vector_ctor_size (size : Z) : V nat :=
  this <- enter_vector ;;
  RawMemory_ctor (Member this) size ;;
  set_size this size ;;
  b <- begin_ this ;;
  in_heap (uninitialized_value_construct_n b (Z.to_nat size)) ;;
  ret this.

(** [Vector(const Vector& other)] *)
Definition Vector_copy_ctor (other : nat) : V nat :=
  this <- enter_vector ;;
  n <- get_size other ;;
  RawMemory_ctor (Member this) n ;;
  set_size this n ;;
  src <- begin_ other ;;
  n <- Size other ;;
  dst <- begin_ this ;;
  in_heap (uninitialized_copy_n src (Z.to_nat n) dst) ;;
  ret this.

(** [Vector(Vector&& other) noexcept] *)
Definition Vector_move_ctor (other : nat) : V nat :=
  this <- enter_vector ;;
  RawMemory_move_ctor (Member this) (Member other) ;;
  n <- get_size other ;;
  set_size this n ;;
  set_size other 0 ;;
  ret this.

(** [~Vector()], followed by the destructor of the member [data_]. *)
Definition Vector_dtor (this : nat) : V unit :=
  b <- begin_ this ;;
  n <- get_size this ;;
  in_heap (destroy_n b (Z.to_nat n)) ;;
  RawMemory_dtor (Member this).

(** [void Swap(Vector& other) noexcept] *)
Definition Swap (this other : nat) : V unit :=
  RawMemory_Swap (Member this) (Member other) ;;
  tmp <- get_size this ;;
  n <- get_size other ;;
  set_size this n ;;
  set_size other tmp.

(** [Vector& operator=(const Vector& rhs)] *)
Definition Vector_copy_assign (this rhs : nat) : V unit :=
  if Nat.eqb this rhs then ret tt
  else
    rn <- get_size rhs ;;
    cap <- RawMemory_Capacity (Member this) ;;
    if cap <? rn then
      new_vector <- Vector_copy_ctor rhs ;;
      Swap this new_vector ;;
      Vector_dtor new_vector ;;
      leave_vector
    else
      src <- RawMemory_GetAddress (Member rhs) ;;
      n <- Size this ;;
      rn <- Size rhs ;;
      dst <- RawMemory_GetAddress (Member this) ;;
      in_heap (copy_n src (Z.to_nat (Z.min n rn)) dst) ;;
      (if rn <? n then
         in_heap (destroy_n (ptr_add dst rn) (Z.to_nat (to_size_t (n - rn))))
       else
         in_heap (uninitialized_copy_n (ptr_add src n)
                    (Z.to_nat (to_size_t (rn - n))) (ptr_add dst n))) ;;
      rn <- get_size rhs ;;
      set_size this rn.

(** [Vector& operator=(Vector&& rhs) noexcept] *)
Definition Vector_move_assign (this rhs : nat) : V unit :=
  RawMemory_move_assign (Member this) (Member rhs) ;;
  n <- get_size rhs ;;
  set_size this n ;;
  set_size rhs 0.

(** [void Reserve(size_t new_capacity)] *)
Definition Reserve (this : nat) (new_capacity : Z) : V unit :=
  cap <- Capacity this ;;
  if new_capacity <=? cap then ret tt
  else
    with_new_data new_capacity (fun new_data =>
      src <- RawMemory_GetAddress (Member this) ;;
      n <- get_size this ;;
      dst <- RawMemory_GetAddress new_data ;;
      in_heap (if nothrow_move_or_no_copy
               then uninitialized_move_n src (Z.to_nat n) dst
               else uninitialized_copy_n src (Z.to_nat n) dst) ;;
      in_heap (destroy_n src (Z.to_nat n)) ;;
      RawMemory_Swap (Member this) new_data).

(** [void Resize(size_t new_size)] *)
Definition Resize (this : nat) (new_size : Z) : V unit :=
  n <- get_size this ;;
  if new_size =? n then ret tt
  else
    (if new_size <? n then
       b <- RawMemory_GetAddress (Member this) ;;
       in_heap (destroy_n (ptr_add b new_size) (Z.to_nat (to_size_t (n - new_size))))
     else
       Reserve this new_size ;;
       b <- RawMemory_GetAddress (Member this) ;;
       in_heap (uninitialized_value_construct_n (ptr_add b n)
                  (Z.to_nat (to_size_t (new_size - n))))) ;;
    set_size this new_size.

(** [size_ == 0 ? 1 : size_ * 2] *)
Definition grown_capacity (n : Z) : Z :=
  if n =? 0 then 1 else to_size_t (n * 2).

(** [++size_] *)
Definition increment_size (this : nat) : V unit :=
  n <- get_size this ;; set_size this (to_size_t (n + 1)).

(** [void PushBack(const T& value)] *)
Definition PushBack_copy (this : nat) (value : reference) : V unit :=
  n <- Size this ;;
  cap <- Capacity this ;;
  (if n =? cap then
     with_new_data (grown_capacity n) (fun new_data =>
       p <- RawMemory_plus new_data n ;;
       in_heap (x <- copy_value value ;; construct_at p x) ;;
       b <- begin_ this ;;
       dst <- RawMemory_GetAddress new_data ;;
       in_heap (UninitializedMoveOrCopyN b n dst) ;;
       b <- begin_ this ;;
       in_heap (destroy_n b (Z.to_nat n)) ;;
       RawMemory_Swap (Member this) new_data)
   else
     p <- RawMemory_plus (Member this) n ;;
     in_heap (x <- copy_value value ;; construct_at p x)) ;;
  increment_size this.

(** [void PushBack(T&& value)] *)
Definition PushBack_move (this : nat) (value : reference) : V unit :=
  n <- Size this ;;
  cap <- Capacity this ;;
  (if n =? cap then
     with_new_data (grown_capacity n) (fun new_data =>
       p <- RawMemory_plus new_data n ;;
       in_heap (x <- move_value value ;; construct_at p x) ;;
       b <- begin_ this ;;
       dst <- RawMemory_GetAddress new_data ;;
       in_heap (UninitializedMoveOrCopyN b n dst) ;;
       b <- begin_ this ;;
       in_heap (destroy_n b (Z.to_nat n)) ;;
       RawMemory_Swap (Member this) new_data)
   else
     p <- RawMemory_plus (Member this) n ;;
     in_heap (x <- move_value value ;; construct_at p x)) ;;
  increment_size this.

(** [T& EmplaceBack(Args&&... args)] *)
Definition EmplaceBack (this : nat) (args : ctor_args) : V ptr :=
  n <- Size this ;;
  cap <- Capacity this ;;
  (if n =? cap then
     with_new_data (grown_capacity n) (fun new_data =>
       p <- RawMemory_plus new_data n ;;
       in_heap (x <- make_value args ;; construct_at p x) ;;
       b <- begin_ this ;;
       dst <- RawMemory_GetAddress new_data ;;
       in_heap (UninitializedMoveOrCopyN b n dst) ;;
       src <- RawMemory_GetAddress (Member this) ;;
       in_heap (destroy_n src (Z.to_nat n)) ;;
       RawMemory_Swap (Member this) new_data)
   else
     p <- RawMemory_plus (Member this) n ;;
     in_heap (x <- make_value args ;; construct_at p x)) ;;
  increment_size this ;;
  Back this.

(** [assert] on a pointer comparison; comparing pointers into different
    blocks has no defined outcome. *)
Definition require_cmp {S} (c : option bool) : M S unit :=
  match c with
  | Some b => require b
  | None => undefined
  end.

(** [pos - begin()] *)
Definition offset_of {S} (pos b : ptr) : M S Z :=
  match ptr_diff pos b with
  | Some d => ret d
  | None => undefined
  end.

(** [iterator Emplace(const_iterator pos, Args&&... args)] *)
Definition Emplace (this : nat) (pos : ptr) (args : ctor_args) : V ptr :=
  b <- begin_ this ;;
  require_cmp (ptr_leb b pos) ;;
  e <- end_ this ;;
  require_cmp (ptr_leb pos e) ;;
  d <- offset_of pos b ;;
  non_const_pos <- RawMemory_plus (Member this) (to_size_t d) ;;
  n <- Size this ;;
  cap <- Capacity this ;;
  it <- (if n =? cap then
           with_new_data (grown_capacity n) (fun new_data =>
             it <- RawMemory_plus new_data (to_size_t d) ;;
             in_heap (x <- make_value args ;; construct_at it x) ;;
             dst <- RawMemory_GetAddress new_data ;;
             in_heap (UninitializedMoveOrCopy b non_const_pos dst) ;;
             e <- end_ this ;;
             in_heap (UninitializedMoveOrCopy non_const_pos e (ptr_add it 1)) ;;
             in_heap (destroy_n b (Z.to_nat n)) ;;
             RawMemory_Swap (Member this) new_data ;;
             ret it)
         else
           (if negb (ptr_eqb pos e) then
              p <- RawMemory_plus (Member this) n ;;
              last <- Back this ;;
              in_heap (x <- move_out last ;; construct_at p x) ;;
              e <- end_ this ;;
              in_heap (move_backward non_const_pos (ptr_add e (-1)) e) ;;
              in_heap (x <- make_value args ;; assign_at non_const_pos x)
            else
              p <- RawMemory_plus (Member this) n ;;
              in_heap (x <- make_value args ;; construct_at p x)) ;;
           ret non_const_pos) ;;
  increment_size this ;;
  ret it.

(** [iterator Insert(const_iterator pos, const T& value)] *)
Definition Insert_copy (this : nat) (pos : ptr) (value : reference) : V ptr :=
  Emplace this pos (CopyOf value).

(** [iterator Insert(const_iterator pos, T&& value)] *)
Definition Insert_move (this : nat) (pos : ptr) (value : reference) : V ptr :=
  Emplace this pos (MoveOf value).

(** [void PopBack() noexcept] *)
Definition PopBack (this : nat) : V unit :=
  n <- get_size this ;;
  require (negb (n =? 0)) ;;
  set_size this (to_size_t (n - 1)) ;;
  n <- get_size this ;;
  b <- RawMemory_GetAddress (Member this) ;;
  in_heap (destroy_at (ptr_add b n)).

(** [iterator Erase(const_iterator pos) noexcept] *)
Definition Erase (this : nat) (pos : ptr) : V ptr :=
  b <- begin_ this ;;
  require_cmp (ptr_leb b pos) ;;
  e <- end_ this ;;
  require_cmp (ptr_ltb pos e) ;;
  d <- offset_of pos b ;;
  it <- RawMemory_plus (Member this) (to_size_t d) ;;
  e <- end_ this ;;
  in_heap (std_move (ptr_add it 1) e it) ;;
  PopBack this ;;
  ret it.

(** ** Observing a vector *)

(** [v[i]] read as a value. *)
Definition at_ (this : nat) (i : Z) : V T :=
  p <- Vector_index this i ;; in_heap (load p).

Fixpoint read_from (this : nat) (i : Z) (n : nat) : V (list T) :=
  match n with
  | O => ret []
  | S n' =>
      x <- at_ this i ;;
      xs <- read_from this (i + 1) n' ;;
      ret (x :: xs)
  end.

(** [v[0], ..., v[Size() - 1]] *)
Definition elements (this : nat) : V (list T) :=
  n <- Size this ;; read_from this 0 (Z.to_nat n).

(** ** The invariant of the data model *)

(** Vector [v] holds exactly the elements [l]: they are the live objects of
    slots [[0, size_)] of its buffer, the slots [[size_, capacity_)] are
    raw, and the buffer is null exactly when the capacity is zero. *)
Definition owns (h : heap) (v : Vector) (l : list T) : Prop :=
  size_ v = Z.of_nat (length l) /\
  size_ v <= capacity_ (data_ v) < size_t_modulus /\
  match buffer_ (data_ v) with
  | Null => capacity_ (data_ v) = 0
  | Ptr b o =>
      o = 0 /\ 0 < capacity_ (data_ v) /\
      block_at h b
      = Some ((Live <$> l)
                ++ replicate (Z.to_nat (capacity_ (data_ v) - size_ v)) Raw)
  end.

(** The vector with identity [this] satisfies the invariant in state [s],
    with elements [l]. *)
Definition holds (s : state) (this : nat) (l : list T) : Prop :=
  exists v, vectors s !! this = Some v /\ owns (mem s) v l.

(** What a caller observes of a vector that satisfies the invariant:
    [Capacity() == c], [Size()] is the length of [l], and the elements read
    through [operator[]] are [l]. *)
Definition observed (s : state) (this : nat) (c : Z) (l : list T) : Prop :=
  holds s this l /\
  Capacity this s = Ok (c, s) /\
  Size this s = Ok (Z.of_nat (length l), s) /\
  elements this s = Ok (l, s).

(** ** Sequences of operations *)

(** One operation of a client on the vectors of the state; a vector is
    named by its identity, and a constructor brings a new vector into
    being. *)
Inductive operation : Type :=
| OpCtor
| OpCtorSize (size : Z)
| OpCopyCtor (other : nat)
| OpMoveCtor (other : nat)
| OpCopyAssign (this rhs : nat)
| OpMoveAssign (this rhs : nat)
| OpSwap (this other : nat)
| OpReserve (this : nat) (new_capacity : Z)
| OpResize (this : nat) (new_size : Z)
| OpPushBackCopy (this : nat) (value : reference)
| OpPushBackMove (this : nat) (value : reference)
| OpEmplaceBack (this : nat) (args : ctor_args)
| OpEmplace (this : nat) (pos : ptr) (args : ctor_args)
| OpInsertCopy (this : nat) (pos : ptr) (value : reference)
| OpInsertMove (this : nat) (pos : ptr) (value : reference)
| OpPopBack (this : nat)
| OpErase (this : nat) (pos : ptr).

Definition perform (o : operation) : V unit :=
  match o with
  | OpCtor => Vector_ctor ;; ret tt
  | OpCtorSize size => Vector_ctor_size size ;; ret tt
  | OpCopyCtor other => Vector_copy_ctor other ;; ret tt
  | OpMoveCtor other => Vector_move_ctor other ;; ret tt
  | OpCopyAssign this rhs => Vector_copy_assign this rhs
  | OpMoveAssign this rhs => Vector_move_assign this rhs
  | OpSwap this other => Swap this other
  | OpReserve this n => Reserve this n
  | OpResize this n => Resize this n
  | OpPushBackCopy this value => PushBack_copy this value
  | OpPushBackMove this value => PushBack_move this value
  | OpEmplaceBack this args => EmplaceBack this args ;; ret tt
  | OpEmplace this pos args => Emplace this pos args ;; ret tt
  | OpInsertCopy this pos value => Insert_copy this pos value ;; ret tt
  | OpInsertMove this pos value => Insert_move this pos value ;; ret tt
  | OpPopBack this => PopBack this
  | OpErase this pos => Erase this pos ;; ret tt
  end.

Fixpoint perform_all (os : list operation) : V unit :=
  match os with
  | [] => ret tt
  | o :: os' => perform o ;; perform_all os'
  end.

(** The operations in which the vector [v] hands its storage over: a
    [Swap] or a move assignment between [v] and another vector, and a move
    construction from [v]. *)
Definition hands_over (v : nat) (o : operation) : bool :=
  match o with
  | OpMoveCtor other => Nat.eqb other v
  | OpMoveAssign this other | OpSwap this other =>
      negb (Nat.eqb this other) && (Nat.eqb this v || Nat.eqb other v)
  | _ => false
  end.

(** ** Scenarios of the specification *)

(** [Vector<T> v; v.Reserve(10); v.PushBack(1);] followed by the
    observation of [Size()], of [Capacity()] and of whether [begin()] is
    still what it was before the push. The argument is a temporary, of
    value [x], and so binds to [PushBack(T&&)]. *)
Definition reserve_then_push (x : T) : V (Z * Z * bool) :=
  v <- Vector_ctor ;;
  Reserve v 10 ;;
  b1 <- begin_ v ;;
  PushBack_move v (Outside x) ;;
  b2 <- begin_ v ;;
  n <- Size v ;;
  c <- Capacity v ;;
  ret (n, c, ptr_eqb b1 b2).

(** [for (const T& x : xs) v.PushBack(x);] for objects [xs] of the
    caller's. *)
Fixpoint push_all (this : nat) (xs : list T) : V unit :=
  match xs with
  | [] => ret tt
  | x :: xs' => PushBack_copy this (Outside x) ;; push_all this xs'
  end.

(** * Reasoning about the model *)

(** ** The monad *)

Lemma bind_Ok {S A B} (m : M S A) (f : A -> M S B) s a s' :
  m s = Ok (a, s') -> bind m f s = f a s'.
Proof. intros E. unfold bind. rewrite E. reflexivity. Qed.

Lemma bind_assoc {S A B C} (m : M S A) (f : A -> M S B) (g : B -> M S C) s :
  bind (bind m f) g s = bind m (fun a => bind (f a) g) s.
Proof. unfold bind. destruct (m s) as [[a s']| |]; reflexivity. Qed.

Lemma bind_ret_l {S A B} (a : A) (f : A -> M S B) s :
  bind (ret a) f s = f a s.
Proof. reflexivity. Qed.

(** A computation that returned normally had each of its two halves return
    normally. *)
Lemma bind_Ok_inv {S A B} (m : M S A) (f : A -> M S B) s b s'' :
  bind m f s = Ok (b, s'') ->
  exists a s', m s = Ok (a, s') /\ f a s' = Ok (b, s'').
Proof.
  unfold bind. destruct (m s) as [[a s']| |]; intros E; try discriminate.
  exists a, s'. split; [reflexivity | exact E].
Qed.

Lemma require_true {S} (b : bool) (s : S) :
  b = true -> require b s = Ok (tt, s).
Proof. intros ->. reflexivity. Qed.

(** One step of a computation whose first action returns normally. *)
Tactic Notation "step_by" tactic3(tac) :=
  rewrite ?bind_assoc; erewrite bind_Ok by tac.

(** ** Blocks of the heap *)

Lemma block_at_Some h b blk :
  block_at h b = Some blk <-> h !! b = Some (Some blk).
Proof.
  unfold block_at. destruct (h !! b) as [[blk'|]|]; split; intros E;
    inversion E; reflexivity.
Qed.

Lemma block_at_lt h b blk : block_at h b = Some blk -> (b < length h)%nat.
Proof. rewrite block_at_Some. apply lookup_lt_Some. Qed.

Lemma block_at_insert_eq h b x :
  (b < length h)%nat -> block_at (<[b := Some x]> h) b = Some x.
Proof. intros L. apply block_at_Some. apply list_lookup_insert_eq, L. Qed.

Lemma block_at_insert_ne h b b' x :
  b <> b' -> block_at (<[b := x]> h) b' = block_at h b'.
Proof.
  intros N. unfold block_at. rewrite list_lookup_insert_ne by exact N.
  reflexivity.
Qed.

Lemma block_at_app_l h k b blk :
  block_at h b = Some blk -> block_at (h ++ k) b = Some blk.
Proof.
  rewrite !block_at_Some. apply lookup_app_l_Some.
Qed.

Lemma block_at_app_new h blk :
  block_at (h ++ [Some blk]) (length h) = Some blk.
Proof.
  apply block_at_Some. rewrite list_lookup_middle; reflexivity.
Qed.

Lemma insert_middle {A} (pre post : list A) (y x : A) :
  <[length pre := x]> (pre ++ y :: post) = pre ++ x :: post.
Proof.
  rewrite insert_app_r_alt by lia. rewrite Nat.sub_diag. reflexivity.
Qed.

(** ** The memory primitives at the slot that follows a known prefix *)

Section Slots.

Variables (h : heap) (b : addr) (pre post : block) (o : Z).
Hypothesis Hoff : o = Z.of_nat (length pre).

Lemma slot_at_middle y :
  block_at h b = Some (pre ++ y :: post) -> slot_at h (Ptr b o) = Some y.
Proof.
  intros E. unfold slot_at. rewrite E.
  destruct (Z.ltb_spec o 0) as [L|L]; [lia|].
  rewrite Hoff, Nat2Z.id. apply list_lookup_middle. reflexivity.
Qed.

Lemma put_slot_middle y x :
  block_at h b = Some (pre ++ y :: post) ->
  put_slot (Ptr b o) x h = <[b := Some (pre ++ x :: post)]> h.
Proof.
  intros E. unfold put_slot. rewrite E.
  rewrite Hoff, Nat2Z.id, insert_middle. reflexivity.
Qed.

Lemma load_middle x :
  block_at h b = Some (pre ++ Live x :: post) ->
  load (Ptr b o) h = Ok (x, h).
Proof. intros E. unfold load. rewrite (slot_at_middle _ E). reflexivity. Qed.

Lemma construct_at_middle y x :
  block_at h b = Some (pre ++ y :: post) ->
  construct_at (Ptr b o) x h = Ok (tt, <[b := Some (pre ++ Live x :: post)]> h).
Proof.
  intros E. unfold construct_at.
  rewrite (slot_at_middle _ E), (put_slot_middle _ _ E). reflexivity.
Qed.

Lemma assign_at_middle y x :
  block_at h b = Some (pre ++ Live y :: post) ->
  assign_at (Ptr b o) x h = Ok (tt, <[b := Some (pre ++ Live x :: post)]> h).
Proof.
  intros E. unfold assign_at.
  rewrite (slot_at_middle _ E), (put_slot_middle _ _ E). reflexivity.
Qed.

Lemma destroy_at_middle y :
  block_at h b = Some (pre ++ Live y :: post) ->
  destroy_at (Ptr b o) h = Ok (tt, <[b := Some (pre ++ Raw :: post)]> h).
Proof.
  intros E. unfold destroy_at.
  rewrite (slot_at_middle _ E), (put_slot_middle _ _ E). reflexivity.
Qed.

Lemma move_out_middle y :
  block_at h b = Some (pre ++ Live y :: post) ->
  move_out (Ptr b o) h
  = Ok (y, <[b := Some (pre ++ Live (moved_from y) :: post)]> h).
Proof.
  intros E. unfold move_out.
  rewrite (slot_at_middle _ E), (put_slot_middle _ _ E). reflexivity.
Qed.

End Slots.

(** ** The algorithms *)

Lemma heap_insert_same (h : heap) b blk :
  block_at h b = Some blk -> <[b := Some blk]> h = h.
Proof. intros E. apply list_insert_id, block_at_Some, E. Qed.

(** Copy-construction of [xs] from block [bs] into raw or live slots of a
    different block [bd]. *)
Lemma uninitialized_copy_n_spec xs :
  forall (h : heap) bs bd pre post pre' mid post' s d,
  bs <> bd ->
  block_at h bs = Some (pre ++ (Live <$> xs) ++ post) ->
  block_at h bd = Some (pre' ++ mid ++ post') ->
  length mid = length xs ->
  s = Z.of_nat (length pre) -> d = Z.of_nat (length pre') ->
  uninitialized_copy_n (Ptr bs s) (length xs) (Ptr bd d) h
  = Ok (tt, <[bd := Some (pre' ++ (Live <$> xs) ++ post')]> h).
Proof.
  induction xs as [|x xs IH];
    intros h bs bd pre post pre' mid post' s d N Es Ed L Hs Hd.
  - destruct mid; [|discriminate]. cbn.
    rewrite heap_insert_same by exact Ed. reflexivity.
  - destruct mid as [|m mid]; [discriminate|].
    rewrite fmap_cons in *. cbn [length uninitialized_copy_n app] in *.
    erewrite bind_Ok by (eapply load_middle; eauto).
    erewrite bind_Ok by (eapply construct_at_middle; eauto).
    cbn [ptr_add].
    assert (Lb : (bd < length h)%nat) by (eapply block_at_lt; eauto).
    rewrite (IH _ bs bd (pre ++ [Live x]) post (pre' ++ [Live x]) mid post').
    + rewrite list_insert_insert_eq, <- !app_assoc. reflexivity.
    + exact N.
    + rewrite block_at_insert_ne by auto. rewrite <- app_assoc. exact Es.
    + rewrite block_at_insert_eq by exact Lb. rewrite <- app_assoc. reflexivity.
    + lia.
    + rewrite length_app. cbn. lia.
    + rewrite length_app. cbn. lia.
Qed.

(** Move-construction: the source elements stay live, in their moved-from
    state. *)
Lemma uninitialized_move_n_spec xs :
  forall (h : heap) bs bd pre post pre' mid post' s d,
  bs <> bd ->
  block_at h bs = Some (pre ++ (Live <$> xs) ++ post) ->
  block_at h bd = Some (pre' ++ mid ++ post') ->
  length mid = length xs ->
  s = Z.of_nat (length pre) -> d = Z.of_nat (length pre') ->
  uninitialized_move_n (Ptr bs s) (length xs) (Ptr bd d) h
  = Ok (tt, <[bd := Some (pre' ++ (Live <$> xs) ++ post')]>
              (<[bs := Some (pre ++ (Live <$> (moved_from <$> xs)) ++ post)]> h)).
Proof.
  induction xs as [|x xs IH];
    intros h bs bd pre post pre' mid post' s d N Es Ed L Hs Hd.
  - destruct mid; [|discriminate]. cbn.
    rewrite (heap_insert_same h bs) by exact Es.
    rewrite heap_insert_same by exact Ed. reflexivity.
  - destruct mid as [|m mid]; [discriminate|].
    rewrite !fmap_cons in *. cbn [length uninitialized_move_n app] in *.
    assert (Ls : (bs < length h)%nat) by (eapply block_at_lt; eauto).
    assert (Lb : (bd < length h)%nat) by (eapply block_at_lt; eauto).
    erewrite bind_Ok by (eapply move_out_middle; eauto).
    erewrite bind_Ok; cycle 1.
    { eapply construct_at_middle; [exact Hd|].
      rewrite block_at_insert_ne by exact N. exact Ed. }
    cbn [ptr_add].
    rewrite (IH _ bs bd (pre ++ [Live (moved_from x)]) post
               (pre' ++ [Live x]) mid post').
    + rewrite (list_insert_insert_ne _ bs bd) by exact N.
      rewrite !list_insert_insert_eq.
      rewrite <- !app_assoc. reflexivity.
    + exact N.
    + rewrite block_at_insert_ne by auto.
      rewrite block_at_insert_eq by exact Ls.
      rewrite <- app_assoc. reflexivity.
    + rewrite block_at_insert_eq by (rewrite length_insert; exact Lb).
      rewrite <- app_assoc. reflexivity.
    + lia.
    + rewrite length_app. cbn. lia.
    + rewrite length_app. cbn. lia.
Qed.

(** The state the source elements are left in by the transfer the element
    type selects. *)
Definition left_behind (x : T) : T :=
  if nothrow_move_or_no_copy then moved_from x else x.

Lemma UninitializedMoveOrCopyN_spec xs (h : heap) bs bd pre post pre' mid post' s d n :
  bs <> bd ->
  block_at h bs = Some (pre ++ (Live <$> xs) ++ post) ->
  block_at h bd = Some (pre' ++ mid ++ post') ->
  length mid = length xs ->
  s = Z.of_nat (length pre) -> d = Z.of_nat (length pre') ->
  n = Z.of_nat (length xs) ->
  UninitializedMoveOrCopyN (Ptr bs s) n (Ptr bd d) h
  = Ok (tt, <[bd := Some (pre' ++ (Live <$> xs) ++ post')]>
              (<[bs := Some (pre ++ (Live <$> (left_behind <$> xs)) ++ post)]> h)).
Proof.
  intros N Es Ed L Hs Hd ->. unfold UninitializedMoveOrCopyN, left_behind.
  rewrite Nat2Z.id. destruct nothrow_move_or_no_copy.
  - eapply uninitialized_move_n_spec; eauto.
  - rewrite list_fmap_id. rewrite (heap_insert_same h bs) by exact Es.
    eapply uninitialized_copy_n_spec; eauto.
Qed.

Lemma uninitialized_value_construct_n_spec n :
  forall (h : heap) b pre mid post o,
  block_at h b = Some (pre ++ mid ++ post) ->
  length mid = n ->
  o = Z.of_nat (length pre) ->
  uninitialized_value_construct_n (Ptr b o) n h
  = Ok (tt, <[b := Some (pre ++ replicate n (Live value_init) ++ post)]> h).
Proof.
  induction n as [|n IH]; intros h b pre mid post o E L Ho.
  - destruct mid; [|discriminate]. cbn.
    rewrite heap_insert_same by exact E. reflexivity.
  - destruct mid as [|m mid]; [discriminate|].
    cbn [uninitialized_value_construct_n replicate app] in *.
    erewrite bind_Ok by (eapply construct_at_middle; eauto).
    cbn [ptr_add].
    assert (Lb : (b < length h)%nat) by (eapply block_at_lt; eauto).
    rewrite (IH _ b (pre ++ [Live value_init]) mid post).
    + rewrite list_insert_insert_eq, <- !app_assoc. reflexivity.
    + rewrite block_at_insert_eq by exact Lb. rewrite <- app_assoc. reflexivity.
    + cbn in L. lia.
    + rewrite length_app. cbn. lia.
Qed.

Lemma destroy_n_spec xs :
  forall (h : heap) b pre post o,
  block_at h b = Some (pre ++ (Live <$> xs) ++ post) ->
  o = Z.of_nat (length pre) ->
  destroy_n (Ptr b o) (length xs) h
  = Ok (tt, <[b := Some (pre ++ replicate (length xs) Raw ++ post)]> h).
Proof.
  induction xs as [|x xs IH]; intros h b pre post o E Ho.
  - cbn. rewrite heap_insert_same by exact E. reflexivity.
  - rewrite fmap_cons in *. cbn [length destroy_n replicate app] in *.
    erewrite bind_Ok by (eapply destroy_at_middle; eauto).
    cbn [ptr_add].
    assert (Lb : (b < length h)%nat) by (eapply block_at_lt; eauto).
    rewrite (IH _ b (pre ++ [Raw]) post).
    + rewrite list_insert_insert_eq, <- !app_assoc. reflexivity.
    + rewrite block_at_insert_eq by exact Lb. rewrite <- app_assoc. reflexivity.
    + rewrite length_app. cbn. lia.
Qed.

Lemma destroy_n_spec_len xs n (h : heap) b pre post o :
  block_at h b = Some (pre ++ (Live <$> xs) ++ post) ->
  o = Z.of_nat (length pre) ->
  n = length xs ->
  destroy_n (Ptr b o) n h
  = Ok (tt, <[b := Some (pre ++ replicate n Raw ++ post)]> h).
Proof. intros E Ho ->. apply destroy_n_spec; assumption. Qed.

(** Copy-assignment of [xs] from block [bs] over the live elements [ys] of
    a different block [bd]. *)
Lemma copy_n_spec xs :
  forall (h : heap) bs bd pre post pre' ys post' s d,
  bs <> bd ->
  block_at h bs = Some (pre ++ (Live <$> xs) ++ post) ->
  block_at h bd = Some (pre' ++ (Live <$> ys) ++ post') ->
  length ys = length xs ->
  s = Z.of_nat (length pre) -> d = Z.of_nat (length pre') ->
  copy_n (Ptr bs s) (length xs) (Ptr bd d) h
  = Ok (tt, <[bd := Some (pre' ++ (Live <$> xs) ++ post')]> h).
Proof.
  induction xs as [|x xs IH];
    intros h bs bd pre post pre' ys post' s d N Es Ed L Hs Hd.
  - destruct ys; [|discriminate]. cbn.
    rewrite heap_insert_same by exact Ed. reflexivity.
  - destruct ys as [|y ys]; [discriminate|].
    rewrite !fmap_cons in *. cbn [length copy_n app] in *.
    erewrite bind_Ok by (eapply load_middle; eauto).
    erewrite bind_Ok by (eapply assign_at_middle; eauto).
    cbn [ptr_add].
    assert (Lb : (bd < length h)%nat) by (eapply block_at_lt; eauto).
    rewrite (IH _ bs bd (pre ++ [Live x]) post (pre' ++ [Live x]) ys post').
    + rewrite list_insert_insert_eq, <- !app_assoc. reflexivity.
    + exact N.
    + rewrite block_at_insert_ne by auto. rewrite <- app_assoc. exact Es.
    + rewrite block_at_insert_eq by exact Lb. rewrite <- app_assoc. reflexivity.
    + lia.
    + rewrite length_app. cbn. lia.
    + rewrite length_app. cbn. lia.
Qed.

(** What is left in the last slot once [x0 :: xs] has been shifted one slot
    towards the front by move-assignment. *)
Fixpoint back_residue (x0 : T) (xs : list T) : T :=
  match xs with
  | [] => x0
  | x :: xs' => back_residue (moved_from x) xs'
  end.

(** Shifting [xs] one slot towards the front over [x0], inside one block. *)
Lemma move_n_spec xs :
  forall (h : heap) b pre x0 post o,
  block_at h b = Some (pre ++ Live x0 :: (Live <$> xs) ++ post) ->
  o = Z.of_nat (length pre) ->
  move_n (Ptr b (o + 1)) (length xs) (Ptr b o) h
  = Ok (tt, <[b := Some (pre ++ (Live <$> xs)
                           ++ Live (back_residue x0 xs) :: post)]> h).
Proof.
  induction xs as [|x xs IH]; intros h b pre x0 post o E Ho.
  - cbn. rewrite heap_insert_same by exact E. reflexivity.
  - rewrite fmap_cons in *. cbn [length move_n app back_residue] in *.
    assert (Lb : (b < length h)%nat) by (eapply block_at_lt; eauto).
    erewrite bind_Ok; cycle 1.
    { eapply (move_out_middle _ _ (pre ++ [Live x0])).
      - rewrite length_app. cbn. lia.
      - rewrite <- app_assoc. exact E. }
    erewrite bind_Ok; cycle 1.
    { eapply (assign_at_middle _ _ pre); [exact Ho|].
      rewrite block_at_insert_eq by exact Lb.
      rewrite <- app_assoc. reflexivity. }
    cbn [ptr_add].
    rewrite (IH _ b (pre ++ [Live x]) (moved_from x) post).
    + rewrite !list_insert_insert_eq, <- !app_assoc. reflexivity.
    + rewrite block_at_insert_eq by (rewrite length_insert; exact Lb).
      rewrite <- app_assoc. reflexivity.
    + rewrite length_app. cbn. lia.
Qed.

(** What is left in the first slot once [xs ++ [y]] has been shifted one
    slot towards the back by move-assignment. *)
Definition front_residue (xs : list T) (y : T) : T :=
  match xs with
  | [] => y
  | x :: _ => moved_from x
  end.

(** Shifting [xs] one slot towards the back over [y], inside one block. *)
Lemma move_backward_n_spec xs :
  forall (h : heap) b pre y post o,
  block_at h b = Some (pre ++ (Live <$> xs) ++ Live y :: post) ->
  o = Z.of_nat (length pre + length xs) ->
  move_backward_n (Ptr b o) (length xs) (Ptr b (o + 1)) h
  = Ok (tt, <[b := Some (pre ++ Live (front_residue xs y)
                           :: (Live <$> xs) ++ post)]> h).
Proof.
  induction xs as [|x xs IH] using rev_ind; intros h b pre y post o E Ho.
  - cbn. rewrite heap_insert_same by exact E. reflexivity.
  - rewrite fmap_app in *. rewrite length_app in *.
    cbn [length fmap list_fmap] in *.
    replace (length xs + 1)%nat with (S (length xs)) by lia.
    cbn [move_backward_n ptr_add].
    assert (Lb : (b < length h)%nat) by (eapply block_at_lt; eauto).
    erewrite bind_Ok; cycle 1.
    { eapply (move_out_middle _ _ (pre ++ (Live <$> xs))).
      - rewrite length_app, length_fmap. lia.
      - rewrite <- !app_assoc in *. exact E. }
    erewrite bind_Ok; cycle 1.
    { eapply (assign_at_middle _ _ (pre ++ (Live <$> xs) ++ [Live (moved_from x)])).
      - rewrite !length_app, length_fmap. cbn. lia.
      - rewrite block_at_insert_eq by exact Lb.
        rewrite <- !app_assoc. reflexivity. }
    replace (o + 1 + -1) with ((o + -1) + 1) by lia.
    rewrite (IH _ b pre (moved_from x) (Live x :: post)).
    + rewrite !list_insert_insert_eq. f_equal. f_equal. f_equal. f_equal.
      rewrite <- !app_assoc. cbn.
      destruct xs; reflexivity.
    + rewrite block_at_insert_eq by (rewrite length_insert; exact Lb).
      rewrite <- !app_assoc. reflexivity.
    + lia.
Qed.

(** ** Access to the objects *)

Lemma lookup_last_local {A} (ls : list A) (r : A) :
  (ls ++ [r]) !! length ls = Some r.
Proof. apply list_lookup_middle. reflexivity. Qed.

Lemma insert_last_local {A} (ls : list A) (r r' : A) :
  <[length ls := r']> (ls ++ [r]) = ls ++ [r'].
Proof. apply insert_middle. Qed.

Lemma take_last_local {A} (ls : list A) (r : A) :
  take (length (ls ++ [r]) - 1)%nat (ls ++ [r]) = ls.
Proof.
  rewrite length_app. cbn [length].
  replace (length ls + 1 - 1)%nat with (length ls) by lia.
  apply take_app_length.
Qed.

Section Access.

Variables (h : heap) (vs : list Vector) (ls : list RawMemory).

Lemma in_heap_Ok {A} (m : H A) a h' :
  m h = Ok (a, h') ->
  in_heap m (MkState h vs ls) = Ok (a, MkState h' vs ls).
Proof. intros E. unfold in_heap. cbn. rewrite E. reflexivity. Qed.

Variables (this : nat) (v : Vector).
Hypothesis Hthis : vs !! this = Some v.

Lemma get_vector_Ok : get_vector this (MkState h vs ls) = Ok (v, MkState h vs ls).
Proof. unfold get_vector. cbn. rewrite Hthis. reflexivity. Qed.

Lemma set_vector_Ok x :
  set_vector this x (MkState h vs ls) = Ok (tt, MkState h (<[this := x]> vs) ls).
Proof. unfold set_vector. cbn. rewrite Hthis. reflexivity. Qed.

Lemma get_size_Ok : get_size this (MkState h vs ls) = Ok (size_ v, MkState h vs ls).
Proof. unfold get_size. erewrite bind_Ok by apply get_vector_Ok. reflexivity. Qed.

Lemma set_size_Ok n :
  set_size this n (MkState h vs ls)
  = Ok (tt, MkState h (<[this := MkVector (data_ v) n]> vs) ls).
Proof.
  unfold set_size. erewrite bind_Ok by apply get_vector_Ok.
  apply set_vector_Ok.
Qed.

Lemma get_raw_member :
  get_raw (Member this) (MkState h vs ls) = Ok (data_ v, MkState h vs ls).
Proof. cbn [get_raw]. erewrite bind_Ok by apply get_vector_Ok. reflexivity. Qed.

Lemma set_raw_member r :
  set_raw (Member this) r (MkState h vs ls)
  = Ok (tt, MkState h (<[this := MkVector r (size_ v)]> vs) ls).
Proof.
  cbn [set_raw]. erewrite bind_Ok by apply get_vector_Ok.
  apply set_vector_Ok.
Qed.

Lemma get_buffer_member :
  get_buffer (Member this) (MkState h vs ls)
  = Ok (buffer_ (data_ v), MkState h vs ls).
Proof. unfold get_buffer. erewrite bind_Ok by apply get_raw_member. reflexivity. Qed.

Lemma get_capacity_member :
  get_capacity (Member this) (MkState h vs ls)
  = Ok (capacity_ (data_ v), MkState h vs ls).
Proof. unfold get_capacity. erewrite bind_Ok by apply get_raw_member. reflexivity. Qed.

Lemma set_buffer_member b :
  set_buffer (Member this) b (MkState h vs ls)
  = Ok (tt, MkState h
              (<[this := MkVector (MkRawMemory b (capacity_ (data_ v))) (size_ v)]> vs)
              ls).
Proof.
  unfold set_buffer. erewrite bind_Ok by apply get_raw_member.
  apply set_raw_member.
Qed.

Lemma set_capacity_member c :
  set_capacity (Member this) c (MkState h vs ls)
  = Ok (tt, MkState h
              (<[this := MkVector (MkRawMemory (buffer_ (data_ v)) c) (size_ v)]> vs)
              ls).
Proof.
  unfold set_capacity. erewrite bind_Ok by apply get_raw_member.
  apply set_raw_member.
Qed.

Lemma RawMemory_plus_member offset :
  offset <= capacity_ (data_ v) ->
  RawMemory_plus (Member this) offset (MkState h vs ls)
  = Ok (ptr_add (buffer_ (data_ v)) offset, MkState h vs ls).
Proof.
  intros L. unfold RawMemory_plus.
  erewrite bind_Ok by apply get_capacity_member.
  erewrite bind_Ok by (apply require_true, Z.leb_le, L).
  erewrite bind_Ok by apply get_buffer_member.
  reflexivity.
Qed.

Lemma RawMemory_index_member index :
  index < capacity_ (data_ v) ->
  RawMemory_index (Member this) index (MkState h vs ls)
  = Ok (ptr_add (buffer_ (data_ v)) index, MkState h vs ls).
Proof.
  intros L. unfold RawMemory_index.
  erewrite bind_Ok by apply get_capacity_member.
  erewrite bind_Ok by (apply require_true, Z.ltb_lt, L).
  erewrite bind_Ok by apply get_buffer_member.
  reflexivity.
Qed.

Lemma Vector_index_Ok index :
  index < size_ v <= capacity_ (data_ v) ->
  Vector_index this index (MkState h vs ls)
  = Ok (ptr_add (buffer_ (data_ v)) index, MkState h vs ls).
Proof.
  intros L. unfold Vector_index.
  erewrite bind_Ok by apply get_size_Ok.
  erewrite bind_Ok by (apply require_true, Z.ltb_lt; lia).
  apply RawMemory_index_member. lia.
Qed.

Lemma Size_Ok : Size this (MkState h vs ls) = Ok (size_ v, MkState h vs ls).
Proof. apply get_size_Ok. Qed.

Lemma Capacity_Ok :
  Capacity this (MkState h vs ls) = Ok (capacity_ (data_ v), MkState h vs ls).
Proof. apply get_capacity_member. Qed.

Lemma begin_Ok :
  begin_ this (MkState h vs ls) = Ok (buffer_ (data_ v), MkState h vs ls).
Proof. apply get_buffer_member. Qed.

Lemma end_Ok :
  size_ v <= capacity_ (data_ v) ->
  end_ this (MkState h vs ls)
  = Ok (ptr_add (buffer_ (data_ v)) (size_ v), MkState h vs ls).
Proof.
  intros L. unfold end_. erewrite bind_Ok by apply get_size_Ok.
  apply RawMemory_plus_member, L.
Qed.

Lemma increment_size_Ok :
  increment_size this (MkState h vs ls)
  = Ok (tt, MkState h
              (<[this := MkVector (data_ v) (to_size_t (size_ v + 1))]> vs) ls).
Proof.
  unfold increment_size. erewrite bind_Ok by apply get_size_Ok.
  apply set_size_Ok.
Qed.

End Access.

Section LocalAccess.

Variables (h : heap) (vs : list Vector) (ls : list RawMemory) (r : RawMemory).

Lemma get_raw_local :
  get_raw (Local (length ls)) (MkState h vs (ls ++ [r]))
  = Ok (r, MkState h vs (ls ++ [r])).
Proof. cbn. rewrite lookup_last_local. reflexivity. Qed.

Lemma set_raw_local r' :
  set_raw (Local (length ls)) r' (MkState h vs (ls ++ [r]))
  = Ok (tt, MkState h vs (ls ++ [r'])).
Proof. cbn. rewrite lookup_last_local, insert_last_local. reflexivity. Qed.

Lemma get_buffer_local :
  get_buffer (Local (length ls)) (MkState h vs (ls ++ [r]))
  = Ok (buffer_ r, MkState h vs (ls ++ [r])).
Proof. unfold get_buffer. erewrite bind_Ok by apply get_raw_local. reflexivity. Qed.

Lemma get_capacity_local :
  get_capacity (Local (length ls)) (MkState h vs (ls ++ [r]))
  = Ok (capacity_ r, MkState h vs (ls ++ [r])).
Proof. unfold get_capacity. erewrite bind_Ok by apply get_raw_local. reflexivity. Qed.

Lemma set_buffer_local b :
  set_buffer (Local (length ls)) b (MkState h vs (ls ++ [r]))
  = Ok (tt, MkState h vs (ls ++ [MkRawMemory b (capacity_ r)])).
Proof.
  unfold set_buffer. erewrite bind_Ok by apply get_raw_local.
  apply set_raw_local.
Qed.

Lemma set_capacity_local c :
  set_capacity (Local (length ls)) c (MkState h vs (ls ++ [r]))
  = Ok (tt, MkState h vs (ls ++ [MkRawMemory (buffer_ r) c])).
Proof.
  unfold set_capacity. erewrite bind_Ok by apply get_raw_local.
  apply set_raw_local.
Qed.

Lemma RawMemory_plus_local offset :
  offset <= capacity_ r ->
  RawMemory_plus (Local (length ls)) offset (MkState h vs (ls ++ [r]))
  = Ok (ptr_add (buffer_ r) offset, MkState h vs (ls ++ [r])).
Proof.
  intros L. unfold RawMemory_plus.
  erewrite bind_Ok by apply get_capacity_local.
  erewrite bind_Ok by (apply require_true, Z.leb_le, L).
  erewrite bind_Ok by apply get_buffer_local.
  reflexivity.
Qed.

End LocalAccess.

(** [data_.Swap(new_data)] inside a member function of vector [this]. *)
Lemma RawMemory_Swap_member_local (h : heap) vs ls r this v :
  vs !! this = Some v ->
  RawMemory_Swap (Member this) (Local (length ls)) (MkState h vs (ls ++ [r]))
  = Ok (tt, MkState h (<[this := MkVector r (size_ v)]> vs) (ls ++ [data_ v])).
Proof.
  intros Hthis. unfold RawMemory_Swap.
  assert (L : (this < length vs)%nat) by (eapply lookup_lt_Some; eauto).
  erewrite bind_Ok by (eapply get_buffer_member; eauto).
  erewrite bind_Ok by apply get_buffer_local.
  erewrite bind_Ok by (eapply set_buffer_member; eauto).
  erewrite bind_Ok by apply set_buffer_local.
  erewrite bind_Ok by
    (eapply get_capacity_member; apply list_lookup_insert_eq, L).
  erewrite bind_Ok by apply get_capacity_local.
  erewrite bind_Ok by
    (eapply set_capacity_member; apply list_lookup_insert_eq, L).
  rewrite set_capacity_local. cbn.
  rewrite list_insert_insert_eq.
  destruct r as [rb rc], v as [[vb vc] vn]. reflexivity.
Qed.

(** ** Allocation *)

(** An object takes at least one byte, and the byte count of the largest
    request that is granted is a [size_t]. *)
Hypothesis sizeof_T_pos : 0 < sizeof_T.
Hypothesis max_alloc_fits : max_alloc * sizeof_T < size_t_modulus.

Lemma to_size_t_small z : 0 <= z < size_t_modulus -> to_size_t z = z.
Proof. intros L. unfold to_size_t. apply Z.mod_small, L. Qed.

Lemma max_alloc_lt : max_alloc < size_t_modulus.
Proof.
  assert (0 < size_t_modulus) by reflexivity.
  destruct (Z.le_gt_cases max_alloc 0); [lia | nia].
Qed.

(** A request for the room of at most [max_alloc] objects is granted in
    full. *)
Lemma Allocate_granted n (h : heap) :
  0 < n -> n <= max_alloc ->
  Allocate n h
  = Ok (Ptr (length h) 0, h ++ [Some (replicate (Z.to_nat n) Raw)]).
Proof.
  intros N L. unfold Allocate.
  destruct (Z.eqb_spec n 0) as [|_]; [lia|].
  rewrite to_size_t_small by nia.
  unfold operator_new. destruct (Z.leb_spec (n * sizeof_T) (max_alloc * sizeof_T)); [|nia].
  rewrite Z.div_mul by lia. reflexivity.
Qed.

(** The body of a scope that declares [RawMemory<T> new_data(capacity)]. *)
Lemma with_new_data_Ok {A} (capacity : Z) (body : place -> V A)
      (h : heap) vs ls a h' vs' old h'' :
  0 < capacity ->
  capacity <= max_alloc ->
  body (Local (length ls))
       (MkState (h ++ [Some (replicate (Z.to_nat capacity) Raw)]) vs
                (ls ++ [MkRawMemory (Ptr (length h) 0) capacity]))
  = Ok (a, MkState h' vs' (ls ++ [old])) ->
  operator_delete (buffer_ old) h' = Ok (tt, h'') ->
  with_new_data capacity body (MkState h vs ls) = Ok (a, MkState h'' vs' ls).
Proof.
  intros N L Eb Ed. unfold with_new_data.
  erewrite bind_Ok by reflexivity.
  erewrite bind_Ok; cycle 1.
  { unfold RawMemory_ctor. cbn [mem vectors locals].
    erewrite bind_Ok; cycle 1.
    { apply in_heap_Ok, Allocate_granted; assumption. }
    erewrite bind_Ok by apply set_buffer_local.
    apply set_capacity_local. }
  cbn [buffer_ capacity_].
  erewrite bind_Ok by exact Eb.
  erewrite bind_Ok; cycle 1.
  { unfold RawMemory_dtor. erewrite bind_Ok by apply get_buffer_local.
    apply in_heap_Ok. exact Ed. }
  unfold leave_local, bind, ret. cbn [mem vectors locals].
  rewrite take_last_local. reflexivity.
Qed.

(** ** Observation of a vector that satisfies the invariant *)

Lemma read_from_Ok (h : heap) vs ls this v b blk (l2 : list T) :
  forall l1 i,
  vs !! this = Some v ->
  buffer_ (data_ v) = Ptr b 0 ->
  block_at h b = Some ((Live <$> (l1 ++ l2)) ++ blk) ->
  Z.of_nat (length (l1 ++ l2)) <= size_ v <= capacity_ (data_ v) ->
  i = Z.of_nat (length l1) ->
  read_from this i (length l2) (MkState h vs ls) = Ok (l2, MkState h vs ls).
Proof.
  induction l2 as [|x l2 IH]; intros l1 i Hv Hb E L Hi; [reflexivity|].
  cbn [length read_from].
  rewrite length_app in L. cbn [length] in L.
  erewrite bind_Ok; cycle 1.
  { unfold at_.
    erewrite bind_Ok by (eapply Vector_index_Ok; eauto; lia).
    apply in_heap_Ok. rewrite Hb. cbn [ptr_add].
    eapply (load_middle _ _ (Live <$> l1)).
    - rewrite length_fmap. lia.
    - rewrite E, fmap_app, fmap_cons, <- app_assoc. reflexivity. }
  erewrite bind_Ok; cycle 1.
  { eapply (IH (l1 ++ [x])); eauto.
    - rewrite <- app_assoc. exact E.
    - rewrite <- app_assoc, length_app. cbn [app length]. lia.
    - rewrite length_app. cbn. lia. }
  reflexivity.
Qed.

Lemma owns_elements (h : heap) vs ls this v l :
  vs !! this = Some v ->
  owns h v l ->
  elements this (MkState h vs ls) = Ok (l, MkState h vs ls).
Proof.
  intros Hv (Hn & Hc & Hb). unfold elements.
  erewrite bind_Ok by (eapply Size_Ok; eauto).
  rewrite Hn, Nat2Z.id.
  destruct (buffer_ (data_ v)) as [|b o] eqn:Eb.
  - assert (length l = 0%nat) by lia.
    destruct l; [reflexivity | discriminate].
  - destruct Hb as (-> & Hp & E).
    eapply (read_from_Ok _ _ _ _ _ _ _ _ []); eauto. cbn. lia.
Qed.

Lemma holds_elements s this l :
  holds s this l -> elements this s = Ok (l, s).
Proof.
  intros (v & Hv & Ho). destruct s as [h vs ls].
  eapply owns_elements; eauto.
Qed.

Lemma holds_Size s this l :
  holds s this l -> Size this s = Ok (Z.of_nat (length l), s).
Proof.
  intros (v & Hv & (Hn & _)). destruct s as [h vs ls]. cbn in *.
  rewrite <- Hn. eapply Size_Ok; eauto.
Qed.

(** ** Reallocation *)

(** The heap once the block behind [p] has been given back. *)
Definition released (p : ptr) (h : heap) : heap :=
  match p with
  | Null => h
  | Ptr b _ => <[b := None]> h
  end.

(** The block of a vector of capacity [c] that holds [l]. *)
Definition block_of (l : list T) (c : Z) : block :=
  (Live <$> l) ++ replicate (Z.to_nat c - length l) Raw.

Lemma owns_block_of (h : heap) v l b o :
  owns h v l -> buffer_ (data_ v) = Ptr b o ->
  block_at h b = Some (block_of l (capacity_ (data_ v))).
Proof.
  intros (Hn & Hc & Hb) Eb. rewrite Eb in Hb. destruct Hb as (_ & _ & E).
  rewrite E. unfold block_of. do 3 f_equal. lia.
Qed.

Lemma raw_block_split (n : Z) (k : nat) :
  Z.of_nat k <= n ->
  replicate (Z.to_nat n) (Raw : slot)
  = replicate k Raw ++ replicate (Z.to_nat n - k) Raw.
Proof.
  intros L. rewrite <- replicate_add. f_equal. lia.
Qed.

(** The heap during a reallocation: the old block [b] and the new block,
    which is the last one. *)
Lemma heap_new_over_old (h : heap) b o x y :
  (b < length h)%nat ->
  <[length h := x]> (<[b := o]> (h ++ [y])) = <[b := o]> (h ++ [x]).
Proof.
  intros L. rewrite list_insert_insert_ne by lia.
  rewrite insert_last_local. reflexivity.
Qed.

Lemma block_at_old (h : heap) b blk y :
  (b < length h)%nat ->
  block_at (<[b := Some blk]> (h ++ [y])) b = Some blk.
Proof.
  intros L. apply block_at_insert_eq. rewrite length_app. lia.
Qed.

Lemma block_at_new (h : heap) b o blk :
  (b < length h)%nat ->
  block_at (<[b := o]> (h ++ [Some blk])) (length h) = Some blk.
Proof.
  intros L. rewrite block_at_insert_ne by lia. apply block_at_app_new.
Qed.

Lemma heap_old_start (h : heap) b blk y :
  block_at h b = Some blk ->
  h ++ [y] = <[b := Some blk]> (h ++ [y]).
Proof.
  intros E. symmetry. apply heap_insert_same, block_at_app_l, E.
Qed.

Lemma operator_delete_old (h : heap) b blk y :
  (b < length h)%nat ->
  operator_delete (Ptr b 0) (<[b := Some blk]> (h ++ [y]))
  = Ok (tt, <[b := None]> (h ++ [y])).
Proof.
  intros L. unfold operator_delete.
  rewrite block_at_old by exact L. cbn.
  rewrite list_insert_insert_eq. reflexivity.
Qed.

(** [Reserve] beyond the current capacity. *)
Lemma Reserve_grow (h : heap) vs ls this v l n :
  vs !! this = Some v ->
  owns h v l ->
  capacity_ (data_ v) < n <= max_alloc ->
  Reserve this n (MkState h vs ls)
  = Ok (tt, MkState
              (released (buffer_ (data_ v)) (h ++ [Some (block_of l n)]))
              (<[this := MkVector (MkRawMemory (Ptr (length h) 0) n) (size_ v)]> vs)
              ls).
Proof.
  intros Hv Ho Hn. pose proof Ho as (Hsz & Hc & Hb).
  unfold Reserve.
  step_by (eapply Capacity_Ok; eauto).
  destruct (Z.leb_spec n (capacity_ (data_ v))) as [|_]; [lia|].
  destruct (buffer_ (data_ v)) as [|b o] eqn:Eb.
  - (* nothing to transfer *)
    assert (El : l = []) by (destruct l; [reflexivity | cbn in Hsz; lia]).
    subst l. cbn in Hsz.
    eapply with_new_data_Ok with (old := data_ v); [lia | lia | | ].
    + step_by (eapply get_buffer_member; eauto).
      step_by (eapply get_size_Ok; eauto).
      step_by (apply get_buffer_local).
      rewrite Eb, Hsz. cbn [Z.to_nat].
      step_by (apply in_heap_Ok; destruct nothrow_move_or_no_copy; reflexivity).
      step_by (apply in_heap_Ok; reflexivity).
      rewrite RawMemory_Swap_member_local with (v := v) by exact Hv.
      rewrite Hsz. reflexivity.
    + rewrite Eb. unfold block_of. cbn. rewrite Nat.sub_0_r. reflexivity.
  - destruct Hb as (-> & Hp & E).
    assert (Lb : (b < length h)%nat) by (eapply block_at_lt; eauto).
    eapply with_new_data_Ok with (old := data_ v); [lia | lia | | ].
    + step_by (eapply get_buffer_member; eauto).
      step_by (eapply get_size_Ok; eauto).
      step_by (apply get_buffer_local).
      rewrite Eb. cbn [buffer_].
      rewrite (heap_old_start h b _ _ E).
      rewrite (raw_block_split n (length l)) by lia.
      step_by (apply in_heap_Ok;
               eapply (UninitializedMoveOrCopyN_spec l _ b (length h) [] _ []);
               [ lia | apply block_at_old, Lb | apply block_at_new, Lb
               | apply length_replicate | reflexivity | reflexivity | exact Hsz ]).
      rewrite list_insert_insert_eq, heap_new_over_old by exact Lb.
      rewrite Hsz, Nat2Z.id.
      step_by (apply in_heap_Ok;
               eapply (destroy_n_spec_len (left_behind <$> l) _ _ b []);
               [ apply block_at_old, Lb | reflexivity
               | rewrite length_fmap; reflexivity ]).
      rewrite list_insert_insert_eq.
      rewrite RawMemory_Swap_member_local with (v := v) by exact Hv.
      rewrite Hsz. reflexivity.
    + rewrite Eb. cbn [app released]. apply operator_delete_old, Lb.
Qed.


Lemma replicate_split {A} (n k : nat) (a : A) :
  (k <= n)%nat -> replicate n a = replicate k a ++ replicate (n - k) a.
Proof. intros L. rewrite <- replicate_add. f_equal. lia. Qed.

Lemma replicate_sub_cons {A} (n k : nat) (a : A) :
  (k < n)%nat -> replicate (n - k) a = a :: replicate (n - k - 1) a.
Proof.
  intros L. destruct (n - k)%nat as [|m] eqn:E; [lia|].
  cbn. rewrite Nat.sub_0_r. reflexivity.
Qed.

Lemma block_of_app_raw (l : list T) (c : Z) :
  Z.of_nat (length l) < c ->
  block_of l c = (Live <$> l) ++ Raw :: replicate (Z.to_nat c - length l - 1) Raw.
Proof.
  intros L. unfold block_of. f_equal. apply replicate_sub_cons. lia.
Qed.

Lemma block_of_snoc (l : list T) (x : T) (c : Z) :
  (Live <$> l) ++ Live x :: replicate (Z.to_nat c - length l - 1) Raw
  = block_of (l ++ [x]) c.
Proof.
  unfold block_of. rewrite fmap_app, <- app_assoc, length_app. cbn.
  do 3 f_equal. lia.
Qed.

(** The vector that a reallocation leaves behind satisfies the invariant. *)
Lemma owns_reallocated (h : heap) p l c n :
  match p with Null => True | Ptr b _ => (b < length h)%nat end ->
  n = Z.of_nat (length l) ->
  0 < c -> n <= c < size_t_modulus ->
  owns (released p (h ++ [Some (block_of l c)]))
       (MkVector (MkRawMemory (Ptr (length h) 0) c) n) l.
Proof.
  intros Hp Hn Hc Hcn. unfold owns. cbn [size_ data_ buffer_ capacity_].
  repeat split; try lia.
  replace (Z.to_nat (c - n)) with (Z.to_nat c - length l)%nat by lia.
  destruct p as [|b o]; cbn [released].
  - apply block_at_app_new.
  - apply block_at_new, Hp.
Qed.

(** The vector after an in-place change of its elements satisfies the
    invariant. *)
Lemma owns_updated (h : heap) v l l' b :
  owns h v l ->
  buffer_ (data_ v) = Ptr b 0 ->
  Z.of_nat (length l') <= capacity_ (data_ v) ->
  owns (<[b := Some (block_of l' (capacity_ (data_ v)))]> h)
       (MkVector (data_ v) (Z.of_nat (length l'))) l'.
Proof.
  intros (Hn & Hc & Hb) Eb L. rewrite Eb in Hb. destruct Hb as (_ & Hp & E).
  unfold owns. cbn [size_ data_]. rewrite Eb.
  repeat split; try lia.
  rewrite block_at_insert_eq by (eapply block_at_lt; eauto).
  unfold block_of. do 3 f_equal. lia.
Qed.

(** ** Appending *)

Section Append.

(** The construction of the new element: it yields [x] and leaves the heap
    as it is, however the heap has been extended meanwhile. *)
Variables (mk : H T) (x : T) (h : heap).
Hypothesis mk_Ok : forall k, mk (h ++ k) = Ok (x, h ++ k).

Variables (vs : list Vector) (ls : list RawMemory) (this : nat) (v : Vector)
          (l : list T).
Hypothesis Hv : vs !! this = Some v.
Hypothesis Ho : owns h v l.

Lemma mk_Ok_here : mk h = Ok (x, h).
Proof. specialize (mk_Ok []). rewrite app_nil_r in mk_Ok. exact mk_Ok. Qed.

(** [new (data_ + size_) T(...)] when there is room. *)
Lemma append_in_place :
  size_ v < capacity_ (data_ v) ->
  exists b,
    buffer_ (data_ v) = Ptr b 0 /\
    (p <- RawMemory_plus (Member this) (size_ v) ;;
     in_heap (x <- mk ;; construct_at p x)) (MkState h vs ls)
    = Ok (tt, MkState
                (<[b := Some (block_of (l ++ [x]) (capacity_ (data_ v)))]> h)
                vs ls).
Proof.
  intros L. pose proof Ho as (Hn & Hc & Hb).
  destruct (buffer_ (data_ v)) as [|b o] eqn:Eb; [lia|].
  destruct Hb as (-> & Hp & _).
  pose proof (owns_block_of _ _ _ _ _ Ho Eb) as E.
  exists b. split; [reflexivity|].
  step_by (eapply RawMemory_plus_member; eauto; lia).
  rewrite Eb. cbn [ptr_add].
  apply in_heap_Ok.
  step_by (apply mk_Ok_here).
  rewrite block_of_app_raw in E by lia.
  erewrite (construct_at_middle _ _ (Live <$> l)); eauto.
  - rewrite block_of_snoc. reflexivity.
  - rewrite length_fmap. lia.
Qed.

(** The reallocating branch shared by [PushBack] and [EmplaceBack]. *)
Lemma append_growing :
  size_ v = capacity_ (data_ v) ->
  Z.max 1 (2 * size_ v) <= max_alloc ->
  with_new_data (grown_capacity (size_ v)) (fun new_data =>
    p <- RawMemory_plus new_data (size_ v) ;;
    in_heap (x <- mk ;; construct_at p x) ;;
    b <- begin_ this ;;
    dst <- RawMemory_GetAddress new_data ;;
    in_heap (UninitializedMoveOrCopyN b (size_ v) dst) ;;
    b <- begin_ this ;;
    in_heap (destroy_n b (Z.to_nat (size_ v))) ;;
    RawMemory_Swap (Member this) new_data) (MkState h vs ls)
  = Ok (tt, MkState
              (released (buffer_ (data_ v))
                 (h ++ [Some (block_of (l ++ [x]) (Z.max 1 (2 * size_ v)))]))
              (<[this := MkVector
                           (MkRawMemory (Ptr (length h) 0) (Z.max 1 (2 * size_ v)))
                           (size_ v)]> vs)
              ls).
Proof.
  pose proof max_alloc_lt as Hmax.
  intros Hfull Hg. pose proof Ho as (Hn & Hc & Hb).
  assert (Eg : grown_capacity (size_ v) = Z.max 1 (2 * size_ v)).
  { unfold grown_capacity.
    destruct (Z.eqb_spec (size_ v) 0) as [->|N]; [reflexivity|].
    rewrite to_size_t_small by lia. lia. }
  rewrite Eg in *. set (g := Z.max 1 (2 * size_ v)) in *.
  assert (Lg : size_ v < g) by lia.
  assert (Hraw : replicate (Z.to_nat g) (Raw : slot)
                 = replicate (length l) Raw
                     ++ Raw :: replicate (Z.to_nat g - length l - 1) Raw).
  { rewrite (raw_block_split g (length l)) by lia. f_equal.
    apply replicate_sub_cons. lia. }
  destruct (buffer_ (data_ v)) as [|b o] eqn:Eb.
  - assert (El : l = []) by (destruct l; [reflexivity | cbn in Hn; lia]).
    subst l. cbn [length] in *.
    eapply with_new_data_Ok with (old := data_ v); [lia | lia | | ].
    + step_by (apply RawMemory_plus_local; cbn; lia).
      cbn [buffer_ ptr_add].
      step_by (apply in_heap_Ok;
               step_by (apply mk_Ok);
               eapply (construct_at_middle _ _ []);
               [ cbn [length]; lia | rewrite Hraw; apply block_at_app_new ]).
      rewrite insert_last_local.
      step_by (eapply begin_Ok; eauto).
      step_by (apply get_buffer_local).
      rewrite Eb. replace (size_ v) with 0 by lia. cbn [Z.to_nat].
      step_by (apply in_heap_Ok; unfold UninitializedMoveOrCopyN;
               destruct nothrow_move_or_no_copy; reflexivity).
      step_by (eapply begin_Ok; eauto).
      step_by (apply in_heap_Ok; reflexivity).
      rewrite RawMemory_Swap_member_local with (v := v) by exact Hv.
      replace (size_ v) with 0 by lia. reflexivity.
    + rewrite Eb. cbn [released operator_delete].
      rewrite <- (block_of_snoc [] x g). reflexivity.
  - destruct Hb as (-> & Hp & _).
    pose proof (owns_block_of _ _ _ _ _ Ho Eb) as E.
    assert (Lb : (b < length h)%nat) by (eapply block_at_lt; eauto).
    eapply with_new_data_Ok with (old := data_ v); [lia | lia | | ].
    + step_by (apply RawMemory_plus_local; cbn; lia).
      cbn [buffer_ ptr_add].
      step_by (apply in_heap_Ok;
               step_by (apply mk_Ok);
               eapply (construct_at_middle _ _ (replicate (length l) Raw));
               [ rewrite length_replicate; lia
               | rewrite Hraw; apply block_at_app_new ]).
      rewrite insert_last_local.
      step_by (eapply begin_Ok; eauto).
      step_by (apply get_buffer_local).
      rewrite Eb. cbn [buffer_].
      rewrite (heap_old_start h b _ _ E).
      step_by (apply in_heap_Ok;
               eapply (UninitializedMoveOrCopyN_spec l _ b (length h) [] _ []);
               [ lia | apply block_at_old, Lb | apply block_at_new, Lb
               | apply length_replicate | reflexivity | reflexivity | exact Hn ]).
      rewrite list_insert_insert_eq, heap_new_over_old by exact Lb.
      step_by (eapply begin_Ok; eauto).
      rewrite Eb, Hn, Nat2Z.id.
      step_by (apply in_heap_Ok;
               eapply (destroy_n_spec_len (left_behind <$> l) _ _ b []);
               [ apply block_at_old, Lb | reflexivity
               | rewrite length_fmap; reflexivity ]).
      rewrite list_insert_insert_eq.
      rewrite RawMemory_Swap_member_local with (v := v) by exact Hv.
      rewrite Hn. reflexivity.
    + rewrite Eb. cbn [app released].
      rewrite block_of_snoc. apply operator_delete_old, Lb.
Qed.

End Append.

(** A reference that can be read keeps its value when the heap grows. *)
Lemma slot_at_app (h k : heap) p y :
  slot_at h p = Some y -> slot_at (h ++ k) p = Some y.
Proof.
  destruct p as [|b o]; cbn; [discriminate|].
  destruct (o <? 0); [discriminate|].
  destruct (block_at h b) as [blk|] eqn:E; [|discriminate].
  rewrite (block_at_app_l _ k _ _ E). auto.
Qed.

Lemma copy_value_app (h : heap) r x :
  copy_value r h = Ok (x, h) ->
  forall k, copy_value r (h ++ k) = Ok (x, h ++ k).
Proof.
  intros E k. destruct r as [y|p]; cbn in *.
  - inversion E. reflexivity.
  - unfold load in *.
    destruct (slot_at h p) as [[|y]|] eqn:Es; try discriminate.
    inversion E; subst. rewrite (slot_at_app _ k _ _ Es). reflexivity.
Qed.

Section PushBack.

Variables (h : heap) (vs : list Vector) (ls : list RawMemory) (this : nat)
          (v : Vector) (l : list T).
Hypothesis Hv : vs !! this = Some v.
Hypothesis Ho : owns h v l.

Lemma PushBack_copy_full value x :
  copy_value value h = Ok (x, h) ->
  size_ v = capacity_ (data_ v) ->
  Z.max 1 (2 * size_ v) <= max_alloc ->
  PushBack_copy this value (MkState h vs ls)
  = Ok (tt, MkState
              (released (buffer_ (data_ v))
                 (h ++ [Some (block_of (l ++ [x]) (Z.max 1 (2 * size_ v)))]))
              (<[this := MkVector
                           (MkRawMemory (Ptr (length h) 0) (Z.max 1 (2 * size_ v)))
                           (size_ v + 1)]> vs)
              ls).
Proof.
  pose proof max_alloc_lt as Hmax.
  intros Ex Hfull Hg. pose proof Ho as (Hn & Hc & _).
  assert (L : (this < length vs)%nat) by (eapply lookup_lt_Some; eauto).
  unfold PushBack_copy.
  step_by (eapply Size_Ok; eauto).
  step_by (eapply Capacity_Ok; eauto).
  rewrite <- Hfull, Z.eqb_refl.
  step_by (eapply (append_growing (copy_value value) x); eauto using copy_value_app).
  erewrite increment_size_Ok by (apply list_lookup_insert_eq, L).
  cbn [data_ size_]. rewrite list_insert_insert_eq.
  rewrite to_size_t_small by lia. reflexivity.
Qed.

Lemma PushBack_move_full x :
  size_ v = capacity_ (data_ v) ->
  Z.max 1 (2 * size_ v) <= max_alloc ->
  PushBack_move this (Outside x) (MkState h vs ls)
  = Ok (tt, MkState
              (released (buffer_ (data_ v))
                 (h ++ [Some (block_of (l ++ [x]) (Z.max 1 (2 * size_ v)))]))
              (<[this := MkVector
                           (MkRawMemory (Ptr (length h) 0) (Z.max 1 (2 * size_ v)))
                           (size_ v + 1)]> vs)
              ls).
Proof.
  pose proof max_alloc_lt as Hmax.
  intros Hfull Hg. pose proof Ho as (Hn & Hc & _).
  assert (L : (this < length vs)%nat) by (eapply lookup_lt_Some; eauto).
  unfold PushBack_move.
  step_by (eapply Size_Ok; eauto).
  step_by (eapply Capacity_Ok; eauto).
  rewrite <- Hfull, Z.eqb_refl.
  step_by (eapply (append_growing (move_value (Outside x)) x); eauto; reflexivity).
  erewrite increment_size_Ok by (apply list_lookup_insert_eq, L).
  cbn [data_ size_]. rewrite list_insert_insert_eq.
  rewrite to_size_t_small by lia. reflexivity.
Qed.

Lemma PushBack_copy_room value x :
  copy_value value h = Ok (x, h) ->
  size_ v < capacity_ (data_ v) ->
  exists b,
    buffer_ (data_ v) = Ptr b 0 /\
    PushBack_copy this value (MkState h vs ls)
    = Ok (tt, MkState
                (<[b := Some (block_of (l ++ [x]) (capacity_ (data_ v)))]> h)
                (<[this := MkVector (data_ v) (size_ v + 1)]> vs)
                ls).
Proof.
  intros Ex Hroom. pose proof Ho as (Hn & Hc & _).
  destruct (append_in_place (copy_value value) x h (copy_value_app _ _ _ Ex)
              vs ls this v l Hv Ho Hroom) as (b & Eb & E).
  exists b. split; [exact Eb|].
  unfold PushBack_copy.
  step_by (eapply Size_Ok; eauto).
  step_by (eapply Capacity_Ok; eauto).
  destruct (Z.eqb_spec (size_ v) (capacity_ (data_ v))) as [|_]; [lia|].
  erewrite bind_Ok by exact E.
  erewrite increment_size_Ok by exact Hv.
  rewrite to_size_t_small by lia. reflexivity.
Qed.

End PushBack.

(** [PushBack(T&&)] of a temporary when there is room. *)
Lemma PushBack_move_room (h : heap) vs ls this v l x :
  vs !! this = Some v ->
  owns h v l ->
  size_ v < capacity_ (data_ v) ->
  exists b,
    buffer_ (data_ v) = Ptr b 0 /\
    PushBack_move this (Outside x) (MkState h vs ls)
    = Ok (tt, MkState
                (<[b := Some (block_of (l ++ [x]) (capacity_ (data_ v)))]> h)
                (<[this := MkVector (data_ v) (size_ v + 1)]> vs)
                ls).
Proof.
  intros Hv Ho Hroom. pose proof Ho as (Hn & Hc & _).
  destruct (append_in_place (move_value (Outside x)) x h (fun k => eq_refl)
              vs ls this v l Hv Ho Hroom) as (b & Eb & E).
  exists b. split; [exact Eb|].
  unfold PushBack_move.
  step_by (eapply Size_Ok; eauto).
  step_by (eapply Capacity_Ok; eauto).
  destruct (Z.eqb_spec (size_ v) (capacity_ (data_ v))) as [|_]; [lia|].
  erewrite bind_Ok by exact E.
  erewrite increment_size_Ok by exact Hv.
  rewrite to_size_t_small by lia. reflexivity.
Qed.

(** ** From the invariant to the observations and back *)

Lemma observed_intro (h : heap) vs ls this v l c :
  vs !! this = Some v ->
  owns h v l ->
  capacity_ (data_ v) = c ->
  observed (MkState h vs ls) this c l.
Proof.
  intros Hv Ho <-. assert (Hh : holds (MkState h vs ls) this l) by (exists v; auto).
  split; [|split; [|split]].
  - exact Hh.
  - eapply Capacity_Ok; eauto.
  - apply holds_Size, Hh.
  - apply holds_elements, Hh.
Qed.

Lemma holds_inv s this l c :
  holds s this l ->
  Capacity this s = Ok (c, s) ->
  exists h vs ls v,
    s = MkState h vs ls /\ vs !! this = Some v /\ owns h v l /\
    capacity_ (data_ v) = c.
Proof.
  intros (v & Hv & Ho) Ec. destruct s as [h vs ls]. cbn in *.
  exists h, vs, ls, v.
  split; [reflexivity|]. split; [exact Hv|]. split; [exact Ho|].
  erewrite Capacity_Ok in Ec by eauto. inversion Ec. reflexivity.
Qed.

Lemma owns_buffer_lt (h : heap) v l :
  owns h v l ->
  match buffer_ (data_ v) with
  | Null => True
  | Ptr b _ => (b < length h)%nat
  end.
Proof.
  intros (_ & _ & Hb). destruct (buffer_ (data_ v)); [exact I|].
  destruct Hb as (_ & _ & E). eapply block_at_lt; eauto.
Qed.

(** ** Claims about [Reserve] and [PushBack] *)

(** C4. [PushBack] on a vector whose length equals its capacity [c]
    reallocates: provided the request for [max(1, 2c)] slots is granted, it
    returns with [Capacity() == max(1, 2c)] and [Size() == c + 1], the
    first [c] elements being the former ones in order and the last one the
    appended value. This holds for [PushBack(const T&)], whatever the
    argument refers to, and for [PushBack(T&&)] of an object that is not an
    element of a vector. *)
Theorem PushBack_at_capacity s this l c :
  holds s this l ->
  Capacity this s = Ok (c, s) ->
  Size this s = Ok (c, s) ->
  Z.max 1 (2 * c) <= max_alloc ->
  (forall value x,
     copy_value value (mem s) = Ok (x, mem s) ->
     exists s',
       PushBack_copy this value s = Ok (tt, s') /\
       observed s' this (Z.max 1 (2 * c)) (l ++ [x]) /\
       Size this s' = Ok (c + 1, s')) /\
  (forall x,
     exists s',
       PushBack_move this (Outside x) s = Ok (tt, s') /\
       observed s' this (Z.max 1 (2 * c)) (l ++ [x]) /\
       Size this s' = Ok (c + 1, s')).
Proof.
  pose proof max_alloc_lt as Hmax.
  intros Hh Ec Es Hg.
  destruct (holds_inv _ _ _ _ Hh Ec) as (h & vs & ls & v & -> & Hv & Ho & Hc).
  erewrite Size_Ok in Es by eauto.
  assert (Hs : size_ v = c) by congruence. clear Es.
  pose proof Ho as (Hn & Hr & _).
  assert (L : (this < length vs)%nat) by (eapply lookup_lt_Some; eauto).
  assert (Hpost : forall x,
    observed
      (MkState
         (released (buffer_ (data_ v))
            (h ++ [Some (block_of (l ++ [x]) (Z.max 1 (2 * size_ v)))]))
         (<[this := MkVector
                      (MkRawMemory (Ptr (length h) 0) (Z.max 1 (2 * size_ v)))
                      (size_ v + 1)]> vs) ls)
      this (Z.max 1 (2 * c)) (l ++ [x]) /\
    Size this
      (MkState
         (released (buffer_ (data_ v))
            (h ++ [Some (block_of (l ++ [x]) (Z.max 1 (2 * size_ v)))]))
         (<[this := MkVector
                      (MkRawMemory (Ptr (length h) 0) (Z.max 1 (2 * size_ v)))
                      (size_ v + 1)]> vs) ls)
    = Ok (c + 1,
          MkState
            (released (buffer_ (data_ v))
               (h ++ [Some (block_of (l ++ [x]) (Z.max 1 (2 * size_ v)))]))
            (<[this := MkVector
                         (MkRawMemory (Ptr (length h) 0) (Z.max 1 (2 * size_ v)))
                         (size_ v + 1)]> vs) ls)).
  { intros x. split.
    - eapply observed_intro;
        [apply list_lookup_insert_eq, L | | cbn; lia].
      apply owns_reallocated.
      + apply (owns_buffer_lt _ _ _ Ho).
      + rewrite length_app. cbn. lia.
      + lia.
      + lia.
    - erewrite Size_Ok by (apply list_lookup_insert_eq, L).
      cbn. rewrite Hs. reflexivity. }
  split.
  - intros value x Ex. eexists. split; [|apply Hpost].
    cbn in Ex. eapply PushBack_copy_full; eauto; lia.
  - intros x. eexists. split; [|apply Hpost].
    eapply PushBack_move_full; eauto; lia.
Qed.

Lemma owns_default (h : heap) : owns h Vector_default [].
Proof. unfold owns, size_t_modulus. cbn. lia. Qed.

Lemma Reserve_no_op (h : heap) vs ls this v n :
  vs !! this = Some v ->
  n <= capacity_ (data_ v) ->
  Reserve this n (MkState h vs ls) = Ok (tt, MkState h vs ls).
Proof.
  intros Hv L. unfold Reserve.
  step_by (eapply Capacity_Ok; eauto).
  destruct (Z.leb_spec n (capacity_ (data_ v))); [reflexivity | lia].
Qed.

(** C6. [Reserve(n)] changes nothing when [n <= Capacity()]. Otherwise,
    provided the request for [n] slots is granted, it returns with
    [Capacity() == n] exactly, and with [Size()] and all elements as they
    were. In the scenario [Vector<T> v; v.Reserve(10); v.PushBack(1);], where
    the push of the temporary is [PushBack(T&&)], the result has
    [Size() == 1] and [Capacity() == 10], and the push does not reallocate:
    [begin()] is unchanged. *)
Theorem Reserve_spec s this l c n :
  holds s this l ->
  Capacity this s = Ok (c, s) ->
  (n <= c -> Reserve this n s = Ok (tt, s)) /\
  (c < n <= max_alloc ->
     exists s', Reserve this n s = Ok (tt, s') /\ observed s' this n l) /\
  (10 <= max_alloc ->
     forall s0 x, exists s', reserve_then_push x s0 = Ok ((1, 10, true), s')).
Proof.
  pose proof max_alloc_lt as Hmax.
  intros Hh Ec.
  destruct (holds_inv _ _ _ _ Hh Ec) as (h & vs & ls & v & -> & Hv & Ho & Hc).
  pose proof Ho as (Hn & Hr & _).
  assert (L : (this < length vs)%nat) by (eapply lookup_lt_Some; eauto).
  split; [|split].
  - intros Hle. eapply Reserve_no_op; eauto. lia.
  - intros Hgt. eexists. split.
    + eapply Reserve_grow; eauto. lia.
    + eapply observed_intro;
        [apply list_lookup_insert_eq, L | | reflexivity].
      apply owns_reallocated; try lia.
      apply (owns_buffer_lt _ _ _ Ho).
  - intros H10 [h0 vs0 ls0] x. unfold reserve_then_push.
    step_by reflexivity. cbn [mem vectors locals].
    step_by (eapply (Reserve_grow _ _ _ _ Vector_default []);
             [apply lookup_last_local | apply owns_default | cbn; lia]).
    cbn [Vector_default RawMemory_default data_ buffer_ size_ released].
    rewrite insert_last_local.
    set (v1 := MkVector (MkRawMemory (Ptr (length h0) 0) 10) 0).
    assert (Ho1 : owns (h0 ++ [Some (block_of [] 10)]) v1 []).
    { apply (owns_reallocated h0 Null []); unfold size_t_modulus; cbn;
        try lia; try exact I. }
    destruct (PushBack_move_room (h0 ++ [Some (block_of [] 10)])
                (vs0 ++ [v1]) ls0 (length vs0) v1 [] x
                (lookup_last_local _ _) Ho1)
      as (b & Eb & Ep); [cbn; lia|].
    step_by (eapply begin_Ok; apply lookup_last_local).
    step_by (exact Ep).
    rewrite insert_last_local.
    step_by (eapply begin_Ok; apply lookup_last_local).
    step_by (eapply Size_Ok; apply lookup_last_local).
    step_by (eapply Capacity_Ok; apply lookup_last_local).
    cbn. rewrite Nat.eqb_refl. eexists. reflexivity.
Qed.

(** ** [Resize] *)

(** The elements after [Resize(n)]. *)
Definition resized (l : list T) (n : Z) : list T :=
  take (Z.to_nat n) l ++ replicate (Z.to_nat n - length l) value_init.

Lemma resized_length l n : 0 <= n -> Z.of_nat (length (resized l n)) = n.
Proof.
  intros L. unfold resized. rewrite length_app, length_take, length_replicate. lia.
Qed.

Lemma block_of_shrunk (l : list T) (n : nat) (c : Z) :
  (n <= length l)%nat -> Z.of_nat (length l) <= c ->
  (Live <$> take n l) ++ replicate (length (drop n l)) Raw
    ++ replicate (Z.to_nat c - length l) Raw
  = block_of (take n l) c.
Proof.
  intros L Lc. unfold block_of. f_equal. rewrite <- replicate_add. f_equal.
  rewrite length_drop, length_take. lia.
Qed.

Lemma block_of_grown (l : list T) (k : nat) (c : Z) :
  Z.of_nat (length l + k) <= c ->
  (Live <$> l) ++ replicate k (Live value_init)
    ++ replicate (Z.to_nat c - length l - k) Raw
  = block_of (l ++ replicate k value_init) c.
Proof.
  intros L. unfold block_of.
  rewrite fmap_app, fmap_replicate, <- app_assoc, length_app, length_replicate.
  do 3 f_equal. lia.
Qed.

Section Resize.

Variables (h : heap) (vs : list Vector) (ls : list RawMemory) (this : nat)
          (v : Vector) (l : list T).
Hypothesis Hv : vs !! this = Some v.
Hypothesis Ho : owns h v l.

Lemma Resize_same :
  Resize this (size_ v) (MkState h vs ls) = Ok (tt, MkState h vs ls).
Proof.
  unfold Resize. step_by (eapply get_size_Ok; eauto).
  rewrite Z.eqb_refl. reflexivity.
Qed.

Lemma Resize_shrink n :
  0 <= n < size_ v ->
  exists b,
    buffer_ (data_ v) = Ptr b 0 /\
    Resize this n (MkState h vs ls)
    = Ok (tt, MkState
                (<[b := Some (block_of (take (Z.to_nat n) l) (capacity_ (data_ v)))]> h)
                (<[this := MkVector (data_ v) n]> vs) ls).
Proof.
  intros L. pose proof Ho as (Hn & Hc & Hb).
  destruct (buffer_ (data_ v)) as [|b o] eqn:Eb; [lia|].
  destruct Hb as (-> & Hp & _).
  pose proof (owns_block_of _ _ _ _ _ Ho Eb) as E.
  exists b. split; [reflexivity|].
  unfold Resize. step_by (eapply get_size_Ok; eauto).
  destruct (Z.eqb_spec n (size_ v)) as [|_]; [lia|].
  destruct (Z.ltb_spec n (size_ v)) as [_|]; [|lia].
  step_by (eapply get_buffer_member; eauto).
  rewrite Eb. cbn [ptr_add].
  rewrite to_size_t_small by lia.
  unfold block_of in E.
  rewrite <- (take_drop (Z.to_nat n) l) in E at 1.
  rewrite fmap_app, <- app_assoc in E.
  step_by (apply in_heap_Ok;
           eapply (destroy_n_spec_len (drop (Z.to_nat n) l) _ _ b
                     (Live <$> take (Z.to_nat n) l));
           [ exact E
           | rewrite length_fmap, length_take; lia
           | rewrite length_drop; lia ]).
  erewrite set_size_Ok by exact Hv.
  replace (Z.to_nat (size_ v - n)) with (length (drop (Z.to_nat n) l))
    by (rewrite length_drop; lia).
  rewrite block_of_shrunk by lia. reflexivity.
Qed.

(** The construction of the new trailing elements, once there is room. *)
Lemma Resize_fill n m :
  m = size_ v ->
  size_ v < n <= capacity_ (data_ v) ->
  exists b,
    buffer_ (data_ v) = Ptr b 0 /\
    uninitialized_value_construct_n (ptr_add (Ptr b 0) m)
      (Z.to_nat (to_size_t (n - m))) h
    = Ok (tt, <[b := Some (block_of (resized l n) (capacity_ (data_ v)))]> h).
Proof.
  intros -> L. pose proof Ho as (Hn & Hc & Hb).
  destruct (buffer_ (data_ v)) as [|b o] eqn:Eb; [lia|].
  destruct Hb as (-> & Hp & _).
  pose proof (owns_block_of _ _ _ _ _ Ho Eb) as E.
  exists b. split; [reflexivity|].
  cbn [ptr_add].
  rewrite to_size_t_small by lia.
  unfold block_of in E.
  rewrite (replicate_split (Z.to_nat (capacity_ (data_ v)) - length l)
             (Z.to_nat (n - size_ v))) in E by lia.
  erewrite (uninitialized_value_construct_n_spec _ _ b (Live <$> l)); eauto.
  - unfold resized. rewrite take_ge by lia.
    rewrite <- block_of_grown by lia.
    replace (Z.to_nat (n - size_ v)) with (Z.to_nat n - length l)%nat by lia.
    reflexivity.
  - rewrite length_replicate. lia.
  - rewrite length_fmap. lia.
Qed.

End Resize.

Lemma Resize_grow (h : heap) vs ls this v l n :
  vs !! this = Some v ->
  owns h v l ->
  size_ v < n ->
  n <= Z.max (capacity_ (data_ v)) max_alloc ->
  exists h' v',
    Resize this n (MkState h vs ls)
    = Ok (tt, MkState h' (<[this := v']> vs) ls) /\
    owns h' v' (resized l n) /\
    capacity_ (data_ v') = Z.max (capacity_ (data_ v)) n /\
    size_ v' = n.
Proof.
  pose proof max_alloc_lt as Hmax.
  intros Hv Ho Hlt Hle. pose proof Ho as (Hn & Hc & _).
  assert (L : (this < length vs)%nat) by (eapply lookup_lt_Some; eauto).
  (* the state once [Reserve(n)] has returned *)
  assert (exists h1 v1,
    Reserve this n (MkState h vs ls)
    = Ok (tt, MkState h1 (<[this := v1]> vs) ls) /\
    owns h1 v1 l /\
    capacity_ (data_ v1) = Z.max (capacity_ (data_ v)) n /\
    size_ v1 = size_ v) as (h1 & v1 & Er & Ho1 & Hc1 & Hs1).
  { destruct (Z.le_gt_cases n (capacity_ (data_ v))) as [Hroom|Hgrow].
    - exists h, v. rewrite list_insert_id by exact Hv.
      split; [eapply Reserve_no_op; eauto|].
      split; [exact Ho|]. split; [lia | reflexivity].
    - eexists _, _. split; [eapply Reserve_grow; eauto; lia|].
      split; [|cbn; split; [lia | reflexivity]].
      apply owns_reallocated; try lia.
      apply (owns_buffer_lt _ _ _ Ho). }
  assert (Hv1 : <[this := v1]> vs !! this = Some v1)
    by (apply list_lookup_insert_eq, L).
  destruct (Resize_fill h1 v1 l Ho1 n (size_ v))
    as (b & Eb & Ef); [congruence | lia |].
  exists (<[b := Some (block_of (resized l n) (capacity_ (data_ v1)))]> h1),
         (MkVector (data_ v1) n).
  split; [|split; [|split; [exact Hc1 | reflexivity]]].
  - unfold Resize. step_by (eapply get_size_Ok; eauto).
    destruct (Z.eqb_spec n (size_ v)) as [|_]; [lia|].
    destruct (Z.ltb_spec n (size_ v)) as [|_]; [lia|].
    step_by (exact Er).
    step_by (eapply get_buffer_member; eauto).
    rewrite Eb.
    step_by (apply in_heap_Ok; exact Ef).
    erewrite set_size_Ok by exact Hv1.
    rewrite list_insert_insert_eq. reflexivity.
  - rewrite <- (resized_length l n) at 2 by lia.
    apply owns_updated with (l := l); auto.
    rewrite resized_length; lia.
Qed.

(** The slots beyond the size of a vector hold no object. *)
Lemma owns_raw_beyond (h : heap) v l b i :
  owns h v l ->
  buffer_ (data_ v) = Ptr b 0 ->
  size_ v <= i < capacity_ (data_ v) ->
  slot_at h (Ptr b i) = Some Raw.
Proof.
  intros Ho Eb L. pose proof Ho as (Hn & Hc & _).
  pose proof (owns_block_of _ _ _ _ _ Ho Eb) as E.
  unfold slot_at. rewrite E.
  destruct (Z.ltb_spec i 0); [lia|].
  unfold block_of. rewrite lookup_app_r by (rewrite length_fmap; lia).
  apply lookup_replicate_2. rewrite length_fmap. lia.
Qed.

(** C7. [Resize(n)] on a vector of length [m], provided the storage it may
    need is granted, returns with [Size() == n]; the elements at
    [[0, min(m, n))] are the former ones, the elements at [[m, n)] are
    value-initialized, the slots from [n] on hold no object (the trailing
    elements of a longer vector have been destroyed), and nothing changes
    when [n == m]. *)
Theorem Resize_spec s this l c n :
  holds s this l ->
  Capacity this s = Ok (c, s) ->
  0 <= n ->
  n <= Z.max c max_alloc ->
  exists s',
    Resize this n s = Ok (tt, s') /\
    observed s' this (Z.max c n) (resized l n) /\
    Size this s' = Ok (n, s') /\
    (forall i, (i < Nat.min (length l) (Z.to_nat n))%nat ->
               resized l n !! i = l !! i) /\
    (forall i, (length l <= i < Z.to_nat n)%nat ->
               resized l n !! i = Some value_init) /\
    (forall b i, begin_ this s' = Ok (b, s') -> n <= i < Z.max c n ->
                 slot_at (mem s') (ptr_add b i) = Some Raw) /\
    (n = Z.of_nat (length l) -> s' = s).
Proof.
  intros Hh Ec Hn0 Hle.
  destruct (holds_inv _ _ _ _ Hh Ec) as (h & vs & ls & v & -> & Hv & Ho & Hc).
  pose proof Ho as (Hn & Hr & _).
  assert (L : (this < length vs)%nat) by (eapply lookup_lt_Some; eauto).
  assert (exists h' v',
    Resize this n (MkState h vs ls)
    = Ok (tt, MkState h' (<[this := v']> vs) ls) /\
    owns h' v' (resized l n) /\
    capacity_ (data_ v') = Z.max c n /\
    size_ v' = n /\
    (n = Z.of_nat (length l) -> h' = h /\ v' = v))
    as (h' & v' & Er & Ho' & Hc' & Hs' & Hsame).
  { destruct (Z.lt_trichotomy n (size_ v)) as [Hlt|[Heq|Hgt]].
    - destruct (Resize_shrink h vs ls this v l Hv Ho n) as (b & Eb & E); [lia|].
      eexists _, _. split; [exact E|].
      assert (Er : resized l n = take (Z.to_nat n) l).
      { unfold resized.
        replace (Z.to_nat n - length l)%nat with 0%nat by lia.
        cbn. apply app_nil_r. }
      rewrite Er. split; [|cbn; split; [lia | split; [reflexivity | lia]]].
      replace n with (Z.of_nat (length (take (Z.to_nat n) l))) at 2
        by (rewrite length_take; lia).
      apply owns_updated with (l := l); auto.
      rewrite length_take. lia.
    - exists h, v. subst n. rewrite list_insert_id by exact Hv.
      split; [eapply Resize_same; eauto|].
      assert (Er : resized l (size_ v) = l).
      { unfold resized. rewrite take_ge by lia.
        replace (Z.to_nat (size_ v) - length l)%nat with 0%nat by lia.
        cbn. apply app_nil_r. }
      rewrite Er. split; [exact Ho|].
      split; [lia|]. split; [reflexivity | auto].
    - destruct (Resize_grow h vs ls this v l n Hv Ho) as (h' & v' & E & Ho' & Hc' & Hs');
        [lia | lia |].
      exists h', v'. split; [exact E|]. split; [exact Ho'|].
      split; [lia|]. split; [exact Hs' | lia]. }
  assert (Hv' : <[this := v']> vs !! this = Some v')
    by (apply list_lookup_insert_eq, L).
  exists (MkState h' (<[this := v']> vs) ls).
  split; [exact Er|]. split; [eapply observed_intro; eauto|].
  split; [erewrite Size_Ok by exact Hv'; rewrite Hs'; reflexivity|].
  split; [|split; [|split]].
  - intros i Hi. unfold resized.
    rewrite lookup_app_l by (rewrite length_take; lia).
    apply lookup_take_lt. lia.
  - intros i Hi. unfold resized.
    rewrite lookup_app_r by (rewrite length_take; lia).
    apply lookup_replicate_2. rewrite length_take. lia.
  - intros b i Eb Hi. erewrite begin_Ok in Eb by exact Hv'.
    inversion Eb as [Hb]. cbn [mem].
    pose proof Ho' as (_ & _ & Hbuf).
    destruct (buffer_ (data_ v')) as [|b' o] eqn:Eb'; [lia|].
    destruct Hbuf as (-> & _ & _). cbn [ptr_add].
    eapply owns_raw_beyond; eauto. lia.
  - intros Hsame'. destruct (Hsame Hsame') as (-> & ->).
    rewrite list_insert_id by exact Hv. reflexivity.
Qed.

(** ** [Erase] *)

Lemma range_length_Ok (h : heap) b o o' :
  o <= o' ->
  range_length (Ptr b o) (Ptr b o') h = Ok (Z.to_nat (o' - o), h).
Proof.
  intros L. unfold range_length. cbn. rewrite Nat.eqb_refl.
  destruct (Z.ltb_spec (o' - o) 0); [lia | reflexivity].
Qed.

Lemma require_cmp_true {S} (c : option bool) (s : S) :
  c = Some true -> require_cmp c s = Ok (tt, s).
Proof. intros ->. reflexivity. Qed.

Lemma block_of_erased (l1 l2 : list T) (c : Z) (k : nat) :
  k = (Z.to_nat c - length l1 - S (length l2))%nat ->
  Z.of_nat (length l1 + S (length l2)) <= c ->
  (Live <$> l1) ++ (Live <$> l2) ++ Raw :: replicate k Raw
  = block_of (l1 ++ l2) c.
Proof.
  intros -> L. unfold block_of.
  rewrite fmap_app, <- app_assoc, length_app. do 2 f_equal.
  change (Raw :: replicate ?n Raw) with (replicate (S n) (Raw : slot)).
  f_equal. lia.
Qed.

Lemma Erase_Ok (h : heap) vs ls this v l b (i : nat) :
  vs !! this = Some v ->
  owns h v l ->
  buffer_ (data_ v) = Ptr b 0 ->
  (i < length l)%nat ->
  Erase this (Ptr b (Z.of_nat i)) (MkState h vs ls)
  = Ok (Ptr b (Z.of_nat i),
        MkState
          (<[b := Some (block_of (take i l ++ drop (S i) l) (capacity_ (data_ v)))]> h)
          (<[this := MkVector (data_ v) (size_ v - 1)]> vs) ls).
Proof.
  intros Hv Ho Eb Hi. pose proof Ho as (Hn & Hc & _).
  pose proof (owns_block_of _ _ _ _ _ Ho Eb) as E.
  assert (L : (this < length vs)%nat) by (eapply lookup_lt_Some; eauto).
  assert (Lb : (b < length h)%nat) by (eapply block_at_lt; eauto).
  destruct (lookup_lt_is_Some_2 l i Hi) as [x Hx].
  unfold block_of in E.
  rewrite <- (take_drop_middle l i x Hx) in E at 1.
  rewrite fmap_app, fmap_cons, <- app_assoc in E. cbn [app] in E.
  unfold Erase.
  step_by (eapply begin_Ok; eauto). rewrite Eb.
  step_by (apply require_cmp_true; unfold ptr_leb; cbn;
           rewrite Nat.eqb_refl; f_equal; apply Z.leb_le; lia).
  step_by (eapply end_Ok; eauto; lia). rewrite Eb. cbn [ptr_add].
  step_by (apply require_cmp_true; unfold ptr_ltb; cbn;
           rewrite Nat.eqb_refl; f_equal; apply Z.ltb_lt; lia).
  step_by (unfold offset_of; cbn; rewrite Nat.eqb_refl; reflexivity).
  rewrite Z.sub_0_r, to_size_t_small by lia.
  step_by (eapply RawMemory_plus_member; eauto; lia). rewrite Eb. cbn [ptr_add].
  step_by (eapply end_Ok; eauto; lia). rewrite Eb. cbn [ptr_add].
  rewrite !Z.add_0_l.
  step_by (apply in_heap_Ok; unfold std_move;
           step_by (apply range_length_Ok; lia);
           replace (Z.to_nat (size_ v - (Z.of_nat i + 1)))
             with (length (drop (S i) l)) by (rewrite length_drop; lia);
           eapply (move_n_spec _ _ b (Live <$> take i l));
           [ exact E | rewrite length_fmap, length_take; lia ]).
  unfold PopBack.
  step_by (eapply get_size_Ok; eauto).
  step_by (apply require_true; destruct (Z.eqb_spec (size_ v) 0); [lia | reflexivity]).
  step_by (eapply set_size_Ok; eauto).
  step_by (eapply get_size_Ok; apply list_lookup_insert_eq, L).
  step_by (eapply get_buffer_member; apply list_lookup_insert_eq, L).
  cbn [data_ size_]. rewrite Eb. cbn [ptr_add].
  rewrite to_size_t_small by lia.
  step_by (apply in_heap_Ok;
           eapply (destroy_at_middle _ b
                     ((Live <$> take i l) ++ (Live <$> drop (S i) l)));
           [ rewrite length_app, !length_fmap, length_take, length_drop; lia
           | rewrite block_at_insert_eq by exact Lb;
             rewrite <- app_assoc; reflexivity ]).
  rewrite list_insert_insert_eq, <- app_assoc.
  rewrite (block_of_erased _ _ (capacity_ (data_ v))); [reflexivity | |].
  - rewrite length_take, length_drop. lia.
  - rewrite length_take, length_drop. lia.
Qed.

(** C9. [Erase(position)] with [position == begin() + i] inside
    [[begin(), end())] returns normally: the elements after [i] have moved
    one slot to the left, the length has gone down by one, the capacity and
    the buffer are what they were, and the iterator returned is
    [begin() + i] again. *)
Theorem Erase_spec s this l c b (i : nat) :
  holds s this l ->
  Capacity this s = Ok (c, s) ->
  begin_ this s = Ok (b, s) ->
  (i < length l)%nat ->
  exists s',
    Erase this (ptr_add b (Z.of_nat i)) s = Ok (ptr_add b (Z.of_nat i), s') /\
    observed s' this c (take i l ++ drop (S i) l) /\
    Size this s' = Ok (Z.of_nat (length l) - 1, s') /\
    begin_ this s' = Ok (b, s').
Proof.
  intros Hh Ec Eb Hi.
  destruct (holds_inv _ _ _ _ Hh Ec) as (h & vs & ls & v & -> & Hv & Ho & Hc).
  pose proof Ho as (Hn & Hr & Hbuf).
  assert (L : (this < length vs)%nat) by (eapply lookup_lt_Some; eauto).
  erewrite begin_Ok in Eb by exact Hv.
  assert (Eb' : buffer_ (data_ v) = b) by congruence. clear Eb.
  destruct (buffer_ (data_ v)) as [|b' o] eqn:Ebuf; [lia|].
  destruct Hbuf as (-> & _ & _). subst b. cbn [ptr_add]. rewrite Z.add_0_l.
  eexists. split; [eapply Erase_Ok; eauto|].
  assert (Hv' : <[this := MkVector (data_ v) (size_ v - 1)]> vs !! this
                = Some (MkVector (data_ v) (size_ v - 1)))
    by (apply list_lookup_insert_eq, L).
  assert (Hlen : Z.of_nat (length (take i l ++ drop (S i) l)) = size_ v - 1).
  { rewrite length_app, length_take, length_drop. lia. }
  split; [|split].
  - eapply observed_intro; [exact Hv' | | exact Hc].
    rewrite <- Hlen. apply owns_updated with (l := l); auto. lia.
  - erewrite Size_Ok by exact Hv'. cbn. rewrite Hn. reflexivity.
  - erewrite begin_Ok by exact Hv'. cbn. rewrite Ebuf. reflexivity.
Qed.

(** ** [Emplace] and [Insert] *)

Lemma UninitializedMoveOrCopy_spec xs (h : heap) bs bd pre post pre' mid post' s e d :
  bs <> bd ->
  block_at h bs = Some (pre ++ (Live <$> xs) ++ post) ->
  block_at h bd = Some (pre' ++ mid ++ post') ->
  length mid = length xs ->
  s = Z.of_nat (length pre) -> d = Z.of_nat (length pre') ->
  e = s + Z.of_nat (length xs) ->
  UninitializedMoveOrCopy (Ptr bs s) (Ptr bs e) (Ptr bd d) h
  = Ok (tt, <[bd := Some (pre' ++ (Live <$> xs) ++ post')]>
              (<[bs := Some (pre ++ (Live <$> (left_behind <$> xs)) ++ post)]> h)).
Proof.
  intros N Es Ed L Hs Hd He.
  pose proof (UninitializedMoveOrCopyN_spec xs h bs bd pre post pre' mid post'
                s d (Z.of_nat (length xs)) N Es Ed L Hs Hd eq_refl) as E.
  unfold UninitializedMoveOrCopy, UninitializedMoveOrCopyN,
    uninitialized_move, uninitialized_copy in *.
  destruct nothrow_move_or_no_copy;
    (erewrite bind_Ok by (apply range_length_Ok; lia);
     replace (e - s) with (Z.of_nat (length xs)) by lia; exact E).
Qed.

(** The elements once [x] has been inserted at index [i]. *)
Definition inserted (l : list T) (i : nat) (x : T) : list T :=
  take i l ++ x :: drop i l.

Lemma inserted_length l i x : length (inserted l i x) = S (length l).
Proof.
  unfold inserted. rewrite length_app. cbn [length].
  rewrite length_take, length_drop. lia.
Qed.

Lemma block_of_inserted (l1 l2 : list T) (x : T) (c : Z) (k : nat) :
  k = (Z.to_nat c - length l1 - length l2 - 1)%nat ->
  (Live <$> l1) ++ Live x :: (Live <$> l2) ++ replicate k Raw
  = block_of (l1 ++ x :: l2) c.
Proof.
  intros ->. unfold block_of.
  rewrite fmap_app, fmap_cons, <- app_assoc, length_app. cbn [length app].
  do 4 f_equal. lia.
Qed.

Section Emplace.

Variables (args : ctor_args) (x : T).

Variables (h : heap) (vs : list Vector) (ls : list RawMemory) (this : nat)
          (v : Vector) (l : list T).
Hypothesis Hv : vs !! this = Some v.
Hypothesis Ho : owns h v l.

(** The prologue: the assertion on [pos], and [non_const_pos]. *)
Lemma Emplace_prologue (i : nat) :
  (i <= length l)%nat ->
  Emplace this (ptr_add (buffer_ (data_ v)) (Z.of_nat i)) args (MkState h vs ls)
  = (it <- (if size_ v =? capacity_ (data_ v) then
              with_new_data (grown_capacity (size_ v)) (fun new_data =>
                it <- RawMemory_plus new_data (Z.of_nat i) ;;
                in_heap (x <- make_value args ;; construct_at it x) ;;
                dst <- RawMemory_GetAddress new_data ;;
                in_heap (UninitializedMoveOrCopy (buffer_ (data_ v))
                           (ptr_add (buffer_ (data_ v)) (Z.of_nat i)) dst) ;;
                e <- end_ this ;;
                in_heap (UninitializedMoveOrCopy
                           (ptr_add (buffer_ (data_ v)) (Z.of_nat i)) e
                           (ptr_add it 1)) ;;
                in_heap (destroy_n (buffer_ (data_ v)) (Z.to_nat (size_ v))) ;;
                RawMemory_Swap (Member this) new_data ;;
                ret it)
            else
              (if negb (ptr_eqb (ptr_add (buffer_ (data_ v)) (Z.of_nat i))
                                (ptr_add (buffer_ (data_ v)) (size_ v))) then
                 p <- RawMemory_plus (Member this) (size_ v) ;;
                 last <- Back this ;;
                 in_heap (x <- move_out last ;; construct_at p x) ;;
                 e <- end_ this ;;
                 in_heap (move_backward
                            (ptr_add (buffer_ (data_ v)) (Z.of_nat i))
                            (ptr_add e (-1)) e) ;;
                 in_heap (x <- make_value args ;;
                          assign_at (ptr_add (buffer_ (data_ v)) (Z.of_nat i)) x)
               else
                 p <- RawMemory_plus (Member this) (size_ v) ;;
                 in_heap (x <- make_value args ;; construct_at p x)) ;;
              ret (ptr_add (buffer_ (data_ v)) (Z.of_nat i))) ;;
     increment_size this ;;
     ret it) (MkState h vs ls).
Proof.
  intros Hi. pose proof Ho as (Hn & Hc & Hb).
  unfold Emplace.
  erewrite bind_Ok by (eapply begin_Ok; eauto).
  assert (Hd : ptr_diff (ptr_add (buffer_ (data_ v)) (Z.of_nat i))
                 (buffer_ (data_ v)) = Some (Z.of_nat i)).
  { destruct (buffer_ (data_ v)) as [|b o] eqn:Eb; cbn.
    - f_equal. lia.
    - rewrite Nat.eqb_refl. f_equal. lia. }
  assert (Hd' : ptr_diff (ptr_add (buffer_ (data_ v)) (size_ v))
                  (ptr_add (buffer_ (data_ v)) (Z.of_nat i))
                = Some (size_ v - Z.of_nat i)).
  { destruct (buffer_ (data_ v)) as [|b o] eqn:Eb; cbn.
    - f_equal. lia.
    - rewrite Nat.eqb_refl. f_equal. lia. }
  erewrite bind_Ok by
    (apply require_cmp_true; unfold ptr_leb; rewrite Hd; f_equal;
     apply Z.leb_le; lia).
  erewrite bind_Ok by (eapply end_Ok; eauto; lia).
  erewrite bind_Ok by
    (apply require_cmp_true; unfold ptr_leb; rewrite Hd'; f_equal;
     apply Z.leb_le; lia).
  erewrite bind_Ok by (unfold offset_of; rewrite Hd; reflexivity).
  rewrite to_size_t_small by lia.
  erewrite bind_Ok by (eapply RawMemory_plus_member; eauto; lia).
  erewrite bind_Ok by (eapply Size_Ok; eauto).
  erewrite bind_Ok by (eapply Capacity_Ok; eauto).
  reflexivity.
Qed.

(** The reallocating branch; the arguments are read in the heap as it is
    on entry, with the new block added. *)
Lemma Emplace_growing (i : nat) :
  (forall k, make_value args (h ++ k) = Ok (x, h ++ k)) ->
  (i <= length l)%nat ->
  size_ v = capacity_ (data_ v) ->
  Z.max 1 (2 * size_ v) <= max_alloc ->
  with_new_data (grown_capacity (size_ v)) (fun new_data =>
    it <- RawMemory_plus new_data (Z.of_nat i) ;;
    in_heap (x <- make_value args ;; construct_at it x) ;;
    dst <- RawMemory_GetAddress new_data ;;
    in_heap (UninitializedMoveOrCopy (buffer_ (data_ v))
               (ptr_add (buffer_ (data_ v)) (Z.of_nat i)) dst) ;;
    e <- end_ this ;;
    in_heap (UninitializedMoveOrCopy
               (ptr_add (buffer_ (data_ v)) (Z.of_nat i)) e (ptr_add it 1)) ;;
    in_heap (destroy_n (buffer_ (data_ v)) (Z.to_nat (size_ v))) ;;
    RawMemory_Swap (Member this) new_data ;;
    ret it) (MkState h vs ls)
  = Ok (Ptr (length h) (Z.of_nat i),
        MkState
          (released (buffer_ (data_ v))
             (h ++ [Some (block_of (inserted l i x) (Z.max 1 (2 * size_ v)))]))
          (<[this := MkVector
                       (MkRawMemory (Ptr (length h) 0) (Z.max 1 (2 * size_ v)))
                       (size_ v)]> vs)
          ls).
Proof.
  pose proof max_alloc_lt as Hmax.
  intros args_Ok Hi Hfull Hg. pose proof Ho as (Hn & Hc & Hb).
  assert (Eg : grown_capacity (size_ v) = Z.max 1 (2 * size_ v)).
  { unfold grown_capacity.
    destruct (Z.eqb_spec (size_ v) 0) as [->|N]; [reflexivity|].
    rewrite to_size_t_small by lia. lia. }
  rewrite Eg. set (g := Z.max 1 (2 * size_ v)) in *.
  assert (Lg : size_ v < g) by lia.
  set (l1 := take i l). set (l2 := drop i l).
  assert (Hl1 : length l1 = i) by (unfold l1; rewrite length_take; lia).
  assert (Hl2 : length l2 = (length l - i)%nat) by (unfold l2; apply length_drop).
  assert (Hraw : replicate (Z.to_nat g) (Raw : slot)
                 = replicate i Raw ++ Raw :: replicate (length l2) Raw
                     ++ replicate (Z.to_nat g - length l - 1) Raw).
  { rewrite <- replicate_add.
    change (Raw :: replicate ?n Raw) with (replicate (S n) (Raw : slot)).
    rewrite <- replicate_add. f_equal. lia. }
  destruct (buffer_ (data_ v)) as [|b o] eqn:Eb.
  - assert (El : l = []) by (destruct l; [reflexivity | cbn in Hn; lia]).
    assert (Ei : i = 0%nat) by (rewrite El in Hi; cbn in Hi; lia).
    subst l1 l2. subst i. clear Hi.
    eapply with_new_data_Ok with (old := data_ v); [lia | lia | | ].
    + step_by (apply RawMemory_plus_local; cbn; lia).
      cbn [buffer_ ptr_add].
      step_by (apply in_heap_Ok;
               step_by (apply args_Ok);
               eapply (construct_at_middle _ _ []);
               [ reflexivity | rewrite Hraw; apply block_at_app_new ]).
      rewrite insert_last_local.
      step_by (apply get_buffer_local).
      step_by (apply in_heap_Ok; unfold UninitializedMoveOrCopy,
                 uninitialized_move, uninitialized_copy;
               destruct nothrow_move_or_no_copy; reflexivity).
      step_by (eapply end_Ok; eauto; lia).
      rewrite Eb. cbn [ptr_add].
      step_by (apply in_heap_Ok; unfold UninitializedMoveOrCopy,
                 uninitialized_move, uninitialized_copy;
               destruct nothrow_move_or_no_copy; reflexivity).
      replace (size_ v) with 0 by (rewrite El in Hn; cbn in Hn; lia).
      step_by (apply in_heap_Ok; reflexivity).
      step_by (apply RawMemory_Swap_member_local with (v := v); exact Hv).
      replace (size_ v) with 0 by (rewrite El in Hn; cbn in Hn; lia).
      reflexivity.
    + rewrite Eb. cbn [released operator_delete app].
      unfold inserted.
      rewrite <- (block_of_inserted _ _ x g _ eq_refl).
      rewrite El. cbn. rewrite !Nat.sub_0_r. reflexivity.
  - destruct Hb as (-> & Hp & _).
    pose proof (owns_block_of _ _ _ _ _ Ho Eb) as E.
    assert (Lb : (b < length h)%nat) by (eapply block_at_lt; eauto).
    assert (Hcap : (Z.to_nat (capacity_ (data_ v)) - length l)%nat = 0%nat) by lia.
    unfold block_of in E. rewrite Hcap in E. cbn [replicate] in E.
    rewrite <- (take_drop i l) in E. fold l1 l2 in E.
    rewrite fmap_app in E.
    eapply with_new_data_Ok with (old := data_ v); [lia | lia | | ].
    + step_by (apply RawMemory_plus_local; cbn; lia).
      cbn [buffer_ ptr_add].
      step_by (apply in_heap_Ok;
               step_by (apply args_Ok);
               eapply (construct_at_middle _ _ (replicate i Raw));
               [ rewrite length_replicate; lia
               | rewrite Hraw; apply block_at_app_new ]).
      rewrite insert_last_local.
      step_by (apply get_buffer_local).
      cbn [buffer_ ptr_add].
      rewrite (heap_old_start h b _ _ E).
      step_by (apply in_heap_Ok;
               eapply (UninitializedMoveOrCopy_spec l1 _ b (length h) [] _ []
                         (replicate i Raw));
               [ lia
               | rewrite <- app_assoc; apply block_at_old, Lb
               | apply block_at_new, Lb
               | rewrite length_replicate; lia
               | reflexivity | reflexivity | lia ]).
      rewrite list_insert_insert_eq, heap_new_over_old by exact Lb.
      cbn [app].
      step_by (eapply end_Ok; eauto; lia).
      rewrite Eb. cbn [ptr_add].
      step_by (apply in_heap_Ok;
               eapply (UninitializedMoveOrCopy_spec l2 _ b (length h)
                         (Live <$> (left_behind <$> l1)) []
                         ((Live <$> l1) ++ [Live x])
                         (replicate (length l2) Raw));
               [ lia
               | apply block_at_old, Lb
               | rewrite <- app_assoc; apply block_at_new, Lb
               | apply length_replicate
               | rewrite !length_fmap; lia
               | rewrite length_app, length_fmap; cbn; lia
               | lia ]).
      rewrite list_insert_insert_eq, heap_new_over_old by exact Lb.
      rewrite Hn, Nat2Z.id.
      assert (Hold : (Live <$> (left_behind <$> l1))
                       ++ (Live <$> (left_behind <$> l2)) ++ []
                     = (Live <$> (left_behind <$> l)) ++ []).
      { unfold l1, l2. rewrite app_assoc, <- !fmap_app, take_drop. reflexivity. }
      rewrite Hold.
      step_by (apply in_heap_Ok;
               eapply (destroy_n_spec_len (left_behind <$> l) _ _ b [] []);
               [ apply block_at_old, Lb
               | reflexivity
               | rewrite length_fmap; reflexivity ]).
      rewrite list_insert_insert_eq.
      step_by (apply RawMemory_Swap_member_local with (v := v); exact Hv).
      rewrite <- Hn. reflexivity.
    + rewrite Eb. cbn [app released].
      rewrite <- !app_assoc. cbn [app].
      unfold inserted. fold l1 l2.
      rewrite <- (block_of_inserted l1 l2 x g _ eq_refl).
      replace (Z.to_nat g - length l1 - length l2 - 1)%nat
        with (Z.to_nat g - length l - 1)%nat by lia.
      apply operator_delete_old, Lb.
Qed.

(** The branch that shifts the tail inside the buffer; the arguments are
    read once the tail has been shifted, when the slot at index [i] holds
    what the move has left of the element [li] that was there. *)
Lemma Emplace_shifting (i : nat) b li :
  l !! i = Some li ->
  make_value args
    (<[b := Some (block_of (inserted l i (moved_from li))
                    (capacity_ (data_ v)))]> h)
  = Ok (x, <[b := Some (block_of (inserted l i (moved_from li))
                          (capacity_ (data_ v)))]> h) ->
  (i < length l)%nat ->
  size_ v < capacity_ (data_ v) ->
  buffer_ (data_ v) = Ptr b 0 ->
  (p <- RawMemory_plus (Member this) (size_ v) ;;
   last <- Back this ;;
   in_heap (x <- move_out last ;; construct_at p x) ;;
   e <- end_ this ;;
   in_heap (move_backward (ptr_add (buffer_ (data_ v)) (Z.of_nat i))
              (ptr_add e (-1)) e) ;;
   in_heap (x <- make_value args ;;
            assign_at (ptr_add (buffer_ (data_ v)) (Z.of_nat i)) x))
    (MkState h vs ls)
  = Ok (tt, MkState
              (<[b := Some (block_of (inserted l i x) (capacity_ (data_ v)))]> h)
              vs ls).
Proof.
  intros Hli Hx Hi Hroom Eb. pose proof Ho as (Hn & Hc & _).
  pose proof (owns_block_of _ _ _ _ _ Ho Eb) as E.
  assert (Lb : (b < length h)%nat) by (eapply block_at_lt; eauto).
  (* l = l1 ++ l2 ++ [y], the insertion taking place before l2 *)
  set (l1 := take i l).
  assert (Hl1 : length l1 = i) by (unfold l1; rewrite length_take; lia).
  destruct (drop i l) as [|z zs] eqn:Ed using rev_ind.
  { apply (f_equal length) in Ed. rewrite length_drop in Ed. cbn in Ed. lia. }
  clear IHzs. rename z into y. rename zs into l2.
  assert (El : l = l1 ++ l2 ++ [y]).
  { rewrite <- Ed. unfold l1. symmetry. apply take_drop. }
  assert (Hl2 : (length l1 + length l2 + 1 = length l)%nat).
  { apply (f_equal length) in El. rewrite !length_app in El. cbn in El. lia. }
  rewrite block_of_app_raw in E by lia.
  rewrite El in E at 1. rewrite !fmap_app, <- !app_assoc in E. cbn [fmap list_fmap app] in E.
  step_by (eapply RawMemory_plus_member; eauto; lia).
  unfold Back.
  step_by (eapply end_Ok; eauto; lia).
  step_by reflexivity.
  rewrite Eb. cbn [ptr_add].
  step_by (apply in_heap_Ok;
           step_by (eapply (move_out_middle _ b ((Live <$> l1) ++ (Live <$> l2)));
                    [ rewrite length_app, !length_fmap; lia
                    | rewrite <- app_assoc; exact E ]);
           eapply (construct_at_middle _ b
                     ((Live <$> l1) ++ (Live <$> l2) ++ [Live (moved_from y)]));
           [ rewrite !length_app, !length_fmap; cbn; lia
           | rewrite block_at_insert_eq by exact Lb;
             rewrite <- !app_assoc; reflexivity ]).
  rewrite list_insert_insert_eq.
  step_by (eapply end_Ok; eauto; lia).
  rewrite Eb. cbn [ptr_add].
  step_by (apply in_heap_Ok; unfold move_backward;
           step_by (apply range_length_Ok; lia);
           replace (Z.to_nat (0 + size_ v + -1 - (0 + Z.of_nat i)))
             with (length l2) by lia;
           replace (0 + size_ v) with ((0 + size_ v + -1) + 1) at 2 by lia;
           eapply (move_backward_n_spec l2 _ b (Live <$> l1));
           [ rewrite block_at_insert_eq by exact Lb;
             rewrite <- !app_assoc; reflexivity
           | rewrite length_fmap; lia ]).
  rewrite list_insert_insert_eq.
  assert (Hres : front_residue l2 (moved_from y) = moved_from li).
  { rewrite El in Hli. rewrite lookup_app_r in Hli by lia.
    rewrite Hl1, Nat.sub_diag in Hli.
    destruct l2; cbn in Hli; inversion Hli; reflexivity. }
  assert (Hblock : forall z,
            (Live <$> l1) ++ Live z :: (Live <$> l2) ++ Live y
              :: replicate (Z.to_nat (capacity_ (data_ v)) - length l - 1) Raw
            = block_of (inserted l i z) (capacity_ (data_ v))).
  { intros z. unfold inserted. fold l1. rewrite Ed.
    rewrite <- (block_of_inserted l1 (l2 ++ [y]) z (capacity_ (data_ v)) _ eq_refl).
    rewrite fmap_app, <- app_assoc, length_app. cbn [fmap list_fmap app length].
    replace (Z.to_nat (capacity_ (data_ v)) - length l1 - (length l2 + 1) - 1)%nat
      with (Z.to_nat (capacity_ (data_ v)) - length l - 1)%nat by lia.
    reflexivity. }
  rewrite Hres. rewrite <- (Hblock (moved_from li)) in Hx.
  apply in_heap_Ok.
  step_by (exact Hx).
  erewrite (assign_at_middle _ b (Live <$> l1));
    [ | rewrite length_fmap; lia
      | rewrite block_at_insert_eq by exact Lb; reflexivity ].
  rewrite list_insert_insert_eq, Hblock.
  reflexivity.
Qed.

Lemma inserted_at_end : inserted l (length l) x = l ++ [x].
Proof. unfold inserted. rewrite take_ge, drop_ge by lia. reflexivity. Qed.

Lemma Emplace_Ok_growing (i : nat) :
  (forall k, make_value args (h ++ k) = Ok (x, h ++ k)) ->
  (i <= length l)%nat ->
  size_ v = capacity_ (data_ v) ->
  Z.max 1 (2 * size_ v) <= max_alloc ->
  Emplace this (ptr_add (buffer_ (data_ v)) (Z.of_nat i)) args (MkState h vs ls)
  = Ok (Ptr (length h) (Z.of_nat i),
        MkState
          (released (buffer_ (data_ v))
             (h ++ [Some (block_of (inserted l i x) (Z.max 1 (2 * size_ v)))]))
          (<[this := MkVector
                       (MkRawMemory (Ptr (length h) 0) (Z.max 1 (2 * size_ v)))
                       (size_ v + 1)]> vs)
          ls).
Proof.
  pose proof max_alloc_lt as Hmax.
  intros args_Ok Hi Hfull Hg. pose proof Ho as (Hn & Hc & _).
  assert (L : (this < length vs)%nat) by (eapply lookup_lt_Some; eauto).
  rewrite Emplace_prologue by exact Hi.
  rewrite <- Hfull, Z.eqb_refl.
  erewrite bind_Ok by (apply Emplace_growing; assumption).
  erewrite bind_Ok by (apply increment_size_Ok, list_lookup_insert_eq, L).
  cbn [data_ size_ ret]. rewrite list_insert_insert_eq.
  rewrite to_size_t_small by lia. reflexivity.
Qed.

Lemma Emplace_Ok_in_place (i : nat) b :
  (i = length l -> forall k, make_value args (h ++ k) = Ok (x, h ++ k)) ->
  (forall li,
     l !! i = Some li ->
     make_value args
       (<[b := Some (block_of (inserted l i (moved_from li))
                       (capacity_ (data_ v)))]> h)
     = Ok (x, <[b := Some (block_of (inserted l i (moved_from li))
                             (capacity_ (data_ v)))]> h)) ->
  (i <= length l)%nat ->
  size_ v < capacity_ (data_ v) ->
  buffer_ (data_ v) = Ptr b 0 ->
  Emplace this (ptr_add (buffer_ (data_ v)) (Z.of_nat i)) args (MkState h vs ls)
  = Ok (Ptr b (Z.of_nat i),
        MkState
          (<[b := Some (block_of (inserted l i x) (capacity_ (data_ v)))]> h)
          (<[this := MkVector (data_ v) (size_ v + 1)]> vs)
          ls).
Proof.
  intros args_Ok Hshift Hi Hroom Eb. pose proof Ho as (Hn & Hc & _).
  rewrite Emplace_prologue by exact Hi.
  destruct (Z.eqb_spec (size_ v) (capacity_ (data_ v))) as [|_]; [lia|].
  destruct (Nat.eq_dec i (length l)) as [->|Hne].
  - (* at the end *)
    rewrite <- Hn.
    replace (ptr_eqb (ptr_add (buffer_ (data_ v)) (size_ v))
                     (ptr_add (buffer_ (data_ v)) (size_ v))) with true
      by (rewrite Eb; cbn; rewrite Nat.eqb_refl, Z.eqb_refl; reflexivity).
    cbn [negb].
    destruct (append_in_place (make_value args) x h (args_Ok eq_refl)
                vs ls this v l Hv Ho Hroom) as (b' & Eb' & E).
    assert (b' = b) by congruence. subst b'.
    rewrite bind_assoc. erewrite bind_Ok by exact E.
    rewrite bind_ret_l.
    erewrite bind_Ok by (eapply increment_size_Ok; eauto).
    rewrite to_size_t_small by lia.
    rewrite inserted_at_end, Eb. cbn. rewrite Hn. reflexivity.
  - (* in the middle *)
    replace (ptr_eqb (ptr_add (buffer_ (data_ v)) (Z.of_nat i))
                     (ptr_add (buffer_ (data_ v)) (size_ v))) with false
      by (rewrite Eb; cbn; rewrite Nat.eqb_refl; cbn;
          symmetry; apply Z.eqb_neq; lia).
    cbn [negb].
    destruct (lookup_lt_is_Some_2 l i ltac:(lia)) as [li Hli].
    rewrite bind_assoc.
    erewrite bind_Ok by
      (eapply Emplace_shifting;
       [exact Hli | apply Hshift, Hli | lia | exact Hroom | exact Eb]).
    rewrite bind_ret_l.
    erewrite bind_Ok by (eapply increment_size_Ok; eauto).
    rewrite to_size_t_small by lia.
    rewrite Eb. reflexivity.
Qed.

End Emplace.

(** X24. [Emplace] and [Insert] of a value that is not an element of the vector
    (a temporary or an object of the caller's): the vector gets one element
    longer, the new element sits at index [i], the elements before it are
    unchanged, the elements from [i] on have moved one slot to the right,
    and the iterator returned is [begin() + i] of the vector as it is after
    the call. *)
Theorem Emplace_fresh_value s this l c b (i : nat) args x :
  (forall h : heap, make_value args h = Ok (x, h)) ->
  holds s this l ->
  Capacity this s = Ok (c, s) ->
  begin_ this s = Ok (b, s) ->
  (i <= length l)%nat ->
  Z.of_nat (length l) < c \/ Z.max 1 (2 * c) <= max_alloc ->
  exists s' b',
    Emplace this (ptr_add b (Z.of_nat i)) args s
    = Ok (ptr_add b' (Z.of_nat i), s') /\
    begin_ this s' = Ok (b', s') /\
    observed s' this
      (if Z.of_nat (length l) <? c then c else Z.max 1 (2 * c))
      (inserted l i x) /\
    Size this s' = Ok (Z.of_nat (length l) + 1, s').
Proof.
  pose proof max_alloc_lt as Hmax.
  intros Hargs Hh Ec Eb Hi Halloc.
  destruct (holds_inv _ _ _ _ Hh Ec) as (h & vs & ls & v & -> & Hv & Ho & Hc).
  pose proof Ho as (Hn & Hr & Hbuf).
  assert (L : (this < length vs)%nat) by (eapply lookup_lt_Some; eauto).
  erewrite begin_Ok in Eb by exact Hv.
  assert (Eb' : buffer_ (data_ v) = b) by congruence. clear Eb. subst b.
  assert (Hlen : Z.of_nat (length (inserted l i x)) = size_ v + 1).
  { rewrite inserted_length. lia. }
  destruct (Z.ltb_spec (Z.of_nat (length l)) c) as [Hroom|Hfull].
  - destruct (buffer_ (data_ v)) as [|b0 o] eqn:Ebuf; [lia|].
    destruct Hbuf as (-> & _ & _).
    set (v' := MkVector (data_ v) (size_ v + 1)).
    assert (Hv' : <[this := v']> vs !! this = Some v')
      by (apply list_lookup_insert_eq, L).
    exists (MkState
              (<[b0 := Some (block_of (inserted l i x) (capacity_ (data_ v)))]> h)
              (<[this := v']> vs) ls), (Ptr b0 0).
    split; [|split; [|split]].
    + pose proof (Emplace_Ok_in_place args x h vs ls this v l Hv Ho
                    i b0 (fun _ k => Hargs _) (fun li _ => Hargs _)
                    Hi ltac:(lia) Ebuf) as E.
      rewrite Ebuf in E. exact E.
    + erewrite begin_Ok by exact Hv'. cbn. rewrite Ebuf. reflexivity.
    + eapply observed_intro; [exact Hv' | | exact Hc].
      unfold v'. rewrite <- Hlen.
      apply owns_updated with (l := l); auto. lia.
    + erewrite Size_Ok by exact Hv'. cbn. rewrite Hn. reflexivity.
  - destruct Halloc as [|Halloc]; [lia|].
    assert (Hfull' : size_ v = capacity_ (data_ v)) by lia.
    set (v' := MkVector (MkRawMemory (Ptr (length h) 0) (Z.max 1 (2 * size_ v)))
                        (size_ v + 1)).
    assert (Hv' : <[this := v']> vs !! this = Some v')
      by (apply list_lookup_insert_eq, L).
    exists (MkState
              (released (buffer_ (data_ v))
                 (h ++ [Some (block_of (inserted l i x) (Z.max 1 (2 * size_ v)))]))
              (<[this := v']> vs) ls), (Ptr (length h) 0).
    split; [|split; [|split]].
    + pose proof (Emplace_Ok_growing args x h vs ls this v l Hv Ho
                    i (fun k => Hargs _) Hi Hfull' ltac:(lia)) as E.
      destruct (buffer_ (data_ v)); exact E.
    + erewrite begin_Ok by exact Hv'. reflexivity.
    + eapply observed_intro; [exact Hv' | | cbn; lia].
      apply owns_reallocated; try lia.
      apply (owns_buffer_lt _ _ _ Ho).
    + erewrite Size_Ok by exact Hv'. cbn. rewrite Hn. reflexivity.
Qed.


(** ** Copy construction and copy assignment *)

(** The invariant of a vector does not depend on blocks other than its
    own. *)
Lemma owns_frame (h h' : heap) v l :
  owns h v l ->
  (forall b o, buffer_ (data_ v) = Ptr b o -> block_at h' b = block_at h b) ->
  owns h' v l.
Proof.
  intros (Hn & Hc & Hb) Hf. unfold owns. split; [exact Hn|]. split; [exact Hc|].
  destruct (buffer_ (data_ v)) as [|b o]; [exact Hb|].
  rewrite (Hf b o eq_refl). exact Hb.
Qed.

Lemma RawMemory_ctor_member (h : heap) vs ls this v n :
  vs !! this = Some v ->
  0 < n -> n <= max_alloc ->
  RawMemory_ctor (Member this) n (MkState h vs ls)
  = Ok (tt, MkState (h ++ [Some (replicate (Z.to_nat n) Raw)])
              (<[this := MkVector (MkRawMemory (Ptr (length h) 0) n) (size_ v)]> vs)
              ls).
Proof.
  intros Hv N L. unfold RawMemory_ctor.
  assert (Lt : (this < length vs)%nat) by (eapply lookup_lt_Some; eauto).
  erewrite bind_Ok; cycle 1.
  { apply in_heap_Ok, Allocate_granted; assumption. }
  erewrite bind_Ok by (eapply set_buffer_member; eauto).
  erewrite set_capacity_member by (apply list_lookup_insert_eq, Lt).
  cbn. rewrite list_insert_insert_eq. reflexivity.
Qed.

(** [Vector(const Vector& other)] for a non-empty [other]. *)
Lemma Vector_copy_ctor_Ok (h : heap) vs ls other vo lo b :
  vs !! other = Some vo ->
  owns h vo lo ->
  buffer_ (data_ vo) = Ptr b 0 ->
  0 < size_ vo <= max_alloc ->
  Vector_copy_ctor other (MkState h vs ls)
  = Ok (length vs,
        MkState (h ++ [Some (block_of lo (size_ vo))])
                (vs ++ [MkVector (MkRawMemory (Ptr (length h) 0) (size_ vo))
                                 (size_ vo)])
                ls).
Proof.
  intros Hv Ho Eb Hs. pose proof Ho as (Hn & Hc & _).
  pose proof (owns_block_of _ _ _ _ _ Ho Eb) as E.
  assert (Lb : (b < length h)%nat) by (eapply block_at_lt; eauto).
  assert (Hv' : forall x, (vs ++ [x]) !! other = Some vo)
    by (intros x; apply lookup_app_l_Some, Hv).
  unfold Vector_copy_ctor.
  step_by reflexivity. cbn [mem vectors locals].
  step_by (eapply get_size_Ok; eauto).
  step_by (eapply RawMemory_ctor_member; [apply lookup_last_local | lia | lia]).
  rewrite insert_last_local.
  step_by (eapply set_size_Ok; apply lookup_last_local).
  rewrite insert_last_local. cbn [data_ size_ Vector_default].
  step_by (eapply begin_Ok; eauto).
  step_by (eapply Size_Ok; eauto).
  step_by (eapply begin_Ok; apply lookup_last_local).
  cbn [data_ buffer_]. rewrite Eb, Hn, Nat2Z.id.
  unfold block_of in E.
  step_by (apply in_heap_Ok;
           eapply (uninitialized_copy_n_spec lo _ b (length h) [] _ []
                     (replicate (length lo) Raw) []);
           [ lia
           | apply block_at_app_l; exact E
           | rewrite app_nil_r; apply block_at_app_new
           | apply length_replicate
           | reflexivity | reflexivity ]).
  rewrite insert_last_local. cbn [app ret].
  unfold block_of. rewrite Nat2Z.id, Nat.sub_diag. reflexivity.
Qed.

(** [Swap] of two distinct vectors. *)
Lemma Swap_Ok (h : heap) vs ls this other va vb :
  vs !! this = Some va ->
  vs !! other = Some vb ->
  this <> other ->
  Swap this other (MkState h vs ls)
  = Ok (tt, MkState h (<[other := va]> (<[this := vb]> vs)) ls).
Proof.
  intros Ha Hb N.
  assert (La : (this < length vs)%nat) by (eapply lookup_lt_Some; eauto).
  assert (Lb : (other < length vs)%nat) by (eapply lookup_lt_Some; eauto).
  destruct va as [[ba ca] na], vb as [[bb cb] nb].
  unfold Swap, RawMemory_Swap.
  step_by (eapply get_buffer_member; eauto).
  step_by (eapply get_buffer_member; eauto).
  step_by (eapply set_buffer_member; eauto).
  step_by (eapply set_buffer_member;
           rewrite list_lookup_insert_ne by exact N; eauto).
  step_by (eapply get_capacity_member;
           rewrite list_lookup_insert_ne by auto;
           apply list_lookup_insert_eq, La).
  step_by (eapply get_capacity_member;
           apply list_lookup_insert_eq; rewrite length_insert; exact Lb).
  step_by (eapply set_capacity_member;
           rewrite list_lookup_insert_ne by auto;
           apply list_lookup_insert_eq, La).
  step_by (eapply set_capacity_member;
           rewrite list_lookup_insert_ne by auto;
           apply list_lookup_insert_eq; rewrite length_insert; exact Lb).
  cbn [data_ size_ buffer_ capacity_].
  rewrite (list_insert_insert_ne _ this other) by exact N.
  rewrite !list_insert_insert_eq.
  step_by (eapply get_size_Ok;
           rewrite list_lookup_insert_ne by auto;
           apply list_lookup_insert_eq, La).
  step_by (eapply get_size_Ok;
           apply list_lookup_insert_eq; rewrite length_insert; exact Lb).
  step_by (eapply set_size_Ok;
           rewrite list_lookup_insert_ne by auto;
           apply list_lookup_insert_eq, La).
  erewrite set_size_Ok by
    (rewrite list_lookup_insert_ne by auto;
     apply list_lookup_insert_eq; rewrite length_insert; exact Lb).
  cbn [data_ size_ buffer_ capacity_].
  rewrite (list_insert_insert_ne _ this other) by exact N.
  rewrite !list_insert_insert_eq.
  reflexivity.
Qed.

(** [~Vector()] and the release of its storage. *)
Lemma Vector_dtor_Ok (h : heap) vs ls this v l :
  vs !! this = Some v ->
  owns h v l ->
  Vector_dtor this (MkState h vs ls)
  = Ok (tt, MkState (released (buffer_ (data_ v)) h) vs ls).
Proof.
  intros Hv Ho. pose proof Ho as (Hn & Hc & Hb).
  unfold Vector_dtor, RawMemory_dtor.
  step_by (eapply begin_Ok; eauto).
  step_by (eapply get_size_Ok; eauto).
  rewrite Hn, Nat2Z.id.
  destruct (buffer_ (data_ v)) as [|b o] eqn:Eb.
  - assert (El : l = []) by (destruct l; [reflexivity | cbn in Hn; lia]).
    subst l.
    step_by (apply in_heap_Ok; reflexivity).
    step_by (eapply get_buffer_member; eauto).
    rewrite Eb. reflexivity.
  - destruct Hb as (-> & Hp & E).
    assert (Lb : (b < length h)%nat) by (eapply block_at_lt; eauto).
    step_by (apply in_heap_Ok;
             eapply (destroy_n_spec l _ b []); [exact E | reflexivity]).
    step_by (eapply get_buffer_member; eauto).
    rewrite Eb. apply in_heap_Ok. unfold Deallocate, operator_delete.
    rewrite block_at_insert_eq by exact Lb. cbn.
    rewrite list_insert_insert_eq. reflexivity.
Qed.

(** The in-place branch of copy assignment, on the heap: [lr], read at
    [src], replaces the elements [la] of the block [ba] of capacity [c]. *)
Lemma assign_in_place (h : heap) ba src la lr c :
  block_at h ba = Some (block_of la c) ->
  c < size_t_modulus ->
  Z.of_nat (length la) <= c ->
  Z.of_nat (length lr) <= c ->
  match src with
  | Null => lr = []
  | Ptr br o =>
      o = 0 /\ br <> ba /\
      exists rest, block_at h br = Some ((Live <$> lr) ++ rest)
  end ->
  (copy_n src (Z.to_nat (Z.min (Z.of_nat (length la)) (Z.of_nat (length lr))))
     (Ptr ba 0) ;;
   if Z.of_nat (length lr) <? Z.of_nat (length la) then
     destroy_n (ptr_add (Ptr ba 0) (Z.of_nat (length lr)))
       (Z.to_nat (to_size_t (Z.of_nat (length la) - Z.of_nat (length lr))))
   else
     uninitialized_copy_n (ptr_add src (Z.of_nat (length la)))
       (Z.to_nat (to_size_t (Z.of_nat (length lr) - Z.of_nat (length la))))
       (ptr_add (Ptr ba 0) (Z.of_nat (length la)))) h
  = Ok (tt, <[ba := Some (block_of lr c)]> h).
Proof.
  intros Ea Hc Hla Hlr Hsrc.
  assert (Lb : (ba < length h)%nat) by (eapply block_at_lt; eauto).
  set (m := Nat.min (length la) (length lr)).
  replace (Z.to_nat (Z.min (Z.of_nat (length la)) (Z.of_nat (length lr))))
    with m by lia.
  (* the common prefix is copy-assigned *)
  assert (Ecopy : copy_n src m (Ptr ba 0) h
                  = Ok (tt, <[ba := Some ((Live <$> take m lr)
                                            ++ (Live <$> drop m la)
                                            ++ replicate (Z.to_nat c - length la) Raw)]> h)).
  { destruct src as [|br o].
    - subst lr. unfold m. rewrite Nat.min_0_r. cbn [copy_n ret take drop fmap list_fmap app].
      rewrite heap_insert_same by exact Ea. reflexivity.
    - destruct Hsrc as (-> & Nb & rest & Er).
      replace m with (length (take m lr)) at 1
        by (rewrite length_take; unfold m; lia).
      eapply (copy_n_spec _ _ br ba [] _ [] (take m la)).
      + exact Nb.
      + rewrite Er. rewrite <- (take_drop m lr) at 1.
        rewrite fmap_app, <- app_assoc. reflexivity.
      + rewrite Ea. unfold block_of. rewrite <- (take_drop m la) at 1.
        rewrite fmap_app, <- app_assoc. reflexivity.
      + rewrite !length_take. unfold m. lia.
      + reflexivity.
      + reflexivity. }
  erewrite bind_Ok by exact Ecopy.
  destruct (Z.ltb_spec (Z.of_nat (length lr)) (Z.of_nat (length la))) as [Hlt|Hge].
  - (* the excess elements are destroyed *)
    assert (Em : m = length lr) by (unfold m; lia).
    rewrite Em, take_ge by lia.
    rewrite to_size_t_small by lia.
    replace (Z.to_nat (Z.of_nat (length la) - Z.of_nat (length lr)))
      with (length (drop (length lr) la)) by (rewrite length_drop; lia).
    cbn [ptr_add].
    erewrite (destroy_n_spec _ _ ba (Live <$> lr)).
    + rewrite list_insert_insert_eq. unfold block_of.
      rewrite <- replicate_add, length_drop.
      replace (length la - length lr + (Z.to_nat c - length la))%nat
        with (Z.to_nat c - length lr)%nat by lia.
      reflexivity.
    + rewrite block_at_insert_eq by exact Lb. reflexivity.
    + rewrite length_fmap. lia.
  - (* the extra elements are copy-constructed *)
    assert (Em : m = length la) by (unfold m; lia).
    rewrite Em, drop_ge by lia. cbn [fmap list_fmap app].
    rewrite to_size_t_small by lia.
    replace (Z.to_nat (Z.of_nat (length lr) - Z.of_nat (length la)))
      with (length (drop (length la) lr)) by (rewrite length_drop; lia).
    destruct src as [|br o].
    + subst lr. cbn [length drop uninitialized_copy_n ret].
      assert (length la = 0%nat) by (cbn in Hge; lia).
      destruct la; [|discriminate]. cbn. reflexivity.
    + destruct Hsrc as (-> & Nb & rest & Er). cbn [ptr_add].
      erewrite (uninitialized_copy_n_spec _ _ br ba (Live <$> take (length la) lr)
                  rest (Live <$> take (length la) lr)
                  (replicate (length (drop (length la) lr)) Raw)
                  (replicate (Z.to_nat c - length lr) Raw)).
      * rewrite list_insert_insert_eq. unfold block_of.
        rewrite app_assoc, <- fmap_app, take_drop. reflexivity.
      * exact Nb.
      * rewrite block_at_insert_ne by auto. rewrite Er.
        rewrite <- (take_drop (length la) lr) at 1.
        rewrite fmap_app, <- app_assoc. reflexivity.
      * rewrite block_at_insert_eq by exact Lb.
        rewrite <- replicate_add, length_drop.
        replace (length lr - length la + (Z.to_nat c - length lr))%nat
          with (Z.to_nat c - length la)%nat by lia.
        reflexivity.
      * apply length_replicate.
      * rewrite length_fmap, length_take. lia.
      * rewrite length_fmap, length_take. lia.
Qed.

(** Two buffers are not the same block. *)
Definition separate (p q : ptr) : Prop :=
  match p, q with
  | Ptr b _, Ptr b' _ => b <> b'
  | _, _ => True
  end.

Section CopyAssign.

Variables (h : heap) (vs : list Vector) (ls : list RawMemory)
          (this rhs : nat) (va vr : Vector) (la lr : list T).
Hypothesis Ha : vs !! this = Some va.
Hypothesis Hr : vs !! rhs = Some vr.
Hypothesis Hne : this <> rhs.
Hypothesis Hoa : owns h va la.
Hypothesis Hor : owns h vr lr.

(** [rhs] does not fit: a copy is built and swapped in. *)
Lemma Vector_copy_assign_fresh :
  capacity_ (data_ va) < size_ vr <= max_alloc ->
  Vector_copy_assign this rhs (MkState h vs ls)
  = Ok (tt, MkState
              (released (buffer_ (data_ va))
                 (h ++ [Some (block_of lr (size_ vr))]))
              (<[this := MkVector (MkRawMemory (Ptr (length h) 0) (size_ vr))
                                  (size_ vr)]> vs)
              ls).
Proof.
  intros Hgt.
  pose proof Hoa as (Hna & Hca & _). pose proof Hor as (Hnr & Hcr & Hbr).
  assert (La : (this < length vs)%nat) by (eapply lookup_lt_Some; eauto).
  destruct (buffer_ (data_ vr)) as [|br o] eqn:Ebr; [lia|].
  destruct Hbr as (-> & _ & _).
  unfold Vector_copy_assign.
  destruct (Nat.eqb_spec this rhs) as [|_]; [contradiction|].
  step_by (eapply get_size_Ok; eauto).
  step_by (eapply get_capacity_member; eauto).
  destruct (Z.ltb_spec (capacity_ (data_ va)) (size_ vr)) as [_|]; [|lia].
  step_by (eapply Vector_copy_ctor_Ok; eauto; lia).
  set (vn := MkVector (MkRawMemory (Ptr (length h) 0) (size_ vr)) (size_ vr)).
  step_by (eapply (Swap_Ok _ _ _ this (length vs) va vn);
           [ apply lookup_app_l_Some, Ha | apply lookup_last_local | lia ]).
  rewrite insert_app_l by exact La.
  replace (length vs) with (length (<[this := vn]> vs)) at 1 2
    by apply length_insert.
  rewrite insert_last_local.
  step_by (eapply (Vector_dtor_Ok _ _ _ _ va la);
           [ apply lookup_last_local
           | eapply owns_frame; [exact Hoa|];
             intros b o Eb; pose proof (owns_block_of _ _ _ _ _ Hoa Eb) as E;
             rewrite E; apply block_at_app_l, E ]).
  unfold leave_vector. cbn [mem vectors locals].
  rewrite take_last_local. reflexivity.
Qed.

(** [rhs] fits: the storage of [this] is reused. *)
Lemma Vector_copy_assign_reuse :
  size_ vr <= capacity_ (data_ va) ->
  separate (buffer_ (data_ va)) (buffer_ (data_ vr)) ->
  Vector_copy_assign this rhs (MkState h vs ls)
  = Ok (tt, MkState
              match buffer_ (data_ va) with
              | Null => h
              | Ptr ba _ => <[ba := Some (block_of lr (capacity_ (data_ va)))]> h
              end
              (<[this := MkVector (data_ va) (size_ vr)]> vs)
              ls).
Proof.
  intros Hle Hsep.
  pose proof Hoa as (Hna & Hca & Hba). pose proof Hor as (Hnr & Hcr & Hbr).
  unfold Vector_copy_assign.
  destruct (Nat.eqb_spec this rhs) as [|_]; [contradiction|].
  step_by (eapply get_size_Ok; eauto).
  step_by (eapply get_capacity_member; eauto).
  destruct (Z.ltb_spec (capacity_ (data_ va)) (size_ vr)) as [|_]; [lia|].
  step_by (eapply get_buffer_member; eauto).
  step_by (eapply Size_Ok; eauto).
  step_by (eapply Size_Ok; eauto).
  step_by (eapply get_buffer_member; eauto).
  destruct (buffer_ (data_ va)) as [|ba oa] eqn:Eba.
  - (* no storage at all: both vectors are empty *)
    replace (size_ va) with 0 by lia. replace (size_ vr) with 0 by lia.
    cbn [Z.min Z.to_nat Z.ltb Z.compare Z.sub Z.opp Z.add].
    step_by reflexivity.
    step_by (unfold to_size_t; cbn; reflexivity).
    step_by (eapply get_size_Ok; eauto).
    erewrite set_size_Ok by eauto.
    replace (size_ vr) with 0 by lia. reflexivity.
  - destruct Hba as (-> & _ & _).
    pose proof (owns_block_of _ _ _ _ _ Hoa Eba) as Ea.
    assert (Hsrc : match buffer_ (data_ vr) with
                   | Null => lr = []
                   | Ptr br o =>
                       o = 0 /\ br <> ba /\
                       exists rest, block_at h br = Some ((Live <$> lr) ++ rest)
                   end).
    { destruct (buffer_ (data_ vr)) as [|br o] eqn:Ebr.
      - destruct lr; [reflexivity | cbn in Hnr; lia].
      - destruct Hbr as (-> & _ & E). cbn in Hsep.
        split; [reflexivity|]. split; [auto|]. eauto. }
    pose proof (assign_in_place h ba (buffer_ (data_ vr)) la lr
                  (capacity_ (data_ va)) Ea ltac:(lia) ltac:(lia) ltac:(lia) Hsrc)
      as E.
    apply bind_Ok_inv in E. destruct E as ([] & h1 & E1 & E2).
    rewrite <- Hna, <- Hnr in E1, E2.
    step_by (apply in_heap_Ok; exact E1).
    step_by (destruct (size_ vr <? size_ va); apply in_heap_Ok; exact E2).
    step_by (eapply get_size_Ok; eauto).
    erewrite set_size_Ok by eauto. reflexivity.
Qed.

End CopyAssign.

(** C5. Copy assignment [a = rhs] between two distinct vectors with
    separate buffers returns normally (when [rhs] does not fit, provided the
    request for [rhs.Size()] slots is granted): afterwards [a] has the
    length and the elements of [rhs]; its capacity is [rhs.Size()] if that
    exceeded the former capacity, and the former capacity, in the former
    buffer, otherwise; [rhs] is unchanged. *)
Theorem Vector_copy_assign_spec s this rhs la lr c pa pr :
  this <> rhs ->
  holds s this la ->
  holds s rhs lr ->
  Capacity this s = Ok (c, s) ->
  begin_ this s = Ok (pa, s) ->
  begin_ rhs s = Ok (pr, s) ->
  separate pa pr ->
  Z.of_nat (length lr) <= Z.max c max_alloc ->
  exists s',
    Vector_copy_assign this rhs s = Ok (tt, s') /\
    observed s' this
      (if c <? Z.of_nat (length lr) then Z.of_nat (length lr) else c) lr /\
    holds s' rhs lr /\
    (Z.of_nat (length lr) <= c -> begin_ this s' = Ok (pa, s')).
Proof.
  intros Hne Hha Hhr Ec Epa Epr Hsep Hfit.
  destruct (holds_inv _ _ _ _ Hha Ec) as (h & vs & ls & va & -> & Ha & Hoa & Hc).
  destruct Hhr as (vr & Hr & Hor). cbn [vectors mem] in Hr, Hor.
  pose proof Hoa as (Hna & Hca & Hba). pose proof Hor as (Hnr & Hcr & Hbr).
  assert (La : (this < length vs)%nat) by (eapply lookup_lt_Some; eauto).
  erewrite begin_Ok in Epa by exact Ha.
  erewrite begin_Ok in Epr by exact Hr.
  assert (Epa' : buffer_ (data_ va) = pa) by congruence.
  assert (Epr' : buffer_ (data_ vr) = pr) by congruence.
  clear Epa Epr. subst pa pr.
  destruct (Z.ltb_spec c (Z.of_nat (length lr))) as [Hgt|Hle].
  - (* a fresh buffer *)
    set (vn := MkVector (MkRawMemory (Ptr (length h) 0) (size_ vr)) (size_ vr)).
    exists (MkState
              (released (buffer_ (data_ va))
                 (h ++ [Some (block_of lr (size_ vr))]))
              (<[this := vn]> vs) ls).
    split; [eapply Vector_copy_assign_fresh; eauto; lia|].
    split; [|split; [|lia]].
    + eapply observed_intro;
        [apply list_lookup_insert_eq, La | | cbn; lia].
      apply owns_reallocated; try lia.
      apply (owns_buffer_lt _ _ _ Hoa).
    + exists vr. cbn [vectors mem].
      split; [rewrite list_lookup_insert_ne by exact Hne; exact Hr|].
      eapply owns_frame; [exact Hor|].
      intros br o Ebr. pose proof (owns_block_of _ _ _ _ _ Hor Ebr) as E.
      assert (Lbr : (br < length h)%nat) by (eapply block_at_lt; eauto).
      rewrite E. unfold separate in Hsep. rewrite Ebr in Hsep.
      destruct (buffer_ (data_ va)) as [|ba oa]; cbn [released].
      * apply block_at_app_l, E.
      * rewrite block_at_insert_ne by auto. apply block_at_app_l, E.
  - (* the same buffer *)
    exists (MkState
              match buffer_ (data_ va) with
              | Null => h
              | Ptr ba _ => <[ba := Some (block_of lr (capacity_ (data_ va)))]> h
              end
              (<[this := MkVector (data_ va) (size_ vr)]> vs) ls).
    assert (Hv' : <[this := MkVector (data_ va) (size_ vr)]> vs !! this
                  = Some (MkVector (data_ va) (size_ vr)))
      by (apply list_lookup_insert_eq, La).
    split; [eapply Vector_copy_assign_reuse; eauto; lia|].
    split; [|split].
    + eapply observed_intro; [exact Hv' | | exact Hc].
      destruct (buffer_ (data_ va)) as [|ba oa] eqn:Eba.
      * unfold owns. cbn [size_ data_]. rewrite Eba.
        split; [exact Hnr|]. split; [lia | exact Hba].
      * destruct Hba as (-> & _ & _). rewrite Hnr.
        apply owns_updated with (l := la); auto. lia.
    + exists vr. cbn [vectors mem].
      split; [rewrite list_lookup_insert_ne by exact Hne; exact Hr|].
      eapply owns_frame; [exact Hor|].
      intros br o Ebr. unfold separate in Hsep. rewrite Ebr in Hsep.
      destruct (buffer_ (data_ va)) as [|ba oa]; [reflexivity|].
      apply block_at_insert_ne. auto.
    + intros _. erewrite begin_Ok by exact Hv'. reflexivity.
Qed.

(** ** Moves *)

(** The state in which the [RawMemory] object at [p] has become [r]. *)
Definition put_raw (p : place) (r : RawMemory) (s : state) : state :=
  match p with
  | Member v =>
      match vectors s !! v with
      | Some x => MkState (mem s) (<[v := MkVector r (size_ x)]> (vectors s)) (locals s)
      | None => s
      end
  | Local k => MkState (mem s) (vectors s) (<[k := r]> (locals s))
  end.

Lemma set_raw_put p r s a :
  get_raw p s = Ok (a, s) -> set_raw p r s = Ok (tt, put_raw p r s).
Proof.
  destruct p as [v|k]; cbn; unfold bind, get_vector, set_vector.
  - destruct (vectors s !! v) as [x|] eqn:E; cbn; [|discriminate].
    rewrite E. reflexivity.
  - destruct (locals s !! k); [reflexivity | discriminate].
Qed.

Lemma get_raw_put_eq p r s a :
  get_raw p s = Ok (a, s) ->
  get_raw p (put_raw p r s) = Ok (r, put_raw p r s).
Proof.
  destruct p as [v|k]; cbn; unfold bind, get_vector.
  - destruct (vectors s !! v) as [x|] eqn:E; cbn; [|discriminate]. intros _.
    rewrite list_lookup_insert_eq by (eapply lookup_lt_Some; eauto).
    reflexivity.
  - destruct (locals s !! k) as [x|] eqn:E; [|discriminate]. intros _.
    rewrite list_lookup_insert_eq by (eapply lookup_lt_Some; eauto).
    reflexivity.
Qed.

Lemma get_raw_put_ne p q r s a :
  p <> q ->
  get_raw q s = Ok (a, s) ->
  get_raw q (put_raw p r s) = Ok (a, put_raw p r s).
Proof.
  intros N.
  destruct p as [v|k], q as [v'|k']; cbn; unfold bind, get_vector.
  - destruct (vectors s !! v') as [x'|] eqn:E'; cbn; [|discriminate].
    intros Ea. inversion Ea; subst.
    destruct (vectors s !! v) as [x|] eqn:E; cbn; [|rewrite E'; reflexivity].
    rewrite list_lookup_insert_ne by congruence. rewrite E'. reflexivity.
  - destruct (locals s !! k') as [x'|] eqn:E'; [|discriminate].
    intros Ea. inversion Ea; subst.
    destruct (vectors s !! v); cbn; rewrite E'; reflexivity.
  - destruct (vectors s !! v') as [x'|] eqn:E'; cbn; [|discriminate].
    intros Ea. inversion Ea; subst. rewrite E'. reflexivity.
  - destruct (locals s !! k') as [x'|] eqn:E'; [|discriminate].
    intros Ea. inversion Ea; subst.
    rewrite list_lookup_insert_ne by congruence. rewrite E'. reflexivity.
Qed.

Lemma put_raw_mem p r s : mem (put_raw p r s) = mem s.
Proof.
  destruct p as [v|k]; cbn; [|reflexivity].
  destruct (vectors s !! v); reflexivity.
Qed.

Lemma place_eq_dec (p q : place) : {p = q} + {p <> q}.
Proof. decide equality; apply Nat.eq_dec. Defined.

(** Reading the object at [q] once the object at [p] has become [r]. *)
Lemma get_raw_put p q r s a :
  get_raw p s = Ok (a, s) ->
  forall b, get_raw q s = Ok (b, s) ->
  get_raw q (put_raw p r s)
  = Ok (if place_eq_dec p q then r else b, put_raw p r s).
Proof.
  intros Ea b Eb. destruct (place_eq_dec p q) as [->|N].
  - eapply get_raw_put_eq; eauto.
  - eapply get_raw_put_ne; eauto.
Qed.

(** [Swap] exchanges the members of the two objects; with both references
    to one object, nothing changes. *)
Lemma RawMemory_Swap_Ok this other s a b :
  get_raw this s = Ok (a, s) ->
  get_raw other s = Ok (b, s) ->
  exists s',
    RawMemory_Swap this other s = Ok (tt, s') /\
    get_raw this s' = Ok (b, s') /\
    get_raw other s' = Ok (a, s') /\
    mem s' = mem s /\
    (forall q x, q <> this -> q <> other ->
       get_raw q s = Ok (x, s) -> get_raw q s' = Ok (x, s')).
Proof.
  intros Ea Eb. destruct a as [ba ca], b as [bb cb].
  unfold RawMemory_Swap, get_buffer, set_buffer, get_capacity, set_capacity.
  (* buffers *)
  set (s1 := put_raw this (MkRawMemory bb ca) s).
  assert (E1a : get_raw this s1 = Ok (MkRawMemory bb ca, s1))
    by (eapply get_raw_put_eq; eauto).
  assert (E1b : get_raw other s1
                = Ok (if place_eq_dec this other then MkRawMemory bb ca
                      else MkRawMemory bb cb, s1))
    by (eapply get_raw_put; eauto).
  set (r1 := if place_eq_dec this other then MkRawMemory bb ca
             else MkRawMemory bb cb) in *.
  set (s2 := put_raw other (MkRawMemory ba (capacity_ r1)) s1).
  assert (E2b : get_raw other s2 = Ok (MkRawMemory ba (capacity_ r1), s2))
    by (eapply get_raw_put_eq; eauto).
  assert (E2a : get_raw this s2
                = Ok (if place_eq_dec other this
                      then MkRawMemory ba (capacity_ r1)
                      else MkRawMemory bb ca, s2))
    by (eapply get_raw_put; eauto).
  set (r2 := if place_eq_dec other this then MkRawMemory ba (capacity_ r1)
             else MkRawMemory bb ca) in *.
  (* capacities *)
  set (s3' := put_raw this
                (MkRawMemory (buffer_ r2) (capacity_ (MkRawMemory ba (capacity_ r1)))) s2).
  assert (E3a : get_raw this s3' = Ok (MkRawMemory (buffer_ r2) (capacity_ r1), s3'))
    by (eapply get_raw_put_eq; eauto).
  assert (E3b : get_raw other s3'
                = Ok (if place_eq_dec this other
                      then MkRawMemory (buffer_ r2) (capacity_ r1)
                      else MkRawMemory ba (capacity_ r1), s3'))
    by (eapply get_raw_put; eauto).
  set (r3 := if place_eq_dec this other
             then MkRawMemory (buffer_ r2) (capacity_ r1)
             else MkRawMemory ba (capacity_ r1)) in *.
  set (s4 := put_raw other (MkRawMemory (buffer_ r3) (capacity_ r2)) s3').
  exists s4.
  split.
  { step_by (exact Ea). step_by reflexivity.
    step_by (exact Eb). step_by reflexivity.
    step_by (exact Ea). step_by (eapply set_raw_put; eauto).
    step_by (exact E1b). step_by (eapply set_raw_put; eauto).
    fold s1. fold s2. cbn [buffer_ capacity_].
    step_by (exact E2a). step_by reflexivity.
    step_by (exact E2b). step_by reflexivity.
    step_by (exact E2a). step_by (eapply set_raw_put; eauto).
    fold s3'.
    step_by (exact E3b). eapply set_raw_put; eauto. }
  assert (E4b : get_raw other s4 = Ok (MkRawMemory (buffer_ r3) (capacity_ r2), s4))
    by (eapply get_raw_put_eq; eauto).
  assert (E4a : get_raw this s4
                = Ok (if place_eq_dec other this
                      then MkRawMemory (buffer_ r3) (capacity_ r2)
                      else MkRawMemory (buffer_ r2) (capacity_ r1), s4))
    by (eapply get_raw_put; eauto).
  assert (Hab : this = other -> ba = bb /\ ca = cb).
  { intros ->. rewrite Ea in Eb. inversion Eb. auto. }
  split; [|split; [|split]].
  - rewrite E4a. unfold r3, r2, r1.
    destruct (place_eq_dec other this) as [->|N1];
      destruct (place_eq_dec this this) as [_|N2]; try contradiction.
    + destruct (Hab eq_refl) as (-> & ->). reflexivity.
    + destruct (place_eq_dec this other) as [->|_]; [contradiction|].
      reflexivity.
  - rewrite E4b. unfold r3, r2, r1.
    destruct (place_eq_dec this other) as [->|N1].
    + destruct (place_eq_dec other other) as [_|]; [|contradiction].
      destruct (Hab eq_refl) as (-> & ->). reflexivity.
    + destruct (place_eq_dec other this) as [->|_]; [contradiction|].
      reflexivity.
  - unfold s4, s3', s2, s1. rewrite !put_raw_mem. reflexivity.
  - intros q x Nq1 Nq2 Eq. unfold s4, s3', s2, s1.
    repeat (eapply get_raw_put_ne; [auto|]). exact Eq.
Qed.

(** C3, as the code has it. Move assignment of a [RawMemory] is a swap:
    afterwards the target holds the buffer and capacity the source had, and
    the source holds the buffer and capacity the target had (nothing is
    released). The source is therefore left with capacity 0 and no storage
    exactly when the target had none. *)
Theorem RawMemory_move_assign_exchanges s this rhs a b :
  get_raw this s = Ok (a, s) ->
  get_raw rhs s = Ok (b, s) ->
  exists s',
    RawMemory_move_assign this rhs s = Ok (tt, s') /\
    get_raw this s' = Ok (b, s') /\
    RawMemory_Capacity rhs s' = Ok (capacity_ a, s') /\
    RawMemory_GetAddress rhs s' = Ok (buffer_ a, s') /\
    mem s' = mem s.
Proof.
  intros Ea Eb.
  destruct (RawMemory_Swap_Ok this rhs s a b Ea Eb)
    as (s' & E & Ea' & Eb' & Hm & _).
  exists s'. unfold RawMemory_move_assign, RawMemory_Capacity,
    RawMemory_GetAddress, get_capacity, get_buffer.
  split; [exact E|]. split; [exact Ea'|].
  split; [erewrite bind_Ok by exact Eb'; reflexivity|].
  split; [erewrite bind_Ok by exact Eb'; reflexivity | exact Hm].
Qed.

Lemma RawMemory_Swap_members (h : heap) vs ls this other va vb :
  vs !! this = Some va ->
  vs !! other = Some vb ->
  this <> other ->
  RawMemory_Swap (Member this) (Member other) (MkState h vs ls)
  = Ok (tt, MkState h
              (<[other := MkVector (data_ va) (size_ vb)]>
                 (<[this := MkVector (data_ vb) (size_ va)]> vs)) ls).
Proof.
  intros Ha Hb N.
  assert (La : (this < length vs)%nat) by (eapply lookup_lt_Some; eauto).
  assert (Lb : (other < length vs)%nat) by (eapply lookup_lt_Some; eauto).
  destruct va as [[ba ca] na], vb as [[bb cb] nb].
  unfold RawMemory_Swap.
  step_by (eapply get_buffer_member; eauto).
  step_by (eapply get_buffer_member; eauto).
  step_by (eapply set_buffer_member; eauto).
  step_by (eapply set_buffer_member;
           rewrite list_lookup_insert_ne by exact N; eauto).
  step_by (eapply get_capacity_member;
           rewrite list_lookup_insert_ne by auto;
           apply list_lookup_insert_eq, La).
  step_by (eapply get_capacity_member;
           apply list_lookup_insert_eq; rewrite length_insert; exact Lb).
  step_by (eapply set_capacity_member;
           rewrite list_lookup_insert_ne by auto;
           apply list_lookup_insert_eq, La).
  erewrite set_capacity_member by
    (rewrite list_lookup_insert_ne by auto;
     apply list_lookup_insert_eq; rewrite length_insert; exact Lb).
  cbn [data_ size_ buffer_ capacity_].
  rewrite (list_insert_insert_ne _ this other) by exact N.
  rewrite !list_insert_insert_eq.
  reflexivity.
Qed.

Lemma RawMemory_Swap_member_self (h : heap) vs ls this v :
  vs !! this = Some v ->
  RawMemory_Swap (Member this) (Member this) (MkState h vs ls)
  = Ok (tt, MkState h vs ls).
Proof.
  intros Hv.
  assert (L : (this < length vs)%nat) by (eapply lookup_lt_Some; eauto).
  destruct v as [[b c] n].
  unfold RawMemory_Swap.
  step_by (eapply get_buffer_member; eauto).
  step_by (eapply get_buffer_member; eauto).
  step_by (eapply set_buffer_member; eauto).
  step_by (eapply set_buffer_member; apply list_lookup_insert_eq, L).
  step_by (eapply get_capacity_member;
           apply list_lookup_insert_eq; rewrite length_insert; exact L).
  step_by (eapply get_capacity_member;
           apply list_lookup_insert_eq; rewrite length_insert; exact L).
  step_by (eapply set_capacity_member;
           apply list_lookup_insert_eq; rewrite length_insert; exact L).
  erewrite set_capacity_member by
    (apply list_lookup_insert_eq; rewrite !length_insert; exact L).
  cbn [data_ size_ buffer_ capacity_].
  rewrite !list_insert_insert_eq, list_insert_id by exact Hv.
  reflexivity.
Qed.

(** [a.Swap(a)] *)
Lemma Swap_self_Ok (h : heap) vs ls this v :
  vs !! this = Some v ->
  Swap this this (MkState h vs ls) = Ok (tt, MkState h vs ls).
Proof.
  intros Hv.
  assert (L : (this < length vs)%nat) by (eapply lookup_lt_Some; eauto).
  unfold Swap.
  step_by (eapply RawMemory_Swap_member_self; eauto).
  step_by (eapply get_size_Ok; eauto).
  step_by (eapply get_size_Ok; eauto).
  step_by (eapply set_size_Ok; eauto).
  erewrite set_size_Ok by (apply list_lookup_insert_eq, L).
  cbn [data_ size_]. rewrite list_insert_insert_eq.
  rewrite list_insert_id by (destruct v; exact Hv). reflexivity.
Qed.

(** [B = std::move(A)] for two distinct vectors; [this] is [B]. *)
Lemma Vector_move_assign_Ok (h : heap) vs ls this rhs vb va :
  vs !! this = Some vb ->
  vs !! rhs = Some va ->
  this <> rhs ->
  Vector_move_assign this rhs (MkState h vs ls)
  = Ok (tt, MkState h
              (<[rhs := MkVector (data_ vb) 0]> (<[this := va]> vs)) ls).
Proof.
  intros Hb Ha N.
  assert (Lb : (this < length vs)%nat) by (eapply lookup_lt_Some; eauto).
  assert (La : (rhs < length vs)%nat) by (eapply lookup_lt_Some; eauto).
  unfold Vector_move_assign, RawMemory_move_assign.
  step_by (eapply RawMemory_Swap_members; eauto).
  step_by (eapply get_size_Ok;
           apply list_lookup_insert_eq; rewrite length_insert; exact La).
  step_by (eapply set_size_Ok;
           rewrite list_lookup_insert_ne by auto;
           apply list_lookup_insert_eq, Lb).
  erewrite set_size_Ok by
    (rewrite list_lookup_insert_ne by auto;
     apply list_lookup_insert_eq; rewrite length_insert; exact La).
  cbn [data_ size_].
  rewrite (list_insert_insert_ne _ this rhs) by exact N.
  rewrite !list_insert_insert_eq.
  destruct va as [da na]. reflexivity.
Qed.

(** [v = std::move(v)] *)
Lemma Vector_move_assign_self (h : heap) vs ls this v :
  vs !! this = Some v ->
  Vector_move_assign this this (MkState h vs ls)
  = Ok (tt, MkState h (<[this := MkVector (data_ v) 0]> vs) ls).
Proof.
  intros Hv.
  assert (L : (this < length vs)%nat) by (eapply lookup_lt_Some; eauto).
  unfold Vector_move_assign, RawMemory_move_assign.
  step_by (eapply RawMemory_Swap_member_self; eauto).
  step_by (eapply get_size_Ok; eauto).
  step_by (eapply set_size_Ok; eauto).
  erewrite set_size_Ok by (apply list_lookup_insert_eq, L).
  cbn [data_]. rewrite list_insert_insert_eq. reflexivity.
Qed.

(** [Vector B(std::move(A))]; [other] is [A]. *)
Lemma Vector_move_ctor_Ok (h : heap) vs ls other va :
  vs !! other = Some va ->
  Vector_move_ctor other (MkState h vs ls)
  = Ok (length vs,
        MkState h (<[other := MkVector (MkRawMemory Null 0) 0]> vs ++ [va]) ls).
Proof.
  intros Ha.
  assert (La : (other < length vs)%nat) by (eapply lookup_lt_Some; eauto).
  assert (N : other <> length vs) by lia.
  assert (Hd : forall xs : list Vector,
             length xs = length vs ->
             (xs ++ [Vector_default]) !! length vs = Some Vector_default).
  { intros xs <-. apply lookup_last_local. }
  destruct va as [[ba ca] na].
  unfold Vector_move_ctor, RawMemory_move_ctor.
  step_by reflexivity. cbn [mem vectors locals].
  step_by (eapply get_buffer_member; apply lookup_app_l_Some, Ha).
  step_by (eapply set_buffer_member; apply lookup_app_l_Some, Ha).
  rewrite insert_app_l by exact La.
  step_by (eapply set_buffer_member; apply Hd, length_insert).
  rewrite <- (length_insert vs other
                (MkVector (MkRawMemory Null
                   (capacity_ (data_ (MkVector (MkRawMemory ba ca) na))))
                   (size_ (MkVector (MkRawMemory ba ca) na)))) at 1.
  rewrite insert_last_local.
  cbn [data_ size_ buffer_ capacity_ Vector_default RawMemory_default].
  set (vs1 := <[other := MkVector (MkRawMemory Null ca) na]> vs).
  assert (L1 : length vs1 = length vs) by apply length_insert.
  assert (H1 : forall x, (vs1 ++ [x]) !! other
                         = Some (MkVector (MkRawMemory Null ca) na)).
  { intros x. apply lookup_app_l_Some, list_lookup_insert_eq, La. }
  assert (H2 : forall x, (vs1 ++ [x]) !! length vs = Some x).
  { intros x. rewrite <- L1. apply lookup_last_local. }
  step_by (eapply get_capacity_member; apply H1).
  step_by (eapply set_capacity_member; apply H2).
  rewrite <- L1 at 1. rewrite insert_last_local.
  step_by (eapply set_capacity_member; apply H1).
  rewrite insert_app_l by (rewrite L1; exact La).
  unfold vs1 at 1. rewrite list_insert_insert_eq.
  cbn [data_ size_ buffer_ capacity_].
  set (vs2 := <[other := MkVector (MkRawMemory Null 0) na]> vs).
  assert (L2 : length vs2 = length vs) by apply length_insert.
  step_by (eapply get_size_Ok;
           apply lookup_app_l_Some, list_lookup_insert_eq, La).
  step_by (eapply set_size_Ok; rewrite <- L2; apply lookup_last_local).
  rewrite <- L2 at 1. rewrite insert_last_local.
  step_by (eapply set_size_Ok;
           apply lookup_app_l_Some, list_lookup_insert_eq, La).
  rewrite insert_app_l by (rewrite L2; exact La).
  unfold vs2. rewrite list_insert_insert_eq.
  reflexivity.
Qed.

(** C1, as the code has it. Moving a vector [A] into a vector [B] gives [B]
    the buffer, capacity, length and elements of [A] and leaves [A] with
    [Size() == 0]. After move construction [A] has no storage:
    [A.Capacity() == 0]. After move assignment to a distinct vector [B],
    [A] holds the buffer [B] had, so [A.Capacity()] is the former capacity
    of [B]. The heap is not touched by either. Which buffer a vector holds
    is observed through [begin()]: [pa] is the buffer of [A] and [pb] that
    of [B] before the move. *)
Theorem Vector_move_spec s A la ca pa :
  holds s A la ->
  Capacity A s = Ok (ca, s) ->
  begin_ A s = Ok (pa, s) ->
  (exists s' B,
     Vector_move_ctor A s = Ok (B, s') /\
     B <> A /\
     observed s' B ca la /\
     begin_ B s' = Ok (pa, s') /\
     Size A s' = Ok (0, s') /\
     Capacity A s' = Ok (0, s') /\
     begin_ A s' = Ok (Null, s') /\
     holds s' A [] /\
     mem s' = mem s) /\
  (forall B lb cb pb,
     B <> A ->
     holds s B lb ->
     Capacity B s = Ok (cb, s) ->
     begin_ B s = Ok (pb, s) ->
     exists s',
       Vector_move_assign B A s = Ok (tt, s') /\
       observed s' B ca la /\
       begin_ B s' = Ok (pa, s') /\
       Size A s' = Ok (0, s') /\
       Capacity A s' = Ok (cb, s') /\
       begin_ A s' = Ok (pb, s') /\
       mem s' = mem s).
Proof.
  intros Hh Ec Epa.
  destruct (holds_inv _ _ _ _ Hh Ec) as (h & vs & ls & va & -> & Ha & Hoa & Hc).
  assert (La : (A < length vs)%nat) by (eapply lookup_lt_Some; eauto).
  erewrite begin_Ok in Epa by exact Ha.
  assert (Hpa : buffer_ (data_ va) = pa) by congruence.
  split.
  - set (e := MkVector (MkRawMemory Null 0) 0).
    assert (Le : length (<[A := e]> vs) = length vs) by apply length_insert.
    assert (HB : (<[A := e]> vs ++ [va]) !! length vs = Some va)
      by (rewrite <- Le; apply lookup_last_local).
    assert (HA : (<[A := e]> vs ++ [va]) !! A = Some e)
      by (apply lookup_app_l_Some, list_lookup_insert_eq, La).
    exists (MkState h (<[A := e]> vs ++ [va]) ls), (length vs).
    split; [apply Vector_move_ctor_Ok, Ha|].
    split; [lia|].
    split; [eapply observed_intro; eauto|].
    split; [erewrite begin_Ok by exact HB; rewrite Hpa; reflexivity|].
    split; [erewrite Size_Ok by exact HA; reflexivity|].
    split; [erewrite Capacity_Ok by exact HA; reflexivity|].
    split; [erewrite begin_Ok by exact HA; reflexivity|].
    split; [|reflexivity].
    exists e. split; [exact HA | apply owns_default].
  - intros B lb cb pb N Hhb Ecb Epb.
    destruct Hhb as (vb & Hb & Hob). cbn [vectors mem] in Hb, Hob.
    erewrite Capacity_Ok in Ecb by exact Hb.
    assert (Hcb : capacity_ (data_ vb) = cb) by congruence.
    erewrite begin_Ok in Epb by exact Hb.
    assert (Hpb : buffer_ (data_ vb) = pb) by congruence.
    assert (Lb : (B < length vs)%nat) by (eapply lookup_lt_Some; eauto).
    set (vs' := <[A := MkVector (data_ vb) 0]> (<[B := va]> vs)).
    assert (HB : vs' !! B = Some va).
    { unfold vs'. rewrite list_lookup_insert_ne by auto.
      apply list_lookup_insert_eq, Lb. }
    assert (HA : vs' !! A = Some (MkVector (data_ vb) 0)).
    { unfold vs'. apply list_lookup_insert_eq. rewrite length_insert. exact La. }
    exists (MkState h vs' ls).
    split; [eapply Vector_move_assign_Ok; eauto|].
    split; [eapply observed_intro; eauto|].
    split; [erewrite begin_Ok by exact HB; rewrite Hpa; reflexivity|].
    split; [erewrite Size_Ok by exact HA; reflexivity|].
    split; [erewrite Capacity_Ok by exact HA; cbn; rewrite Hcb; reflexivity|].
    split; [erewrite begin_Ok by exact HA; cbn; rewrite Hpb; reflexivity|].
    reflexivity.
Qed.

(** C10. Move-assigning a vector to itself returns with its capacity and
    buffer unchanged and its size 0. The heap is untouched: every former
    element is still a live object in its slot, none has been destroyed,
    and none can be reached through [operator[]] any more. *)
Theorem Vector_self_move_assign s v l c b :
  holds s v l ->
  Capacity v s = Ok (c, s) ->
  begin_ v s = Ok (b, s) ->
  exists s',
    Vector_move_assign v v s = Ok (tt, s') /\
    Capacity v s' = Ok (c, s') /\
    begin_ v s' = Ok (b, s') /\
    Size v s' = Ok (0, s') /\
    mem s' = mem s /\
    (forall (i : nat) x,
       l !! i = Some x ->
       slot_at (mem s') (ptr_add b (Z.of_nat i)) = Some (Live x) /\
       at_ v (Z.of_nat i) s' = Undefined).
Proof.
  intros Hh Ec Eb.
  destruct (holds_inv _ _ _ _ Hh Ec) as (h & vs & ls & x & -> & Hv & Ho & Hc).
  assert (L : (v < length vs)%nat) by (eapply lookup_lt_Some; eauto).
  erewrite begin_Ok in Eb by exact Hv.
  assert (Eb' : buffer_ (data_ x) = b) by congruence. clear Eb.
  set (vs' := <[v := MkVector (data_ x) 0]> vs).
  assert (Hv' : vs' !! v = Some (MkVector (data_ x) 0))
    by (apply list_lookup_insert_eq, L).
  exists (MkState h vs' ls).
  split; [apply Vector_move_assign_self, Hv|].
  split; [erewrite Capacity_Ok by exact Hv'; cbn; rewrite Hc; reflexivity|].
  split; [erewrite begin_Ok by exact Hv'; cbn; rewrite Eb'; reflexivity|].
  split; [erewrite Size_Ok by exact Hv'; reflexivity|].
  split; [reflexivity|].
  intros i y Hi. split.
  - pose proof Ho as (Hn & Hr & Hb).
    assert (Li : (i < length l)%nat) by (eapply lookup_lt_Some; eauto).
    rewrite Eb' in Hb. destruct b as [|bb o]; [cbn in Hn; lia|].
    destruct Hb as (-> & _ & E). cbn [mem ptr_add slot_at].
    destruct (Z.ltb_spec (0 + Z.of_nat i) 0); [lia|].
    rewrite E. rewrite Z.add_0_l, Nat2Z.id.
    rewrite lookup_app_l by (rewrite length_fmap; exact Li).
    rewrite list_lookup_fmap, Hi. reflexivity.
  - unfold at_, Vector_index.
    rewrite !bind_assoc.
    erewrite bind_Ok by (eapply get_size_Ok; exact Hv').
    cbn [size_].
    destruct (Z.ltb_spec (Z.of_nat i) 0); [lia | reflexivity].
Qed.

(** ** What holds whenever an operation returns normally *)

Definition wp {S A} (m : M S A) (Q : A -> S -> Prop) (s : S) : Prop :=
  match m s with
  | Ok (a, s') => Q a s'
  | _ => True
  end.

Lemma wp_elim {S A} (m : M S A) Q s a s' :
  wp m Q s -> m s = Ok (a, s') -> Q a s'.
Proof. unfold wp. intros W E. rewrite E in W. exact W. Qed.

Lemma wp_Ok {S A} (m : M S A) (Q : A -> S -> Prop) s a s' :
  m s = Ok (a, s') -> Q a s' -> wp m Q s.
Proof. unfold wp. intros ->. auto. Qed.

Lemma wp_ret {S A} (a : A) (Q : A -> S -> Prop) s : Q a s -> wp (ret a) Q s.
Proof. auto. Qed.

Lemma wp_bind {S A B} (m : M S A) (f : A -> M S B) Q s :
  wp m (fun a s1 => wp (f a) Q s1) s -> wp (bind m f) Q s.
Proof. unfold wp, bind. destruct (m s) as [[a s1]| |]; auto. Qed.

Lemma wp_bind_Ok {S A B} (m : M S A) (f : A -> M S B) Q s a s1 :
  m s = Ok (a, s1) -> wp (f a) Q s1 -> wp (bind m f) Q s.
Proof. unfold wp, bind. intros ->. auto. Qed.

Lemma wp_assoc {S A B C} (m : M S A) (f : A -> M S B) (g : B -> M S C) Q s :
  wp (bind m (fun a => bind (f a) g)) Q s -> wp (bind (bind m f) g) Q s.
Proof. unfold wp. rewrite bind_assoc. auto. Qed.

Ltac wp_norm :=
  cbv beta;
  repeat match goal with
         | |- wp (bind (bind _ _) _) _ _ => apply wp_assoc
         end.

Tactic Notation "wp_step_by" tactic3(tac) :=
  wp_norm; eapply wp_bind_Ok; [tac|].

Lemma wp_mono {S A} (m : M S A) (Q Q' : A -> S -> Prop) s :
  wp m Q s -> (forall a s', Q a s' -> Q' a s') -> wp m Q' s.
Proof. unfold wp. destruct (m s) as [[a s1]| |]; auto. Qed.

Lemma wp_require {S B} (b : bool) (f : unit -> M S B) Q s :
  (b = true -> wp (f tt) Q s) -> wp (bind (require b) f) Q s.
Proof. destruct b; unfold wp, bind; cbn; auto. intros W. exact (W eq_refl). Qed.

Lemma wp_require_cmp {S B} (c : option bool) (f : unit -> M S B) Q s :
  (c = Some true -> wp (f tt) Q s) -> wp (bind (require_cmp c) f) Q s.
Proof.
  destruct c as [[|]|]; unfold wp, bind; cbn; auto.
  intros W. exact (W eq_refl).
Qed.

Lemma wp_offset_of {S B} (p q : ptr) (f : Z -> M S B) Q s :
  (forall d, ptr_diff p q = Some d -> wp (f d) Q s) ->
  wp (bind (offset_of p q) f) Q s.
Proof.
  unfold offset_of. destruct (ptr_diff p q) as [d|]; unfold wp, bind; cbn; auto.
  intros W. exact (W d eq_refl).
Qed.

Lemma wp_in_heap {A B} (m : H A) (f : A -> V B) Q (h : heap) vs ls :
  (forall a h', m h = Ok (a, h') -> wp (f a) Q (MkState h' vs ls)) ->
  wp (bind (in_heap m) f) Q (MkState h vs ls).
Proof.
  intros W. unfold wp, bind, in_heap. cbn.
  destruct (m h) as [[a h']| |] eqn:E; auto. exact (W a h' eq_refl).
Qed.

Lemma wp_in_heap_last {A} (m : H A) (Q : A -> state -> Prop) (h : heap) vs ls :
  (forall a h', m h = Ok (a, h') -> Q a (MkState h' vs ls)) ->
  wp (in_heap m) Q (MkState h vs ls).
Proof.
  intros W. unfold wp, in_heap. cbn.
  destruct (m h) as [[a h']| |] eqn:E; auto.
Qed.

Lemma wp_get_vector {B} v (f : Vector -> V B) Q (h : heap) vs ls :
  (forall x, vs !! v = Some x -> wp (f x) Q (MkState h vs ls)) ->
  wp (bind (get_vector v) f) Q (MkState h vs ls).
Proof.
  intros W. unfold wp, bind, get_vector. cbn.
  destruct (vs !! v) as [x|] eqn:E; auto. exact (W x eq_refl).
Qed.

Lemma wp_get_size {B} v (f : Z -> V B) Q (h : heap) vs ls :
  (forall x, vs !! v = Some x -> wp (f (size_ x)) Q (MkState h vs ls)) ->
  wp (bind (get_size v) f) Q (MkState h vs ls).
Proof.
  intros W. unfold get_size. wp_norm.
  apply wp_get_vector. intros x Hx. exact (W x Hx).
Qed.

Lemma wp_get_capacity {B} v (f : Z -> V B) Q (h : heap) vs ls :
  (forall x, vs !! v = Some x ->
             wp (f (capacity_ (data_ x))) Q (MkState h vs ls)) ->
  wp (bind (get_capacity (Member v)) f) Q (MkState h vs ls).
Proof.
  intros W. unfold get_capacity, get_raw. wp_norm.
  apply wp_get_vector. intros x Hx. exact (W x Hx).
Qed.

Lemma wp_get_buffer {B} v (f : ptr -> V B) Q (h : heap) vs ls :
  (forall x, vs !! v = Some x ->
             wp (f (buffer_ (data_ x))) Q (MkState h vs ls)) ->
  wp (bind (get_buffer (Member v)) f) Q (MkState h vs ls).
Proof.
  intros W. unfold get_buffer, get_raw. wp_norm.
  apply wp_get_vector. intros x Hx. exact (W x Hx).
Qed.

Lemma wp_RawMemory_plus_member {B} v off (f : ptr -> V B) Q (h : heap) vs ls x :
  vs !! v = Some x ->
  (off <= capacity_ (data_ x) ->
   wp (f (ptr_add (buffer_ (data_ x)) off)) Q (MkState h vs ls)) ->
  wp (bind (RawMemory_plus (Member v) off) f) Q (MkState h vs ls).
Proof.
  intros Hx W. unfold RawMemory_plus.
  wp_step_by (eapply get_capacity_member; eauto).
  wp_norm. apply wp_require. intros Hle. apply Z.leb_le in Hle.
  wp_step_by (eapply get_buffer_member; eauto).
  exact (W Hle).
Qed.

Lemma wp_RawMemory_plus_local {B} off (f : ptr -> V B) Q (h : heap) vs ls r :
  (off <= capacity_ r ->
   wp (f (ptr_add (buffer_ r) off)) Q (MkState h vs (ls ++ [r]))) ->
  wp (bind (RawMemory_plus (Local (length ls)) off) f) Q
     (MkState h vs (ls ++ [r])).
Proof.
  intros W. unfold RawMemory_plus.
  wp_step_by (apply get_capacity_local).
  wp_norm. apply wp_require. intros Hle. apply Z.leb_le in Hle.
  wp_step_by (apply get_buffer_local).
  exact (W Hle).
Qed.

Lemma wp_end {B} v (f : ptr -> V B) Q (h : heap) vs ls x :
  vs !! v = Some x ->
  (size_ x <= capacity_ (data_ x) ->
   wp (f (ptr_add (buffer_ (data_ x)) (size_ x))) Q (MkState h vs ls)) ->
  wp (bind (end_ v) f) Q (MkState h vs ls).
Proof.
  intros Hx W. unfold end_.
  wp_step_by (eapply get_size_Ok; eauto).
  eapply wp_RawMemory_plus_member; eauto.
Qed.

(** A scope with a local [new_data], for a property of the vectors only. *)
Lemma wp_with_new_data {A} capacity (body : place -> V A)
      (P : A -> list Vector -> Prop) (h : heap) vs ls :
  (forall buf h1,
     Allocate capacity h = Ok (buf, h1) ->
     wp (body (Local (length ls)))
        (fun a s2 => P a (vectors s2))
        (MkState h1 vs (ls ++ [MkRawMemory buf capacity]))) ->
  wp (with_new_data capacity body) (fun a s' => P a (vectors s'))
     (MkState h vs ls).
Proof.
  intros W. unfold with_new_data.
  wp_step_by reflexivity. cbn [mem vectors locals].
  unfold RawMemory_ctor. wp_norm.
  apply wp_in_heap. intros buf h1 Ea.
  wp_step_by (apply set_buffer_local).
  wp_step_by (apply set_capacity_local).
  cbn [buffer_ capacity_].
  apply wp_bind. eapply wp_mono; [exact (W buf h1 Ea)|].
  intros a [h2 vs2 ls2] HP. cbn [vectors] in HP.
  unfold RawMemory_dtor, get_buffer.
  unfold wp, bind, get_raw, in_heap, leave_local, ret, Deallocate. cbn.
  destruct (ls2 !! length ls) as [r|]; [|exact I].
  match goal with
  | |- context [operator_delete ?p ?h0] =>
      destruct (operator_delete p h0) as [[[] h3]| |]; cbn; auto
  end.
Qed.

(** No vector of [vs] has a smaller capacity in [vs']. *)
Definition capacities_kept (vs vs' : list Vector) : Prop :=
  forall i x,
    vs !! i = Some x ->
    exists x', vs' !! i = Some x' /\ capacity_ (data_ x) <= capacity_ (data_ x').

Lemma capacities_kept_refl vs : capacities_kept vs vs.
Proof. intros i x Hx. exists x. split; [exact Hx | lia]. Qed.

Lemma capacities_kept_trans vs1 vs2 vs3 :
  capacities_kept vs1 vs2 -> capacities_kept vs2 vs3 -> capacities_kept vs1 vs3.
Proof.
  intros H12 H23 i x Hx.
  destruct (H12 i x Hx) as (y & Hy & Ly). destruct (H23 i y Hy) as (z & Hz & Lz).
  exists z. split; [exact Hz | lia].
Qed.

Lemma capacities_kept_insert vs v x y :
  vs !! v = Some x ->
  capacity_ (data_ x) <= capacity_ (data_ y) ->
  capacities_kept vs (<[v := y]> vs).
Proof.
  intros Hx L i z Hz. destruct (Nat.eq_dec v i) as [->|N].
  - exists y. rewrite list_lookup_insert_eq by (eapply lookup_lt_Some; eauto).
    split; [reflexivity | congruence].
  - exists z. rewrite list_lookup_insert_ne by exact N.
    split; [exact Hz | lia].
Qed.

Lemma capacities_kept_app vs k : capacities_kept vs (vs ++ k).
Proof.
  intros i x Hx. exists x. split; [apply lookup_app_l_Some, Hx | lia].
Qed.

(** The postcondition "no vector of [vs] has lost capacity". *)
Definition kept {A} (vs : list Vector) : A -> state -> Prop :=
  fun _ s' => capacities_kept vs (vectors s').

Lemma set_size_kept vs0 (h : heap) vs ls v n :
  capacities_kept vs0 vs ->
  wp (set_size v n) (kept vs0) (MkState h vs ls).
Proof.
  intros K. unfold set_size. apply wp_get_vector. intros x Hx.
  eapply wp_Ok; [eapply set_vector_Ok; eauto|].
  unfold kept. cbn [vectors].
  eapply capacities_kept_trans; [exact K|].
  eapply capacities_kept_insert; eauto. cbn. lia.
Qed.

Lemma increment_size_kept vs0 (h : heap) vs ls v :
  capacities_kept vs0 vs ->
  wp (increment_size v) (kept vs0) (MkState h vs ls).
Proof.
  intros K. unfold increment_size. apply wp_get_size. intros x Hx.
  apply set_size_kept, K.
Qed.

(** The reallocating scope of [Reserve], [PushBack] and [EmplaceBack] ends
    with [data_.Swap(new_data)]: the vector takes the capacity of
    [new_data]. *)
Lemma Swap_member_local_kept (h : heap) vs ls this x r :
  vs !! this = Some x ->
  capacity_ (data_ x) <= capacity_ r ->
  wp (RawMemory_Swap (Member this) (Local (length ls)))
     (fun (_ : unit) s2 => capacities_kept vs (vectors s2))
     (MkState h vs (ls ++ [r])).
Proof.
  intros Hx L.
  eapply wp_Ok; [eapply RawMemory_Swap_member_local; eauto|].
  cbn [vectors]. eapply capacities_kept_insert; eauto.
Qed.

Lemma Reserve_kept (h : heap) vs ls this n :
  wp (Reserve this n) (kept vs) (MkState h vs ls).
Proof.
  unfold Reserve, Capacity, RawMemory_Capacity.
  apply wp_get_capacity. intros x Hx.
  destruct (Z.leb_spec n (capacity_ (data_ x))) as [|Hgt].
  - apply wp_ret, capacities_kept_refl.
  - apply (wp_with_new_data n _ (fun _ vs' => capacities_kept vs vs')).
    intros buf h1 _.
    unfold RawMemory_GetAddress.
    wp_step_by (eapply get_buffer_member; eauto).
    wp_step_by (eapply get_size_Ok; eauto).
    wp_step_by (apply get_buffer_local).
    wp_norm. apply wp_in_heap. intros [] h2 _.
    wp_norm. apply wp_in_heap. intros [] h3 _.
    eapply Swap_member_local_kept; eauto. cbn. lia.
Qed.

Lemma Resize_kept (h : heap) vs ls this n :
  wp (Resize this n) (kept vs) (MkState h vs ls).
Proof.
  unfold Resize.
  apply wp_get_size. intros x Hx.
  destruct (n =? size_ x); [apply wp_ret, capacities_kept_refl|].
  destruct (n <? size_ x).
  - unfold RawMemory_GetAddress.
    wp_step_by (eapply get_buffer_member; eauto).
    wp_norm. apply wp_in_heap. intros [] h1 _.
    apply set_size_kept, capacities_kept_refl.
  - wp_norm. apply wp_bind.
    eapply wp_mono; [apply Reserve_kept|].
    intros [] [h1 vs1 ls1] K. unfold kept in K. cbn [vectors] in K.
    unfold RawMemory_GetAddress.
    wp_norm. apply wp_get_buffer. intros x1 Hx1.
    wp_norm. apply wp_in_heap. intros [] h2 _.
    apply set_size_kept, K.
Qed.

(** The two branches shared by [PushBack(const T&)], [PushBack(T&&)] and
    [EmplaceBack], for any way [mk] of making the new element. *)
Lemma append_kept (mk : H T) (h : heap) vs ls this x :
  vs !! this = Some x ->
  wp (if size_ x =? capacity_ (data_ x) then
        with_new_data (grown_capacity (size_ x)) (fun new_data =>
          p <- RawMemory_plus new_data (size_ x) ;;
          in_heap (x <- mk ;; construct_at p x) ;;
          b <- begin_ this ;;
          dst <- RawMemory_GetAddress new_data ;;
          in_heap (UninitializedMoveOrCopyN b (size_ x) dst) ;;
          b <- begin_ this ;;
          in_heap (destroy_n b (Z.to_nat (size_ x))) ;;
          RawMemory_Swap (Member this) new_data)
      else
        p <- RawMemory_plus (Member this) (size_ x) ;;
        in_heap (x <- mk ;; construct_at p x))
     (fun _ s' => capacities_kept vs (vectors s'))
     (MkState h vs ls).
Proof.
  intros Hx.
  destruct (Z.eqb_spec (size_ x) (capacity_ (data_ x))) as [Hfull|_].
  - apply (wp_with_new_data _ _ (fun _ vs' => capacities_kept vs vs')).
    intros buf h1 _.
    wp_norm. apply wp_RawMemory_plus_local. cbn [capacity_ buffer_]. intros Hle.
    wp_norm. apply wp_in_heap. intros [] h2 _.
    unfold begin_, RawMemory_GetAddress.
    wp_step_by (eapply get_buffer_member; eauto).
    wp_step_by (apply get_buffer_local).
    wp_norm. apply wp_in_heap. intros [] h3 _.
    wp_step_by (eapply get_buffer_member; eauto).
    wp_norm. apply wp_in_heap. intros [] h4 _.
    eapply Swap_member_local_kept; eauto. cbn. lia.
  - eapply wp_RawMemory_plus_member; eauto. intros _.
    apply wp_in_heap_last. intros [] h1 _. apply capacities_kept_refl.
Qed.

Lemma PushBack_copy_kept (h : heap) vs ls this value :
  wp (PushBack_copy this value) (kept vs) (MkState h vs ls).
Proof.
  unfold PushBack_copy, Size, Capacity, RawMemory_Capacity.
  apply wp_get_size. intros x Hx.
  wp_step_by (eapply get_capacity_member; eauto).
  wp_norm. apply wp_bind.
  eapply wp_mono; [apply (append_kept (copy_value value)), Hx|].
  intros [] [h1 vs1 ls1] K. apply increment_size_kept, K.
Qed.

Lemma PushBack_move_kept (h : heap) vs ls this value :
  wp (PushBack_move this value) (kept vs) (MkState h vs ls).
Proof.
  unfold PushBack_move, Size, Capacity, RawMemory_Capacity.
  apply wp_get_size. intros x Hx.
  wp_step_by (eapply get_capacity_member; eauto).
  wp_norm. apply wp_bind.
  eapply wp_mono; [apply (append_kept (move_value value)), Hx|].
  intros [] [h1 vs1 ls1] K. apply increment_size_kept, K.
Qed.

Lemma EmplaceBack_kept (h : heap) vs ls this args :
  wp (EmplaceBack this args) (kept vs) (MkState h vs ls).
Proof.
  unfold EmplaceBack, Size, Capacity, RawMemory_Capacity.
  apply wp_get_size. intros x Hx.
  wp_step_by (eapply get_capacity_member; eauto).
  wp_norm. apply wp_bind.
  eapply wp_mono; [apply (append_kept (make_value args)), Hx|].
  intros [] [h1 vs1 ls1] K.
  wp_norm. apply wp_bind.
  eapply wp_mono; [apply increment_size_kept, K|].
  intros [] [h2 vs2 ls2] K2. unfold kept in K2. cbn [vectors] in K2.
  unfold Back, end_, RawMemory_plus.
  wp_norm. apply wp_get_size. intros y Hy.
  wp_norm. apply wp_get_capacity. intros y1 Hy1.
  wp_norm. apply wp_require. intros _.
  wp_norm. apply wp_get_buffer. intros y2 Hy2.
  apply wp_ret. exact K2.
Qed.

Lemma PopBack_kept (h : heap) vs ls this :
  wp (PopBack this) (kept vs) (MkState h vs ls).
Proof.
  unfold PopBack.
  apply wp_get_size. intros x Hx.
  wp_norm. apply wp_require. intros _.
  wp_norm. apply wp_bind.
  eapply wp_mono; [apply set_size_kept, capacities_kept_refl|].
  intros [] [h1 vs1 ls1] K. unfold kept in K. cbn [vectors] in K.
  apply wp_get_size. intros y Hy.
  unfold RawMemory_GetAddress.
  wp_norm. apply wp_get_buffer. intros y1 Hy1.
  apply wp_in_heap_last. intros [] h2 _. exact K.
Qed.

Lemma Erase_kept (h : heap) vs ls this pos :
  wp (Erase this pos) (kept vs) (MkState h vs ls).
Proof.
  unfold Erase, begin_, RawMemory_GetAddress.
  apply wp_get_buffer. intros x Hx.
  wp_norm. apply wp_require_cmp. intros _.
  wp_norm. eapply wp_end; eauto. intros _.
  wp_norm. apply wp_require_cmp. intros _.
  wp_norm. apply wp_offset_of. intros d _.
  wp_norm. eapply wp_RawMemory_plus_member; eauto. intros _.
  wp_norm. eapply wp_end; eauto. intros _.
  wp_norm. apply wp_in_heap. intros [] h1 _.
  wp_norm. apply wp_bind.
  eapply wp_mono; [apply PopBack_kept|].
  intros [] s1 K. apply wp_ret. exact K.
Qed.

(** *** The length of a block never changes *)

Definition block_len (h : heap) (b : addr) : option nat :=
  length <$> block_at h b.

Lemma put_slot_len p y (h : heap) b :
  block_len (put_slot p y h) b = block_len h b.
Proof.
  unfold block_len, put_slot. destruct p as [|b0 o]; [reflexivity|].
  destruct (block_at h b0) as [blk|] eqn:E; [|reflexivity].
  destruct (Nat.eq_dec b0 b) as [->|N].
  - rewrite block_at_insert_eq by (eapply block_at_lt; eauto).
    rewrite E. cbn. rewrite length_insert. reflexivity.
  - rewrite block_at_insert_ne by exact N. reflexivity.
Qed.

(** A memory operation that, when it returns, has left every block with
    the length it had. *)
Definition keeps_lengths {A} (m : H A) : Prop :=
  forall (h : heap) a h', m h = Ok (a, h') -> forall b, block_len h' b = block_len h b.

Lemma keeps_ret {A} (a : A) : keeps_lengths (ret a).
Proof. intros h a' h' E b. inversion E. reflexivity. Qed.

Lemma keeps_bind {A B} (m : H A) (f : A -> H B) :
  keeps_lengths m -> (forall a, keeps_lengths (f a)) -> keeps_lengths (bind m f).
Proof.
  intros Km Kf h b h'' E blk.
  apply bind_Ok_inv in E. destruct E as (a & h' & E1 & E2).
  rewrite (Kf a _ _ _ E2), (Km _ _ _ E1). reflexivity.
Qed.

Lemma keeps_load p : keeps_lengths (load p).
Proof.
  intros h a h' E b. unfold load in E.
  destruct (slot_at h p) as [[|x]|]; inversion E. reflexivity.
Qed.

Lemma keeps_construct_at p x : keeps_lengths (construct_at p x).
Proof.
  intros h a h' E b. unfold construct_at in E.
  destruct (slot_at h p); inversion E. apply put_slot_len.
Qed.

Lemma keeps_move_out p : keeps_lengths (move_out p).
Proof.
  intros h a h' E b. unfold move_out in E.
  destruct (slot_at h p) as [[|x]|]; inversion E. apply put_slot_len.
Qed.

Lemma keeps_make_value args : keeps_lengths (make_value args).
Proof.
  destruct args as [[x|p]|[x|p]]; cbn;
    auto using keeps_ret, keeps_load, keeps_move_out.
Qed.

Lemma keeps_uninitialized_copy_n n :
  forall first d_first, keeps_lengths (uninitialized_copy_n first n d_first).
Proof.
  induction n as [|n IH]; intros first d_first; cbn [uninitialized_copy_n].
  - apply keeps_ret.
  - apply keeps_bind; [apply keeps_load|]. intros x.
    apply keeps_bind; [apply keeps_construct_at|]. intros _. apply IH.
Qed.

Lemma keeps_uninitialized_move_n n :
  forall first d_first, keeps_lengths (uninitialized_move_n first n d_first).
Proof.
  induction n as [|n IH]; intros first d_first; cbn [uninitialized_move_n].
  - apply keeps_ret.
  - apply keeps_bind; [apply keeps_move_out|]. intros x.
    apply keeps_bind; [apply keeps_construct_at|]. intros _. apply IH.
Qed.

Lemma keeps_range_length first last : keeps_lengths (range_length first last).
Proof.
  intros h a h' E b. unfold range_length in E.
  destruct (ptr_diff last first) as [d|]; [|discriminate].
  destruct (d <? 0); inversion E. reflexivity.
Qed.

Lemma keeps_UninitializedMoveOrCopy first last destination :
  keeps_lengths (UninitializedMoveOrCopy first last destination).
Proof.
  unfold UninitializedMoveOrCopy, uninitialized_move, uninitialized_copy.
  destruct nothrow_move_or_no_copy;
    (apply keeps_bind; [apply keeps_range_length|]; intros n;
     auto using keeps_uninitialized_move_n, keeps_uninitialized_copy_n).
Qed.

(** *** A transfer needs room for all it transfers *)

Lemma construct_at_room p x (h : heap) a h' :
  construct_at p x h = Ok (a, h') ->
  exists b o n, p = Ptr b o /\ block_len h b = Some n /\ 0 <= o < Z.of_nat n.
Proof.
  unfold construct_at, slot_at, block_len. intros E.
  destruct p as [|b o]; [discriminate|].
  destruct (Z.ltb_spec o 0); [discriminate|].
  destruct (block_at h b) as [blk|] eqn:Eb; [|discriminate].
  destruct (blk !! Z.to_nat o) eqn:El; [|discriminate].
  apply lookup_lt_Some in El.
  exists b, o, (length blk). split; [reflexivity|].
  split; [rewrite Eb; reflexivity | lia].
Qed.

Lemma uninitialized_copy_n_room k :
  forall first b o (h : heap) a h',
  uninitialized_copy_n first (S k) (Ptr b o) h = Ok (a, h') ->
  exists n, block_len h b = Some n /\ 0 <= o /\ o + Z.of_nat (S k) <= Z.of_nat n.
Proof.
  induction k as [|k IH]; intros first b o h a h' E;
    cbn [uninitialized_copy_n] in E;
    apply bind_Ok_inv in E; destruct E as (x & h1 & E1 & E);
    apply bind_Ok_inv in E; destruct E as ([] & h2 & E2 & E3);
    pose proof (keeps_load _ _ _ _ E1 b) as K1;
    pose proof (keeps_construct_at _ _ _ _ _ E2 b) as K2;
    destruct (construct_at_room _ _ _ _ _ E2) as (b' & o' & n & Ep & Hn & Ho);
    inversion Ep; subst b' o'; rewrite K1 in Hn.
  - exists n. split; [exact Hn|]. lia.
  - destruct (IH _ _ _ _ _ _ E3) as (n' & Hn' & Ho' & Hk).
    rewrite K2, K1, Hn in Hn'. inversion Hn'; subst n'.
    exists n. split; [exact Hn|]. lia.
Qed.

Lemma uninitialized_move_n_room k :
  forall first b o (h : heap) a h',
  uninitialized_move_n first (S k) (Ptr b o) h = Ok (a, h') ->
  exists n, block_len h b = Some n /\ 0 <= o /\ o + Z.of_nat (S k) <= Z.of_nat n.
Proof.
  induction k as [|k IH]; intros first b o h a h' E;
    cbn [uninitialized_move_n] in E;
    apply bind_Ok_inv in E; destruct E as (x & h1 & E1 & E);
    apply bind_Ok_inv in E; destruct E as ([] & h2 & E2 & E3);
    pose proof (keeps_move_out _ _ _ _ E1 b) as K1;
    pose proof (keeps_construct_at _ _ _ _ _ E2 b) as K2;
    destruct (construct_at_room _ _ _ _ _ E2) as (b' & o' & n & Ep & Hn & Ho);
    inversion Ep; subst b' o'; rewrite K1 in Hn.
  - exists n. split; [exact Hn|]. lia.
  - destruct (IH _ _ _ _ _ _ E3) as (n' & Hn' & Ho' & Hk).
    rewrite K2, K1, Hn in Hn'. inversion Hn'; subst n'.
    exists n. split; [exact Hn|]. lia.
Qed.

Lemma UninitializedMoveOrCopy_room bs s e b o (h : heap) a h' :
  UninitializedMoveOrCopy (Ptr bs s) (Ptr bs e) (Ptr b o) h = Ok (a, h') ->
  s < e ->
  exists n, block_len h b = Some n /\ 0 <= o /\ o + (e - s) <= Z.of_nat n.
Proof.
  intros E L.
  unfold UninitializedMoveOrCopy, uninitialized_move, uninitialized_copy in E.
  destruct nothrow_move_or_no_copy;
    rewrite (bind_Ok _ _ _ _ _ (range_length_Ok h bs s e ltac:(lia))) in E;
    destruct (Z.to_nat (e - s)) as [|k] eqn:Ek; try lia.
  - destruct (uninitialized_move_n_room _ _ _ _ _ _ _ E) as (n & Hn & Ho & Hk).
    exists n. split; [exact Hn|]. lia.
  - destruct (uninitialized_copy_n_room _ _ _ _ _ _ _ E) as (n & Hn & Ho & Hk).
    exists n. split; [exact Hn|]. lia.
Qed.

Lemma destroy_n_Null n (h : heap) a h' :
  destroy_n Null n h = Ok (a, h') -> n = 0%nat.
Proof. destruct n; [reflexivity|]. cbn. discriminate. Qed.

(** The block of a granted request has room for no more than the [n]
    objects asked for (for fewer, when the byte count wrapped). *)
Lemma Allocate_Ok_inv n (h : heap) buf h1 :
  Allocate n h = Ok (buf, h1) ->
  (n = 0 /\ buf = Null /\ h1 = h) \/
  (exists k, (0 <= n -> Z.of_nat k <= n) /\
             buf = Ptr (length h) 0 /\ h1 = h ++ [Some (replicate k Raw)]).
Proof.
  clear sizeof_T_pos max_alloc_fits.
  unfold Allocate, operator_new. destruct (Z.eqb_spec n 0).
  - intros E. inversion E. auto.
  - destruct (_ <=? _); intros E; inversion E. right.
    eexists. split; [|split; reflexivity].
    intros Hn. unfold to_size_t.
    assert (Hb : 0 <= (n * sizeof_T) mod size_t_modulus)
      by (apply Z.mod_pos_bound; reflexivity).
    destruct (Z.le_gt_cases sizeof_T 0) as [Hs|Hs].
    + (* no object fits a block when [sizeof_T] is not positive *)
      assert ((n * sizeof_T) mod size_t_modulus / sizeof_T <= 0).
      { destruct (Z.eq_dec sizeof_T 0) as [->|]; [rewrite Z.div_0_r; lia|].
        pose proof (Z.mul_div_ge ((n * sizeof_T) mod size_t_modulus) sizeof_T
                      ltac:(lia)).
        nia. }
      lia.
    + assert ((n * sizeof_T) mod size_t_modulus <= n * sizeof_T)
        by (apply Z.mod_le; [nia | reflexivity]).
      rewrite Z2Nat.id by (apply Z.div_pos; lia).
      apply Z.div_le_upper_bound; nia.
Qed.

Lemma grown_capacity_nonneg n : 0 <= grown_capacity n.
Proof.
  unfold grown_capacity, to_size_t, size_t_modulus.
  destruct (n =? 0); [lia|]. apply Z.mod_pos_bound. lia.
Qed.

Lemma Emplace_kept (h : heap) vs ls this pos args :
  wp (Emplace this pos args) (kept vs) (MkState h vs ls).
Proof.
  unfold Emplace, begin_, RawMemory_GetAddress, Size, Capacity, RawMemory_Capacity.
  apply wp_get_buffer. intros x Hx.
  wp_norm. apply wp_require_cmp. intros H1.
  wp_norm. eapply wp_end; eauto. intros Hsz.
  wp_norm. apply wp_require_cmp. intros H2.
  wp_norm. apply wp_offset_of. intros d Hd.
  wp_norm. eapply wp_RawMemory_plus_member; eauto. intros Hd'.
  wp_step_by (eapply get_size_Ok; eauto).
  wp_step_by (eapply get_capacity_member; eauto).
  wp_norm. apply wp_bind.
  apply wp_mono with (Q := fun (_ : ptr) s' => capacities_kept vs (vectors s')).
  2: { intros it [h1 vs1 ls1] K. wp_norm. apply wp_bind.
       eapply wp_mono; [apply increment_size_kept, K|].
       intros [] s2 K2. apply wp_ret. exact K2. }
  set (n := size_ x) in *. set (d' := to_size_t d) in *.
  destruct (Z.eqb_spec n (capacity_ (data_ x))) as [Hfull|Hroom].
  - apply (wp_with_new_data _ _ (fun _ vs' => capacities_kept vs vs')).
    intros buf h1 Ealloc.
    wp_norm. apply wp_RawMemory_plus_local. cbn [buffer_ capacity_]. intros Hle.
    wp_norm. apply wp_in_heap. intros [] h2 E1.
    wp_step_by (apply get_buffer_local). cbn [buffer_].
    wp_norm. apply wp_in_heap. intros [] h3 E2.
    wp_norm. eapply wp_end; eauto. intros _. fold n.
    wp_norm. apply wp_in_heap. intros [] h4 E3.
    wp_norm. apply wp_in_heap. intros [] h5 E4.
    wp_step_by (eapply RawMemory_Swap_member_local; eauto).
    apply wp_ret. cbn [vectors].
    eapply capacities_kept_insert; eauto. cbn [data_ capacity_].
    rewrite <- Hfull.
    pose proof (grown_capacity_nonneg n) as Hg.
    destruct (Z.le_gt_cases n 0) as [|Hpos]; [lia|].
    (* the new block *)
    pose proof (keeps_bind _ _ (keeps_make_value args)
                  (fun y => keeps_construct_at (ptr_add buf d') y)
                  _ _ _ E1) as K1.
    apply bind_Ok_inv in E1. destruct E1 as (y & h1' & Ey & Ec).
    destruct (construct_at_room _ _ _ _ _ Ec) as (nb & o & len & Ep & _ & _).
    destruct (Allocate_Ok_inv _ _ _ _ Ealloc)
      as [(_ & -> & _)|(k & Hroom & -> & ->)]; [discriminate|].
    specialize (Hroom Hg).
    clear Ep Ec Ey.
    assert (Hlen : block_len (h ++ [Some (replicate k Raw)]) (length h)
                   = Some k).
    { unfold block_len. rewrite block_at_app_new. cbn.
      rewrite length_replicate. reflexivity. }
    destruct (buffer_ (data_ x)) as [|bb ob] eqn:Eb.
    + apply destroy_n_Null in E4. lia.
    + cbn [ptr_add] in E3.
      destruct (Z.le_gt_cases n d') as [|Hlt]; [lia|].
      destruct (UninitializedMoveOrCopy_room _ _ _ _ _ _ _ _ E3)
        as (len' & Hlen' & _ & Hk); [lia|].
      rewrite (keeps_UninitializedMoveOrCopy _ _ _ _ _ _ E2), K1, Hlen in Hlen'.
      inversion Hlen'; subst len'. lia.
  - wp_norm.
    destruct (negb (ptr_eqb pos (ptr_add (buffer_ (data_ x)) n))).
    + wp_norm. eapply wp_RawMemory_plus_member; eauto. intros _.
      unfold Back.
      wp_norm. eapply wp_end; eauto. intros _.
      wp_step_by reflexivity.
      wp_norm. apply wp_in_heap. intros [] h1 _.
      wp_norm. eapply wp_end; eauto. intros _.
      wp_norm. apply wp_in_heap. intros [] h2 _.
      wp_norm. apply wp_in_heap. intros [] h3 _.
      apply wp_ret, capacities_kept_refl.
    + wp_norm. eapply wp_RawMemory_plus_member; eauto. intros _.
      wp_norm. apply wp_in_heap. intros [] h1 _.
      apply wp_ret, capacities_kept_refl.
Qed.

Lemma Vector_ctor_size_kept (h : heap) vs ls size :
  wp (Vector_ctor_size size) (kept vs) (MkState h vs ls).
Proof.
  unfold Vector_ctor_size, RawMemory_ctor, begin_, RawMemory_GetAddress.
  wp_step_by reflexivity. cbn [mem vectors locals].
  wp_norm. apply wp_in_heap. intros buf h1 _.
  wp_step_by (eapply set_buffer_member; apply lookup_last_local).
  rewrite insert_last_local.
  wp_step_by (eapply set_capacity_member; apply lookup_last_local).
  rewrite insert_last_local.
  wp_step_by (eapply set_size_Ok; apply lookup_last_local).
  rewrite insert_last_local.
  wp_step_by (eapply get_buffer_member; apply lookup_last_local).
  wp_norm. apply wp_in_heap. intros [] h2 _.
  apply wp_ret. apply capacities_kept_app.
Qed.

(** The copy constructor adds one vector, whose capacity is the size of
    the vector copied. *)
Lemma Vector_copy_ctor_wp (h : heap) vs ls other :
  wp (Vector_copy_ctor other)
     (fun k s' =>
        k = length vs /\
        exists vn, vectors s' = vs ++ [vn] /\
          forall xo, vs !! other = Some xo -> capacity_ (data_ vn) = size_ xo)
     (MkState h vs ls).
Proof.
  unfold Vector_copy_ctor, RawMemory_ctor, begin_, RawMemory_GetAddress, Size.
  wp_step_by reflexivity. cbn [mem vectors locals].
  wp_norm. apply wp_get_size. intros xo Hxo.
  wp_norm. apply wp_in_heap. intros buf h1 _.
  wp_step_by (eapply set_buffer_member; apply lookup_last_local).
  rewrite insert_last_local.
  wp_step_by (eapply set_capacity_member; apply lookup_last_local).
  rewrite insert_last_local.
  wp_step_by (eapply set_size_Ok; apply lookup_last_local).
  rewrite insert_last_local. cbn [data_ buffer_ capacity_ size_].
  wp_norm. apply wp_get_buffer. intros x1 Hx1.
  wp_norm. apply wp_get_size. intros x2 Hx2.
  wp_step_by (eapply get_buffer_member; apply lookup_last_local).
  wp_norm. apply wp_in_heap. intros [] h2 _.
  apply wp_ret. split; [reflexivity|].
  eexists. split; [reflexivity|]. cbn [data_ capacity_].
  intros xo' Hxo'. f_equal.
  pose proof (lookup_app_l_Some vs [Vector_default] other xo' Hxo') as Hl.
  congruence.
Qed.

Lemma Vector_dtor_vectors (h : heap) vs ls this :
  wp (Vector_dtor this) (fun _ s' => vectors s' = vs) (MkState h vs ls).
Proof.
  unfold Vector_dtor, RawMemory_dtor, begin_, RawMemory_GetAddress.
  apply wp_get_buffer. intros x Hx.
  wp_step_by (eapply get_size_Ok; eauto).
  wp_norm. apply wp_in_heap. intros [] h1 _.
  wp_step_by (eapply get_buffer_member; eauto).
  apply wp_in_heap_last. intros [] h2 _. reflexivity.
Qed.

Lemma Vector_copy_assign_kept (h : heap) vs ls this rhs :
  wp (Vector_copy_assign this rhs) (kept vs) (MkState h vs ls).
Proof.
  unfold Vector_copy_assign, RawMemory_Capacity, RawMemory_GetAddress, Size.
  destruct (Nat.eqb this rhs); [apply wp_ret, capacities_kept_refl|].
  apply wp_get_size. intros xr Hxr.
  wp_norm. apply wp_get_capacity. intros xa Hxa.
  assert (La : (this < length vs)%nat) by (eapply lookup_lt_Some; eauto).
  destruct (Z.ltb_spec (capacity_ (data_ xa)) (size_ xr)) as [Hgt|_].
  - wp_norm. apply wp_bind.
    eapply wp_mono; [apply Vector_copy_ctor_wp|].
    intros k [h1 vs1 ls1] (-> & vn & Hvs1 & Hcap). cbn [vectors] in Hvs1.
    subst vs1. specialize (Hcap xr Hxr).
    wp_step_by (eapply (Swap_Ok _ _ _ this (length vs) xa vn);
                [ apply lookup_app_l_Some, Hxa | apply lookup_last_local | lia ]).
    rewrite insert_app_l by exact La.
    replace (length vs) with (length (<[this := vn]> vs)) at 1 2
      by apply length_insert.
    rewrite insert_last_local.
    wp_norm. apply wp_bind.
    eapply wp_mono; [apply Vector_dtor_vectors|].
    intros [] [h2 vs2 ls2] Hvs2. cbn [vectors] in Hvs2. subst vs2.
    eapply wp_Ok; [reflexivity|].
    unfold kept. cbn [vectors]. rewrite take_last_local.
    eapply capacities_kept_insert; eauto. lia.
  - wp_step_by (eapply get_buffer_member; eauto).
    wp_step_by (eapply get_size_Ok; eauto).
    wp_step_by (eapply get_size_Ok; eauto).
    wp_step_by (eapply get_buffer_member; eauto).
    wp_norm. apply wp_in_heap. intros [] h1 _.
    wp_norm. apply wp_bind.
    apply wp_mono with (Q := fun (_ : unit) s' => vectors s' = vs).
    + destruct (size_ xr <? size_ xa);
        apply wp_in_heap_last; intros [] h2 _; reflexivity.
    + intros [] [h2 vs2 ls2] Hvs2. cbn [vectors] in Hvs2. subst vs2.
      wp_step_by (eapply get_size_Ok; eauto).
      apply set_size_kept, capacities_kept_refl.
Qed.

(** *** The capacity of one vector *)

(** The vector [v] of [vs] has not lost capacity in [vs']. *)
Definition capacity_kept (v : nat) (vs vs' : list Vector) : Prop :=
  forall x,
    vs !! v = Some x ->
    exists x', vs' !! v = Some x' /\ capacity_ (data_ x) <= capacity_ (data_ x').

Lemma capacities_kept_at vs vs' v :
  capacities_kept vs vs' -> capacity_kept v vs vs'.
Proof. intros K x Hx. exact (K v x Hx). Qed.

Lemma capacity_kept_refl v vs : capacity_kept v vs vs.
Proof. intros x Hx. exists x. split; [exact Hx | lia]. Qed.

Lemma capacity_kept_trans v vs1 vs2 vs3 :
  capacity_kept v vs1 vs2 -> capacity_kept v vs2 vs3 -> capacity_kept v vs1 vs3.
Proof.
  intros H12 H23 x Hx.
  destruct (H12 x Hx) as (y & Hy & Ly). destruct (H23 y Hy) as (z & Hz & Lz).
  exists z. split; [exact Hz | lia].
Qed.

(** A computation that changes no vector other than those of [ks]. *)
Definition touches {A} (ks : nat -> Prop) (m : V A) : Prop :=
  forall s a s',
    m s = Ok (a, s') ->
    forall i x, ~ ks i -> vectors s !! i = Some x -> vectors s' !! i = Some x.

Lemma touches_ret {A} ks (a : A) : touches ks (ret a).
Proof. intros s a' s' E i x _ Hx. inversion E; subst. exact Hx. Qed.

Lemma touches_bind {A B} ks (m : V A) (f : A -> V B) :
  touches ks m -> (forall a, touches ks (f a)) -> touches ks (bind m f).
Proof.
  intros Hm Hf s b s' E i x Hi Hx.
  apply bind_Ok_inv in E. destruct E as (a & s1 & E1 & E2).
  eapply Hf; eauto.
Qed.

Lemma touches_get_vector ks v : touches ks (get_vector v).
Proof.
  intros s a s' E i x _ Hx. unfold get_vector in E.
  destruct (vectors s !! v); inversion E; subst. exact Hx.
Qed.

Lemma touches_set_vector (ks : nat -> Prop) v y :
  ks v -> touches ks (set_vector v y).
Proof.
  intros Hk s a s' E i x Hi Hx. unfold set_vector in E.
  destruct (vectors s !! v); inversion E; subst. cbn [vectors].
  rewrite list_lookup_insert_ne by (intros ->; contradiction). exact Hx.
Qed.

Lemma touches_get_raw ks v : touches ks (get_raw (Member v)).
Proof.
  apply touches_bind; [apply touches_get_vector | intros; apply touches_ret].
Qed.

Lemma touches_set_raw (ks : nat -> Prop) v r :
  ks v -> touches ks (set_raw (Member v) r).
Proof.
  intros Hk. apply touches_bind;
    [apply touches_get_vector | intros; apply touches_set_vector, Hk].
Qed.

Lemma touches_get_buffer ks v : touches ks (get_buffer (Member v)).
Proof.
  apply touches_bind; [apply touches_get_raw | intros; apply touches_ret].
Qed.

Lemma touches_set_buffer (ks : nat -> Prop) v b :
  ks v -> touches ks (set_buffer (Member v) b).
Proof.
  intros Hk. apply touches_bind;
    [apply touches_get_raw | intros; apply touches_set_raw, Hk].
Qed.

Lemma touches_get_capacity ks v : touches ks (get_capacity (Member v)).
Proof.
  apply touches_bind; [apply touches_get_raw | intros; apply touches_ret].
Qed.

Lemma touches_set_capacity (ks : nat -> Prop) v c :
  ks v -> touches ks (set_capacity (Member v) c).
Proof.
  intros Hk. apply touches_bind;
    [apply touches_get_raw | intros; apply touches_set_raw, Hk].
Qed.

Lemma touches_get_size ks v : touches ks (get_size v).
Proof.
  apply touches_bind; [apply touches_get_vector | intros; apply touches_ret].
Qed.

Lemma touches_set_size (ks : nat -> Prop) v n :
  ks v -> touches ks (set_size v n).
Proof.
  intros Hk. apply touches_bind;
    [apply touches_get_vector | intros; apply touches_set_vector, Hk].
Qed.

Ltac touches_steps :=
  repeat first
    [ apply touches_ret
    | apply touches_get_buffer | apply touches_get_capacity
    | apply touches_get_size
    | apply touches_set_buffer | apply touches_set_capacity
    | apply touches_set_size
    | apply touches_bind; [|intros ?] ].

Lemma touches_RawMemory_Swap (ks : nat -> Prop) a b :
  ks a -> ks b -> touches ks (RawMemory_Swap (Member a) (Member b)).
Proof. intros Ha Hb. unfold RawMemory_Swap. touches_steps; assumption. Qed.

Lemma touches_Swap (ks : nat -> Prop) a b :
  ks a -> ks b -> touches ks (Swap a b).
Proof.
  intros Ha Hb. unfold Swap.
  apply touches_bind; [apply touches_RawMemory_Swap; assumption | intros ?].
  touches_steps; assumption.
Qed.

Lemma touches_Vector_move_assign (ks : nat -> Prop) a b :
  ks a -> ks b -> touches ks (Vector_move_assign a b).
Proof.
  intros Ha Hb. unfold Vector_move_assign, RawMemory_move_assign.
  apply touches_bind; [apply touches_RawMemory_Swap; assumption | intros ?].
  touches_steps; assumption.
Qed.

Lemma touches_kept {A} ks (m : V A) s v :
  touches ks m -> ~ ks v ->
  wp m (fun _ s' => capacity_kept v (vectors s) (vectors s')) s.
Proof.
  intros Hm Hv. unfold wp. destruct (m s) as [[a s']| |] eqn:E; try exact I.
  intros x Hx. exists x. split; [eapply Hm; eauto | lia].
Qed.

(** [a.Swap(b)] keeps the capacity of every vector other than [a] and [b],
    and [a.Swap(a)] that of [a] as well. *)
Lemma Swap_kept (h : heap) vs ls a b v :
  a = b \/ (a <> v /\ b <> v) ->
  wp (Swap a b) (fun _ s' => capacity_kept v vs (vectors s')) (MkState h vs ls).
Proof.
  intros Hab. destruct (Nat.eq_dec a v) as [->|Na].
  - assert (b = v) as -> by (destruct Hab as [|[]]; congruence).
    unfold wp. destruct (Swap v v _) as [[[] s']| |] eqn:E; try exact I.
    intros x Hx. rewrite (Swap_self_Ok _ _ _ _ _ Hx) in E. inversion E; subst.
    exists x. split; [exact Hx | lia].
  - assert (Nb : b <> v) by (destruct Hab as [|[]]; congruence).
    apply (touches_kept (fun i => i = a \/ i = b) _ (MkState h vs ls));
      [apply touches_Swap; auto | intros [|]; congruence].
Qed.

(** The same for [a = std::move(b)]. *)
Lemma Vector_move_assign_kept (h : heap) vs ls a b v :
  a = b \/ (a <> v /\ b <> v) ->
  wp (Vector_move_assign a b) (fun _ s' => capacity_kept v vs (vectors s'))
     (MkState h vs ls).
Proof.
  intros Hab. destruct (Nat.eq_dec a v) as [->|Na].
  - assert (b = v) as -> by (destruct Hab as [|[]]; congruence).
    unfold wp. destruct (Vector_move_assign v v _) as [[[] s']| |] eqn:E;
      try exact I.
    intros x Hx. rewrite (Vector_move_assign_self _ _ _ _ _ Hx) in E.
    inversion E; subst. cbn [vectors].
    eexists. split; [apply list_lookup_insert_eq; eapply lookup_lt_Some; eauto|].
    cbn. lia.
  - assert (Nb : b <> v) by (destruct Hab as [|[]]; congruence).
    apply (touches_kept (fun i => i = a \/ i = b) _ (MkState h vs ls));
      [apply touches_Vector_move_assign; auto | intros [|]; congruence].
Qed.

(** Move construction changes its source and the new vector only. *)
Lemma Vector_move_ctor_kept (h : heap) vs ls other v :
  other <> v ->
  wp (Vector_move_ctor other) (fun _ s' => capacity_kept v vs (vectors s'))
     (MkState h vs ls).
Proof.
  intros N. unfold Vector_move_ctor.
  wp_step_by reflexivity. cbn [mem vectors locals]. cbv beta.
  set (ks := fun i => i = other \/ i = length vs).
  match goal with |- wp ?m _ _ => assert (Ht : touches ks m) end.
  { apply touches_bind; [|intros ?; touches_steps; unfold ks; auto].
    unfold RawMemory_move_ctor. touches_steps; unfold ks; auto. }
  unfold wp.
  match goal with
  | |- match ?m ?s0 with _ => _ end =>
      destruct (m s0) as [[a s']| |] eqn:E; try exact I
  end.
  intros x Hx. exists x. split; [|lia].
  eapply Ht; [exact E | | apply lookup_app_l_Some, Hx].
  apply lookup_lt_Some in Hx. unfold ks. lia.
Qed.

(** An operation in which [v] does not hand its storage over keeps the
    capacity of [v]. *)
Lemma perform_kept v o (h : heap) vs ls :
  hands_over v o = false ->
  wp (perform o) (fun _ s' => capacity_kept v vs (vectors s')) (MkState h vs ls).
Proof.
  assert (Hall : forall (m : V unit),
            wp m (kept vs) (MkState h vs ls) ->
            wp m (fun _ s' => capacity_kept v vs (vectors s')) (MkState h vs ls)).
  { intros m W. eapply wp_mono; [exact W|].
    intros a s' K. apply capacities_kept_at, K. }
  assert (Hret : forall A (m : V A),
            wp m (kept vs) (MkState h vs ls) ->
            wp (m ;; ret tt) (kept vs) (MkState h vs ls)).
  { intros A m W. apply wp_bind. eapply wp_mono; [exact W|].
    intros a s' K. apply wp_ret. exact K. }
  assert (Hboth : forall a b,
            negb (Nat.eqb a b) && (Nat.eqb a v || Nat.eqb b v) = false ->
            a = b \/ (a <> v /\ b <> v)).
  { intros a b Hh.
    destruct (Nat.eqb_spec a b), (Nat.eqb_spec a v), (Nat.eqb_spec b v);
      cbn in Hh; try discriminate; auto. }
  destruct o; cbn [hands_over perform]; intros Hh.
  - apply Hall, Hret.
    eapply wp_Ok; [reflexivity|]. apply capacities_kept_app.
  - apply Hall, Hret, Vector_ctor_size_kept.
  - apply Hall, Hret.
    eapply wp_mono; [apply Vector_copy_ctor_wp|].
    intros k s' (_ & vn & Hvs' & _). unfold kept. rewrite Hvs'.
    apply capacities_kept_app.
  - apply wp_bind.
    eapply wp_mono; [apply Vector_move_ctor_kept, Nat.eqb_neq, Hh|].
    intros a s' K. apply wp_ret. exact K.
  - apply Hall, Vector_copy_assign_kept.
  - apply Vector_move_assign_kept, Hboth, Hh.
  - apply Swap_kept, Hboth, Hh.
  - apply Hall, Reserve_kept.
  - apply Hall, Resize_kept.
  - apply Hall, PushBack_copy_kept.
  - apply Hall, PushBack_move_kept.
  - apply Hall, Hret, EmplaceBack_kept.
  - apply Hall, Hret, Emplace_kept.
  - apply Hall, Hret, Emplace_kept.
  - apply Hall, Hret, Emplace_kept.
  - apply Hall, PopBack_kept.
  - apply Hall, Hret, Erase_kept.
Qed.

Lemma perform_all_kept v os :
  forallb (fun o => negb (hands_over v o)) os = true ->
  forall s,
    wp (perform_all os) (fun _ s' => capacity_kept v (vectors s) (vectors s')) s.
Proof.
  induction os as [|o os IH]; intros Hos s; cbn [perform_all].
  - apply wp_ret, capacity_kept_refl.
  - cbn [forallb] in Hos. apply andb_prop in Hos. destruct Hos as [Ho Hos].
    apply wp_bind. destruct s as [h vs ls].
    eapply wp_mono;
      [apply (perform_kept v);
       destruct (hands_over v o); [discriminate | reflexivity]|].
    intros [] s1 K1. eapply wp_mono; [apply (IH Hos s1)|].
    intros [] s2 K2. cbn [vectors] in *.
    eapply capacity_kept_trans; eauto.
Qed.

Lemma Capacity_lookup s v c :
  Capacity v s = Ok (c, s) <->
  exists x, vectors s !! v = Some x /\ capacity_ (data_ x) = c.
Proof.
  destruct s as [h vs ls]. cbn [vectors]. split.
  - intros E. destruct (vs !! v) as [x|] eqn:Hx.
    + erewrite Capacity_Ok in E by eauto. inversion E. eauto.
    + unfold Capacity, RawMemory_Capacity, get_capacity, get_raw, bind,
        get_vector in E. cbn in E. rewrite Hx in E. discriminate.
  - intros (x & Hx & <-). eapply Capacity_Ok; eauto.
Qed.

(** C2, as the code has it. Along any sequence of operations, on this
    vector or on others, whenever the sequence returns normally [Capacity()]
    of a vector [v] is at least what it was, provided that no operation of
    the sequence is a [Swap] or a move assignment between [v] and another
    vector, or a move construction from [v]. Those are the exceptions: a
    move construction from [v] leaves it with capacity 0, and [Swap] and
    move assignment exchange the capacities of their two vectors, so that
    the capacity of either may go down, also that of the target of a move
    assignment, and the source of a move assignment is left with the
    former capacity of the target. *)
Theorem capacity_never_decreases os s s' v c :
  forallb (fun o => negb (hands_over v o)) os = true ->
  perform_all os s = Ok (tt, s') ->
  Capacity v s = Ok (c, s) ->
  (exists c', Capacity v s' = Ok (c', s') /\ c <= c') /\
  (exists s1 w, Vector_move_ctor v s = Ok (w, s1) /\
                Capacity v s1 = Ok (0, s1) /\ Capacity w s1 = Ok (c, s1)) /\
  (forall w cw,
     v <> w ->
     Capacity w s = Ok (cw, s) ->
     (exists s1, Swap v w s = Ok (tt, s1) /\
                 Capacity v s1 = Ok (cw, s1) /\ Capacity w s1 = Ok (c, s1)) /\
     (exists s1, Vector_move_assign v w s = Ok (tt, s1) /\
                 Capacity v s1 = Ok (cw, s1) /\ Capacity w s1 = Ok (c, s1)) /\
     (exists s1, Vector_move_assign w v s = Ok (tt, s1) /\
                 Capacity v s1 = Ok (cw, s1) /\ Capacity w s1 = Ok (c, s1))).
Proof.
  intros Hos E Ec. split; [|split].
  - pose proof (wp_elim _ _ _ _ _ (perform_all_kept v os Hos s) E) as K.
    apply Capacity_lookup in Ec. destruct Ec as (x & Hx & <-).
    destruct (K x Hx) as (x' & Hx' & L).
    exists (capacity_ (data_ x')). split; [|exact L].
    apply Capacity_lookup. eauto.
  - apply Capacity_lookup in Ec. destruct Ec as (x & Hx & <-).
    destruct s as [h vs ls]. cbn [vectors] in Hx.
    assert (Lx : (v < length vs)%nat) by (eapply lookup_lt_Some; eauto).
    eexists _, _. split; [apply Vector_move_ctor_Ok, Hx|]. split.
    + eapply (Capacity_Ok _ _ _ _ (MkVector (MkRawMemory Null 0) 0)).
      apply lookup_app_l_Some, list_lookup_insert_eq, Lx.
    + eapply Capacity_Ok.
      rewrite <- (length_insert vs v (MkVector (MkRawMemory Null 0) 0)).
      apply lookup_last_local.
  - intros w cw N Ew.
    apply Capacity_lookup in Ec. destruct Ec as (x & Hx & <-).
    apply Capacity_lookup in Ew. destruct Ew as (y & Hy & <-).
    destruct s as [h vs ls]. cbn [vectors] in Hx, Hy.
    assert (Lx : (v < length vs)%nat) by (eapply lookup_lt_Some; eauto).
    assert (Ly : (w < length vs)%nat) by (eapply lookup_lt_Some; eauto).
    split; [|split].
    + eexists. split; [eapply Swap_Ok; eauto|]. split.
      * eapply Capacity_Ok. rewrite list_lookup_insert_ne by auto.
        apply list_lookup_insert_eq, Lx.
      * eapply Capacity_Ok. apply list_lookup_insert_eq.
        rewrite length_insert. exact Ly.
    + eexists. split; [eapply Vector_move_assign_Ok; eauto|]. split.
      * eapply Capacity_Ok. rewrite list_lookup_insert_ne by auto.
        apply list_lookup_insert_eq, Lx.
      * eapply (Capacity_Ok _ _ _ _ (MkVector (data_ x) 0)).
        apply list_lookup_insert_eq. rewrite length_insert. exact Ly.
    + eexists. split; [eapply Vector_move_assign_Ok; eauto|]. split.
      * eapply (Capacity_Ok _ _ _ _ (MkVector (data_ y) 0)).
        apply list_lookup_insert_eq. rewrite length_insert. exact Lx.
      * eapply Capacity_Ok. rewrite list_lookup_insert_ne by auto.
        apply list_lookup_insert_eq, Ly.
Qed.

(** * Further properties of the container *)

(** ** Failing computations *)

Lemma require_false {S} (b : bool) (s : S) :
  b = false -> require b s = Undefined.
Proof. intros ->. reflexivity. Qed.

Lemma bind_Undefined {S A B} (m : M S A) (f : A -> M S B) s :
  m s = Undefined -> bind m f s = Undefined.
Proof. intros E. unfold bind. rewrite E. reflexivity. Qed.

Lemma bind_BadAlloc {S A B} (m : M S A) (f : A -> M S B) s :
  m s = BadAlloc -> bind m f s = BadAlloc.
Proof. intros E. unfold bind. rewrite E. reflexivity. Qed.

Lemma in_heap_Undefined {A} (m : H A) (h : heap) vs ls :
  m h = Undefined -> in_heap m (MkState h vs ls) = Undefined.
Proof. intros E. unfold in_heap. cbn. rewrite E. reflexivity. Qed.

Lemma in_heap_BadAlloc {A} (m : H A) (h : heap) vs ls :
  m h = BadAlloc -> in_heap m (MkState h vs ls) = BadAlloc.
Proof. intros E. unfold in_heap. cbn. rewrite E. reflexivity. Qed.

(** ** Element access *)

(** The slot of the element of index [i] of a vector that satisfies the
    invariant. *)
Lemma owns_slot (h : heap) v l b (i : nat) x :
  owns h v l ->
  buffer_ (data_ v) = Ptr b 0 ->
  l !! i = Some x ->
  slot_at h (Ptr b (Z.of_nat i)) = Some (Live x).
Proof.
  intros Ho Eb Hx. pose proof (owns_block_of _ _ _ _ _ Ho Eb) as E.
  unfold block_of in E.
  rewrite <- (take_drop_middle l i x Hx) in E at 1.
  rewrite fmap_app, fmap_cons, <- app_assoc in E. cbn [app] in E.
  eapply (slot_at_middle _ _ (Live <$> take i l)); [|exact E].
  rewrite length_fmap, length_take. apply lookup_lt_Some in Hx. lia.
Qed.

(** X1. [operator[]] on a vector with elements [l]: [v[i]] is the element of
    index [i] when [i < Size()]; for every other index the assertion
    [index < size_] fails, also when the index is below the capacity. *)
Theorem Vector_index_bounds s this l i :
  holds s this l ->
  0 <= i ->
  at_ this i s
  = match l !! Z.to_nat i with
    | Some x => Ok (x, s)
    | None => Undefined
    end /\
  (Z.of_nat (length l) <= i -> Vector_index this i s = Undefined).
Proof.
  intros (v & Hv & Ho) Hi. destruct s as [h vs ls]. cbn [vectors mem] in *.
  pose proof Ho as (Hn & Hc & Hb).
  assert (Hout : Z.of_nat (length l) <= i ->
                 Vector_index this i (MkState h vs ls) = Undefined).
  { intros L. unfold Vector_index.
    step_by (eapply get_size_Ok; eauto).
    apply bind_Undefined, require_false, Z.ltb_ge. lia. }
  split; [|exact Hout].
  destruct (l !! Z.to_nat i) as [x|] eqn:Hx.
  - assert (Z.to_nat i < length l)%nat by (eapply lookup_lt_Some; eauto).
    destruct (buffer_ (data_ v)) as [|b o] eqn:Eb; [lia|].
    destruct Hb as (-> & _ & _).
    unfold at_.
    step_by (eapply Vector_index_Ok; eauto; lia).
    rewrite Eb. cbn [ptr_add]. apply in_heap_Ok. unfold load.
    replace (0 + i) with (Z.of_nat (Z.to_nat i)) by lia.
    erewrite owns_slot by eauto. reflexivity.
  - apply lookup_ge_None in Hx. unfold at_. apply bind_Undefined, Hout. lia.
Qed.

(** X2. [Back()] and [Front()] read as values: the last and the first element
    of a non-empty vector; on an empty vector neither refers to an
    object. *)
Theorem Back_Front_spec s this l :
  holds s this l ->
  (p <- Back this ;; in_heap (load p)) s
  = match last l with
    | Some x => Ok (x, s)
    | None => Undefined
    end /\
  (p <- Front this ;; in_heap (load p)) s
  = match head l with
    | Some x => Ok (x, s)
    | None => Undefined
    end.
Proof.
  intros (v & Hv & Ho). destruct s as [h vs ls]. cbn [vectors mem] in *.
  pose proof Ho as (Hn & Hc & Hb).
  split.
  - unfold Back.
    step_by (eapply end_Ok; eauto; lia).
    rewrite bind_ret_l.
    destruct (buffer_ (data_ v)) as [|b o] eqn:Eb.
    + assert (El : l = []) by (destruct l; [reflexivity | cbn in Hn; lia]).
      subst l. reflexivity.
    + destruct Hb as (-> & _ & _). cbn [ptr_add].
      destruct l as [|x l _] using rev_ind.
      * cbn [last]. apply in_heap_Undefined. unfold load, slot_at.
        rewrite Hn. reflexivity.
      * rewrite last_snoc. apply in_heap_Ok. unfold load.
        rewrite length_app in Hn. cbn [length] in Hn.
        replace (0 + size_ v + -1) with (Z.of_nat (length l)) by lia.
        erewrite owns_slot; [reflexivity | exact Ho | exact Eb |].
        apply list_lookup_middle. reflexivity.
  - unfold Front.
    step_by (eapply begin_Ok; eauto).
    destruct (buffer_ (data_ v)) as [|b o] eqn:Eb.
    + assert (El : l = []) by (destruct l; [reflexivity | cbn in Hn; lia]).
      subst l. reflexivity.
    + destruct Hb as (-> & Hp & _).
      destruct l as [|x l].
      * cbn [head]. apply in_heap_Undefined. unfold load.
        erewrite (owns_raw_beyond _ _ _ _ 0 Ho Eb); [reflexivity|].
        cbn in Hn. lia.
      * cbn [head]. apply in_heap_Ok. unfold load.
        pose proof (owns_slot _ _ _ _ 0%nat x Ho Eb eq_refl) as Es.
        change (Z.of_nat 0) with 0 in Es. rewrite Es. reflexivity.
Qed.

(** ** [PopBack] *)

Lemma PopBack_Ok (h : heap) vs ls this v l x b :
  vs !! this = Some v ->
  owns h v (l ++ [x]) ->
  buffer_ (data_ v) = Ptr b 0 ->
  PopBack this (MkState h vs ls)
  = Ok (tt, MkState (<[b := Some (block_of l (capacity_ (data_ v)))]> h)
                    (<[this := MkVector (data_ v) (size_ v - 1)]> vs) ls).
Proof.
  intros Hv Ho Eb. pose proof Ho as (Hn & Hc & _).
  rewrite length_app in Hn. cbn [length] in Hn.
  pose proof (owns_block_of _ _ _ _ _ Ho Eb) as E.
  assert (L : (this < length vs)%nat) by (eapply lookup_lt_Some; eauto).
  unfold block_of in E. rewrite fmap_app, <- app_assoc in E.
  change (Live <$> [x]) with [Live x] in E. cbn [app] in E.
  unfold PopBack.
  step_by (eapply get_size_Ok; eauto).
  step_by (apply require_true; destruct (Z.eqb_spec (size_ v) 0);
           [lia | reflexivity]).
  step_by (eapply set_size_Ok; eauto).
  step_by (eapply get_size_Ok; apply list_lookup_insert_eq, L).
  step_by (eapply get_buffer_member; apply list_lookup_insert_eq, L).
  cbn [data_ size_]. rewrite Eb. cbn [ptr_add].
  rewrite to_size_t_small by lia.
  erewrite in_heap_Ok; cycle 1.
  { eapply (destroy_at_middle _ b (Live <$> l));
      [rewrite length_fmap; lia | exact E]. }
  rewrite (block_of_app_raw l (capacity_ (data_ v))) by lia.
  rewrite length_app. cbn [length].
  replace (Z.to_nat (capacity_ (data_ v)) - (length l + 1))%nat
    with (Z.to_nat (capacity_ (data_ v)) - length l - 1)%nat by lia.
  reflexivity.
Qed.

(** X3. [PopBack()] on an empty vector fails its assertion. On a non-empty one
    it returns normally: the last element is gone and its slot holds no
    object any more, the other elements, the capacity and the buffer are
    what they were. *)
Theorem PopBack_spec s this l c :
  holds s this l ->
  Capacity this s = Ok (c, s) ->
  (l = [] -> PopBack this s = Undefined) /\
  (forall l' x,
     l = l' ++ [x] ->
     exists s',
       PopBack this s = Ok (tt, s') /\
       observed s' this c l' /\
       forall b,
         begin_ this s = Ok (b, s) ->
         begin_ this s' = Ok (b, s') /\
         slot_at (mem s') (ptr_add b (Z.of_nat (length l'))) = Some Raw).
Proof.
  intros Hh Ec.
  destruct (holds_inv _ _ _ _ Hh Ec) as (h & vs & ls & v & -> & Hv & Ho & Hc).
  pose proof Ho as (Hn & Hr & Hbuf).
  assert (L : (this < length vs)%nat) by (eapply lookup_lt_Some; eauto).
  split.
  - intros ->. cbn in Hn. unfold PopBack.
    step_by (eapply get_size_Ok; eauto).
    apply bind_Undefined, require_false. rewrite Hn. reflexivity.
  - intros l' x ->.
    rewrite length_app in Hn. cbn [length] in Hn.
    destruct (buffer_ (data_ v)) as [|b0 o] eqn:Ebuf; [lia|].
    destruct Hbuf as (-> & _ & _).
    set (v' := MkVector (data_ v) (size_ v - 1)).
    assert (Hv' : <[this := v']> vs !! this = Some v')
      by (apply list_lookup_insert_eq, L).
    assert (Ho' : owns (<[b0 := Some (block_of l' (capacity_ (data_ v)))]> h)
                    v' l').
    { unfold v'. replace (size_ v - 1) with (Z.of_nat (length l')) by lia.
      apply owns_updated with (l := l' ++ [x]); auto. lia. }
    eexists. split; [eapply PopBack_Ok; eauto|].
    split.
    + eapply observed_intro; [exact Hv' | exact Ho' | exact Hc].
    + intros b Eb. erewrite begin_Ok in Eb by exact Hv.
      assert (b = Ptr b0 0) by congruence. subst b.
      split.
      * erewrite begin_Ok by exact Hv'. cbn. rewrite Ebuf. reflexivity.
      * cbn [mem ptr_add]. rewrite Z.add_0_l.
        eapply owns_raw_beyond; [exact Ho' | exact Ebuf |].
        cbn [size_ data_ v']. lia.
Qed.

(** ** Positions outside the vector *)

Lemma ptr_leb_same b o o' : ptr_leb (Ptr b o) (Ptr b o') = Some (o <=? o').
Proof.
  unfold ptr_leb, ptr_diff. rewrite Nat.eqb_refl. f_equal.
  destruct (Z.leb_spec 0 (o' - o)), (Z.leb_spec o o'); lia || reflexivity.
Qed.

Lemma ptr_ltb_same b o o' : ptr_ltb (Ptr b o) (Ptr b o') = Some (o <? o').
Proof.
  unfold ptr_ltb, ptr_diff. rewrite Nat.eqb_refl. f_equal.
  destruct (Z.ltb_spec 0 (o' - o)), (Z.ltb_spec o o'); lia || reflexivity.
Qed.

(** X4. [Erase] at a position that is not in [[begin(), end())], [end()]
    itself included, and [Emplace] (hence [Insert]) at a position that is
    not in [[begin(), end()]] fail their assertions. In particular nothing
    can be erased from an empty vector. *)
Theorem position_out_of_range s this l b o :
  holds s this l ->
  begin_ this s = Ok (b, s) ->
  (o < 0 \/ Z.of_nat (length l) <= o ->
   Erase this (ptr_add b o) s = Undefined) /\
  (b <> Null ->
   o < 0 \/ Z.of_nat (length l) < o ->
   forall args, Emplace this (ptr_add b o) args s = Undefined).
Proof.
  intros (v & Hv & Ho) Eb. destruct s as [h vs ls]. cbn [vectors mem] in *.
  pose proof Ho as (Hn & Hc & Hbuf).
  erewrite begin_Ok in Eb by exact Hv.
  assert (Eb' : buffer_ (data_ v) = b) by congruence. clear Eb. subst b.
  split.
  - intros Hout. unfold Erase.
    step_by (eapply begin_Ok; eauto).
    destruct (buffer_ (data_ v)) as [|b0 ob] eqn:Ebuf.
    + cbn [ptr_add].
      step_by reflexivity.
      step_by (eapply end_Ok; eauto; lia).
      rewrite Ebuf. reflexivity.
    + destruct Hbuf as (-> & _ & _). cbn [ptr_add]. rewrite ptr_leb_same.
      destruct (Z.leb_spec 0 (0 + o)) as [Hpos|Hneg]; [|reflexivity].
      step_by reflexivity.
      step_by (eapply end_Ok; eauto; lia).
      rewrite Ebuf. cbn [ptr_add]. rewrite ptr_ltb_same.
      destruct (Z.ltb_spec (0 + o) (0 + size_ v)); [lia | reflexivity].
  - intros Hnn Hout args. unfold Emplace.
    step_by (eapply begin_Ok; eauto).
    destruct (buffer_ (data_ v)) as [|b0 ob] eqn:Ebuf; [contradiction|].
    destruct Hbuf as (-> & _ & _). cbn [ptr_add]. rewrite ptr_leb_same.
    destruct (Z.leb_spec 0 (0 + o)) as [Hpos|Hneg]; [|reflexivity].
    step_by reflexivity.
    step_by (eapply end_Ok; eauto; lia).
    rewrite Ebuf. cbn [ptr_add]. rewrite ptr_leb_same.
    destruct (Z.leb_spec (0 + o) (0 + size_ v)); [lia | reflexivity].
Qed.

(** ** Appending when there is room *)

(** X5. [PushBack] on a vector with [Size() < Capacity()] never allocates: it
    returns normally whatever the allocator would grant, the new element is
    the last one, the capacity and [begin()] are what they were, and so is
    the number of blocks of the heap. For [PushBack(const T&)] the
    argument may be an element of the vector itself. *)
Theorem PushBack_with_room s this l c b :
  holds s this l ->
  Capacity this s = Ok (c, s) ->
  begin_ this s = Ok (b, s) ->
  Z.of_nat (length l) < c ->
  (forall value x,
     copy_value value (mem s) = Ok (x, mem s) ->
     exists s',
       PushBack_copy this value s = Ok (tt, s') /\
       observed s' this c (l ++ [x]) /\
       begin_ this s' = Ok (b, s') /\
       length (mem s') = length (mem s)) /\
  (forall x,
     exists s',
       PushBack_move this (Outside x) s = Ok (tt, s') /\
       observed s' this c (l ++ [x]) /\
       begin_ this s' = Ok (b, s') /\
       length (mem s') = length (mem s)).
Proof.
  intros Hh Ec Eb Hroom.
  destruct (holds_inv _ _ _ _ Hh Ec) as (h & vs & ls & v & -> & Hv & Ho & Hc).
  pose proof Ho as (Hn & Hr & _).
  assert (L : (this < length vs)%nat) by (eapply lookup_lt_Some; eauto).
  erewrite begin_Ok in Eb by exact Hv.
  assert (Eb' : buffer_ (data_ v) = b) by congruence. clear Eb. subst b.
  set (v' := MkVector (data_ v) (size_ v + 1)).
  assert (Hv' : <[this := v']> vs !! this = Some v')
    by (apply list_lookup_insert_eq, L).
  assert (Hpost : forall b0 x,
    buffer_ (data_ v) = Ptr b0 0 ->
    observed
      (MkState (<[b0 := Some (block_of (l ++ [x]) (capacity_ (data_ v)))]> h)
               (<[this := v']> vs) ls) this c (l ++ [x]) /\
    begin_ this
      (MkState (<[b0 := Some (block_of (l ++ [x]) (capacity_ (data_ v)))]> h)
               (<[this := v']> vs) ls)
    = Ok (buffer_ (data_ v),
          MkState (<[b0 := Some (block_of (l ++ [x]) (capacity_ (data_ v)))]> h)
                  (<[this := v']> vs) ls) /\
    length (<[b0 := Some (block_of (l ++ [x]) (capacity_ (data_ v)))]> h)
    = length h).
  { intros b0 x Eb0. split; [|split].
    - eapply observed_intro; [exact Hv' | | exact Hc].
      unfold v'. replace (size_ v + 1) with (Z.of_nat (length (l ++ [x])))
        by (rewrite length_app; cbn; lia).
      apply owns_updated with (l := l); auto.
      rewrite length_app. cbn. lia.
    - erewrite begin_Ok by exact Hv'. reflexivity.
    - apply length_insert. }
  split.
  - intros value x Ex. cbn [mem] in Ex.
    destruct (PushBack_copy_room h vs ls this v l Hv Ho value x Ex)
      as (b0 & Eb0 & E); [lia|].
    eexists. split; [exact E|]. apply Hpost, Eb0.
  - intros x.
    destruct (PushBack_move_room h vs ls this v l x Hv Ho) as (b0 & Eb0 & E);
      [lia|].
    eexists. split; [exact E|]. apply Hpost, Eb0.
Qed.

(** ** [EmplaceBack] *)

Section EmplaceBack.

Variables (args : ctor_args) (x : T) (h : heap).
Hypothesis args_Ok : forall k, make_value args (h ++ k) = Ok (x, h ++ k).

Variables (vs : list Vector) (ls : list RawMemory) (this : nat) (v : Vector)
          (l : list T).
Hypothesis Hv : vs !! this = Some v.
Hypothesis Ho : owns h v l.

Lemma EmplaceBack_room :
  size_ v < capacity_ (data_ v) ->
  exists b,
    buffer_ (data_ v) = Ptr b 0 /\
    EmplaceBack this args (MkState h vs ls)
    = Ok (Ptr b (size_ v),
          MkState
            (<[b := Some (block_of (l ++ [x]) (capacity_ (data_ v)))]> h)
            (<[this := MkVector (data_ v) (size_ v + 1)]> vs)
            ls).
Proof.
  intros Hroom. pose proof Ho as (Hn & Hc & _).
  assert (L : (this < length vs)%nat) by (eapply lookup_lt_Some; eauto).
  destruct (append_in_place (make_value args) x h args_Ok
              vs ls this v l Hv Ho Hroom) as (b & Eb & E).
  exists b. split; [exact Eb|].
  unfold EmplaceBack.
  step_by (eapply Size_Ok; eauto).
  step_by (eapply Capacity_Ok; eauto).
  destruct (Z.eqb_spec (size_ v) (capacity_ (data_ v))) as [|_]; [lia|].
  erewrite bind_Ok by exact E.
  step_by (eapply increment_size_Ok; eauto).
  rewrite to_size_t_small by lia.
  unfold Back.
  step_by (eapply end_Ok; [apply list_lookup_insert_eq, L | cbn; lia]).
  cbn [data_ size_ ret]. rewrite Eb. cbn [ptr_add].
  replace (0 + (size_ v + 1) + -1) with (size_ v) by lia. reflexivity.
Qed.

Lemma EmplaceBack_full :
  size_ v = capacity_ (data_ v) ->
  Z.max 1 (2 * size_ v) <= max_alloc ->
  EmplaceBack this args (MkState h vs ls)
  = Ok (Ptr (length h) (size_ v),
        MkState
          (released (buffer_ (data_ v))
             (h ++ [Some (block_of (l ++ [x]) (Z.max 1 (2 * size_ v)))]))
          (<[this := MkVector
                       (MkRawMemory (Ptr (length h) 0) (Z.max 1 (2 * size_ v)))
                       (size_ v + 1)]> vs)
          ls).
Proof.
  pose proof max_alloc_lt as Hmax.
  intros Hfull Hg. pose proof Ho as (Hn & Hc & _).
  assert (L : (this < length vs)%nat) by (eapply lookup_lt_Some; eauto).
  unfold EmplaceBack.
  step_by (eapply Size_Ok; eauto).
  step_by (eapply Capacity_Ok; eauto).
  rewrite <- Hfull, Z.eqb_refl.
  step_by (eapply (append_growing (make_value args) x); eauto).
  step_by (eapply increment_size_Ok; apply list_lookup_insert_eq, L).
  cbn [data_ size_]. rewrite list_insert_insert_eq.
  rewrite to_size_t_small by lia.
  unfold Back.
  step_by (eapply end_Ok; [apply list_lookup_insert_eq, L | cbn; lia]).
  cbn [data_ size_ buffer_ ret ptr_add].
  replace (0 + (size_ v + 1) + -1) with (size_ v) by lia. reflexivity.
Qed.

End EmplaceBack.

Lemma EmplaceBack_appends s this l c args x :
  holds s this l ->
  Capacity this s = Ok (c, s) ->
  Z.of_nat (length l) < c \/ Z.max 1 (2 * c) <= max_alloc ->
  (forall k, make_value args (mem s ++ k) = Ok (x, mem s ++ k)) ->
  exists s' p b',
    EmplaceBack this args s = Ok (p, s') /\
    observed s' this
      (if Z.of_nat (length l) <? c then c else Z.max 1 (2 * c)) (l ++ [x]) /\
    begin_ this s' = Ok (b', s') /\
    p = ptr_add b' (Z.of_nat (length l)) /\
    load p (mem s') = Ok (x, mem s').
Proof.
  pose proof max_alloc_lt as Hmax.
  intros Hh Ec Halloc Hargs.
  destruct (holds_inv _ _ _ _ Hh Ec) as (h & vs & ls & v & -> & Hv & Ho & Hc).
  cbn [mem] in Hargs.
  pose proof Ho as (Hn & Hr & _).
  assert (L : (this < length vs)%nat) by (eapply lookup_lt_Some; eauto).
  assert (Hlen : Z.of_nat (length (l ++ [x])) = size_ v + 1)
    by (rewrite length_app; cbn; lia).
  assert (Hlast : (l ++ [x]) !! length l = Some x)
    by (apply list_lookup_middle; reflexivity).
  destruct (Z.ltb_spec (Z.of_nat (length l)) c) as [Hroom|Hfull].
  - destruct (EmplaceBack_room args x h Hargs vs ls this v l Hv Ho)
      as (b & Eb & E); [lia|].
    set (v' := MkVector (data_ v) (size_ v + 1)) in *.
    assert (Hv' : <[this := v']> vs !! this = Some v')
      by (apply list_lookup_insert_eq, L).
    assert (Ho' : owns (<[b := Some (block_of (l ++ [x]) (capacity_ (data_ v)))]> h)
                    v' (l ++ [x])).
    { unfold v'. rewrite <- Hlen.
      apply owns_updated with (l := l); auto. lia. }
    eexists _, _, (Ptr b 0). split; [exact E|].
    split; [|split; [|split]].
    + eapply observed_intro; [exact Hv' | exact Ho' | exact Hc].
    + erewrite begin_Ok by exact Hv'. cbn. rewrite Eb. reflexivity.
    + cbn. f_equal. lia.
    + pose proof (owns_slot _ _ _ _ _ _ Ho' Eb Hlast) as Es.
      rewrite <- Hn in Es. cbn [mem]. unfold load. rewrite Es. reflexivity.
  - destruct Halloc as [|Halloc]; [lia|].
    assert (Hfull' : size_ v = capacity_ (data_ v)) by lia.
    pose proof (EmplaceBack_full args x h Hargs vs ls this v l Hv Ho Hfull'
                  ltac:(lia)) as E.
    set (v' := MkVector (MkRawMemory (Ptr (length h) 0) (Z.max 1 (2 * size_ v)))
                        (size_ v + 1)) in *.
    assert (Hv' : <[this := v']> vs !! this = Some v')
      by (apply list_lookup_insert_eq, L).
    assert (Ho' : owns (released (buffer_ (data_ v))
                          (h ++ [Some (block_of (l ++ [x])
                                         (Z.max 1 (2 * size_ v)))]))
                    v' (l ++ [x])).
    { apply owns_reallocated; try lia. apply (owns_buffer_lt _ _ _ Ho). }
    eexists _, _, (Ptr (length h) 0). split; [exact E|].
    split; [|split; [|split]].
    + eapply observed_intro; [exact Hv' | exact Ho' | cbn; lia].
    + erewrite begin_Ok by exact Hv'. reflexivity.
    + cbn. f_equal. lia.
    + pose proof (owns_slot _ _ _ _ _ _ Ho' eq_refl Hlast) as Es.
      rewrite <- Hn in Es. cbn [mem]. unfold load. rewrite Es. reflexivity.
Qed.

(** X6. [EmplaceBack] appends the element built from its arguments and returns
    a reference to it, which is [Back()] of the vector as it is after the
    call. With [Size() < Capacity()] it works in place; otherwise, provided
    the request for [max(1, 2 * Capacity())] slots is granted, it
    reallocates. The constructor argument may be an lvalue that refers to
    an element of the vector itself, or an rvalue that is not an element of
    a vector. *)
Theorem EmplaceBack_spec s this l c :
  holds s this l ->
  Capacity this s = Ok (c, s) ->
  Z.of_nat (length l) < c \/ Z.max 1 (2 * c) <= max_alloc ->
  (forall value x,
     copy_value value (mem s) = Ok (x, mem s) ->
     exists s' p b',
       EmplaceBack this (CopyOf value) s = Ok (p, s') /\
       observed s' this
         (if Z.of_nat (length l) <? c then c else Z.max 1 (2 * c)) (l ++ [x]) /\
       begin_ this s' = Ok (b', s') /\
       p = ptr_add b' (Z.of_nat (length l)) /\
       load p (mem s') = Ok (x, mem s')) /\
  (forall x,
     exists s' p b',
       EmplaceBack this (MoveOf (Outside x)) s = Ok (p, s') /\
       observed s' this
         (if Z.of_nat (length l) <? c then c else Z.max 1 (2 * c)) (l ++ [x]) /\
       begin_ this s' = Ok (b', s') /\
       p = ptr_add b' (Z.of_nat (length l)) /\
       load p (mem s') = Ok (x, mem s')).
Proof.
  intros Hh Ec Halloc. split.
  - intros value x Ex. apply EmplaceBack_appends; auto.
    intros k. cbn [make_value]. apply copy_value_app, Ex.
  - intros x. apply EmplaceBack_appends; auto.
Qed.

(** ** Round trips *)

(** X7. [v.PushBack(x); v.PopBack();] gives back the elements the vector had.
    With [Size() < Capacity()] the whole state, storage included, is what
    it was; otherwise the vector has been reallocated and keeps the doubled
    capacity. *)
Theorem PushBack_then_PopBack s this l c x :
  holds s this l ->
  Capacity this s = Ok (c, s) ->
  Z.of_nat (length l) < c \/ Z.max 1 (2 * c) <= max_alloc ->
  exists s1 s2,
    PushBack_copy this (Outside x) s = Ok (tt, s1) /\
    PopBack this s1 = Ok (tt, s2) /\
    observed s2 this
      (if Z.of_nat (length l) <? c then c else Z.max 1 (2 * c)) l /\
    (Z.of_nat (length l) < c -> s2 = s).
Proof.
  pose proof max_alloc_lt as Hmax.
  intros Hh Ec Halloc.
  destruct (holds_inv _ _ _ _ Hh Ec) as (h & vs & ls & v & -> & Hv & Ho & Hc).
  pose proof Ho as (Hn & Hr & _).
  assert (L : (this < length vs)%nat) by (eapply lookup_lt_Some; eauto).
  assert (Hlen : Z.of_nat (length (l ++ [x])) = size_ v + 1)
    by (rewrite length_app; cbn; lia).
  destruct (Z.ltb_spec (Z.of_nat (length l)) c) as [Hroom|Hfull].
  - destruct (PushBack_copy_room h vs ls this v l Hv Ho (Outside x) x eq_refl)
      as (b & Eb & E); [lia|].
    set (v' := MkVector (data_ v) (size_ v + 1)) in *.
    assert (Hv' : <[this := v']> vs !! this = Some v')
      by (apply list_lookup_insert_eq, L).
    assert (Ho' : owns (<[b := Some (block_of (l ++ [x]) (capacity_ (data_ v)))]> h)
                    v' (l ++ [x])).
    { unfold v'. rewrite <- Hlen.
      apply owns_updated with (l := l); auto. lia. }
    pose proof (PopBack_Ok _ _ ls _ _ _ _ b Hv' Ho' Eb) as Ep.
    assert (Es : MkState
                   (<[b := Some (block_of l (capacity_ (data_ v')))]>
                      (<[b := Some (block_of (l ++ [x]) (capacity_ (data_ v)))]> h))
                   (<[this := MkVector (data_ v') (size_ v' - 1)]>
                      (<[this := v']> vs)) ls
                 = MkState h vs ls).
    { rewrite !list_insert_insert_eq. cbn [v' data_ size_].
      rewrite (heap_insert_same h b) by (eapply owns_block_of; eauto).
      replace (size_ v + 1 - 1) with (size_ v) by lia.
      rewrite (list_insert_id vs this) by (destruct v; exact Hv).
      reflexivity. }
    rewrite Es in Ep.
    exists (MkState
              (<[b := Some (block_of (l ++ [x]) (capacity_ (data_ v)))]> h)
              (<[this := v']> vs) ls), (MkState h vs ls).
    split; [exact E|]. split; [exact Ep|]. split; [|reflexivity].
    eapply observed_intro; eauto.
  - destruct Halloc as [|Halloc]; [lia|].
    assert (Hfull' : size_ v = capacity_ (data_ v)) by lia.
    pose proof (PushBack_copy_full h vs ls this v l Hv Ho (Outside x) x eq_refl
                  Hfull' ltac:(lia)) as E.
    set (v' := MkVector (MkRawMemory (Ptr (length h) 0) (Z.max 1 (2 * size_ v)))
                        (size_ v + 1)) in *.
    assert (Hv' : <[this := v']> vs !! this = Some v')
      by (apply list_lookup_insert_eq, L).
    assert (Ho' : owns (released (buffer_ (data_ v))
                          (h ++ [Some (block_of (l ++ [x])
                                         (Z.max 1 (2 * size_ v)))]))
                    v' (l ++ [x])).
    { apply owns_reallocated; try lia. apply (owns_buffer_lt _ _ _ Ho). }
    pose proof (PopBack_Ok _ _ ls _ _ _ _ (length h) Hv' Ho' eq_refl) as Ep.
    eexists _, _. split; [exact E|]. split; [exact Ep|]. split; [|lia].
    eapply observed_intro.
    + apply list_lookup_insert_eq. rewrite length_insert. exact L.
    + cbn [v' size_ data_].
      replace (size_ v + 1 - 1) with (Z.of_nat (length l)) by lia.
      apply (owns_updated _ v' (l ++ [x])); [exact Ho' | reflexivity |].
      cbn. lia.
    + cbn. lia.
Qed.

Lemma inserted_erased (l : list T) (i : nat) x :
  (i <= length l)%nat ->
  take i (inserted l i x) ++ drop (S i) (inserted l i x) = l.
Proof.
  intros Hi. unfold inserted.
  assert (Hl : length (take i l) = i) by (rewrite length_take; lia).
  rewrite (take_app_length' (take i l)) by (symmetry; exact Hl).
  rewrite (cons_middle x), app_assoc.
  rewrite (drop_app_length' (take i l ++ [x]))
    by (rewrite length_app, Hl; cbn; lia).
  apply take_drop.
Qed.

(** X8. [Erase] of the position that [Emplace] (or [Insert]) has just returned,
    for a value that is not an element of the vector: the elements are what
    they were before the insertion. When the insertion was done in place
    the whole state is what it was. *)
Theorem Emplace_then_Erase s this l c b (i : nat) args x :
  (forall h : heap, make_value args h = Ok (x, h)) ->
  holds s this l ->
  Capacity this s = Ok (c, s) ->
  begin_ this s = Ok (b, s) ->
  (i <= length l)%nat ->
  Z.of_nat (length l) < c \/ Z.max 1 (2 * c) <= max_alloc ->
  exists it s1 s2,
    Emplace this (ptr_add b (Z.of_nat i)) args s = Ok (it, s1) /\
    Erase this it s1 = Ok (it, s2) /\
    observed s2 this
      (if Z.of_nat (length l) <? c then c else Z.max 1 (2 * c)) l /\
    (Z.of_nat (length l) < c -> s2 = s).
Proof.
  pose proof max_alloc_lt as Hmax.
  intros Hargs Hh Ec Eb Hi Halloc.
  destruct (holds_inv _ _ _ _ Hh Ec) as (h & vs & ls & v & -> & Hv & Ho & Hc).
  pose proof Ho as (Hn & Hr & Hbuf).
  assert (L : (this < length vs)%nat) by (eapply lookup_lt_Some; eauto).
  erewrite begin_Ok in Eb by exact Hv.
  assert (Eb' : buffer_ (data_ v) = b) by congruence. clear Eb. subst b.
  assert (Hlen : Z.of_nat (length (inserted l i x)) = size_ v + 1).
  { rewrite inserted_length. lia. }
  assert (Hi' : (i < length (inserted l i x))%nat)
    by (rewrite inserted_length; lia).
  destruct (Z.ltb_spec (Z.of_nat (length l)) c) as [Hroom|Hfull].
  - destruct (buffer_ (data_ v)) as [|b0 o] eqn:Ebuf; [lia|].
    destruct Hbuf as (-> & _ & _).
    pose proof (Emplace_Ok_in_place args x h vs ls this v l Hv Ho
                  i b0 (fun _ k => Hargs _) (fun li _ => Hargs _)
                  Hi ltac:(lia) Ebuf) as E.
    rewrite Ebuf in E.
    set (v' := MkVector (data_ v) (size_ v + 1)) in *.
    assert (Hv' : <[this := v']> vs !! this = Some v')
      by (apply list_lookup_insert_eq, L).
    assert (Ho' : owns (<[b0 := Some (block_of (inserted l i x)
                                        (capacity_ (data_ v)))]> h)
                    v' (inserted l i x)).
    { unfold v'. rewrite <- Hlen.
      apply owns_updated with (l := l); auto. lia. }
    pose proof (Erase_Ok _ _ ls _ _ _ b0 i Hv' Ho' Ebuf Hi') as Ee.
    rewrite inserted_erased in Ee by exact Hi.
    assert (Es : MkState
                   (<[b0 := Some (block_of l (capacity_ (data_ v')))]>
                      (<[b0 := Some (block_of (inserted l i x)
                                       (capacity_ (data_ v)))]> h))
                   (<[this := MkVector (data_ v') (size_ v' - 1)]>
                      (<[this := v']> vs)) ls
                 = MkState h vs ls).
    { rewrite !list_insert_insert_eq. cbn [v' data_ size_].
      rewrite (heap_insert_same h b0) by (eapply owns_block_of; eauto).
      replace (size_ v + 1 - 1) with (size_ v) by lia.
      rewrite (list_insert_id vs this) by (destruct v; exact Hv).
      reflexivity. }
    rewrite Es in Ee.
    eexists _, _, _. split; [exact E|]. split; [exact Ee|].
    split; [|reflexivity].
    eapply observed_intro; eauto.
  - destruct Halloc as [|Halloc]; [lia|].
    assert (Hfull' : size_ v = capacity_ (data_ v)) by lia.
    pose proof (Emplace_Ok_growing args x h vs ls this v l Hv Ho
                  i (fun k => Hargs _) Hi Hfull' ltac:(lia)) as E.
    set (v' := MkVector (MkRawMemory (Ptr (length h) 0) (Z.max 1 (2 * size_ v)))
                        (size_ v + 1)) in *.
    assert (Hv' : <[this := v']> vs !! this = Some v')
      by (apply list_lookup_insert_eq, L).
    assert (Ho' : owns (released (buffer_ (data_ v))
                          (h ++ [Some (block_of (inserted l i x)
                                         (Z.max 1 (2 * size_ v)))]))
                    v' (inserted l i x)).
    { apply owns_reallocated; try lia. apply (owns_buffer_lt _ _ _ Ho). }
    pose proof (Erase_Ok _ _ ls _ _ _ (length h) i Hv' Ho' eq_refl Hi') as Ee.
    rewrite inserted_erased in Ee by exact Hi.
    eexists _, _, _. split; [exact E|]. split; [exact Ee|]. split; [|lia].
    eapply observed_intro.
    + apply list_lookup_insert_eq. rewrite length_insert. exact L.
    + cbn [v' size_ data_].
      replace (size_ v + 1 - 1) with (Z.of_nat (length l)) by lia.
      apply (owns_updated _ v' (inserted l i x)); [exact Ho' | reflexivity |].
      cbn. lia.
    + cbn. lia.
Qed.

(** ** Construction and destruction *)

Lemma RawMemory_ctor_member_zero (h : heap) vs ls this v :
  vs !! this = Some v ->
  RawMemory_ctor (Member this) 0 (MkState h vs ls)
  = Ok (tt, MkState h (<[this := MkVector (MkRawMemory Null 0) (size_ v)]> vs) ls).
Proof.
  intros Hv. unfold RawMemory_ctor.
  assert (Lt : (this < length vs)%nat) by (eapply lookup_lt_Some; eauto).
  erewrite bind_Ok by (apply in_heap_Ok; reflexivity).
  erewrite bind_Ok by (eapply set_buffer_member; eauto).
  erewrite set_capacity_member by (apply list_lookup_insert_eq, Lt).
  cbn. rewrite list_insert_insert_eq. reflexivity.
Qed.

Lemma Vector_ctor_size_zero (h : heap) vs ls :
  Vector_ctor_size 0 (MkState h vs ls)
  = Ok (length vs, MkState h (vs ++ [Vector_default]) ls).
Proof.
  unfold Vector_ctor_size.
  step_by reflexivity. cbn [mem vectors locals].
  step_by (eapply RawMemory_ctor_member_zero; apply lookup_last_local).
  rewrite insert_last_local.
  step_by (eapply set_size_Ok; apply lookup_last_local).
  rewrite insert_last_local. cbn [data_ size_ Vector_default].
  step_by (eapply begin_Ok; apply lookup_last_local).
  step_by (apply in_heap_Ok; reflexivity).
  reflexivity.
Qed.

Lemma Vector_ctor_size_Ok (h : heap) vs ls n :
  0 < n <= max_alloc ->
  Vector_ctor_size n (MkState h vs ls)
  = Ok (length vs,
        MkState (h ++ [Some (block_of (replicate (Z.to_nat n) value_init) n)])
                (vs ++ [MkVector (MkRawMemory (Ptr (length h) 0) n) n]) ls).
Proof.
  intros Hn. unfold Vector_ctor_size.
  step_by reflexivity. cbn [mem vectors locals].
  step_by (eapply RawMemory_ctor_member; [apply lookup_last_local | lia | lia]).
  rewrite insert_last_local.
  step_by (eapply set_size_Ok; apply lookup_last_local).
  rewrite insert_last_local. cbn [data_ size_ Vector_default].
  step_by (eapply begin_Ok; apply lookup_last_local).
  cbn [data_ buffer_].
  step_by (apply in_heap_Ok;
           eapply (uninitialized_value_construct_n_spec _ _ (length h) []
                     (replicate (Z.to_nat n) Raw) []);
           [ rewrite app_nil_r; apply block_at_app_new
           | apply length_replicate
           | reflexivity ]).
  rewrite insert_last_local. cbn [app ret].
  unfold block_of. rewrite fmap_replicate, length_replicate, Nat.sub_diag.
  reflexivity.
Qed.

(** X9. [Vector()] makes an empty vector without storage. [Vector(n)], provided
    the request for [n] slots is granted, makes a vector of [n]
    value-initialized elements with [Capacity() == n]; for [n == 0] it does
    not allocate. The vectors and the storage that exist are untouched. *)
Theorem Vector_ctor_size_spec s n :
  0 <= n <= max_alloc ->
  (exists s',
     Vector_ctor s = Ok (length (vectors s), s') /\
     observed s' (length (vectors s)) 0 [] /\
     mem s' = mem s) /\
  (exists s',
     Vector_ctor_size n s = Ok (length (vectors s), s') /\
     observed s' (length (vectors s)) n (replicate (Z.to_nat n) value_init) /\
     (forall u x, vectors s !! u = Some x -> vectors s' !! u = Some x) /\
     (forall b blk, block_at (mem s) b = Some blk ->
                    block_at (mem s') b = Some blk) /\
     (n = 0 -> mem s' = mem s)).
Proof.
  pose proof max_alloc_lt as Hmax.
  intros Hn. destruct s as [h vs ls]. cbn [vectors mem]. split.
  - eexists. split; [reflexivity|]. split; [|reflexivity].
    cbn [mem vectors locals].
    eapply observed_intro;
      [apply lookup_last_local | apply owns_default | reflexivity].
  - destruct (Z.eq_dec n 0) as [->|Hnz].
    + eexists. split; [apply Vector_ctor_size_zero|].
      split; [|split; [|split]].
      * eapply observed_intro;
          [apply lookup_last_local | apply owns_default | reflexivity].
      * intros u x Hu. apply lookup_app_l_Some, Hu.
      * intros b blk E. exact E.
      * reflexivity.
    + eexists. split; [apply Vector_ctor_size_Ok; lia|].
      split; [|split; [|split]].
      * eapply observed_intro; [apply lookup_last_local | | reflexivity].
        apply (owns_reallocated h Null); try lia; try exact I.
        rewrite length_replicate. lia.
      * intros u x Hu. apply lookup_app_l_Some, Hu.
      * intros b blk E. apply block_at_app_l, E.
      * intros ->. contradiction.
Qed.

(** [Vector(const Vector& other)] for an empty [other]. *)
Lemma Vector_copy_ctor_empty (h : heap) vs ls other vo :
  vs !! other = Some vo ->
  size_ vo = 0 ->
  Vector_copy_ctor other (MkState h vs ls)
  = Ok (length vs, MkState h (vs ++ [Vector_default]) ls).
Proof.
  intros Hv Hs.
  assert (Hv' : forall x, (vs ++ [x]) !! other = Some vo)
    by (intros x; apply lookup_app_l_Some, Hv).
  unfold Vector_copy_ctor.
  step_by reflexivity. cbn [mem vectors locals].
  step_by (eapply get_size_Ok; eauto).
  rewrite Hs.
  step_by (eapply RawMemory_ctor_member_zero; apply lookup_last_local).
  rewrite insert_last_local.
  step_by (eapply set_size_Ok; apply lookup_last_local).
  rewrite insert_last_local. cbn [data_ size_ Vector_default].
  step_by (eapply begin_Ok; eauto).
  step_by (eapply Size_Ok; eauto).
  step_by (eapply begin_Ok; apply lookup_last_local).
  rewrite Hs.
  step_by (apply in_heap_Ok; reflexivity).
  reflexivity.
Qed.

Lemma Vector_copy_ctor_separate s other lo :
  holds s other lo ->
  Z.of_nat (length lo) <= max_alloc ->
  exists s',
    Vector_copy_ctor other s = Ok (length (vectors s), s') /\
    observed s' (length (vectors s)) (Z.of_nat (length lo)) lo /\
    holds s' other lo /\
    (forall p q,
       begin_ other s' = Ok (p, s') ->
       begin_ (length (vectors s)) s' = Ok (q, s') ->
       separate p q /\ (lo = [] -> q = Null)).
Proof.
  intros (vo & Hv & Ho) Hfit. destruct s as [h vs ls]. cbn [vectors mem] in *.
  pose proof Ho as (Hn & Hc & Hb).
  assert (Hv' : forall x, (vs ++ [x]) !! other = Some vo)
    by (intros x; apply lookup_app_l_Some, Hv).
  destruct (Z.eq_dec (size_ vo) 0) as [Hz|Hnz].
  - assert (El : lo = []) by (destruct lo; [reflexivity | cbn in Hn; lia]).
    subst lo.
    eexists. split; [eapply Vector_copy_ctor_empty; eauto|].
    split; [|split].
    + eapply observed_intro;
        [apply lookup_last_local | apply owns_default | reflexivity].
    + exists vo. split; [apply Hv' | exact Ho].
    + intros p q Ep Eq.
      erewrite begin_Ok in Eq by apply lookup_last_local.
      inversion Eq. split; [|reflexivity].
      destruct p; exact I.
  - destruct (buffer_ (data_ vo)) as [|b o] eqn:Eb; [lia|].
    destruct Hb as (-> & _ & E).
    assert (Lb : (b < length h)%nat) by (eapply block_at_lt; eauto).
    eexists. split; [eapply Vector_copy_ctor_Ok; eauto; lia|].
    split; [|split].
    + rewrite <- Hn.
      eapply observed_intro; [apply lookup_last_local | | reflexivity].
      apply (owns_reallocated h Null); try lia; exact I.
    + exists vo. split; [apply Hv'|]. cbn [mem].
      eapply owns_frame; [exact Ho|].
      intros b' o' Eb'. rewrite Eb in Eb'. inversion Eb'; subst b' o'.
      rewrite E. apply block_at_app_l, E.
    + intros p q Ep Eq.
      erewrite begin_Ok in Ep by apply Hv'.
      erewrite begin_Ok in Eq by apply lookup_last_local.
      inversion Ep. inversion Eq. rewrite Eb. cbn.
      split; [lia|]. intros ->. cbn in Hn. lia.
Qed.

(** X10. The copy constructor, provided the request for [other.Size()] slots is
    granted: the new vector has the elements of [other] in storage of its
    own, and its capacity is the length of [other], not the capacity of
    [other]; [other] is unchanged. A copy of an empty vector has no
    storage. *)
Theorem Vector_copy_ctor_spec s other lo :
  holds s other lo ->
  Z.of_nat (length lo) <= max_alloc ->
  exists s',
    Vector_copy_ctor other s = Ok (length (vectors s), s') /\
    observed s' (length (vectors s)) (Z.of_nat (length lo)) lo /\
    holds s' other lo /\
    (forall p q,
       begin_ other s' = Ok (p, s') ->
       begin_ (length (vectors s)) s' = Ok (q, s') ->
       separate p q /\ (lo = [] -> q = Null)).
Proof. apply Vector_copy_ctor_separate. Qed.

(** X11. The destructor of a vector gives its storage back: afterwards no slot
    of the former buffer can be accessed, and every other block of the heap
    is what it was. *)
Theorem Vector_dtor_spec s this l b :
  holds s this l ->
  begin_ this s = Ok (b, s) ->
  exists s',
    Vector_dtor this s = Ok (tt, s') /\
    vectors s' = vectors s /\
    mem s' = released b (mem s) /\
    (forall i, slot_at (mem s') (ptr_add b i) = None) /\
    (forall b' blk,
       block_at (mem s) b' = Some blk ->
       separate b (Ptr b' 0) ->
       block_at (mem s') b' = Some blk).
Proof.
  intros (v & Hv & Ho) Eb. destruct s as [h vs ls]. cbn [vectors mem] in *.
  erewrite begin_Ok in Eb by exact Hv.
  assert (Eb' : buffer_ (data_ v) = b) by congruence. clear Eb. subst b.
  eexists. split; [eapply Vector_dtor_Ok; eauto|].
  cbn [vectors mem]. split; [reflexivity|]. split; [reflexivity|].
  pose proof (owns_buffer_lt _ _ _ Ho) as Lb.
  destruct (buffer_ (data_ v)) as [|b0 o]; cbn [released ptr_add separate].
  - split; [reflexivity|]. auto.
  - split.
    + intros i. unfold slot_at, block_at.
      rewrite list_lookup_insert_eq by exact Lb.
      destruct (o + i <? 0); reflexivity.
    + intros b' blk E N. rewrite block_at_insert_ne by exact N. exact E.
Qed.

(** X12. A vector that is constructed and destroyed leaves nothing behind:
    after [{ Vector<T> v(n); }] and after [{ Vector<T> v(other); }] the
    vectors and the allocated blocks are exactly what they were. *)
Theorem scoped_vector_leaves_no_storage s :
  (forall n,
     0 <= n <= max_alloc ->
     exists s',
       (v <- Vector_ctor_size n ;; Vector_dtor v ;; leave_vector) s
       = Ok (tt, s') /\
       vectors s' = vectors s /\
       locals s' = locals s /\
       forall b, block_at (mem s') b = block_at (mem s) b) /\
  (forall other lo,
     holds s other lo ->
     Z.of_nat (length lo) <= max_alloc ->
     exists s',
       (v <- Vector_copy_ctor other ;; Vector_dtor v ;; leave_vector) s
       = Ok (tt, s') /\
       vectors s' = vectors s /\
       locals s' = locals s /\
       forall b, block_at (mem s') b = block_at (mem s) b).
Proof.
  pose proof max_alloc_lt as Hmax.
  destruct s as [h vs ls]. cbn [vectors mem locals].
  assert (Hgone : forall blk b,
            block_at (<[length h := None]> (h ++ [Some blk])) b = block_at h b).
  { intros blk b. unfold block_at.
    destruct (Nat.lt_total b (length h)) as [Lt|[->|Gt]].
    - rewrite list_lookup_insert_ne by lia.
      rewrite lookup_app_l by exact Lt. reflexivity.
    - rewrite list_lookup_insert_eq by (rewrite length_app; cbn; lia).
      rewrite (lookup_ge_None_2 h) by lia. reflexivity.
    - rewrite list_lookup_insert_ne by lia.
      rewrite !lookup_ge_None_2; [reflexivity | lia |].
      rewrite length_app. cbn. lia. }
  assert (Hscope : forall (m : V nat) h' vn ln,
            m (MkState h vs ls) = Ok (length vs, MkState h' (vs ++ [vn]) ls) ->
            owns h' vn ln ->
            (m' <- m ;; Vector_dtor m' ;; leave_vector) (MkState h vs ls)
            = Ok (tt, MkState (released (buffer_ (data_ vn)) h') vs ls)).
  { intros m h' vn ln Em Hon.
    step_by (exact Em).
    step_by (eapply Vector_dtor_Ok; [apply lookup_last_local | exact Hon]).
    unfold leave_vector. cbn [mem vectors locals].
    rewrite take_last_local. reflexivity. }
  split.
  - intros n Hn. destruct (Z.eq_dec n 0) as [->|Hnz].
    + eexists. split.
      * eapply Hscope; [apply Vector_ctor_size_zero | apply owns_default].
      * cbn. auto.
    + eexists. split.
      * eapply Hscope; [apply Vector_ctor_size_Ok; lia|].
        apply (owns_reallocated h Null); try lia; try exact I.
        rewrite length_replicate. lia.
      * cbn [vectors locals mem data_ buffer_ released].
        split; [reflexivity|]. split; [reflexivity|]. apply Hgone.
  - intros other lo (vo & Hv & Ho) Hfit. cbn [vectors mem] in *.
    pose proof Ho as (Hn & Hc & Hb).
    destruct (Z.eq_dec (size_ vo) 0) as [Hz|Hnz].
    + eexists. split.
      * eapply Hscope;
          [eapply Vector_copy_ctor_empty; eauto | apply owns_default].
      * cbn. auto.
    + destruct (buffer_ (data_ vo)) as [|b o] eqn:Eb; [lia|].
      destruct Hb as (-> & _ & E).
      eexists. split.
      * eapply Hscope; [eapply Vector_copy_ctor_Ok; eauto; lia|].
        apply (owns_reallocated h Null lo); try lia; exact I.
      * cbn [vectors locals mem data_ buffer_ released].
        split; [reflexivity|]. split; [reflexivity|]. apply Hgone.
Qed.

(** ** [Swap] *)

(** X13. [a.Swap(b)] exchanges the elements, the lengths and the capacities of
    two vectors without touching the heap: no element is copied, moved or
    destroyed. Swapping twice restores the state, and [a.Swap(a)] changes
    nothing. *)
Theorem Swap_spec s a la ca :
  holds s a la ->
  Capacity a s = Ok (ca, s) ->
  Swap a a s = Ok (tt, s) /\
  (forall b lb cb,
     a <> b ->
     holds s b lb ->
     Capacity b s = Ok (cb, s) ->
     exists s',
       Swap a b s = Ok (tt, s') /\
       observed s' a cb lb /\
       observed s' b ca la /\
       mem s' = mem s /\
       Swap a b s' = Ok (tt, s)).
Proof.
  intros Hh Ec.
  destruct (holds_inv _ _ _ _ Hh Ec) as (h & vs & ls & va & -> & Ha & Hoa & Hca).
  assert (La : (a < length vs)%nat) by (eapply lookup_lt_Some; eauto).
  split.
  - unfold Swap.
    step_by (eapply RawMemory_Swap_member_self; eauto).
    step_by (eapply get_size_Ok; eauto).
    step_by (eapply get_size_Ok; eauto).
    step_by (eapply set_size_Ok; eauto).
    erewrite set_size_Ok by (apply list_lookup_insert_eq, La).
    cbn [data_ size_]. rewrite list_insert_insert_eq.
    rewrite list_insert_id by (destruct va; exact Ha). reflexivity.
  - intros b lb cb N Hhb Ecb.
    destruct (holds_inv _ _ _ _ Hhb Ecb)
      as (h' & vs' & ls' & vb & Heq & Hb & Hob & Hcb).
    inversion Heq; subst h' vs' ls'. clear Heq.
    assert (Lb : (b < length vs)%nat) by (eapply lookup_lt_Some; eauto).
    assert (Ha' : <[b := va]> (<[a := vb]> vs) !! a = Some vb).
    { rewrite list_lookup_insert_ne by auto. apply list_lookup_insert_eq, La. }
    assert (Hb' : <[b := va]> (<[a := vb]> vs) !! b = Some va).
    { apply list_lookup_insert_eq. rewrite length_insert. exact Lb. }
    eexists. split; [eapply Swap_Ok; eauto|].
    split; [|split; [|split]].
    + eapply observed_intro; eauto.
    + eapply observed_intro; eauto.
    + reflexivity.
    + erewrite Swap_Ok by eauto. do 3 f_equal.
      apply list_eq. intros i.
      destruct (Nat.eq_dec i b) as [->|Nb].
      * rewrite list_lookup_insert_eq by (rewrite !length_insert; exact Lb).
        symmetry. exact Hb.
      * rewrite list_lookup_insert_ne by auto.
        destruct (Nat.eq_dec i a) as [->|Na].
        -- rewrite list_lookup_insert_eq by (rewrite !length_insert; exact La).
           symmetry. exact Ha.
        -- rewrite !list_lookup_insert_ne by auto. reflexivity.
Qed.

(** ** When the allocator refuses *)

Lemma Allocate_refused n (h : heap) :
  n <> 0 ->
  max_alloc * sizeof_T < to_size_t (n * sizeof_T) ->
  Allocate n h = BadAlloc.
Proof.
  intros N L. unfold Allocate.
  destruct (Z.eqb_spec n 0) as [|_]; [contradiction|].
  unfold operator_new.
  destruct (Z.leb_spec (to_size_t (n * sizeof_T)) (max_alloc * sizeof_T));
    [lia | reflexivity].
Qed.

Lemma with_new_data_BadAlloc {A} (capacity : Z) (body : place -> V A) s :
  capacity <> 0 ->
  max_alloc * sizeof_T < to_size_t (capacity * sizeof_T) ->
  with_new_data capacity body s = BadAlloc.
Proof.
  intros N L. destruct s as [h vs ls]. unfold with_new_data.
  step_by reflexivity. cbn [mem vectors locals].
  apply bind_BadAlloc. unfold RawMemory_ctor.
  apply bind_BadAlloc, in_heap_BadAlloc, Allocate_refused; assumption.
Qed.

Lemma grown_capacity_small n :
  0 <= n -> 2 * n < size_t_modulus -> grown_capacity n = Z.max 1 (2 * n).
Proof.
  intros Hn Hs. unfold grown_capacity.
  destruct (Z.eqb_spec n 0) as [->|N]; [reflexivity|].
  rewrite to_size_t_small by lia. lia.
Qed.

(** X14. A request that the allocator does not grant ends the operation with
    [std::bad_alloc]: [Reserve(n)] and [Resize(n)] beyond the capacity,
    [PushBack] and [EmplaceBack] on a full vector, and [Vector(n)]. What is
    asked of [operator new] is the byte count [n * sizeof(T)] as a [size_t]:
    the operation fails when that count, after any wrap-around, is more than
    the allocator grants. *)
Theorem allocation_failure s this l c :
  holds s this l ->
  Capacity this s = Ok (c, s) ->
  (forall n,
     c < n ->
     max_alloc * sizeof_T < to_size_t (n * sizeof_T) ->
     Reserve this n s = BadAlloc /\ Resize this n s = BadAlloc) /\
  (Z.of_nat (length l) = c ->
   2 * c < size_t_modulus ->
   max_alloc * sizeof_T < to_size_t (Z.max 1 (2 * c) * sizeof_T) ->
   forall value args,
     PushBack_copy this value s = BadAlloc /\
     PushBack_move this value s = BadAlloc /\
     EmplaceBack this args s = BadAlloc) /\
  (forall n,
     n <> 0 ->
     max_alloc * sizeof_T < to_size_t (n * sizeof_T) ->
     Vector_ctor_size n s = BadAlloc).
Proof.
  intros Hh Ec.
  destruct (holds_inv _ _ _ _ Hh Ec) as (h & vs & ls & v & -> & Hv & Ho & Hc).
  pose proof Ho as (Hn & Hr & _).
  assert (HR : forall n, c < n ->
                 max_alloc * sizeof_T < to_size_t (n * sizeof_T) ->
                 Reserve this n (MkState h vs ls) = BadAlloc).
  { intros n Hgt Hno. unfold Reserve.
    step_by (eapply Capacity_Ok; eauto).
    destruct (Z.leb_spec n (capacity_ (data_ v))); [lia|].
    apply with_new_data_BadAlloc; [lia | exact Hno]. }
  split; [|split].
  - intros n Hgt Hno. split; [apply HR; assumption|].
    unfold Resize.
    step_by (eapply get_size_Ok; eauto).
    destruct (Z.eqb_spec n (size_ v)); [lia|].
    destruct (Z.ltb_spec n (size_ v)); [lia|].
    apply bind_BadAlloc, bind_BadAlloc, HR; assumption.
  - intros Hfull Hfit Hno value args.
    assert (Hs : size_ v = capacity_ (data_ v)) by lia.
    assert (Hg : grown_capacity (size_ v) = Z.max 1 (2 * c)).
    { rewrite grown_capacity_small by lia. rewrite Hs, Hc. reflexivity. }
    split; [|split].
    + unfold PushBack_copy.
      step_by (eapply Size_Ok; eauto).
      step_by (eapply Capacity_Ok; eauto).
      rewrite <- Hs, Z.eqb_refl.
      apply bind_BadAlloc, with_new_data_BadAlloc; rewrite Hg; [lia | exact Hno].
    + unfold PushBack_move.
      step_by (eapply Size_Ok; eauto).
      step_by (eapply Capacity_Ok; eauto).
      rewrite <- Hs, Z.eqb_refl.
      apply bind_BadAlloc, with_new_data_BadAlloc; rewrite Hg; [lia | exact Hno].
    + unfold EmplaceBack.
      step_by (eapply Size_Ok; eauto).
      step_by (eapply Capacity_Ok; eauto).
      rewrite <- Hs, Z.eqb_refl.
      apply bind_BadAlloc, with_new_data_BadAlloc; rewrite Hg; [lia | exact Hno].
  - intros n Hpos Hno. unfold Vector_ctor_size.
    step_by reflexivity. cbn [mem vectors locals].
    apply bind_BadAlloc. unfold RawMemory_ctor.
    apply bind_BadAlloc, in_heap_BadAlloc, Allocate_refused; assumption.
Qed.

(** ** Reallocation and the iterators of before *)

Lemma slot_at_released (h : heap) b o i :
  (b < length h)%nat ->
  forall k, slot_at (released (Ptr b o) (h ++ k)) (Ptr b i) = None.
Proof.
  intros L k. unfold slot_at, block_at. cbn [released].
  rewrite list_lookup_insert_eq by (rewrite length_app; lia).
  destruct (i <? 0); reflexivity.
Qed.

(** X15. An operation that reallocates gives the former storage back: after a
    [Reserve] beyond the capacity and after a [PushBack] on a full vector,
    [begin()] is in a block that did not exist before, and no slot of the
    block that [begin()] pointed to can be accessed any more. *)
Theorem reallocation_invalidates s this l c b0 o :
  holds s this l ->
  Capacity this s = Ok (c, s) ->
  begin_ this s = Ok (Ptr b0 o, s) ->
  (forall n,
     c < n <= max_alloc ->
     exists s',
       Reserve this n s = Ok (tt, s') /\
       begin_ this s' = Ok (Ptr (length (mem s)) 0, s') /\
       forall i, slot_at (mem s') (Ptr b0 i) = None) /\
  (forall x,
     Z.of_nat (length l) = c ->
     Z.max 1 (2 * c) <= max_alloc ->
     exists s',
       PushBack_copy this (Outside x) s = Ok (tt, s') /\
       begin_ this s' = Ok (Ptr (length (mem s)) 0, s') /\
       forall i, slot_at (mem s') (Ptr b0 i) = None).
Proof.
  intros Hh Ec Eb.
  destruct (holds_inv _ _ _ _ Hh Ec) as (h & vs & ls & v & -> & Hv & Ho & Hc).
  pose proof Ho as (Hn & Hr & _).
  assert (L : (this < length vs)%nat) by (eapply lookup_lt_Some; eauto).
  erewrite begin_Ok in Eb by exact Hv.
  assert (Eb' : buffer_ (data_ v) = Ptr b0 o) by congruence. clear Eb.
  pose proof (owns_buffer_lt _ _ _ Ho) as Lb. rewrite Eb' in Lb.
  cbn [mem]. split.
  - intros n Hgt. eexists. split; [eapply Reserve_grow; eauto; lia|].
    split.
    + erewrite begin_Ok by (apply list_lookup_insert_eq, L). reflexivity.
    + intros i. cbn [mem]. rewrite Eb'. apply slot_at_released, Lb.
  - intros x Hfull Hg. eexists. split.
    + eapply (PushBack_copy_full h vs ls this v l Hv Ho (Outside x) x eq_refl);
        lia.
    + split.
      * erewrite begin_Ok by (apply list_lookup_insert_eq, L). reflexivity.
      * intros i. cbn [mem]. rewrite Eb'. apply slot_at_released, Lb.
Qed.

(** ** What move assignment leaves behind *)

(** The destructor of a vector whose length is 0, whatever its storage
    holds. *)
Lemma Vector_dtor_no_elements (h : heap) vs ls this v :
  vs !! this = Some v ->
  size_ v = 0 ->
  match buffer_ (data_ v) with
  | Null => True
  | Ptr b o => o = 0 /\ is_Some (block_at h b)
  end ->
  Vector_dtor this (MkState h vs ls)
  = Ok (tt, MkState (released (buffer_ (data_ v)) h) vs ls).
Proof.
  intros Hv Hs Hb. unfold Vector_dtor, RawMemory_dtor.
  step_by (eapply begin_Ok; eauto).
  step_by (eapply get_size_Ok; eauto).
  rewrite Hs.
  step_by (apply in_heap_Ok; reflexivity).
  step_by (eapply get_buffer_member; eauto).
  apply in_heap_Ok. unfold Deallocate, operator_delete.
  destruct (buffer_ (data_ v)) as [|b o]; [reflexivity|].
  destruct Hb as (-> & blk & E). rewrite E. reflexivity.
Qed.

(** X16. [B = std::move(A)] between two distinct vectors destroys nothing: the
    elements that [B] had stay live objects in the storage that [A] takes
    over, while [A.Size()] is 0. The destructor of [A] then gives that
    storage back without having destroyed them. *)
Theorem Vector_move_assign_abandons_elements s A B la lb pb :
  A <> B ->
  holds s A la ->
  holds s B lb ->
  begin_ B s = Ok (pb, s) ->
  exists s1 s2,
    Vector_move_assign B A s = Ok (tt, s1) /\
    mem s1 = mem s /\
    begin_ A s1 = Ok (pb, s1) /\
    Size A s1 = Ok (0, s1) /\
    (forall (i : nat) x,
       lb !! i = Some x ->
       slot_at (mem s1) (ptr_add pb (Z.of_nat i)) = Some (Live x)) /\
    Vector_dtor A s1 = Ok (tt, s2) /\
    mem s2 = released pb (mem s).
Proof.
  intros N (va & Ha & Hoa) (vb & Hb & Hob) Eb.
  destruct s as [h vs ls]. cbn [vectors mem] in *.
  assert (La : (A < length vs)%nat) by (eapply lookup_lt_Some; eauto).
  erewrite begin_Ok in Eb by exact Hb.
  assert (Eb' : buffer_ (data_ vb) = pb) by congruence. clear Eb. subst pb.
  assert (Ha' : <[A := MkVector (data_ vb) 0]> (<[B := va]> vs) !! A
                = Some (MkVector (data_ vb) 0)).
  { apply list_lookup_insert_eq. rewrite length_insert. exact La. }
  eexists _, _. split; [eapply Vector_move_assign_Ok; eauto|].
  cbn [mem]. split; [reflexivity|]. split; [|split; [|split; [|split]]].
  - erewrite begin_Ok by exact Ha'. reflexivity.
  - erewrite Size_Ok by exact Ha'. reflexivity.
  - intros i x Hx. pose proof Hob as (Hn & Hc & Hbuf).
    pose proof (lookup_lt_Some _ _ _ Hx) as Li.
    destruct (buffer_ (data_ vb)) as [|b o] eqn:Ebuf; [lia|].
    destruct Hbuf as (-> & _ & _). cbn [ptr_add]. rewrite Z.add_0_l.
    eapply owns_slot; eauto.
  - eapply Vector_dtor_no_elements; [exact Ha' | reflexivity |].
    cbn [data_]. pose proof Hob as (_ & _ & Hbuf).
    destruct (buffer_ (data_ vb)) as [|b o]; [exact I|].
    destruct Hbuf as (-> & _ & E). split; [reflexivity|]. eauto.
  - reflexivity.
Qed.

(** ** Growth under repeated [PushBack] *)

(** The capacity reached by pushing [n] elements onto a vector without
    storage: the least power of two that is not below [n]. *)
Definition doubled (n : Z) : Z :=
  if n =? 0 then 0 else 2 ^ Z.log2_up n.

Lemma doubled_above n : 0 <= n -> n <= doubled n.
Proof.
  intros Hn. unfold doubled. destruct (Z.eqb_spec n 0) as [->|N]; [lia|].
  apply Z.log2_log2_up_spec. lia.
Qed.

Lemma doubled_mono a b : 0 <= a <= b -> doubled a <= doubled b.
Proof.
  intros L. unfold doubled.
  destruct (Z.eqb_spec a 0) as [->|Na], (Z.eqb_spec b 0) as [->|Nb];
    try lia.
  apply Z.pow_le_mono_r; [lia|]. apply Z.log2_up_le_mono. lia.
Qed.

Lemma doubled_step n :
  0 <= n ->
  doubled (n + 1) = if n <? doubled n then doubled n else Z.max 1 (2 * n).
Proof.
  intros Hn. pose proof (doubled_above n Hn) as Ha. unfold doubled in *.
  destruct (Z.eqb_spec (n + 1) 0) as [|_]; [lia|].
  destruct (Z.eqb_spec n 0) as [->|N]; [reflexivity|].
  change (n + 1) with (Z.succ n).
  destruct (Z.ltb_spec n (2 ^ Z.log2_up n)) as [Hlt|Hge].
  - destruct (Z.log2_up_succ_or n) as [E|E]; [|rewrite E; reflexivity].
    apply Z.log2_up_eq_succ_iff_pow2 in E; [|lia].
    destruct E as (b & E).
    assert (0 <= b).
    { destruct (Z.le_gt_cases 0 b); [assumption|].
      rewrite Z.pow_neg_r in E by assumption. lia. }
    rewrite E, Z.log2_up_pow2 in Hlt by assumption. lia.
  - assert (E : n = 2 ^ Z.log2_up n) by lia.
    rewrite E at 1. rewrite Z.log2_up_succ_pow2 by apply Z.log2_up_nonneg.
    rewrite Z.pow_succ_r by apply Z.log2_up_nonneg. lia.
Qed.

(** [PushBack] of an object of the caller's, in either branch. *)
Lemma PushBack_copy_appends s this l c x :
  holds s this l ->
  Capacity this s = Ok (c, s) ->
  Z.of_nat (length l) < c \/ Z.max 1 (2 * c) <= max_alloc ->
  exists s',
    PushBack_copy this (Outside x) s = Ok (tt, s') /\
    observed s' this
      (if Z.of_nat (length l) <? c then c else Z.max 1 (2 * c)) (l ++ [x]).
Proof.
  pose proof max_alloc_lt as Hmax.
  intros Hh Ec Halloc.
  destruct (holds_inv _ _ _ _ Hh Ec) as (h & vs & ls & v & -> & Hv & Ho & Hc).
  pose proof Ho as (Hn & Hr & _).
  assert (L : (this < length vs)%nat) by (eapply lookup_lt_Some; eauto).
  assert (Hlen : Z.of_nat (length (l ++ [x])) = size_ v + 1)
    by (rewrite length_app; cbn; lia).
  destruct (Z.ltb_spec (Z.of_nat (length l)) c) as [Hroom|Hfull].
  - destruct (PushBack_copy_room h vs ls this v l Hv Ho (Outside x) x eq_refl)
      as (b & Eb & E); [lia|].
    eexists. split; [exact E|].
    eapply observed_intro; [apply list_lookup_insert_eq, L | | exact Hc].
    rewrite <- Hlen. apply owns_updated with (l := l); auto. lia.
  - destruct Halloc as [|Halloc]; [lia|].
    eexists. split.
    + eapply (PushBack_copy_full h vs ls this v l Hv Ho (Outside x) x eq_refl);
        lia.
    + eapply observed_intro; [apply list_lookup_insert_eq, L | | cbn; lia].
      apply owns_reallocated; try lia. apply (owns_buffer_lt _ _ _ Ho).
Qed.

Lemma push_all_grows this xs :
  forall s l,
  holds s this l ->
  Capacity this s = Ok (doubled (Z.of_nat (length l)), s) ->
  doubled (Z.of_nat (length (l ++ xs))) <= max_alloc ->
  exists s',
    push_all this xs s = Ok (tt, s') /\
    observed s' this (doubled (Z.of_nat (length (l ++ xs)))) (l ++ xs).
Proof.
  induction xs as [|x xs IH]; intros s l Hh Ec Hfit.
  - exists s. split; [reflexivity|]. rewrite app_nil_r.
    destruct (holds_inv _ _ _ _ Hh Ec) as (h & vs & ls & v & -> & Hv & Ho & Hc).
    eapply observed_intro; eauto.
  - set (n := Z.of_nat (length l)) in *.
    assert (Hn : 0 <= n) by (unfold n; lia).
    assert (Hstep : doubled (Z.of_nat (length (l ++ [x])))
                    = if n <? doubled n then doubled n
                      else Z.max 1 (2 * doubled n)).
    { rewrite length_app. cbn [length].
      replace (Z.of_nat (length l + 1)) with (n + 1) by (unfold n; lia).
      rewrite doubled_step by exact Hn.
      pose proof (doubled_above n Hn).
      destruct (Z.ltb_spec n (doubled n)); [reflexivity|].
      replace (doubled n) with n by lia. reflexivity. }
    assert (Hle : doubled (Z.of_nat (length (l ++ [x])))
                  <= doubled (Z.of_nat (length (l ++ x :: xs)))).
    { apply doubled_mono. rewrite !length_app. cbn [length]. lia. }
    destruct (PushBack_copy_appends s this l (doubled n) x Hh Ec)
      as (s1 & E1 & Hobs).
    { destruct (Z.ltb_spec n (doubled n)); [left; assumption | right; lia]. }
    fold n in Hobs. rewrite <- Hstep in Hobs.
    destruct Hobs as (Hh1 & Ec1 & _).
    destruct (IH s1 (l ++ [x]) Hh1 Ec1) as (s' & E' & Hobs').
    { rewrite <- app_assoc. exact Hfit. }
    rewrite <- app_assoc in Hobs'. cbn [app] in Hobs'.
    exists s'. split; [|exact Hobs'].
    cbn [push_all]. erewrite bind_Ok by exact E1. exact E'.
Qed.

(** X17. Geometric growth: [n >= 1] calls of [PushBack] on a vector that has no
    storage leave it with the pushed elements in order and with the
    capacity [2 ^ ceil(log2 n)], the least power of two that is not below
    [n], provided the allocator grants that many slots. *)
Theorem push_all_from_empty s this xs :
  holds s this [] ->
  Capacity this s = Ok (0, s) ->
  xs <> [] ->
  2 ^ Z.log2_up (Z.of_nat (length xs)) <= max_alloc ->
  exists s',
    push_all this xs s = Ok (tt, s') /\
    observed s' this (2 ^ Z.log2_up (Z.of_nat (length xs))) xs /\
    Z.of_nat (length xs) <= 2 ^ Z.log2_up (Z.of_nat (length xs))
      < 2 * Z.of_nat (length xs).
Proof.
  intros Hh Ec Hne Hfit.
  assert (Hpos : 0 < Z.of_nat (length xs)).
  { destruct xs; [contradiction | cbn; lia]. }
  assert (Hd : doubled (Z.of_nat (length xs))
               = 2 ^ Z.log2_up (Z.of_nat (length xs))).
  { unfold doubled. destruct (Z.eqb_spec (Z.of_nat (length xs)) 0); [lia|].
    reflexivity. }
  destruct (push_all_grows this xs s [] Hh Ec) as (s' & E & Hobs).
  { cbn [app]. rewrite Hd. exact Hfit. }
  cbn [app] in Hobs. rewrite Hd in Hobs.
  exists s'. split; [exact E|]. split; [exact Hobs|].
  split; [apply Z.log2_log2_up_spec; lia|].
  destruct (Z.eq_dec (Z.of_nat (length xs)) 1) as [E1|N1].
  - rewrite E1. cbn. lia.
  - pose proof (Z.log2_up_spec (Z.of_nat (length xs)) ltac:(lia)) as [Hlo _].
    pose proof (Z.log2_up_pos (Z.of_nat (length xs)) ltac:(lia)).
    replace (Z.log2_up (Z.of_nat (length xs)))
      with (Z.succ (Z.pred (Z.log2_up (Z.of_nat (length xs))))) by lia.
    rewrite Z.pow_succ_r by lia. lia.
Qed.

(** ** Appending within the reserved capacity *)

Lemma PushBack_copy_in_place s this l c b x :
  holds s this l ->
  Capacity this s = Ok (c, s) ->
  begin_ this s = Ok (b, s) ->
  Z.of_nat (length l) < c ->
  exists s',
    PushBack_copy this (Outside x) s = Ok (tt, s') /\
    observed s' this c (l ++ [x]) /\
    begin_ this s' = Ok (b, s') /\
    length (mem s') = length (mem s).
Proof.
  intros Hh Ec Eb Hroom.
  destruct (holds_inv _ _ _ _ Hh Ec) as (h & vs & ls & v & -> & Hv & Ho & Hc).
  pose proof Ho as (Hn & Hr & _).
  assert (L : (this < length vs)%nat) by (eapply lookup_lt_Some; eauto).
  erewrite begin_Ok in Eb by exact Hv.
  assert (Eb' : buffer_ (data_ v) = b) by congruence. clear Eb. subst b.
  destruct (PushBack_copy_room h vs ls this v l Hv Ho (Outside x) x eq_refl)
    as (b0 & Eb0 & E); [lia|].
  set (v' := MkVector (data_ v) (size_ v + 1)) in *.
  assert (Hv' : <[this := v']> vs !! this = Some v')
    by (apply list_lookup_insert_eq, L).
  eexists. split; [exact E|]. split; [|split].
  - eapply observed_intro; [exact Hv' | | exact Hc].
    unfold v'. replace (size_ v + 1) with (Z.of_nat (length (l ++ [x])))
      by (rewrite length_app; cbn; lia).
    apply owns_updated with (l := l); auto.
    rewrite length_app. cbn. lia.
  - erewrite begin_Ok by exact Hv'. reflexivity.
  - apply length_insert.
Qed.

(** X18. As long as the elements fit into the capacity, for instance the one
    that [Reserve] has made, a run of [PushBack]s does not reallocate:
    [begin()] and the capacity stay what they are, no block is allocated,
    and the pushed elements follow the former ones in order. *)
Theorem push_all_within_capacity this xs s l c b :
  holds s this l ->
  Capacity this s = Ok (c, s) ->
  begin_ this s = Ok (b, s) ->
  Z.of_nat (length l + length xs) <= c ->
  exists s',
    push_all this xs s = Ok (tt, s') /\
    observed s' this c (l ++ xs) /\
    begin_ this s' = Ok (b, s') /\
    length (mem s') = length (mem s).
Proof.
  revert s l. induction xs as [|x xs IH]; intros s l Hh Ec Eb Hfit.
  - exists s. split; [reflexivity|]. rewrite app_nil_r.
    split; [|split; [exact Eb | reflexivity]].
    destruct (holds_inv _ _ _ _ Hh Ec) as (h & vs & ls & v & -> & Hv & Ho & Hc).
    eapply observed_intro; eauto.
  - cbn [length] in Hfit.
    destruct (PushBack_copy_in_place s this l c b x Hh Ec Eb)
      as (s1 & E1 & (Hh1 & Ec1 & _) & Eb1 & Hl1); [lia|].
    destruct (IH s1 (l ++ [x]) Hh1 Ec1 Eb1) as (s' & E' & Hobs & Eb' & Hl').
    { rewrite length_app. cbn [length]. lia. }
    rewrite <- app_assoc in Hobs. cbn [app] in Hobs.
    exists s'. split; [|split; [exact Hobs | split; [exact Eb' | congruence]]].
    cbn [push_all]. erewrite bind_Ok by exact E1. exact E'.
Qed.

(** ** Operations that coincide *)

(** X19. [Erase] of the last element is [PopBack]: both end in the same state,
    and the iterator that [Erase] returns is [end()] of the vector as it is
    then. *)
Theorem Erase_last_is_PopBack s this l x b :
  holds s this (l ++ [x]) ->
  begin_ this s = Ok (b, s) ->
  exists s',
    PopBack this s = Ok (tt, s') /\
    Erase this (ptr_add b (Z.of_nat (length l))) s
    = Ok (ptr_add b (Z.of_nat (length l)), s') /\
    end_ this s' = Ok (ptr_add b (Z.of_nat (length l)), s') /\
    elements this s' = Ok (l, s').
Proof.
  intros (v & Hv & Ho) Eb. destruct s as [h vs ls]. cbn [vectors mem] in *.
  pose proof Ho as (Hn & Hc & Hbuf).
  rewrite length_app in Hn. cbn [length] in Hn.
  assert (L : (this < length vs)%nat) by (eapply lookup_lt_Some; eauto).
  erewrite begin_Ok in Eb by exact Hv.
  assert (Eb' : buffer_ (data_ v) = b) by congruence. clear Eb. subst b.
  destruct (buffer_ (data_ v)) as [|b0 o] eqn:Ebuf; [lia|].
  destruct Hbuf as (-> & _ & _). cbn [ptr_add]. rewrite Z.add_0_l.
  set (v' := MkVector (data_ v) (size_ v - 1)).
  assert (Hv' : <[this := v']> vs !! this = Some v')
    by (apply list_lookup_insert_eq, L).
  assert (Ho' : owns (<[b0 := Some (block_of l (capacity_ (data_ v)))]> h) v' l).
  { unfold v'. replace (size_ v - 1) with (Z.of_nat (length l)) by lia.
    apply owns_updated with (l := l ++ [x]); auto. lia. }
  eexists. split; [eapply PopBack_Ok; eauto|]. split; [|split].
  - erewrite Erase_Ok; eauto.
    + rewrite (take_app_length' l) by reflexivity.
      rewrite drop_ge by (rewrite length_app; cbn; lia).
      rewrite app_nil_r. reflexivity.
    + rewrite length_app. cbn. lia.
  - erewrite end_Ok by (try exact Hv'; cbn; lia).
    cbn [v' data_ size_]. rewrite Ebuf. cbn. do 2 f_equal. f_equal. lia.
  - eapply owns_elements; eauto.
Qed.

(** X20. [Emplace] at [end()] is [EmplaceBack], for a value that is not an
    element of the vector: both end in the same state, and the iterator
    that [Emplace] returns is the address of the element that
    [EmplaceBack] returns a reference to. *)
Theorem Emplace_at_end_is_EmplaceBack s this l c e args x :
  (forall h : heap, make_value args h = Ok (x, h)) ->
  holds s this l ->
  Capacity this s = Ok (c, s) ->
  end_ this s = Ok (e, s) ->
  Z.of_nat (length l) < c \/ Z.max 1 (2 * c) <= max_alloc ->
  exists p s',
    Emplace this e args s = Ok (p, s') /\
    EmplaceBack this args s = Ok (p, s') /\
    elements this s' = Ok (l ++ [x], s').
Proof.
  pose proof max_alloc_lt as Hmax.
  intros Hargs Hh Ec Ee Halloc.
  destruct (holds_inv _ _ _ _ Hh Ec) as (h & vs & ls & v & -> & Hv & Ho & Hc).
  pose proof Ho as (Hn & Hr & Hbuf).
  assert (L : (this < length vs)%nat) by (eapply lookup_lt_Some; eauto).
  erewrite end_Ok in Ee by (try exact Hv; lia).
  assert (Ee' : ptr_add (buffer_ (data_ v)) (Z.of_nat (length l)) = e)
    by (rewrite <- Hn; congruence).
  clear Ee. subst e.
  assert (Hlen : Z.of_nat (length (l ++ [x])) = size_ v + 1)
    by (rewrite length_app; cbn; lia).
  destruct (Z.ltb_spec (Z.of_nat (length l)) c) as [Hroom|Hfull].
  - destruct (EmplaceBack_room args x h (fun k => Hargs _) vs ls this v l Hv Ho)
      as (b & Eb & E); [lia|].
    pose proof (Emplace_Ok_in_place args x h vs ls this v l Hv Ho
                  (length l) b (fun _ k => Hargs _) (fun li _ => Hargs _)
                  ltac:(lia) ltac:(lia) Eb) as E'.
    rewrite inserted_at_end in E'. rewrite <- Hn in E' at 2.
    eexists _, _. split; [exact E'|]. split; [exact E|].
    eapply owns_elements; [apply list_lookup_insert_eq, L|].
    rewrite <- Hlen. apply owns_updated with (l := l); auto. lia.
  - destruct Halloc as [|Halloc]; [lia|].
    assert (Hfull' : size_ v = capacity_ (data_ v)) by lia.
    pose proof (EmplaceBack_full args x h (fun k => Hargs _) vs ls this v l
                  Hv Ho Hfull' ltac:(lia)) as E.
    pose proof (Emplace_Ok_growing args x h vs ls this v l Hv Ho
                  (length l) (fun k => Hargs _) ltac:(lia) Hfull' ltac:(lia)) as E'.
    rewrite inserted_at_end in E'. rewrite <- Hn in E' at 2.
    eexists _, _. split; [exact E'|]. split; [exact E|].
    eapply owns_elements; [apply list_lookup_insert_eq, L|].
    apply owns_reallocated; try lia. apply (owns_buffer_lt _ _ _ Ho).
Qed.

(** ** Move construction of a [RawMemory] *)

(** X21. [RawMemory(RawMemory&& other)] takes the buffer and the capacity of
    [other] and leaves [other] with no buffer and capacity 0; the heap is
    not touched. (Move assignment, which swaps, does not empty its
    source.) *)
Theorem RawMemory_move_ctor_spec s this other a r :
  this <> other ->
  get_raw this s = Ok (a, s) ->
  get_raw other s = Ok (r, s) ->
  exists s',
    RawMemory_move_ctor this other s = Ok (tt, s') /\
    get_raw this s' = Ok (r, s') /\
    get_raw other s' = Ok (RawMemory_default, s') /\
    mem s' = mem s.
Proof.
  intros N Et Eo. destruct r as [br cr].
  set (s1 := put_raw other (MkRawMemory Null cr) s).
  assert (E1o : get_raw other s1 = Ok (MkRawMemory Null cr, s1))
    by (eapply get_raw_put_eq; eauto).
  assert (E1t : get_raw this s1 = Ok (a, s1))
    by (eapply get_raw_put_ne; eauto).
  set (s2 := put_raw this (MkRawMemory br (capacity_ a)) s1).
  assert (E2t : get_raw this s2 = Ok (MkRawMemory br (capacity_ a), s2))
    by (eapply get_raw_put_eq; eauto).
  assert (E2o : get_raw other s2 = Ok (MkRawMemory Null cr, s2))
    by (eapply get_raw_put_ne; eauto).
  set (s3 := put_raw this (MkRawMemory br cr) s2).
  assert (E3t : get_raw this s3 = Ok (MkRawMemory br cr, s3))
    by (eapply get_raw_put_eq; eauto).
  assert (E3o : get_raw other s3 = Ok (MkRawMemory Null cr, s3))
    by (eapply get_raw_put_ne; eauto).
  set (s4 := put_raw other (MkRawMemory Null 0) s3).
  exists s4. split; [|split; [|split]].
  - unfold RawMemory_move_ctor, get_buffer, set_buffer, get_capacity,
      set_capacity.
    step_by (exact Eo). step_by reflexivity.
    step_by (exact Eo). step_by (eapply set_raw_put; eauto).
    cbn [buffer_ capacity_]. fold s1.
    step_by (exact E1t). step_by (eapply set_raw_put; eauto).
    fold s2.
    step_by (exact E2o). step_by reflexivity.
    step_by (exact E2t). step_by (eapply set_raw_put; eauto).
    cbn [buffer_ capacity_]. fold s3.
    step_by (exact E3o). eapply set_raw_put; eauto.
  - eapply get_raw_put_ne; eauto.
  - eapply get_raw_put_eq; eauto.
  - unfold s4, s3, s2, s1. rewrite !put_raw_mem. reflexivity.
Qed.

(** ** Operations on one vector and the storage of the others *)

(** A scope with a local [new_data], for a property of the heap and the
    vectors at its end: [body] has to establish it for the heap as it is
    once the destructor of [new_data] has run. *)
Lemma wp_with_new_data_mem {A} capacity (body : place -> V A)
      (P : A -> heap -> list Vector -> Prop) (h : heap) vs ls :
  (forall buf h1,
     Allocate capacity h = Ok (buf, h1) ->
     wp (body (Local (length ls)))
        (fun a s2 =>
           forall r h3,
             locals s2 !! length ls = Some r ->
             operator_delete (buffer_ r) (mem s2) = Ok (tt, h3) ->
             P a h3 (vectors s2))
        (MkState h1 vs (ls ++ [MkRawMemory buf capacity]))) ->
  wp (with_new_data capacity body) (fun a s' => P a (mem s') (vectors s'))
     (MkState h vs ls).
Proof.
  intros W. unfold with_new_data.
  wp_step_by reflexivity. cbn [mem vectors locals].
  unfold RawMemory_ctor. wp_norm.
  apply wp_in_heap. intros buf h1 Ea.
  wp_step_by (apply set_buffer_local).
  wp_step_by (apply set_capacity_local).
  cbn [buffer_ capacity_].
  apply wp_bind. eapply wp_mono; [exact (W buf h1 Ea)|].
  intros a [h2 vs2 ls2] HP. cbn [vectors mem locals] in HP.
  unfold RawMemory_dtor, get_buffer.
  unfold wp, bind, get_raw, in_heap, leave_local, ret, Deallocate. cbn.
  destruct (ls2 !! length ls) as [r|] eqn:Er; [|exact I].
  specialize (HP r).
  match goal with
  | |- context [operator_delete ?p ?hh] =>
      destruct (operator_delete p hh) as [[[] h3]| |] eqn:Ed; cbn; auto
  end.
Qed.

(** The arguments that are only read: an lvalue, or an rvalue that is not
    an element of a vector. *)
Definition from_outside (r : reference) : bool :=
  match r with
  | Outside _ => true
  | Inside _ => false
  end.

Definition reads_only (args : ctor_args) : bool :=
  match args with
  | CopyOf _ => true
  | MoveOf r => from_outside r
  end.

(** The operations of the single vector [this] that do not move from an
    element of a vector. *)
Definition acts_on (this : nat) (o : operation) : bool :=
  match o with
  | OpReserve t _ | OpResize t _ | OpPopBack t | OpErase t _
  | OpPushBackCopy t _ | OpInsertCopy t _ _ => Nat.eqb t this
  | OpPushBackMove t r | OpInsertMove t _ r => Nat.eqb t this && from_outside r
  | OpEmplaceBack t args | OpEmplace t _ args => Nat.eqb t this && reads_only args
  | _ => false
  end.

Section Frame.

(** [prot] are blocks that the vector [this] does not own; they are among
    the first [n0] blocks of the heap. *)
Variables (prot : addr -> Prop) (n0 : nat).
Hypothesis prot_lt : forall b, prot b -> (b < n0)%nat.

Definition outside (p : ptr) : Prop :=
  match p with
  | Null => True
  | Ptr b _ => ~ prot b
  end.

Lemma outside_add p k : outside p -> outside (ptr_add p k).
Proof. destruct p; auto. Qed.

(** A memory operation that, when it returns, has left the blocks of
    [prot] as they were; its result satisfies [Q]. *)
Definition leaves {A} (m : H A) (Q : A -> Prop) : Prop :=
  forall (h : heap) a h',
    (n0 <= length h)%nat ->
    m h = Ok (a, h') ->
    (n0 <= length h')%nat /\ (forall b, prot b -> h' !! b = h !! b) /\ Q a.

Lemma leaves_ret {A} (a : A) (Q : A -> Prop) : Q a -> leaves (ret a) Q.
Proof. intros HQ h a' h' L E. inversion E; subst. auto. Qed.

Lemma leaves_bind {A B} (m : H A) (f : A -> H B) Q R :
  leaves m Q -> (forall a, Q a -> leaves (f a) R) -> leaves (bind m f) R.
Proof.
  intros Lm Lf h b h'' L E.
  apply bind_Ok_inv in E. destruct E as (a & h' & E1 & E2).
  destruct (Lm _ _ _ L E1) as (L1 & F1 & HQ).
  destruct (Lf a HQ _ _ _ L1 E2) as (L2 & F2 & HR).
  split; [exact L2|]. split; [|exact HR].
  intros blk Hp. rewrite F2, F1 by exact Hp. reflexivity.
Qed.

Lemma put_slot_outside p y (h : heap) b :
  outside p -> prot b -> put_slot p y h !! b = h !! b.
Proof.
  intros Ho Hp. unfold put_slot. destruct p as [|b0 o]; [reflexivity|].
  destruct (block_at h b0); [|reflexivity].
  apply list_lookup_insert_ne. intros ->. exact (Ho Hp).
Qed.

Lemma put_slot_length p y (h : heap) : length (put_slot p y h) = length h.
Proof.
  unfold put_slot. destruct p as [|b0 o]; [reflexivity|].
  destruct (block_at h b0); [apply length_insert | reflexivity].
Qed.

Lemma leaves_load p : leaves (load p) (fun _ => True).
Proof.
  intros h a h' L E. unfold load in E.
  destruct (slot_at h p) as [[|x]|]; inversion E; subst. auto.
Qed.

Lemma leaves_construct_at p x :
  outside p -> leaves (construct_at p x) (fun _ => True).
Proof.
  intros Ho h a h' L E. unfold construct_at in E.
  destruct (slot_at h p); inversion E; subst.
  split; [rewrite put_slot_length; exact L|]. split; [|exact I].
  intros b Hb. apply put_slot_outside; assumption.
Qed.

Lemma leaves_assign_at p x :
  outside p -> leaves (assign_at p x) (fun _ => True).
Proof.
  intros Ho h a h' L E. unfold assign_at in E.
  destruct (slot_at h p) as [[|y]|]; inversion E; subst.
  split; [rewrite put_slot_length; exact L|]. split; [|exact I].
  intros b Hb. apply put_slot_outside; assumption.
Qed.

Lemma leaves_destroy_at p :
  outside p -> leaves (destroy_at p) (fun _ => True).
Proof.
  intros Ho h a h' L E. unfold destroy_at in E.
  destruct (slot_at h p) as [[|y]|]; inversion E; subst.
  split; [rewrite put_slot_length; exact L|]. split; [|exact I].
  intros b Hb. apply put_slot_outside; assumption.
Qed.

Lemma leaves_move_out p :
  outside p -> leaves (move_out p) (fun _ => True).
Proof.
  intros Ho h a h' L E. unfold move_out in E.
  destruct (slot_at h p) as [[|y]|]; inversion E; subst.
  split; [rewrite put_slot_length; exact L|]. split; [|exact I].
  intros b Hb. apply put_slot_outside; assumption.
Qed.

Lemma leaves_operator_new n : leaves (operator_new n) outside.
Proof.
  intros h a h' L E. unfold operator_new in E.
  destruct (_ <=? _); inversion E; subst.
  split; [rewrite length_app; lia|]. split.
  - intros b Hb. apply lookup_app_l. specialize (prot_lt _ Hb). lia.
  - cbn. intros Hp. specialize (prot_lt _ Hp). lia.
Qed.

Lemma leaves_Allocate n : leaves (Allocate n) outside.
Proof.
  unfold Allocate. destruct (n =? 0);
    [apply leaves_ret; exact I | apply leaves_operator_new].
Qed.

Lemma leaves_operator_delete p :
  outside p -> leaves (operator_delete p) (fun _ => True).
Proof.
  intros Ho h a h' L E. unfold operator_delete in E.
  destruct p as [|b o]; [inversion E; subst; auto|].
  destruct (block_at h b); [|discriminate].
  destruct (o =? 0); inversion E; subst.
  split; [rewrite length_insert; exact L|]. split; [|exact I].
  intros b' Hb. apply list_lookup_insert_ne. intros ->. exact (Ho Hb).
Qed.

Lemma leaves_uninitialized_copy_n n :
  forall first d,
  outside d -> leaves (uninitialized_copy_n first n d) (fun _ => True).
Proof.
  induction n as [|n IH]; intros first d Hd; cbn [uninitialized_copy_n].
  - apply leaves_ret. exact I.
  - eapply leaves_bind; [apply leaves_load|]. intros x _.
    eapply leaves_bind; [apply leaves_construct_at, Hd|]. intros _ _.
    apply IH, outside_add, Hd.
Qed.

Lemma leaves_uninitialized_move_n n :
  forall first d,
  outside first -> outside d ->
  leaves (uninitialized_move_n first n d) (fun _ => True).
Proof.
  induction n as [|n IH]; intros first d Hf Hd; cbn [uninitialized_move_n].
  - apply leaves_ret. exact I.
  - eapply leaves_bind; [apply leaves_move_out, Hf|]. intros x _.
    eapply leaves_bind; [apply leaves_construct_at, Hd|]. intros _ _.
    apply IH; apply outside_add; assumption.
Qed.

Lemma leaves_uninitialized_value_construct_n n :
  forall first,
  outside first -> leaves (uninitialized_value_construct_n first n) (fun _ => True).
Proof.
  induction n as [|n IH]; intros first Hf;
    cbn [uninitialized_value_construct_n].
  - apply leaves_ret. exact I.
  - eapply leaves_bind; [apply leaves_construct_at, Hf|]. intros _ _.
    apply IH, outside_add, Hf.
Qed.

Lemma leaves_destroy_n n :
  forall first, outside first -> leaves (destroy_n first n) (fun _ => True).
Proof.
  induction n as [|n IH]; intros first Hf; cbn [destroy_n].
  - apply leaves_ret. exact I.
  - eapply leaves_bind; [apply leaves_destroy_at, Hf|]. intros _ _.
    apply IH, outside_add, Hf.
Qed.

Lemma leaves_move_n n :
  forall first d,
  outside first -> outside d -> leaves (move_n first n d) (fun _ => True).
Proof.
  induction n as [|n IH]; intros first d Hf Hd; cbn [move_n].
  - apply leaves_ret. exact I.
  - eapply leaves_bind; [apply leaves_move_out, Hf|]. intros x _.
    eapply leaves_bind; [apply leaves_assign_at, Hd|]. intros _ _.
    apply IH; apply outside_add; assumption.
Qed.

Lemma leaves_move_backward_n n :
  forall last d,
  outside last -> outside d -> leaves (move_backward_n last n d) (fun _ => True).
Proof.
  induction n as [|n IH]; intros last d Hl Hd; cbn [move_backward_n].
  - apply leaves_ret. exact I.
  - eapply leaves_bind; [apply leaves_move_out, outside_add, Hl|]. intros x _.
    eapply leaves_bind; [apply leaves_assign_at, outside_add, Hd|]. intros _ _.
    apply IH; apply outside_add; assumption.
Qed.

Lemma leaves_range_length first last :
  leaves (range_length first last) (fun _ => True).
Proof.
  intros h a h' L E. unfold range_length in E.
  destruct (ptr_diff last first) as [d|]; [|discriminate].
  destruct (d <? 0); inversion E; subst. auto.
Qed.

Lemma leaves_UninitializedMoveOrCopyN first num d :
  outside first -> outside d ->
  leaves (UninitializedMoveOrCopyN first num d) (fun _ => True).
Proof.
  intros Hf Hd. unfold UninitializedMoveOrCopyN.
  destruct nothrow_move_or_no_copy;
    auto using leaves_uninitialized_move_n, leaves_uninitialized_copy_n.
Qed.

Lemma leaves_UninitializedMoveOrCopy first last d :
  outside first -> outside d ->
  leaves (UninitializedMoveOrCopy first last d) (fun _ => True).
Proof.
  intros Hf Hd.
  unfold UninitializedMoveOrCopy, uninitialized_move, uninitialized_copy.
  destruct nothrow_move_or_no_copy;
    (eapply leaves_bind; [apply leaves_range_length|]; intros n _;
     auto using leaves_uninitialized_move_n, leaves_uninitialized_copy_n).
Qed.

Lemma leaves_copy_value r : leaves (copy_value r) (fun _ => True).
Proof.
  destruct r; cbn; [apply leaves_ret; exact I | apply leaves_load].
Qed.

Lemma leaves_make_value args :
  reads_only args = true -> leaves (make_value args) (fun _ => True).
Proof.
  destruct args as [r|[x|p]]; cbn; intros Hr; try discriminate.
  - apply leaves_copy_value.
  - apply leaves_ret. exact I.
Qed.

(** *** The state *)

Variables (h0 : heap) (vs0 : list Vector) (this : nat).

(** The blocks of [prot] and the vectors other than [this] are what they
    were in [h0] and [vs0], and the buffer of [this] is not in [prot]. *)
Definition framed (h : heap) (vs : list Vector) : Prop :=
  (n0 <= length h)%nat /\
  (forall b, prot b -> h !! b = h0 !! b) /\
  (forall u, u <> this -> vs !! u = vs0 !! u) /\
  (forall x, vs !! this = Some x -> outside (buffer_ (data_ x))).

Abbreviation framed_after := (fun (_ : unit) s' => framed (mem s') (vectors s')).

Lemma framed_heap {A} (m : H A) Q (h : heap) vs a h' :
  framed h vs -> leaves m Q -> m h = Ok (a, h') -> framed h' vs /\ Q a.
Proof.
  intros (L & Fh & Fv & Fo) Lm E. destruct (Lm _ _ _ L E) as (L' & F' & HQ).
  split; [|exact HQ]. split; [exact L'|]. split; [|auto].
  intros b Hb. rewrite F' by exact Hb. apply Fh, Hb.
Qed.

Lemma framed_step {A} (m : H A) Q (h : heap) vs a h' :
  framed h vs -> m h = Ok (a, h') -> leaves m Q -> framed h' vs.
Proof. intros F E Lm. exact (proj1 (framed_heap m Q h vs a h' F Lm E)). Qed.

Lemma framed_this (h : heap) vs y :
  framed h vs -> outside (buffer_ (data_ y)) -> framed h (<[this := y]> vs).
Proof.
  intros (L & Fh & Fv & Fo) Oy. split; [exact L|]. split; [exact Fh|]. split.
  - intros u N. rewrite list_lookup_insert_ne by auto. apply Fv, N.
  - intros x Hx. destruct (Nat.lt_ge_cases this (length vs)) as [Lt|Ge].
    + rewrite list_lookup_insert_eq in Hx by exact Lt. inversion Hx; subst.
      exact Oy.
    + rewrite list_insert_ge in Hx by exact Ge. eapply Fo, Hx.
Qed.

Lemma framed_outside (h : heap) vs x :
  framed h vs -> vs !! this = Some x -> outside (buffer_ (data_ x)).
Proof. intros (_ & _ & _ & Fo) Hx. eapply Fo, Hx. Qed.

Lemma set_size_frame (h : heap) vs ls n :
  framed h vs -> wp (set_size this n) framed_after (MkState h vs ls).
Proof.
  intros F. unfold set_size. apply wp_get_vector. intros x Hx.
  eapply wp_Ok; [eapply set_vector_Ok; eauto|]. cbn [mem vectors].
  apply framed_this; [exact F|]. cbn [data_]. eapply framed_outside; eauto.
Qed.

Lemma increment_size_frame (h : heap) vs ls :
  framed h vs -> wp (increment_size this) framed_after (MkState h vs ls).
Proof.
  intros F. unfold increment_size. apply wp_get_size. intros x Hx.
  apply set_size_frame, F.
Qed.

(** The end of a reallocating scope: [data_.Swap(new_data)], then the
    destructor of [new_data]. *)
Lemma swapped_framed (h : heap) vs x r sz h4 :
  framed h vs ->
  vs !! this = Some x ->
  outside (buffer_ r) ->
  operator_delete (buffer_ (data_ x)) h = Ok (tt, h4) ->
  framed h4 (<[this := MkVector r sz]> vs).
Proof.
  intros F Hx Or Ed.
  pose proof (framed_outside _ _ _ F Hx) as Ox.
  destruct (framed_heap _ _ _ _ _ _ F (leaves_operator_delete _ Ox) Ed)
    as [F4 _].
  apply framed_this; [exact F4 | exact Or].
Qed.

Lemma Swap_member_local_frame {A} (a : A) (h : heap) vs ls x r :
  framed h vs ->
  vs !! this = Some x ->
  outside (buffer_ r) ->
  wp (RawMemory_Swap (Member this) (Local (length ls)) ;; ret a)
     (fun _ s2 =>
        forall r' h3,
          locals s2 !! length ls = Some r' ->
          operator_delete (buffer_ r') (mem s2) = Ok (tt, h3) ->
          framed h3 (vectors s2))
     (MkState h vs (ls ++ [r])).
Proof.
  intros F Hx Or.
  wp_step_by (eapply RawMemory_Swap_member_local; eauto).
  apply wp_ret. cbn [mem vectors locals]. intros r' h3 Hr' Ed.
  rewrite lookup_last_local in Hr'. inversion Hr'; subst r'.
  eapply swapped_framed; eauto.
Qed.

Lemma Reserve_frame (h : heap) vs ls n :
  framed h vs -> wp (Reserve this n) framed_after (MkState h vs ls).
Proof.
  intros F. unfold Reserve, Capacity, RawMemory_Capacity.
  apply wp_get_capacity. intros x Hx.
  pose proof (framed_outside _ _ _ F Hx) as Ox.
  destruct (Z.leb_spec n (capacity_ (data_ x))) as [|Hgt].
  - apply wp_ret. exact F.
  - apply (wp_with_new_data_mem n _ (fun _ h' vs' => framed h' vs')).
    intros buf h1 Ea.
    destruct (framed_heap _ _ _ _ _ _ F (leaves_Allocate n) Ea) as [F1 Ob].
    unfold RawMemory_GetAddress.
    wp_step_by (eapply get_buffer_member; eauto).
    wp_step_by (eapply get_size_Ok; eauto).
    wp_step_by (apply get_buffer_local).
    cbn [buffer_].
    wp_norm. apply wp_in_heap. intros [] h2 E2.
    assert (F2 : framed h2 vs).
    { destruct nothrow_move_or_no_copy.
      - eapply framed_step; [exact F1 | exact E2 |].
        apply leaves_uninitialized_move_n; assumption.
      - eapply framed_step; [exact F1 | exact E2 |].
        apply leaves_uninitialized_copy_n; assumption. }
    wp_norm. apply wp_in_heap. intros [] h3 E3.
    destruct (framed_heap _ _ _ _ _ _ F2 (leaves_destroy_n _ _ Ox) E3)
      as [F3 _].
    apply wp_mono with
      (Q := fun (_ : unit) s2 =>
              forall r' h4,
                locals s2 !! length ls = Some r' ->
                operator_delete (buffer_ r') (mem s2) = Ok (tt, h4) ->
                framed h4 (vectors s2)); [|auto].
    eapply wp_Ok; [eapply RawMemory_Swap_member_local; eauto|].
    cbn [mem vectors locals]. intros r' h4 Hr' Ed.
    rewrite lookup_last_local in Hr'. inversion Hr'; subst r'.
    eapply swapped_framed; eauto.
Qed.

Lemma Resize_frame (h : heap) vs ls n :
  framed h vs -> wp (Resize this n) framed_after (MkState h vs ls).
Proof.
  intros F. unfold Resize.
  apply wp_get_size. intros x Hx.
  pose proof (framed_outside _ _ _ F Hx) as Ox.
  destruct (n =? size_ x); [apply wp_ret; exact F|].
  destruct (n <? size_ x).
  - unfold RawMemory_GetAddress.
    wp_step_by (eapply get_buffer_member; eauto).
    wp_norm. apply wp_in_heap. intros [] h1 E1.
    destruct (framed_heap _ _ _ _ _ _ F
                (leaves_destroy_n _ _ (outside_add _ n Ox)) E1) as [F1 _].
    apply set_size_frame, F1.
  - wp_norm. apply wp_bind.
    eapply wp_mono; [apply Reserve_frame, F|].
    intros [] [h1 vs1 ls1] F1. cbn [mem vectors] in F1.
    unfold RawMemory_GetAddress.
    wp_norm. apply wp_get_buffer. intros x1 Hx1.
    pose proof (framed_outside _ _ _ F1 Hx1) as Ox1.
    wp_norm. apply wp_in_heap. intros [] h2 E2.
    destruct (framed_heap _ _ _ _ _ _ F1
                (leaves_uninitialized_value_construct_n _ _
                   (outside_add _ (size_ x) Ox1)) E2) as [F2 _].
    apply set_size_frame, F2.
Qed.

(** The two branches shared by [PushBack(const T&)], [PushBack(T&&)] and
    [EmplaceBack]. *)
Lemma append_frame (mk : H T) (h : heap) vs ls x :
  leaves mk (fun _ => True) ->
  framed h vs ->
  vs !! this = Some x ->
  wp (if size_ x =? capacity_ (data_ x) then
        with_new_data (grown_capacity (size_ x)) (fun new_data =>
          p <- RawMemory_plus new_data (size_ x) ;;
          in_heap (x <- mk ;; construct_at p x) ;;
          b <- begin_ this ;;
          dst <- RawMemory_GetAddress new_data ;;
          in_heap (UninitializedMoveOrCopyN b (size_ x) dst) ;;
          b <- begin_ this ;;
          in_heap (destroy_n b (Z.to_nat (size_ x))) ;;
          RawMemory_Swap (Member this) new_data)
      else
        p <- RawMemory_plus (Member this) (size_ x) ;;
        in_heap (x <- mk ;; construct_at p x))
     framed_after (MkState h vs ls).
Proof.
  intros Lmk F Hx.
  pose proof (framed_outside _ _ _ F Hx) as Ox.
  destruct (Z.eqb_spec (size_ x) (capacity_ (data_ x))) as [Hfull|_].
  - apply (wp_with_new_data_mem _ _ (fun _ h' vs' => framed h' vs')).
    intros buf h1 Ea.
    destruct (framed_heap _ _ _ _ _ _ F (leaves_Allocate _) Ea) as [F1 Ob].
    wp_norm. apply wp_RawMemory_plus_local. cbn [capacity_ buffer_]. intros Hle.
    wp_norm. apply wp_in_heap. intros [] h2 E2.
    assert (F2 : framed h2 vs).
    { eapply framed_step; [exact F1 | exact E2 |].
      eapply leaves_bind; [exact Lmk|]. intros y _.
      apply leaves_construct_at, outside_add, Ob. }
    unfold begin_, RawMemory_GetAddress.
    wp_step_by (eapply get_buffer_member; eauto).
    wp_step_by (apply get_buffer_local).
    cbn [buffer_].
    wp_norm. apply wp_in_heap. intros [] h3 E3.
    destruct (framed_heap _ _ _ _ _ _ F2
                (leaves_UninitializedMoveOrCopyN _ _ _ Ox Ob) E3) as [F3 _].
    wp_step_by (eapply get_buffer_member; eauto).
    wp_norm. apply wp_in_heap. intros [] h4 E4.
    destruct (framed_heap _ _ _ _ _ _ F3 (leaves_destroy_n _ _ Ox) E4)
      as [F4 _].
    eapply wp_Ok; [eapply RawMemory_Swap_member_local; eauto|].
    cbn [mem vectors locals]. intros r' h5 Hr' Ed.
    rewrite lookup_last_local in Hr'. inversion Hr'; subst r'.
    eapply swapped_framed; eauto.
  - eapply wp_RawMemory_plus_member; eauto. intros _.
    apply wp_in_heap_last. intros [] h1 E1. cbn [mem vectors].
    eapply framed_step; [exact F | exact E1 |].
    eapply leaves_bind; [exact Lmk|]. intros y _.
    apply leaves_construct_at, outside_add, Ox.
Qed.

Lemma PushBack_copy_frame (h : heap) vs ls value :
  framed h vs ->
  wp (PushBack_copy this value) framed_after (MkState h vs ls).
Proof.
  intros F. unfold PushBack_copy, Size, Capacity, RawMemory_Capacity.
  apply wp_get_size. intros x Hx.
  wp_step_by (eapply get_capacity_member; eauto).
  wp_norm. apply wp_bind.
  eapply wp_mono;
    [apply (append_frame (copy_value value)); eauto using leaves_copy_value|].
  intros [] [h1 vs1 ls1] F1. apply increment_size_frame, F1.
Qed.

Lemma PushBack_move_frame (h : heap) vs ls y :
  framed h vs ->
  wp (PushBack_move this (Outside y)) framed_after (MkState h vs ls).
Proof.
  intros F. unfold PushBack_move, Size, Capacity, RawMemory_Capacity.
  apply wp_get_size. intros x Hx.
  wp_step_by (eapply get_capacity_member; eauto).
  wp_norm. apply wp_bind.
  eapply wp_mono;
    [apply (append_frame (move_value (Outside y))); eauto|].
  - apply leaves_ret. exact I.
  - intros [] [h1 vs1 ls1] F1. apply increment_size_frame, F1.
Qed.

Lemma EmplaceBack_frame (h : heap) vs ls args :
  reads_only args = true ->
  framed h vs ->
  wp (EmplaceBack this args ;; ret tt) framed_after (MkState h vs ls).
Proof.
  intros Hr F. unfold EmplaceBack, Size, Capacity, RawMemory_Capacity.
  wp_norm. apply wp_get_size. intros x Hx.
  wp_step_by (eapply get_capacity_member; eauto).
  wp_norm. apply wp_bind.
  eapply wp_mono;
    [apply (append_frame (make_value args)); eauto using leaves_make_value|].
  intros [] [h1 vs1 ls1] F1.
  wp_norm. apply wp_bind.
  eapply wp_mono; [apply increment_size_frame, F1|].
  intros [] [h2 vs2 ls2] F2. cbn [mem vectors] in F2.
  unfold Back, end_, RawMemory_plus.
  wp_norm. apply wp_get_size. intros y Hy.
  wp_norm. apply wp_get_capacity. intros y1 Hy1.
  wp_norm. apply wp_require. intros _.
  wp_norm. apply wp_get_buffer. intros y2 Hy2.
  apply wp_ret. exact F2.
Qed.

Lemma PopBack_frame (h : heap) vs ls :
  framed h vs -> wp (PopBack this) framed_after (MkState h vs ls).
Proof.
  intros F. unfold PopBack.
  apply wp_get_size. intros x Hx.
  wp_norm. apply wp_require. intros _.
  wp_norm. apply wp_bind.
  eapply wp_mono; [apply set_size_frame, F|].
  intros [] [h1 vs1 ls1] F1. cbn [mem vectors] in F1.
  apply wp_get_size. intros y Hy.
  unfold RawMemory_GetAddress.
  wp_norm. apply wp_get_buffer. intros y1 Hy1.
  pose proof (framed_outside _ _ _ F1 Hy1) as Oy.
  apply wp_in_heap_last. intros [] h2 E2. cbn [mem vectors].
  eapply framed_step; [exact F1 | exact E2 |].
  apply leaves_destroy_at, outside_add, Oy.
Qed.

Lemma Erase_frame (h : heap) vs ls pos :
  framed h vs ->
  wp (Erase this pos ;; ret tt) framed_after (MkState h vs ls).
Proof.
  intros F. unfold Erase, begin_, RawMemory_GetAddress.
  wp_norm. apply wp_get_buffer. intros x Hx.
  pose proof (framed_outside _ _ _ F Hx) as Ox.
  wp_norm. apply wp_require_cmp. intros _.
  wp_norm. eapply wp_end; eauto. intros _.
  wp_norm. apply wp_require_cmp. intros _.
  wp_norm. apply wp_offset_of. intros d _.
  wp_norm. eapply wp_RawMemory_plus_member; eauto. intros _.
  wp_norm. eapply wp_end; eauto. intros _.
  wp_norm. apply wp_in_heap. intros [] h1 E1.
  assert (F1 : framed h1 vs).
  { eapply framed_step; [exact F | exact E1 |].
    unfold std_move. eapply leaves_bind; [apply leaves_range_length|].
    intros k _. apply leaves_move_n; repeat apply outside_add; exact Ox. }
  wp_norm. apply wp_bind.
  eapply wp_mono; [apply PopBack_frame, F1|].
  intros [] s1 F2. wp_norm. apply wp_ret. apply wp_ret. exact F2.
Qed.

Lemma Emplace_frame (h : heap) vs ls pos args :
  reads_only args = true ->
  framed h vs ->
  wp (Emplace this pos args ;; ret tt) framed_after (MkState h vs ls).
Proof.
  intros Hr F.
  unfold Emplace, begin_, RawMemory_GetAddress, Size, Capacity, RawMemory_Capacity.
  wp_norm. apply wp_get_buffer. intros x Hx.
  pose proof (framed_outside _ _ _ F Hx) as Ox.
  wp_norm. apply wp_require_cmp. intros H1.
  wp_norm. eapply wp_end; eauto. intros Hsz.
  wp_norm. apply wp_require_cmp. intros H2.
  wp_norm. apply wp_offset_of. intros d Hd.
  wp_norm. eapply wp_RawMemory_plus_member; eauto. intros Hd'.
  wp_step_by (eapply get_size_Ok; eauto).
  wp_step_by (eapply get_capacity_member; eauto).
  wp_norm. apply wp_bind.
  apply wp_mono with (Q := fun (_ : ptr) s' => framed (mem s') (vectors s')).
  2: { intros it [h1 vs1 ls1] F1. wp_norm. apply wp_bind.
       eapply wp_mono; [apply increment_size_frame, F1|].
       intros [] s2 F2. wp_norm. apply wp_ret. apply wp_ret. exact F2. }
  destruct (size_ x =? capacity_ (data_ x)).
  - apply (wp_with_new_data_mem _ _ (fun _ h' vs' => framed h' vs')).
    intros buf h1 Ea.
    destruct (framed_heap _ _ _ _ _ _ F (leaves_Allocate _) Ea) as [F1 Ob].
    wp_norm. apply wp_RawMemory_plus_local. cbn [buffer_ capacity_]. intros Hle.
    wp_norm. apply wp_in_heap. intros [] h2 E2.
    assert (F2 : framed h2 vs).
    { eapply framed_step; [exact F1 | exact E2 |].
      eapply leaves_bind; [apply leaves_make_value, Hr|]. intros y _.
      apply leaves_construct_at, outside_add, Ob. }
    wp_step_by (apply get_buffer_local). cbn [buffer_].
    wp_norm. apply wp_in_heap. intros [] h3 E3.
    destruct (framed_heap _ _ _ _ _ _ F2
                (leaves_UninitializedMoveOrCopy _ _ _ Ox Ob) E3) as [F3 _].
    wp_norm. eapply wp_end; eauto. intros _.
    wp_norm. apply wp_in_heap. intros [] h4 E4.
    assert (F4 : framed h4 vs).
    { eapply framed_step; [exact F3 | exact E4 |].
      apply leaves_UninitializedMoveOrCopy; repeat apply outside_add;
        assumption. }
    wp_norm. apply wp_in_heap. intros [] h5 E5.
    destruct (framed_heap _ _ _ _ _ _ F4 (leaves_destroy_n _ _ Ox) E5)
      as [F5 _].
    eapply Swap_member_local_frame; eauto.
  - wp_norm.
    destruct (negb (ptr_eqb pos (ptr_add (buffer_ (data_ x)) (size_ x)))).
    + wp_norm. eapply wp_RawMemory_plus_member; eauto. intros _.
      unfold Back.
      wp_norm. eapply wp_end; eauto. intros _.
      wp_step_by reflexivity.
      wp_norm. apply wp_in_heap. intros [] h1 E1.
      assert (F1 : framed h1 vs).
      { eapply framed_step; [exact F | exact E1 |].
        eapply leaves_bind;
          [apply leaves_move_out; repeat apply outside_add; exact Ox|].
        intros y _. apply leaves_construct_at, outside_add, Ox. }
      wp_norm. eapply wp_end; eauto. intros _.
      wp_norm. apply wp_in_heap. intros [] h2 E2.
      assert (F2 : framed h2 vs).
      { eapply framed_step; [exact F1 | exact E2 |].
        unfold move_backward. eapply leaves_bind; [apply leaves_range_length|].
        intros k _.
        apply leaves_move_backward_n; repeat apply outside_add; exact Ox. }
      wp_norm. apply wp_in_heap. intros [] h3 E3.
      apply wp_ret. cbn [mem vectors].
      eapply framed_step; [exact F2 | exact E3 |].
      eapply leaves_bind; [apply leaves_make_value, Hr|]. intros y _.
      apply leaves_assign_at, outside_add, Ox.
    + wp_norm. eapply wp_RawMemory_plus_member; eauto. intros _.
      wp_norm. apply wp_in_heap. intros [] h1 E1.
      apply wp_ret. cbn [mem vectors].
      eapply framed_step; [exact F | exact E1 |].
      eapply leaves_bind; [apply leaves_make_value, Hr|]. intros y _.
      apply leaves_construct_at, outside_add, Ox.
Qed.

Lemma perform_frame o (h : heap) vs ls :
  acts_on this o = true ->
  framed h vs ->
  wp (perform o) framed_after (MkState h vs ls).
Proof.
  intros Ha F.
  destruct o; cbn [acts_on perform] in *; try discriminate;
    try (apply andb_prop in Ha; destruct Ha as [Ha Hr]);
    apply Nat.eqb_eq in Ha; subst.
  - apply Reserve_frame, F.
  - apply Resize_frame, F.
  - apply PushBack_copy_frame, F.
  - destruct value; [|discriminate]. apply PushBack_move_frame, F.
  - apply EmplaceBack_frame; assumption.
  - apply Emplace_frame; assumption.
  - apply Emplace_frame; [reflexivity | exact F].
  - apply Emplace_frame; assumption.
  - apply PopBack_frame, F.
  - apply Erase_frame, F.
Qed.

Lemma perform_all_frame_wp os :
  forallb (acts_on this) os = true ->
  forall s,
  framed (mem s) (vectors s) ->
  wp (perform_all os) framed_after s.
Proof.
  induction os as [|o os IH]; intros Hos s F; cbn [perform_all].
  - apply wp_ret. exact F.
  - cbn [forallb] in Hos. apply andb_prop in Hos. destruct Hos as [Ho Hos].
    apply wp_bind. destruct s as [h vs ls]. cbn [mem vectors] in F.
    eapply wp_mono; [apply perform_frame; eassumption|].
    intros [] s1 F1. apply (IH Hos s1 F1).
Qed.

End Frame.

Lemma begin_lookup s v p :
  begin_ v s = Ok (p, s) ->
  exists x, vectors s !! v = Some x /\ buffer_ (data_ x) = p.
Proof.
  destruct s as [h vs ls]. cbn [vectors]. intros E.
  destruct (vs !! v) as [x|] eqn:Hx.
  - erewrite begin_Ok in E by eauto. inversion E. eauto.
  - unfold begin_, RawMemory_GetAddress, get_buffer, get_raw, bind,
      get_vector in E. cbn in E. rewrite Hx in E. discriminate.
Qed.

Lemma holds_begin s v l :
  holds s v l -> exists p, begin_ v s = Ok (p, s).
Proof.
  intros (x & Hx & _). destruct s as [h vs ls]. cbn [vectors] in Hx.
  eexists. eapply begin_Ok; eauto.
Qed.

Lemma separate_sym p q : separate p q -> separate q p.
Proof. destruct p, q; cbn; auto. Qed.

Lemma perform_all_frame os this other s s' lo p q :
  this <> other ->
  holds s other lo ->
  begin_ this s = Ok (p, s) ->
  begin_ other s = Ok (q, s) ->
  separate p q ->
  forallb (acts_on this) os = true ->
  perform_all os s = Ok (tt, s') ->
  holds s' other lo /\ vectors s' !! other = vectors s !! other.
Proof.
  intros N (vo & Hvo & Ho) Ep Eq Hsep Hos E.
  apply begin_lookup in Ep. destruct Ep as (vt & Hvt & <-).
  apply begin_lookup in Eq. destruct Eq as (vo' & Hvo' & <-).
  assert (vo' = vo) by congruence. subst vo'. clear Hvo'.
  destruct s as [h vs ls]. cbn [vectors mem] in *.
  set (prot := fun b : addr => exists o, buffer_ (data_ vo) = Ptr b o).
  assert (Hlt : forall b, prot b -> (b < length h)%nat).
  { intros b (o & Eb). pose proof (owns_buffer_lt _ _ _ Ho) as L.
    rewrite Eb in L. exact L. }
  assert (F : framed prot (length h) h vs this h vs).
  { split; [lia|]. split; [auto|]. split; [auto|].
    intros x Hx. rewrite Hvt in Hx. inversion Hx; subst x.
    unfold outside. destruct (buffer_ (data_ vt)) as [|bt ot]; [exact I|].
    intros (o & Eb). rewrite Eb in Hsep. apply Hsep. reflexivity. }
  pose proof (wp_elim _ _ _ _ _
                (perform_all_frame_wp prot (length h) Hlt h vs this os Hos
                   (MkState h vs ls) F) E) as (L' & Fh & Fv & _).
  destruct s' as [h' vs' ls']. cbn [mem vectors] in *.
  assert (Hvo' : vs' !! other = vs !! other) by (apply Fv; auto).
  split; [|exact Hvo'].
  exists vo. split; [cbn [vectors]; rewrite Hvo'; exact Hvo|]. cbn [mem].
  eapply owns_frame; [exact Ho|].
  intros b o Eb. unfold block_at. rewrite Fh by (exists o; exact Eb).
  reflexivity.
Qed.

(** X22. A sequence of operations of one vector ([Reserve], [Resize],
    [PushBack], [EmplaceBack], [Emplace], [Insert], [PopBack], [Erase], none
    of them moving from an element of a vector) never changes another
    vector whose storage is separate: whenever the sequence returns
    normally, the other vector has the elements, the length, the capacity
    and the buffer it had. *)
Theorem operations_keep_other_vectors os this other s s' lo p q :
  this <> other ->
  holds s other lo ->
  begin_ this s = Ok (p, s) ->
  begin_ other s = Ok (q, s) ->
  separate p q ->
  forallb (acts_on this) os = true ->
  perform_all os s = Ok (tt, s') ->
  holds s' other lo /\ vectors s' !! other = vectors s !! other.
Proof. apply perform_all_frame. Qed.

(** X23. A copy shares nothing with the original: after [Vector<T> B(A)],
    whatever is then done to [B] by operations of [B] leaves the elements
    of [A] as they were, and whatever is done to [A] leaves those of
    [B]. *)
Theorem copy_is_independent s A la :
  holds s A la ->
  Z.of_nat (length la) <= max_alloc ->
  exists B s1,
    Vector_copy_ctor A s = Ok (B, s1) /\
    holds s1 A la /\
    holds s1 B la /\
    (forall os s2,
       forallb (acts_on B) os = true ->
       perform_all os s1 = Ok (tt, s2) ->
       holds s2 A la) /\
    (forall os s2,
       forallb (acts_on A) os = true ->
       perform_all os s1 = Ok (tt, s2) ->
       holds s2 B la).
Proof.
  intros Hh Hfit.
  destruct (Vector_copy_ctor_separate s A la Hh Hfit)
    as (s1 & E & (HhB & _) & HhA & Hsep).
  assert (N : A <> length (vectors s)).
  { destruct Hh as (x & Hx & _). apply lookup_lt_Some in Hx. lia. }
  destruct (holds_begin _ _ _ HhA) as (p & Ep).
  destruct (holds_begin _ _ _ HhB) as (q & Eq).
  destruct (Hsep p q Ep Eq) as [Hs _].
  exists (length (vectors s)), s1.
  split; [exact E|]. split; [exact HhA|]. split; [exact HhB|]. split.
  - intros os s2 Hos E2.
    eapply (perform_all_frame os (length (vectors s)) A); eauto.
    apply separate_sym, Hs.
  - intros os s2 Hos E2.
    eapply (perform_all_frame os A (length (vectors s))); eauto.
Qed.

(** ** [Insert] of an element of the vector itself *)

Lemma inserted_lookup (l : list T) (i j : nat) z :
  (i <= length l)%nat ->
  inserted l i z !! j
  = if (j <? i)%nat then l !! j
    else if (j =? i)%nat then Some z
    else l !! (j - 1)%nat.
Proof.
  intros Hi. unfold inserted.
  assert (Hl : length (take i l) = i) by (rewrite length_take; lia).
  destruct (Nat.ltb_spec j i) as [Lt|Ge].
  - rewrite lookup_app_l by lia. apply lookup_take_lt, Lt.
  - rewrite lookup_app_r by lia. rewrite Hl.
    destruct (Nat.eqb_spec j i) as [->|N].
    + rewrite Nat.sub_diag. reflexivity.
    + rewrite lookup_cons_ne_0 by lia.
      rewrite lookup_drop. f_equal. lia.
Qed.

(** The value that [Insert(begin() + i, v[j])] puts at index [i] of a
    vector [v] with elements [l] and capacity [c]. It is the value of
    [v[j]], unless the tail is shifted in place ([Size() < Capacity()],
    [i] not at the end) and [v[j]] lies in that tail: the reference is read
    after the shift, when it refers to the former [v[j - 1]], or, for
    [j == i], to what the move has left of [v[i]]. *)
Definition inserted_value (l : list T) (c : Z) (i j : nat) : option T :=
  if (Z.of_nat (length l) <? c) && (i <? length l)%nat && (i <=? j)%nat
  then (if (j =? i)%nat then moved_from <$> l !! j else l !! (j - 1)%nat)
  else l !! j.

(** X25. [Insert(begin() + i, v[j])]: the argument is an element of the vector
    itself. The call returns normally and yields a vector one element
    longer, with the elements of before around the new one at index [i];
    the new element is [inserted_value l c i j], which is the value of
    [v[j]] when the vector is reallocated, when the insertion is at the
    end, and when [j < i], but not otherwise. *)
Theorem Insert_of_own_element_general s this l c b (i j : nat) y :
  holds s this l ->
  Capacity this s = Ok (c, s) ->
  begin_ this s = Ok (b, s) ->
  (i <= length l)%nat ->
  (j < length l)%nat ->
  Z.of_nat (length l) < c \/ Z.max 1 (2 * c) <= max_alloc ->
  inserted_value l c i j = Some y ->
  exists s' b',
    Insert_copy this (ptr_add b (Z.of_nat i)) (Inside (ptr_add b (Z.of_nat j))) s
    = Ok (ptr_add b' (Z.of_nat i), s') /\
    begin_ this s' = Ok (b', s') /\
    observed s' this
      (if Z.of_nat (length l) <? c then c else Z.max 1 (2 * c))
      (inserted l i y).
Proof.
  pose proof max_alloc_lt as Hmax.
  intros Hh Ec Eb Hi Hj Halloc Hy.
  destruct (holds_inv _ _ _ _ Hh Ec) as (h & vs & ls & v & -> & Hv & Ho & Hc).
  pose proof Ho as (Hn & Hr & Hbuf).
  assert (L : (this < length vs)%nat) by (eapply lookup_lt_Some; eauto).
  erewrite begin_Ok in Eb by exact Hv.
  assert (Eb' : buffer_ (data_ v) = b) by congruence. clear Eb. subst b.
  destruct (buffer_ (data_ v)) as [|b0 o] eqn:Ebuf; [lia|].
  destruct Hbuf as (-> & _ & _).
  destruct (lookup_lt_is_Some_2 l j Hj) as [xj Hxj].
  assert (Hload : forall k,
            load (Ptr b0 (Z.of_nat j)) (h ++ k) = Ok (xj, h ++ k)).
  { apply (copy_value_app h (Inside (Ptr b0 (Z.of_nat j)))). cbn [copy_value].
    unfold load. erewrite owns_slot by eauto. reflexivity. }
  assert (Hlen : forall z, Z.of_nat (length (inserted l i z)) = size_ v + 1).
  { intros z. rewrite inserted_length. lia. }
  unfold Insert_copy, inserted_value in *. cbn [ptr_add]. rewrite !Z.add_0_l.
  destruct (Z.ltb_spec (Z.of_nat (length l)) c) as [Hroom|Hfull].
  - set (v' := MkVector (data_ v) (size_ v + 1)).
    assert (Hv' : <[this := v']> vs !! this = Some v')
      by (apply list_lookup_insert_eq, L).
    assert (Ho' : forall z,
              owns (<[b0 := Some (block_of (inserted l i z)
                                    (capacity_ (data_ v)))]> h)
                v' (inserted l i z)).
    { intros z. unfold v'. rewrite <- (Hlen z).
      apply owns_updated with (l := l); auto. rewrite Hlen. lia. }
    exists (MkState
              (<[b0 := Some (block_of (inserted l i y) (capacity_ (data_ v)))]> h)
              (<[this := v']> vs) ls), (Ptr b0 0).
    split; [|split].
    + pose proof (Emplace_Ok_in_place (CopyOf (Inside (Ptr b0 (Z.of_nat j)))) y
                    h vs ls this v l Hv Ho i b0) as E.
      rewrite Ebuf in E. cbn [ptr_add] in E. rewrite Z.add_0_l in E.
      apply E; [ | | exact Hi | lia | reflexivity].
      * intros -> k. cbn [make_value copy_value].
        rewrite Nat.ltb_irrefl, andb_false_r in Hy. cbn [andb] in Hy.
        assert (y = xj) by congruence. subst y. apply Hload.
      * intros li Hli. cbn [make_value copy_value].
        pose proof (lookup_lt_Some _ _ _ Hli) as Li.
        assert (Hs : inserted l i (moved_from li) !! j = Some y).
        { rewrite inserted_lookup by exact Hi.
          cbn [andb] in Hy.
          destruct (Nat.ltb_spec i (length l)); [|lia]. cbn [andb] in Hy.
          destruct (Nat.ltb_spec j i), (Nat.leb_spec i j); try lia;
            [exact Hy|].
          destruct (Nat.eqb_spec j i) as [->|_]; [|exact Hy].
          rewrite Hli in Hy. exact Hy. }
        unfold load.
        erewrite (owns_slot _ v' _ b0 j y (Ho' _)); [reflexivity | exact Ebuf|].
        exact Hs.
    + erewrite begin_Ok by exact Hv'. cbn. rewrite Ebuf. reflexivity.
    + eapply observed_intro; [exact Hv' | apply Ho' | exact Hc].
  - destruct Halloc as [|Halloc]; [lia|].
    assert (Hfull' : size_ v = capacity_ (data_ v)) by lia.
    destruct (Z.ltb_spec (Z.of_nat (length l)) c) as [|_]; [lia|].
    cbn [andb] in Hy. assert (y = xj) by congruence. subst y.
    set (v' := MkVector (MkRawMemory (Ptr (length h) 0) (Z.max 1 (2 * size_ v)))
                        (size_ v + 1)).
    assert (Hv' : <[this := v']> vs !! this = Some v')
      by (apply list_lookup_insert_eq, L).
    exists (MkState
              (released (buffer_ (data_ v))
                 (h ++ [Some (block_of (inserted l i xj) (Z.max 1 (2 * size_ v)))]))
              (<[this := v']> vs) ls), (Ptr (length h) 0).
    split; [|split].
    + pose proof (Emplace_Ok_growing (CopyOf (Inside (Ptr b0 (Z.of_nat j)))) xj
                    h vs ls this v l Hv Ho i Hload Hi Hfull' ltac:(lia)) as E.
      rewrite Ebuf in E. cbn [ptr_add] in E. rewrite Z.add_0_l in E.
      rewrite Ebuf. exact E.
    + erewrite begin_Ok by exact Hv'. reflexivity.
    + eapply observed_intro; [exact Hv' | | cbn; lia].
      rewrite Ebuf. apply owns_reallocated; try lia.
      * pose proof (owns_buffer_lt _ _ _ Ho) as Lt. rewrite Ebuf in Lt. exact Lt.
      * rewrite Hlen. reflexivity.
Qed.

End Model.

(** * The claims at concrete inputs *)

(** [Vector<int>], four bytes to an [int], on a platform whose allocator
    grants up to 4000 bytes, the room of 1000 elements, per request. *)
Definition int_moved_from (x : Z) : Z := x.

Definition int_sizeof : Z := 4.

Definition int_max_alloc : Z := 1000.

Lemma int_sizeof_pos : 0 < int_sizeof.
Proof. reflexivity. Defined.

Lemma int_max_alloc_fits : int_max_alloc * int_sizeof < size_t_modulus.
Proof. reflexivity. Defined.

(** A state with the single vector [[5, 6]] of capacity 2. *)
Definition state_5_6 : @state Z :=
  MkState [Some [Live 5; Live 6]] [MkVector (MkRawMemory (Ptr 0%nat 0) 2) 2] [].

Lemma holds_5_6 : holds state_5_6 0%nat [5; 6].
Proof.
  exists (MkVector (MkRawMemory (Ptr 0%nat 0) 2) 2). split; [reflexivity|].
  unfold owns, size_t_modulus. cbn. repeat split; lia.
Defined.

(** A state with the single vector [[1, 99, 2, 3]] of capacity 4. *)
Definition state_1_99_2_3 : @state Z :=
  MkState [Some [Live 1; Live 99; Live 2; Live 3]]
          [MkVector (MkRawMemory (Ptr 0%nat 0) 4) 4] [].

Lemma holds_1_99_2_3 : holds state_1_99_2_3 0%nat [1; 99; 2; 3].
Proof.
  exists (MkVector (MkRawMemory (Ptr 0%nat 0) 4) 4). split; [reflexivity|].
  unfold owns, size_t_modulus. cbn. repeat split; lia.
Defined.

(** A state with the vector [[5, 6]] of capacity 2 and the vector
    [[1, 99, 2, 3]] of capacity 4. *)
Definition state_two_vectors : @state Z :=
  MkState [Some [Live 5; Live 6]; Some [Live 1; Live 99; Live 2; Live 3]]
          [MkVector (MkRawMemory (Ptr 0%nat 0) 2) 2;
           MkVector (MkRawMemory (Ptr 1%nat 0) 4) 4] [].

Lemma holds_two_vectors_0 : holds state_two_vectors 0%nat [5; 6].
Proof.
  exists (MkVector (MkRawMemory (Ptr 0%nat 0) 2) 2). split; [reflexivity|].
  unfold owns, size_t_modulus. cbn. repeat split; lia.
Defined.

Lemma holds_two_vectors_1 : holds state_two_vectors 1%nat [1; 99; 2; 3].
Proof.
  exists (MkVector (MkRawMemory (Ptr 1%nat 0) 4) 4). split; [reflexivity|].
  unfold owns, size_t_modulus. cbn. repeat split; lia.
Defined.

(** [a = rhs] with [a == [5, 6]] of capacity 2 and [rhs == [1, 99, 2, 3]]. *)
Lemma Vector_copy_assign_spec_witness :
  0%nat <> 1%nat /\
  holds state_two_vectors 0%nat [5; 6] /\
  holds state_two_vectors 1%nat [1; 99; 2; 3] /\
  Capacity 0%nat state_two_vectors = Ok (2, state_two_vectors) /\
  begin_ 0%nat state_two_vectors = Ok (Ptr 0%nat 0, state_two_vectors) /\
  begin_ 1%nat state_two_vectors = Ok (Ptr 1%nat 0, state_two_vectors) /\
  separate (Ptr 0%nat 0) (Ptr 1%nat 0) /\
  4 <= Z.max 2 int_max_alloc /\
  exists s',
    Vector_copy_assign int_sizeof int_max_alloc 0%nat 1%nat state_two_vectors = Ok (tt, s') /\
    observed s' 0%nat 4 [1; 99; 2; 3] /\
    holds s' 1%nat [1; 99; 2; 3].
Proof.
  split; [lia|]. split; [exact holds_two_vectors_0|].
  split; [exact holds_two_vectors_1|].
  split; [reflexivity|]. split; [reflexivity|]. split; [reflexivity|].
  split; [cbn; lia|]. split; [unfold int_max_alloc; lia|].
  destruct (Vector_copy_assign_spec int_sizeof int_max_alloc int_sizeof_pos int_max_alloc_fits
              state_two_vectors 0%nat 1%nat [5; 6] [1; 99; 2; 3] 2
              (Ptr 0%nat 0) (Ptr 1%nat 0)
              ltac:(lia) holds_two_vectors_0 holds_two_vectors_1
              eq_refl eq_refl eq_refl ltac:(cbn; lia)
              ltac:(vm_compute; discriminate))
    as (s' & E & Hobs & Hrhs & _).
  exists s'. split; [exact E|]. split; [exact Hobs | exact Hrhs].
Defined.

(** [v.PushBack(x)] for a variable [x == 4] on [[5, 6]] with length and
    capacity 2. *)
Lemma PushBack_at_capacity_witness :
  holds state_5_6 0%nat [5; 6] /\
  Capacity 0%nat state_5_6 = Ok (2, state_5_6) /\
  Size 0%nat state_5_6 = Ok (2, state_5_6) /\
  Z.max 1 (2 * 2) <= int_max_alloc /\
  exists s',
    PushBack_copy int_moved_from true int_sizeof int_max_alloc 0%nat (Outside 4) state_5_6
    = Ok (tt, s') /\
    observed s' 0%nat 4 [5; 6; 4] /\
    Size 0%nat s' = Ok (3, s').
Proof.
  split; [exact holds_5_6|]. split; [reflexivity|]. split; [reflexivity|].
  split; [unfold int_max_alloc; lia|].
  destruct (PushBack_at_capacity int_moved_from true int_sizeof int_max_alloc
              int_sizeof_pos int_max_alloc_fits state_5_6 0%nat [5; 6] 2
              holds_5_6 eq_refl eq_refl) as [Hcopy _].
  - unfold int_max_alloc. lia.
  - exact (Hcopy (Outside 4) 4 eq_refl).
Defined.

(** [Reserve] on [[5, 6]] of capacity 2. *)
Lemma Reserve_spec_witness :
  holds state_5_6 0%nat [5; 6] /\
  Capacity 0%nat state_5_6 = Ok (2, state_5_6) /\
  (7 <= 2 ->
   Reserve int_moved_from true int_sizeof int_max_alloc 0%nat 7 state_5_6 = Ok (tt, state_5_6)) /\
  (2 < 7 <= int_max_alloc ->
   exists s',
     Reserve int_moved_from true int_sizeof int_max_alloc 0%nat 7 state_5_6 = Ok (tt, s') /\
     observed s' 0%nat 7 [5; 6]) /\
  (10 <= int_max_alloc ->
   forall s0 x, exists s',
     reserve_then_push int_moved_from true int_sizeof int_max_alloc x s0
     = Ok ((1, 10, true), s')).
Proof.
  split; [exact holds_5_6|]. split; [reflexivity|].
  exact (Reserve_spec int_moved_from true int_sizeof int_max_alloc int_sizeof_pos int_max_alloc_fits
           state_5_6 0%nat [5; 6] 2 7 holds_5_6 eq_refl).
Defined.

(** [Resize(3)] on [[5, 6]] of capacity 2. *)
Lemma Resize_spec_witness :
  holds state_5_6 0%nat [5; 6] /\
  Capacity 0%nat state_5_6 = Ok (2, state_5_6) /\
  0 <= 3 /\
  3 <= Z.max 2 int_max_alloc /\
  exists s',
    Resize 0 int_moved_from true int_sizeof int_max_alloc 0%nat 3 state_5_6 = Ok (tt, s') /\
    observed s' 0%nat 3 [5; 6; 0] /\
    Size 0%nat s' = Ok (3, s').
Proof.
  split; [exact holds_5_6|]. split; [reflexivity|]. split; [lia|].
  split; [unfold int_max_alloc; lia|].
  destruct (Resize_spec 0 int_moved_from true int_sizeof int_max_alloc int_sizeof_pos int_max_alloc_fits
              state_5_6 0%nat [5; 6] 2 3 holds_5_6 eq_refl)
    as (s' & Er & Hobs & Hsize & _).
  - lia.
  - unfold int_max_alloc. lia.
  - exists s'. split; [exact Er|]. split; [exact Hobs | exact Hsize].
Defined.

(** [Erase(begin() + 2)] on [[1, 99, 2, 3]] yields [[1, 99, 3]]. *)
Lemma Erase_spec_witness :
  holds state_1_99_2_3 0%nat [1; 99; 2; 3] /\
  Capacity 0%nat state_1_99_2_3 = Ok (4, state_1_99_2_3) /\
  begin_ 0%nat state_1_99_2_3 = Ok (Ptr 0%nat 0, state_1_99_2_3) /\
  (2 < length [1; 99; 2; 3])%nat /\
  exists s',
    Erase int_moved_from 0%nat (Ptr 0%nat 2) state_1_99_2_3 = Ok (Ptr 0%nat 2, s') /\
    observed s' 0%nat 4 [1; 99; 3] /\
    Size 0%nat s' = Ok (3, s') /\
    begin_ 0%nat s' = Ok (Ptr 0%nat 0, s').
Proof.
  split; [exact holds_1_99_2_3|]. split; [reflexivity|]. split; [reflexivity|].
  split; [cbn; lia|].
  exact (Erase_spec int_moved_from state_1_99_2_3 0%nat [1; 99; 2; 3] 4
           (Ptr 0%nat 0) 2%nat holds_1_99_2_3 eq_refl eq_refl
           ltac:(cbn; lia)).
Defined.

(** [B = std::move(A)] with [B == [5, 6]] of capacity 2 and
    [A == [1, 99, 2, 3]]: [A] is left with the storage of [B], so that
    [A.Capacity()] is 2 and not 0. *)
Lemma move_assign_source_keeps_capacity :
  ~ (forall s',
       Vector_move_assign 0%nat 1%nat state_two_vectors = Ok (tt, s') ->
       Size 1%nat s' = Ok (0, s') /\ Capacity 1%nat s' = Ok (0, s')).
Proof.
  intros Hc.
  destruct (Hc (MkState (mem state_two_vectors)
                  [MkVector (MkRawMemory (Ptr 1%nat 0) 4) 4;
                   MkVector (MkRawMemory (Ptr 0%nat 0) 2) 0] [])
               eq_refl) as [_ Ecap].
  vm_compute in Ecap. discriminate.
Qed.

(** [Vector B(std::move(A))] and [B = std::move(A)] with [A == [1, 99, 2, 3]]
    in the block 1 and [B == [5, 6]] in the block 0. *)
Lemma Vector_move_spec_witness :
  holds state_two_vectors 1%nat [1; 99; 2; 3] /\
  Capacity 1%nat state_two_vectors = Ok (4, state_two_vectors) /\
  begin_ 1%nat state_two_vectors = Ok (Ptr 1%nat 0, state_two_vectors) /\
  (exists s' B,
     Vector_move_ctor 1%nat state_two_vectors = Ok (B, s') /\
     B <> 1%nat /\
     observed s' B 4 [1; 99; 2; 3] /\
     begin_ B s' = Ok (Ptr 1%nat 0, s') /\
     Size 1%nat s' = Ok (0, s') /\
     Capacity 1%nat s' = Ok (0, s') /\
     begin_ 1%nat s' = Ok (Null, s')) /\
  0%nat <> 1%nat /\
  holds state_two_vectors 0%nat [5; 6] /\
  Capacity 0%nat state_two_vectors = Ok (2, state_two_vectors) /\
  begin_ 0%nat state_two_vectors = Ok (Ptr 0%nat 0, state_two_vectors) /\
  (exists s',
     Vector_move_assign 0%nat 1%nat state_two_vectors = Ok (tt, s') /\
     observed s' 0%nat 4 [1; 99; 2; 3] /\
     begin_ 0%nat s' = Ok (Ptr 1%nat 0, s') /\
     Size 1%nat s' = Ok (0, s') /\
     Capacity 1%nat s' = Ok (2, s') /\
     begin_ 1%nat s' = Ok (Ptr 0%nat 0, s')).
Proof.
  split; [exact holds_two_vectors_1|]. split; [reflexivity|].
  split; [reflexivity|].
  destruct (Vector_move_spec state_two_vectors 1%nat [1; 99; 2; 3] 4
              (Ptr 1%nat 0) holds_two_vectors_1 eq_refl eq_refl)
    as [Hctor Hassign].
  split; [|split; [lia|]; split; [exact holds_two_vectors_0|];
           split; [reflexivity|]; split; [reflexivity|]].
  - destruct Hctor as (s' & B & E & N & Hobs & Hb & Hs & Hc & Ha & _).
    exists s', B. auto 10.
  - destruct (Hassign 0%nat [5; 6] 2 (Ptr 0%nat 0)
                ltac:(lia) holds_two_vectors_0 eq_refl eq_refl)
      as (s' & E & Hobs & Hb & Hs & Hc & Ha & _).
    exists s'. auto 10.
Defined.

(** Two local [RawMemory] objects of capacities 2 and 3. *)
Definition state_two_raw : @state Z :=
  MkState [Some [Raw; Raw]; Some [Raw; Raw; Raw]] []
          [MkRawMemory (Ptr 0%nat 0) 2; MkRawMemory (Ptr 1%nat 0) 3].

(** After [a = std::move(b)] the source [b] has the capacity 2 and the
    buffer that [a] had. *)
Lemma RawMemory_move_assign_source_not_empty :
  ~ (forall s',
       RawMemory_move_assign (Local 0) (Local 1) state_two_raw = Ok (tt, s') ->
       RawMemory_Capacity (Local 1) s' = Ok (0, s') /\
       RawMemory_GetAddress (Local 1) s' = Ok (Null, s')).
Proof.
  intros Hc.
  destruct (Hc (MkState (mem state_two_raw) []
                  [MkRawMemory (Ptr 1%nat 0) 3; MkRawMemory (Ptr 0%nat 0) 2])
               eq_refl) as [Ecap _].
  vm_compute in Ecap. discriminate.
Qed.

Lemma RawMemory_move_assign_exchanges_witness :
  get_raw (Local 0) state_two_raw
  = Ok (MkRawMemory (Ptr 0%nat 0) 2, state_two_raw) /\
  get_raw (Local 1) state_two_raw
  = Ok (MkRawMemory (Ptr 1%nat 0) 3, state_two_raw) /\
  exists s',
    RawMemory_move_assign (Local 0) (Local 1) state_two_raw = Ok (tt, s') /\
    get_raw (Local 0) s' = Ok (MkRawMemory (Ptr 1%nat 0) 3, s') /\
    RawMemory_Capacity (Local 1) s' = Ok (2, s') /\
    RawMemory_GetAddress (Local 1) s' = Ok (Ptr 0%nat 0, s') /\
    mem s' = mem state_two_raw.
Proof.
  split; [reflexivity|]. split; [reflexivity|].
  exact (RawMemory_move_assign_exchanges state_two_raw (Local 0) (Local 1)
           (MkRawMemory (Ptr 0%nat 0) 2) (MkRawMemory (Ptr 1%nat 0) 3)
           eq_refl eq_refl).
Defined.

(** [v = std::move(v)] on [[5, 6]]. *)
Lemma Vector_self_move_assign_witness :
  holds state_5_6 0%nat [5; 6] /\
  Capacity 0%nat state_5_6 = Ok (2, state_5_6) /\
  begin_ 0%nat state_5_6 = Ok (Ptr 0%nat 0, state_5_6) /\
  exists s',
    Vector_move_assign 0%nat 0%nat state_5_6 = Ok (tt, s') /\
    Capacity 0%nat s' = Ok (2, s') /\
    begin_ 0%nat s' = Ok (Ptr 0%nat 0, s') /\
    Size 0%nat s' = Ok (0, s') /\
    mem s' = mem state_5_6.
Proof.
  split; [exact holds_5_6|]. split; [reflexivity|]. split; [reflexivity|].
  destruct (Vector_self_move_assign state_5_6 0%nat [5; 6] 2 (Ptr 0%nat 0)
              holds_5_6 eq_refl eq_refl)
    as (s' & E & Hc & Hb & Hs & Hm & _).
  exists s'. auto.
Defined.

(** [a.Swap(b)] with [a == [1, 99, 2, 3]] of capacity 4 and [b == [5, 6]] of
    capacity 2: the capacity of [a], which is not the source of any move,
    goes down from 4 to 2. *)
Lemma Swap_decreases_capacity :
  Capacity 1%nat state_two_vectors = Ok (4, state_two_vectors) /\
  ~ (forall s',
       perform_all 0 int_moved_from true int_sizeof int_max_alloc [OpSwap 1 0]
         state_two_vectors = Ok (tt, s') ->
       exists c', Capacity 1%nat s' = Ok (c', s') /\ 4 <= c').
Proof.
  split; [reflexivity|]. intros Hc.
  destruct (Hc (MkState (mem state_two_vectors)
                  [MkVector (MkRawMemory (Ptr 1%nat 0) 4) 4;
                   MkVector (MkRawMemory (Ptr 0%nat 0) 2) 2] [])
               eq_refl) as (c' & Ecap & Hle).
  vm_compute in Ecap. inversion Ecap; subst c'. lia.
Qed.

(** [a.Reserve(7); a.PushBack(x); Vector c(std::move(b)); b.Swap(c);] with
    [a == [5, 6]] of capacity 2, [x == 4] and [b == [1, 99, 2, 3]]: the
    moves are among the other vectors, and the capacity of [a] goes from 2
    to 7. *)
Definition grow_beside_moves : list (@operation Z) :=
  [OpReserve 0 7; OpPushBackCopy 0 (Outside 4); OpMoveCtor 1; OpSwap 1 2].

Definition state_after_moves : @state Z :=
  MkState [None; Some [Live 1; Live 99; Live 2; Live 3];
           Some [Live 5; Live 6; Live 4; Raw; Raw; Raw; Raw]]
          [MkVector (MkRawMemory (Ptr 2%nat 0) 7) 3;
           MkVector (MkRawMemory (Ptr 1%nat 0) 4) 4;
           MkVector (MkRawMemory Null 0) 0] [].

Lemma capacity_never_decreases_witness :
  forallb (fun o => negb (hands_over 0 o)) grow_beside_moves = true /\
  perform_all 0 int_moved_from true int_sizeof int_max_alloc grow_beside_moves
    state_two_vectors
  = Ok (tt, state_after_moves) /\
  Capacity 0%nat state_two_vectors = Ok (2, state_two_vectors) /\
  exists c',
    Capacity 0%nat state_after_moves = Ok (c', state_after_moves) /\ 2 <= c'.
Proof.
  split; [reflexivity|]. split; [reflexivity|]. split; [reflexivity|].
  exact (proj1 (capacity_never_decreases 0 int_moved_from true int_sizeof
                  int_max_alloc grow_beside_moves
                  state_two_vectors state_after_moves 0%nat 2
                  eq_refl eq_refl eq_refl)).
Defined.

(** A state with the single vector [[1, 2, 3]] of capacity 4, and one with
    the same vector of capacity 3. *)
Definition state_1_2_3_room : @state Z :=
  MkState [Some [Live 1; Live 2; Live 3; Raw]]
          [MkVector (MkRawMemory (Ptr 0%nat 0) 4) 3] [].

Definition state_1_2_3_full : @state Z :=
  MkState [Some [Live 1; Live 2; Live 3]]
          [MkVector (MkRawMemory (Ptr 0%nat 0) 3) 3] [].

Lemma holds_1_2_3_room : holds state_1_2_3_room 0%nat [1; 2; 3].
Proof.
  exists (MkVector (MkRawMemory (Ptr 0%nat 0) 4) 3). split; [reflexivity|].
  unfold owns, size_t_modulus. cbn. repeat split; lia.
Defined.

(** [Insert(begin() + 1, 99)] on [[1, 2, 3]] yields [[1, 99, 2, 3]]; the
    temporary binds to [Insert(const_iterator, T&&)]. *)
Lemma Insert_scenario :
  exists s',
    Insert_move int_moved_from true int_sizeof int_max_alloc 0%nat (Ptr 0%nat 1)
      (Outside 99) state_1_2_3_room = Ok (Ptr 0%nat 1, s') /\
    observed s' 0%nat 4 [1; 99; 2; 3] /\
    Size 0%nat s' = Ok (4, s').
Proof.
  destruct (Emplace_fresh_value int_moved_from true int_sizeof int_max_alloc
              int_sizeof_pos int_max_alloc_fits state_1_2_3_room 0%nat [1; 2; 3] 4
              (Ptr 0%nat 0) 1%nat (MoveOf (Outside 99)) 99
              (fun h => eq_refl) holds_1_2_3_room eq_refl eq_refl
              ltac:(cbn; lia) ltac:(left; cbn; lia))
    as (s' & b' & E & Eb & Hobs & Hs).
  exists s'.
  assert (b' = Ptr 0%nat 0).
  { unfold Insert_move in *. vm_compute in E. inversion E; subst s'.
    vm_compute in Eb. inversion Eb. reflexivity. }
  subst b'. auto.
Defined.

(** C8 fails on the code. [v.Insert(v.begin(), v[2])] on [v == [1, 2, 3]]
    with spare capacity: the argument refers to the element 3 of the vector
    itself; the branch that shifts the tail in place copies from that
    reference only after the shift, when it refers to 2, and the result is
    [[2, 1, 2, 3]] instead of [[3, 1, 2, 3]]. The reallocating branch, taken
    when the capacity is exhausted, copies from the reference first and
    yields [[3, 1, 2, 3]]. *)
Theorem Insert_of_own_element :
  at_ 0%nat 2 state_1_2_3_room = Ok (3, state_1_2_3_room) /\
  (exists s',
     Insert_copy int_moved_from true int_sizeof int_max_alloc 0%nat (Ptr 0%nat 0)
       (Inside (Ptr 0%nat 2)) state_1_2_3_room = Ok (Ptr 0%nat 0, s') /\
     elements 0%nat s' = Ok ([2; 1; 2; 3], s')) /\
  (exists s',
     Insert_copy int_moved_from true int_sizeof int_max_alloc 0%nat (Ptr 0%nat 0)
       (Inside (Ptr 0%nat 2)) state_1_2_3_full = Ok (Ptr 1%nat 0, s') /\
     elements 0%nat s' = Ok ([3; 1; 2; 3], s')).
Proof.
  split; [vm_compute; reflexivity|]. split.
  - exists (MkState [Some [Live 2; Live 1; Live 2; Live 3]]
              [MkVector (MkRawMemory (Ptr 0%nat 0) 4) 4] []).
    split; vm_compute; reflexivity.
  - exists (MkState [None; Some [Live 3; Live 1; Live 2; Live 3; Raw; Raw]]
              [MkVector (MkRawMemory (Ptr 1%nat 0) 6) 4] []).
    split; vm_compute; reflexivity.
Qed.

(** * The further properties at concrete inputs *)

(** [v[1]] on [[5, 6]] is 6, and [v[2]] fails the assertion. *)
Lemma Vector_index_bounds_witness :
  holds state_5_6 0%nat [5; 6] /\
  0 <= 1 /\
  at_ 0%nat 1 state_5_6 = Ok (6, state_5_6) /\
  (Z.of_nat (length [5; 6]) <= 2 -> Vector_index 0%nat 2 state_5_6 = Undefined).
Proof.
  split; [exact holds_5_6|]. split; [lia|]. split.
  - exact (proj1 (Vector_index_bounds state_5_6 0%nat [5; 6] 1 holds_5_6
                    ltac:(lia))).
  - exact (proj2 (Vector_index_bounds state_5_6 0%nat [5; 6] 2 holds_5_6
                    ltac:(lia))).
Defined.

(** [Back()] and [Front()] of [[5, 6]]. *)
Lemma Back_Front_spec_witness :
  holds state_5_6 0%nat [5; 6] /\
  (p <- Back 0%nat ;; in_heap (load p))%monad state_5_6 = Ok (6, state_5_6) /\
  (p <- Front 0%nat ;; in_heap (load p))%monad state_5_6 = Ok (5, state_5_6).
Proof.
  split; [exact holds_5_6|].
  exact (Back_Front_spec state_5_6 0%nat [5; 6] holds_5_6).
Defined.

(** [PopBack()] on [[5, 6]] leaves [[5]] with the capacity 2. *)
Lemma PopBack_spec_witness :
  holds state_5_6 0%nat [5; 6] /\
  Capacity 0%nat state_5_6 = Ok (2, state_5_6) /\
  exists s',
    PopBack 0%nat state_5_6 = Ok (tt, s') /\
    observed s' 0%nat 2 [5].
Proof.
  split; [exact holds_5_6|]. split; [reflexivity|].
  destruct (PopBack_spec state_5_6 0%nat [5; 6] 2 holds_5_6 eq_refl)
    as [_ Hpop].
  destruct (Hpop [5] 6 eq_refl) as (s' & E & Hobs & _).
  exists s'. split; [exact E | exact Hobs].
Defined.

(** [Erase(end())] and [Emplace(end() + 1, x)] for a variable [x == 7] on
    [[5, 6]]. *)
Lemma position_out_of_range_witness :
  holds state_5_6 0%nat [5; 6] /\
  begin_ 0%nat state_5_6 = Ok (Ptr 0%nat 0, state_5_6) /\
  (2 < 0 \/ Z.of_nat (length [5; 6]) <= 2) /\
  Ptr 0%nat 0 <> Null /\
  (3 < 0 \/ Z.of_nat (length [5; 6]) < 3) /\
  Erase int_moved_from 0%nat (Ptr 0%nat 2) state_5_6 = Undefined /\
  Emplace int_moved_from true int_sizeof int_max_alloc 0%nat (Ptr 0%nat 3)
    (CopyOf (Outside 7)) state_5_6 = Undefined.
Proof.
  split; [exact holds_5_6|]. split; [reflexivity|].
  split; [right; cbn; lia|]. split; [discriminate|].
  split; [right; cbn; lia|]. split.
  - exact (proj1 (position_out_of_range int_moved_from true int_sizeof int_max_alloc
                    state_5_6 0%nat [5; 6] (Ptr 0%nat 0) 2 holds_5_6 eq_refl)
             ltac:(right; cbn; lia)).
  - exact (proj2 (position_out_of_range int_moved_from true int_sizeof int_max_alloc
                    state_5_6 0%nat [5; 6] (Ptr 0%nat 0) 3 holds_5_6 eq_refl)
             ltac:(discriminate) ltac:(right; cbn; lia) (CopyOf (Outside 7))).
Defined.

(** [v.PushBack(v[0])] on [[1, 2, 3]] with capacity 4. *)
Lemma PushBack_with_room_witness :
  holds state_1_2_3_room 0%nat [1; 2; 3] /\
  Capacity 0%nat state_1_2_3_room = Ok (4, state_1_2_3_room) /\
  begin_ 0%nat state_1_2_3_room = Ok (Ptr 0%nat 0, state_1_2_3_room) /\
  Z.of_nat (length [1; 2; 3]) < 4 /\
  copy_value (Inside (Ptr 0%nat 0)) (mem state_1_2_3_room)
  = Ok (1, mem state_1_2_3_room) /\
  exists s',
    PushBack_copy int_moved_from true int_sizeof int_max_alloc 0%nat (Inside (Ptr 0%nat 0))
      state_1_2_3_room = Ok (tt, s') /\
    observed s' 0%nat 4 [1; 2; 3; 1] /\
    begin_ 0%nat s' = Ok (Ptr 0%nat 0, s').
Proof.
  split; [exact holds_1_2_3_room|]. split; [reflexivity|].
  split; [reflexivity|]. split; [cbn; lia|]. split; [reflexivity|].
  destruct (PushBack_with_room int_moved_from true int_sizeof int_max_alloc
              state_1_2_3_room 0%nat [1; 2; 3] 4 (Ptr 0%nat 0)
              holds_1_2_3_room eq_refl eq_refl ltac:(cbn; lia)) as [Hcopy _].
  destruct (Hcopy (Inside (Ptr 0%nat 0)) 1 eq_refl) as (s' & E & Hobs & Eb & _).
  exists s'. auto.
Defined.

(** [v.EmplaceBack(9)] on [[1, 2, 3]] with capacity 4. *)
Lemma EmplaceBack_spec_witness :
  holds state_1_2_3_room 0%nat [1; 2; 3] /\
  Capacity 0%nat state_1_2_3_room = Ok (4, state_1_2_3_room) /\
  (Z.of_nat (length [1; 2; 3]) < 4 \/ Z.max 1 (2 * 4) <= int_max_alloc) /\
  exists s' p,
    EmplaceBack int_moved_from true int_sizeof int_max_alloc 0%nat (MoveOf (Outside 9))
      state_1_2_3_room = Ok (p, s') /\
    observed s' 0%nat 4 [1; 2; 3; 9] /\
    load p (mem s') = Ok (9, mem s').
Proof.
  split; [exact holds_1_2_3_room|]. split; [reflexivity|].
  split; [left; cbn; lia|].
  destruct (EmplaceBack_spec int_moved_from true int_sizeof int_max_alloc
              int_sizeof_pos int_max_alloc_fits state_1_2_3_room 0%nat [1; 2; 3] 4
              holds_1_2_3_room eq_refl ltac:(left; cbn; lia)) as [_ Hmove].
  destruct (Hmove 9) as (s' & p & b' & E & Hobs & _ & _ & Hl).
  exists s', p. auto.
Defined.

(** [v.PushBack(x); v.PopBack();] for a variable [x == 9] on [[1, 2, 3]]
    with capacity 4. *)
Lemma PushBack_then_PopBack_witness :
  holds state_1_2_3_room 0%nat [1; 2; 3] /\
  Capacity 0%nat state_1_2_3_room = Ok (4, state_1_2_3_room) /\
  (Z.of_nat (length [1; 2; 3]) < 4 \/ Z.max 1 (2 * 4) <= int_max_alloc) /\
  exists s1,
    PushBack_copy int_moved_from true int_sizeof int_max_alloc 0%nat (Outside 9)
      state_1_2_3_room = Ok (tt, s1) /\
    PopBack 0%nat s1 = Ok (tt, state_1_2_3_room).
Proof.
  split; [exact holds_1_2_3_room|]. split; [reflexivity|].
  split; [left; cbn; lia|].
  destruct (PushBack_then_PopBack int_moved_from true int_sizeof int_max_alloc
              int_sizeof_pos int_max_alloc_fits state_1_2_3_room 0%nat [1; 2; 3] 4 9
              holds_1_2_3_room eq_refl ltac:(left; cbn; lia))
    as (s1 & s2 & E1 & E2 & _ & Hs).
  exists s1. split; [exact E1|].
  rewrite <- (Hs ltac:(cbn; lia)). exact E2.
Defined.

(** [v.Erase(v.Insert(v.begin() + 1, x))] for a variable [x == 99] on
    [[1, 2, 3]]. *)
Lemma Emplace_then_Erase_witness :
  (forall h, make_value int_moved_from (CopyOf (Outside 99)) h = Ok (99, h)) /\
  holds state_1_2_3_room 0%nat [1; 2; 3] /\
  Capacity 0%nat state_1_2_3_room = Ok (4, state_1_2_3_room) /\
  begin_ 0%nat state_1_2_3_room = Ok (Ptr 0%nat 0, state_1_2_3_room) /\
  (1 <= length [1; 2; 3])%nat /\
  (Z.of_nat (length [1; 2; 3]) < 4 \/ Z.max 1 (2 * 4) <= int_max_alloc) /\
  exists it s1,
    Emplace int_moved_from true int_sizeof int_max_alloc 0%nat (Ptr 0%nat 1)
      (CopyOf (Outside 99)) state_1_2_3_room = Ok (it, s1) /\
    Erase int_moved_from 0%nat it s1 = Ok (it, state_1_2_3_room).
Proof.
  split; [intros h; reflexivity|]. split; [exact holds_1_2_3_room|].
  split; [reflexivity|]. split; [reflexivity|]. split; [cbn; lia|].
  split; [left; cbn; lia|].
  destruct (Emplace_then_Erase int_moved_from true int_sizeof int_max_alloc
              int_sizeof_pos int_max_alloc_fits state_1_2_3_room 0%nat [1; 2; 3] 4
              (Ptr 0%nat 0) 1%nat (CopyOf (Outside 99)) 99
              (fun h => eq_refl) holds_1_2_3_room eq_refl eq_refl
              ltac:(cbn; lia) ltac:(left; cbn; lia))
    as (it & s1 & s2 & E1 & E2 & _ & Hs).
  exists it, s1. split; [exact E1|].
  rewrite <- (Hs ltac:(cbn; lia)). exact E2.
Defined.

(** [Vector<int> w(2);] beside the vector [[5, 6]]. *)
Lemma Vector_ctor_size_spec_witness :
  0 <= 2 <= int_max_alloc /\
  exists s',
    Vector_ctor_size 0 int_sizeof int_max_alloc 2 state_5_6 = Ok (1%nat, s') /\
    observed s' 1%nat 2 [0; 0].
Proof.
  split; [unfold int_max_alloc; lia|].
  destruct (Vector_ctor_size_spec 0 int_sizeof int_max_alloc int_sizeof_pos int_max_alloc_fits
              state_5_6 2 ltac:(unfold int_max_alloc; lia))
    as [_ (s' & E & Hobs & _)].
  exists s'. split; [exact E | exact Hobs].
Defined.

(** [Vector<int> w(v);] for [v == [1, 2, 3]] of capacity 4: the copy has
    the capacity 3. *)
Lemma Vector_copy_ctor_spec_witness :
  holds state_1_2_3_room 0%nat [1; 2; 3] /\
  Z.of_nat (length [1; 2; 3]) <= int_max_alloc /\
  exists s',
    Vector_copy_ctor int_sizeof int_max_alloc 0%nat state_1_2_3_room = Ok (1%nat, s') /\
    observed s' 1%nat 3 [1; 2; 3] /\
    holds s' 0%nat [1; 2; 3].
Proof.
  split; [exact holds_1_2_3_room|].
  split; [unfold int_max_alloc; cbn; lia|].
  destruct (Vector_copy_ctor_spec int_sizeof int_max_alloc int_sizeof_pos int_max_alloc_fits
              state_1_2_3_room 0%nat [1; 2; 3] holds_1_2_3_room
              ltac:(unfold int_max_alloc; cbn; lia))
    as (s' & E & Hobs & Hh & _).
  exists s'. auto.
Defined.

(** The destructor of [[5, 6]]. *)
Lemma Vector_dtor_spec_witness :
  holds state_5_6 0%nat [5; 6] /\
  begin_ 0%nat state_5_6 = Ok (Ptr 0%nat 0, state_5_6) /\
  exists s',
    Vector_dtor 0%nat state_5_6 = Ok (tt, s') /\
    mem s' = [None] /\
    slot_at (mem s') (Ptr 0%nat 1) = None.
Proof.
  split; [exact holds_5_6|]. split; [reflexivity|].
  destruct (Vector_dtor_spec state_5_6 0%nat [5; 6] (Ptr 0%nat 0)
              holds_5_6 eq_refl) as (s' & E & _ & Hm & Hs & _).
  exists s'. split; [exact E|]. split; [exact Hm | exact (Hs 1)].
Defined.

(** [{ Vector<int> w(2); }] and [{ Vector<int> w(v); }] beside
    [v == [5, 6]]. *)
Lemma scoped_vector_leaves_no_storage_witness :
  0 <= 2 <= int_max_alloc /\
  holds state_5_6 0%nat [5; 6] /\
  Z.of_nat (length [5; 6]) <= int_max_alloc /\
  (exists s',
     (v <- Vector_ctor_size 0 int_sizeof int_max_alloc 2 ;; Vector_dtor v ;; leave_vector)%monad
       state_5_6 = Ok (tt, s') /\
     vectors s' = vectors state_5_6 /\
     forall b, block_at (mem s') b = block_at (mem state_5_6) b) /\
  (exists s',
     (v <- Vector_copy_ctor int_sizeof int_max_alloc 0%nat ;; Vector_dtor v ;; leave_vector)%monad
       state_5_6 = Ok (tt, s') /\
     vectors s' = vectors state_5_6 /\
     forall b, block_at (mem s') b = block_at (mem state_5_6) b).
Proof.
  split; [unfold int_max_alloc; lia|]. split; [exact holds_5_6|].
  split; [unfold int_max_alloc; cbn; lia|].
  destruct (scoped_vector_leaves_no_storage 0 int_sizeof int_max_alloc int_sizeof_pos int_max_alloc_fits
              state_5_6) as [Hsize Hcopy].
  split.
  - destruct (Hsize 2 ltac:(unfold int_max_alloc; lia))
      as (s' & E & Hv & _ & Hb).
    exists s'. auto.
  - destruct (Hcopy 0%nat [5; 6] holds_5_6
                ltac:(unfold int_max_alloc; cbn; lia))
      as (s' & E & Hv & _ & Hb).
    exists s'. auto.
Defined.

(** [a.Swap(b)] with [a == [5, 6]] and [b == [1, 99, 2, 3]]. *)
Lemma Swap_spec_witness :
  holds state_two_vectors 0%nat [5; 6] /\
  Capacity 0%nat state_two_vectors = Ok (2, state_two_vectors) /\
  0%nat <> 1%nat /\
  holds state_two_vectors 1%nat [1; 99; 2; 3] /\
  Capacity 1%nat state_two_vectors = Ok (4, state_two_vectors) /\
  Swap 0%nat 0%nat state_two_vectors = Ok (tt, state_two_vectors) /\
  exists s',
    Swap 0%nat 1%nat state_two_vectors = Ok (tt, s') /\
    observed s' 0%nat 4 [1; 99; 2; 3] /\
    observed s' 1%nat 2 [5; 6] /\
    Swap 0%nat 1%nat s' = Ok (tt, state_two_vectors).
Proof.
  split; [exact holds_two_vectors_0|]. split; [reflexivity|].
  split; [lia|]. split; [exact holds_two_vectors_1|]. split; [reflexivity|].
  destruct (Swap_spec state_two_vectors 0%nat [5; 6] 2
              holds_two_vectors_0 eq_refl) as [Hself Hswap].
  split; [exact Hself|].
  destruct (Hswap 1%nat [1; 99; 2; 3] 4 ltac:(lia) holds_two_vectors_1 eq_refl)
    as (s' & E & Ha & Hb & _ & Hback).
  exists s'. auto.
Defined.

(** [Reserve(2000)] on a [Vector<int>] whose allocator grants 4000 bytes,
    where 8000 are asked for, and [PushBack(x)] on the full vector [[5, 6]]
    with an allocator that grants 12 bytes, where 16 are asked for. *)
Lemma allocation_failure_witness :
  holds state_5_6 0%nat [5; 6] /\
  Capacity 0%nat state_5_6 = Ok (2, state_5_6) /\
  2 < 2000 /\
  int_max_alloc * int_sizeof < to_size_t (2000 * int_sizeof) /\
  Z.of_nat (length [5; 6]) = 2 /\
  2 * 2 < size_t_modulus /\
  3 * int_sizeof < to_size_t (Z.max 1 (2 * 2) * int_sizeof) /\
  Reserve int_moved_from true int_sizeof int_max_alloc 0%nat 2000 state_5_6
  = BadAlloc /\
  PushBack_copy int_moved_from true int_sizeof 3 0%nat (Outside 4) state_5_6
  = BadAlloc.
Proof.
  split; [exact holds_5_6|]. split; [reflexivity|]. split; [lia|].
  split; [reflexivity|]. split; [reflexivity|].
  split; [reflexivity|]. split; [reflexivity|]. split.
  - exact (proj1 (proj1 (allocation_failure 0 int_moved_from true int_sizeof
                           int_max_alloc state_5_6 0%nat [5; 6] 2
                           holds_5_6 eq_refl)
                    2000 ltac:(lia) eq_refl)).
  - exact (proj1 (proj1 (proj2 (allocation_failure 0 int_moved_from true
                                  int_sizeof 3
                                  state_5_6 0%nat [5; 6] 2 holds_5_6 eq_refl))
                    eq_refl eq_refl eq_refl
                    (Outside 4) (CopyOf (Outside 4)))).
Defined.

(** [Reserve(7)] on [[5, 6]] of capacity 2: the block 0 is gone. *)
Lemma reallocation_invalidates_witness :
  holds state_5_6 0%nat [5; 6] /\
  Capacity 0%nat state_5_6 = Ok (2, state_5_6) /\
  begin_ 0%nat state_5_6 = Ok (Ptr 0%nat 0, state_5_6) /\
  2 < 7 <= int_max_alloc /\
  exists s',
    Reserve int_moved_from true int_sizeof int_max_alloc 0%nat 7 state_5_6 = Ok (tt, s') /\
    begin_ 0%nat s' = Ok (Ptr 1%nat 0, s') /\
    slot_at (mem s') (Ptr 0%nat 0) = None.
Proof.
  split; [exact holds_5_6|]. split; [reflexivity|]. split; [reflexivity|].
  split; [unfold int_max_alloc; lia|].
  destruct (reallocation_invalidates int_moved_from true int_sizeof int_max_alloc
              int_sizeof_pos int_max_alloc_fits state_5_6 0%nat [5; 6] 2 0%nat 0
              holds_5_6 eq_refl eq_refl) as [Hres _].
  destruct (Hres 7 ltac:(unfold int_max_alloc; lia)) as (s' & E & Eb & Hs).
  exists s'. split; [exact E|]. split; [exact Eb | exact (Hs 0)].
Defined.

(** [B = std::move(A)] with [B == [5, 6]] and [A == [1, 99, 2, 3]], then
    the destructor of [A]: 5 and 6 are never destroyed. *)
Lemma Vector_move_assign_abandons_elements_witness :
  1%nat <> 0%nat /\
  holds state_two_vectors 1%nat [1; 99; 2; 3] /\
  holds state_two_vectors 0%nat [5; 6] /\
  begin_ 0%nat state_two_vectors = Ok (Ptr 0%nat 0, state_two_vectors) /\
  exists s1 s2,
    Vector_move_assign 0%nat 1%nat state_two_vectors = Ok (tt, s1) /\
    Size 1%nat s1 = Ok (0, s1) /\
    slot_at (mem s1) (Ptr 0%nat 1) = Some (Live 6) /\
    Vector_dtor 1%nat s1 = Ok (tt, s2) /\
    mem s2 = released (Ptr 0%nat 0) (mem state_two_vectors).
Proof.
  split; [lia|]. split; [exact holds_two_vectors_1|].
  split; [exact holds_two_vectors_0|]. split; [reflexivity|].
  destruct (Vector_move_assign_abandons_elements state_two_vectors 1%nat 0%nat
              [1; 99; 2; 3] [5; 6] (Ptr 0%nat 0) ltac:(lia)
              holds_two_vectors_1 holds_two_vectors_0 eq_refl)
    as (s1 & s2 & E & _ & _ & Hs & Hlive & Ed & Hm).
  exists s1, s2. split; [exact E|]. split; [exact Hs|].
  split; [exact (Hlive 1%nat 6 eq_refl)|]. split; [exact Ed | exact Hm].
Defined.

(** A state with one vector, which has no storage. *)
Definition state_empty : @state Z := MkState [] [Vector_default] [].

Lemma holds_empty : holds state_empty 0%nat [].
Proof.
  exists Vector_default. split; [reflexivity|].
  unfold owns, size_t_modulus. cbn. lia.
Defined.

(** Three [PushBack]s on an empty vector: the capacity is 4. *)
Lemma push_all_from_empty_witness :
  holds state_empty 0%nat [] /\
  Capacity 0%nat state_empty = Ok (0, state_empty) /\
  [1; 2; 3] <> [] /\
  2 ^ Z.log2_up (Z.of_nat (length [1; 2; 3])) <= int_max_alloc /\
  exists s',
    push_all int_moved_from true int_sizeof int_max_alloc 0%nat [1; 2; 3] state_empty
    = Ok (tt, s') /\
    observed s' 0%nat 4 [1; 2; 3].
Proof.
  split; [exact holds_empty|]. split; [reflexivity|]. split; [discriminate|].
  split; [vm_compute; discriminate|].
  destruct (push_all_from_empty int_moved_from true int_sizeof int_max_alloc
              int_sizeof_pos int_max_alloc_fits state_empty 0%nat [1; 2; 3]
              holds_empty eq_refl ltac:(discriminate)
              ltac:(vm_compute; discriminate)) as (s' & E & Hobs & _).
  exists s'. split; [exact E | exact Hobs].
Defined.

(** One [PushBack] on [[1, 2, 3]] with capacity 4. *)
Lemma push_all_within_capacity_witness :
  holds state_1_2_3_room 0%nat [1; 2; 3] /\
  Capacity 0%nat state_1_2_3_room = Ok (4, state_1_2_3_room) /\
  begin_ 0%nat state_1_2_3_room = Ok (Ptr 0%nat 0, state_1_2_3_room) /\
  Z.of_nat (length [1; 2; 3] + length [7]) <= 4 /\
  exists s',
    push_all int_moved_from true int_sizeof int_max_alloc 0%nat [7] state_1_2_3_room
    = Ok (tt, s') /\
    observed s' 0%nat 4 [1; 2; 3; 7] /\
    begin_ 0%nat s' = Ok (Ptr 0%nat 0, s').
Proof.
  split; [exact holds_1_2_3_room|]. split; [reflexivity|].
  split; [reflexivity|]. split; [cbn; lia|].
  destruct (push_all_within_capacity int_moved_from true int_sizeof int_max_alloc
              0%nat [7] state_1_2_3_room [1; 2; 3] 4 (Ptr 0%nat 0)
              holds_1_2_3_room eq_refl eq_refl ltac:(cbn; lia))
    as (s' & E & Hobs & Eb & _).
  exists s'. auto.
Defined.

(** [Erase(end() - 1)] and [PopBack()] on [[5, 6]]. *)
Lemma Erase_last_is_PopBack_witness :
  holds state_5_6 0%nat ([5] ++ [6]) /\
  begin_ 0%nat state_5_6 = Ok (Ptr 0%nat 0, state_5_6) /\
  exists s',
    PopBack 0%nat state_5_6 = Ok (tt, s') /\
    Erase int_moved_from 0%nat (Ptr 0%nat 1) state_5_6 = Ok (Ptr 0%nat 1, s') /\
    elements 0%nat s' = Ok ([5], s').
Proof.
  split; [exact holds_5_6|]. split; [reflexivity|].
  destruct (Erase_last_is_PopBack int_moved_from state_5_6 0%nat [5] 6
              (Ptr 0%nat 0) holds_5_6 eq_refl) as (s' & Ep & Ee & _ & El).
  exists s'. auto.
Defined.

(** [Emplace(end(), x)] and [EmplaceBack(x)] for a variable [x == 4] on the
    full vector [[5, 6]]. *)
Lemma Emplace_at_end_is_EmplaceBack_witness :
  (forall h, make_value int_moved_from (CopyOf (Outside 4)) h = Ok (4, h)) /\
  holds state_5_6 0%nat [5; 6] /\
  Capacity 0%nat state_5_6 = Ok (2, state_5_6) /\
  end_ 0%nat state_5_6 = Ok (Ptr 0%nat 2, state_5_6) /\
  (Z.of_nat (length [5; 6]) < 2 \/ Z.max 1 (2 * 2) <= int_max_alloc) /\
  exists p s',
    Emplace int_moved_from true int_sizeof int_max_alloc 0%nat (Ptr 0%nat 2)
      (CopyOf (Outside 4)) state_5_6 = Ok (p, s') /\
    EmplaceBack int_moved_from true int_sizeof int_max_alloc 0%nat (CopyOf (Outside 4))
      state_5_6 = Ok (p, s') /\
    elements 0%nat s' = Ok ([5; 6; 4], s').
Proof.
  split; [intros h; reflexivity|]. split; [exact holds_5_6|].
  split; [reflexivity|]. split; [reflexivity|].
  split; [right; unfold int_max_alloc; lia|].
  exact (Emplace_at_end_is_EmplaceBack int_moved_from true int_sizeof int_max_alloc
           int_sizeof_pos int_max_alloc_fits state_5_6 0%nat [5; 6] 2 (Ptr 0%nat 2)
           (CopyOf (Outside 4)) 4 (fun h => eq_refl) holds_5_6 eq_refl eq_refl
           ltac:(right; unfold int_max_alloc; lia)).
Defined.

(** [RawMemory<int> a(std::move(b))] for [b] of capacity 3, in the place of
    a local object. *)
Lemma RawMemory_move_ctor_spec_witness :
  Local 0 <> Local 1 /\
  get_raw (Local 0) state_two_raw
  = Ok (MkRawMemory (Ptr 0%nat 0) 2, state_two_raw) /\
  get_raw (Local 1) state_two_raw
  = Ok (MkRawMemory (Ptr 1%nat 0) 3, state_two_raw) /\
  exists s',
    RawMemory_move_ctor (Local 0) (Local 1) state_two_raw = Ok (tt, s') /\
    get_raw (Local 0) s' = Ok (MkRawMemory (Ptr 1%nat 0) 3, s') /\
    get_raw (Local 1) s' = Ok (RawMemory_default, s') /\
    mem s' = mem state_two_raw.
Proof.
  split; [discriminate|]. split; [reflexivity|]. split; [reflexivity|].
  exact (RawMemory_move_ctor_spec state_two_raw (Local 0) (Local 1)
           (MkRawMemory (Ptr 0%nat 0) 2) (MkRawMemory (Ptr 1%nat 0) 3)
           ltac:(discriminate) eq_refl eq_refl).
Defined.

(** [a.PushBack(x); a.PopBack();] for a variable [x == 4] with
    [a == [5, 6]] beside [b == [1, 99, 2, 3]]. *)
Definition push_pop : list (@operation Z) :=
  [OpPushBackCopy 0 (Outside 4); OpPopBack 0].

Definition state_after_push_pop : @state Z :=
  MkState [None; Some [Live 1; Live 99; Live 2; Live 3];
           Some [Live 5; Live 6; Raw; Raw]]
          [MkVector (MkRawMemory (Ptr 2%nat 0) 4) 2;
           MkVector (MkRawMemory (Ptr 1%nat 0) 4) 4] [].

Lemma operations_keep_other_vectors_witness :
  0%nat <> 1%nat /\
  holds state_two_vectors 1%nat [1; 99; 2; 3] /\
  begin_ 0%nat state_two_vectors = Ok (Ptr 0%nat 0, state_two_vectors) /\
  begin_ 1%nat state_two_vectors = Ok (Ptr 1%nat 0, state_two_vectors) /\
  separate (Ptr 0%nat 0) (Ptr 1%nat 0) /\
  forallb (acts_on 0%nat) push_pop = true /\
  perform_all 0 int_moved_from true int_sizeof int_max_alloc push_pop state_two_vectors
  = Ok (tt, state_after_push_pop) /\
  holds state_after_push_pop 1%nat [1; 99; 2; 3].
Proof.
  split; [lia|]. split; [exact holds_two_vectors_1|]. split; [reflexivity|].
  split; [reflexivity|]. split; [cbn; lia|]. split; [reflexivity|].
  split; [vm_compute; reflexivity|].
  exact (proj1 (operations_keep_other_vectors 0 int_moved_from true
                  int_sizeof int_max_alloc push_pop 0%nat 1%nat state_two_vectors
                  state_after_push_pop [1; 99; 2; 3] (Ptr 0%nat 0) (Ptr 1%nat 0)
                  ltac:(lia) holds_two_vectors_1 eq_refl eq_refl
                  ltac:(cbn; lia) eq_refl ltac:(vm_compute; reflexivity))).
Defined.

(** [Vector<int> w(v);] for [v == [5, 6]]. *)
Lemma copy_is_independent_witness :
  holds state_5_6 0%nat [5; 6] /\
  Z.of_nat (length [5; 6]) <= int_max_alloc /\
  exists B s1,
    Vector_copy_ctor int_sizeof int_max_alloc 0%nat state_5_6 = Ok (B, s1) /\
    holds s1 B [5; 6] /\
    forall os s2,
      forallb (acts_on B) os = true ->
      perform_all 0 int_moved_from true int_sizeof int_max_alloc os s1 = Ok (tt, s2) ->
      holds s2 0%nat [5; 6].
Proof.
  split; [exact holds_5_6|]. split; [unfold int_max_alloc; cbn; lia|].
  destruct (copy_is_independent 0 int_moved_from true int_sizeof int_max_alloc
              int_sizeof_pos int_max_alloc_fits state_5_6 0%nat [5; 6] holds_5_6
              ltac:(unfold int_max_alloc; cbn; lia))
    as (B & s1 & E & _ & HB & Hfwd & _).
  exists B, s1. auto.
Defined.

(** [v.Insert(v.begin(), v[2])] on [[1, 2, 3]] with capacity 4 inserts
    2. *)
Lemma Insert_of_own_element_general_witness :
  holds state_1_2_3_room 0%nat [1; 2; 3] /\
  Capacity 0%nat state_1_2_3_room = Ok (4, state_1_2_3_room) /\
  begin_ 0%nat state_1_2_3_room = Ok (Ptr 0%nat 0, state_1_2_3_room) /\
  (0 <= length [1; 2; 3])%nat /\
  (2 < length [1; 2; 3])%nat /\
  (Z.of_nat (length [1; 2; 3]) < 4 \/ Z.max 1 (2 * 4) <= int_max_alloc) /\
  inserted_value int_moved_from [1; 2; 3] 4 0 2 = Some 2 /\
  exists s',
    Insert_copy int_moved_from true int_sizeof int_max_alloc 0%nat (Ptr 0%nat 0)
      (Inside (Ptr 0%nat 2)) state_1_2_3_room = Ok (Ptr 0%nat 0, s') /\
    observed s' 0%nat 4 [2; 1; 2; 3].
Proof.
  split; [exact holds_1_2_3_room|]. split; [reflexivity|].
  split; [reflexivity|]. split; [cbn; lia|]. split; [cbn; lia|].
  split; [left; cbn; lia|]. split; [reflexivity|].
  destruct (Insert_of_own_element_general int_moved_from true int_sizeof int_max_alloc
              int_sizeof_pos int_max_alloc_fits state_1_2_3_room 0%nat [1; 2; 3] 4
              (Ptr 0%nat 0) 0%nat 2%nat 2 holds_1_2_3_room eq_refl eq_refl
              ltac:(cbn; lia) ltac:(cbn; lia) ltac:(left; cbn; lia) eq_refl)
    as (s' & b' & E & Eb & Hobs).
  exists s'. split; [|exact Hobs].
  assert (b' = Ptr 0%nat 0).
  { unfold Insert_copy in E. vm_compute in E. inversion E; subst s'.
    vm_compute in Eb. inversion Eb. reflexivity. }
  subst b'. exact E.
Defined.
